(** * npm-fuzzy: scoring engine and candidate-selection engine

    A shallow embedding of [src/core/*.ts] (edit distance, ratio, the
    composite scorers) and of the two selection engines, [extract]
    (second part of [src/types.ts]) and [extractOne]
    ([src/unnamed/part_003]), with the properties of the specification
    proved (or refuted) against it.

    Conventions of the embedding:
    - a JavaScript string is a [string] (a sequence of code units, here
      [ascii]); [s.length] is [String.length], [s[i]] is [String.get];
    - a JavaScript number that holds a length, an index or an edit
      distance is a [nat] or a [Z]; a score is an exact rational [Q]
      (rounding of binary64 and NaN are not represented in scores); the
      products that decide an index or a threshold of the engines are
      rounded to binary64;
    - a [throw] is the [Throw] outcome of the [result] monad: every
      function that may raise, or that calls a caller-supplied scorer,
      lives in that monad;
    - an array is a [list]; [a[i]] is the list lookup [a !! i], which is
      [None] where JavaScript yields [undefined];
    - what the host supplies to the engines, [Array.prototype.sort],
      [localeCompare] and [Math.random], is a parameter of the functions
      that call it. *)

From Stdlib Require Import ZArith QArith Qround Qminmax Qabs Lia Lqa.
From Stdlib Require Import String Ascii List Permutation Sorted.
From stdpp Require Import base list sorting.

Import ListNotations.

(** ** Outcomes: a value or a raised exception *)

Inductive exn : Type :=
| Error (msg : string).

Inductive result (A : Type) : Type :=
| Ok (a : A)
| Throw (e : exn).

Arguments Ok {A} a.
Arguments Throw {A} e.

#[global] Instance result_ret : MRet result := fun _ a => Ok a.

#[global] Instance result_bind : MBind result := fun _ _ k c =>
  match c with
  | Ok a => k a
  | Throw e => Throw e
  end.

(** [for (x of xs) { s = f(s, x) }] where the body may raise. *)
Fixpoint foldM {S X : Type} (f : S -> X -> result S) (xs : list X) (s : S)
  : result S :=
  match xs with
  | [] => Ok s
  | x :: xs' => s' ← f s x; foldM f xs' s'
  end.

(** A loop whose body may [break] or [return]: the body answers [Next]
    with the new state, or [Done] with what the loop is left with. *)
Inductive ctl (S R : Type) : Type :=
| Next (s : S)
| Done (r : R).

Arguments Next {S R} s.
Arguments Done {S R} r.

Fixpoint for_loop {S R X : Type} (body : S -> X -> result (ctl S R))
    (xs : list X) (s : S) : result (ctl S R) :=
  match xs with
  | [] => Ok (Next s)
  | x :: xs' =>
      c ← body s x;
      match c with
      | Next s' => for_loop body xs' s'
      | Done r => Ok (Done r)
      end
  end.

(** ** Numbers *)

Definition Qnat (n : nat) : Q := inject_Z (Z.of_nat n).

(** [x > y] and [x < y] on numbers; [x === y] is [Qeq_bool]. *)
Definition Qgtb (x y : Q) : bool := negb (Qle_bool x y).
Definition Qltb (x y : Q) : bool := negb (Qle_bool y x).

(** A product of two numbers is rounded to binary64 where it decides an
    index or a threshold.  [binary64 x] is the float nearest to [x], the
    one with the even significand when two are as near; [x] is below
    [2^1024] in size here, so the result is finite.  [Qlog2 x] is the
    exponent [e] with [2^e <= x < 2^(e+1)], for a positive [x]. *)
Definition Qlog2 (x : Q) : Z :=
  let e := (Z.log2 (Qnum x) - Z.log2 (Z.pos (Qden x)))%Z in
  if Qle_bool (Qpower 2 e) x then e else (e - 1)%Z.

Definition round_half_even (x : Q) : Z :=
  let f := Qfloor x in
  match (x - inject_Z f ?= 1 # 2)%Q with
  | Lt => f
  | Gt => (f + 1)%Z
  | Eq => if Z.even f then f else (f + 1)%Z
  end.

Definition binary64 (x : Q) : Q :=
  if Qeq_bool x 0 then 0%Q
  else
    let e := Z.max (Qlog2 (Qabs x)) (-1022) in
    let ulp := Qpower 2 (e - 52) in
    (inject_Z (round_half_even (x / ulp)) * ulp)%Q.

(** [x * y] where [y] is a decimal literal of the source. *)
Definition times (x y : Q) : Q := binary64 (x * binary64 y).

(** [Math.max(a, b, c)]. *)
Definition Math_max3 (a b c : Q) : Q := Qmax (Qmax a b) c.
Definition Math_max4 (a b c d : Q) : Q := Qmax (Qmax (Qmax a b) c) d.

(** The indices [start, start+1, ...] of [count] turns of a counting loop. *)
Definition zrange (start : Z) (count : nat) : list Z :=
  map (fun k => (start + Z.of_nat k)%Z) (seq 0 count).

(** The values taken by [x] in [for (x = start; x < stop; x += step)]. *)
Definition range_step (start stop step : Z) : list Z :=
  map (fun k => (start + Z.of_nat k * step)%Z)
      (seq 0 (Z.to_nat ((stop - start + step - 1) / step))).

(** [a[i]] for a number [i]: [undefined] outside [0 .. a.length - 1]. *)
Definition js_index {A : Type} (a : list A) (i : Z) : option A :=
  if (i <? 0)%Z then None else a !! Z.to_nat i.

(** ** Sorting *)

(** The order a comparator puts an earlier and a later element of a
    sorted array in. *)
Definition in_order {A : Type} (compareFn : A -> A -> Q) (a b : A) : Prop :=
  (compareFn a b <= 0)%Q.

(** [compareFn] is a consistent comparator for the values that satisfy
    [S], as ECMAScript defines it for [Array.prototype.sort]: comparing a
    value with itself gives 0, and "equal", "less" and "greater" are
    transitive, "equal" symmetric. *)
Definition consistent_on {A : Type} (S : A -> Prop)
    (compareFn : A -> A -> Q) : Prop :=
  forall a b c, S a -> S b -> S c ->
    (compareFn a a == 0)%Q /\
    ((compareFn a b == 0)%Q -> (compareFn b a == 0)%Q) /\
    ((compareFn a b == 0)%Q -> (compareFn b c == 0)%Q ->
     (compareFn a c == 0)%Q) /\
    ((compareFn a b < 0)%Q -> (compareFn b c < 0)%Q ->
     (compareFn a c < 0)%Q) /\
    ((0 < compareFn a b)%Q -> (0 < compareFn b c)%Q ->
     (0 < compareFn a c)%Q).

(** A stable insertion sort: [compareFn(x, y) > 0] puts [y] before [x].
    It is the sort of [sort()] without a comparator on strings, whose
    order is the same for every sort, and one of the sorts a host may
    have. *)
Fixpoint sort_insert {A : Type} (compareFn : A -> A -> Q) (x : A)
    (l : list A) : list A :=
  match l with
  | [] => [x]
  | y :: l' =>
      if Qgtb (compareFn x y) 0 then y :: sort_insert compareFn x l'
      else x :: y :: l'
  end.

Definition array_sort {A : Type} (compareFn : A -> A -> Q) (l : list A)
  : list A :=
  fold_right (sort_insert compareFn) [] l.

(** [Array.prototype.sort(compareFn)] belongs to the host.  The sorted
    array holds the elements of the array; ECMAScript fixes their order,
    no later element before an earlier one for [compareFn], where
    [compareFn] is a consistent comparator for them, and leaves it to the
    host where it is not. *)
Record ArraySort : Type := mkArraySort {
  Array_sort : forall A : Type, (A -> A -> Q) -> list A -> list A;
  Array_sort_permutes :
    forall (A : Type) (compareFn : A -> A -> Q) (l : list A),
      Permutation (Array_sort A compareFn l) l;
  Array_sort_sorts :
    forall (A : Type) (compareFn : A -> A -> Q) (l : list A),
      consistent_on (fun x => In x l) compareFn ->
      StronglySorted (in_order compareFn) (Array_sort A compareFn l)
}.

Arguments Array_sort _ {A} compareFn l.

(** The insertion sort is such a sort. *)
Definition insertion_sort : ArraySort.
Proof.
  assert (Hins : forall (A : Type) (compareFn : A -> A -> Q) x l,
            Permutation (sort_insert compareFn x l) (x :: l)).
  { intros A compareFn x l. induction l as [|y l IH]; cbn; [reflexivity|].
    destruct (Qgtb (compareFn x y) 0); [|reflexivity].
    etransitivity; [apply perm_skip, IH|apply perm_swap]. }
  assert (Hperm : forall (A : Type) (compareFn : A -> A -> Q) l,
            Permutation (array_sort compareFn l) l).
  { intros A compareFn l. induction l as [|x l IH]; [constructor|].
    cbn. etransitivity; [apply Hins|apply perm_skip, IH]. }
  refine (mkArraySort (@array_sort) Hperm _).
  intros A compareFn l Hc.
  (* what is after one way is before the other way *)
  assert (Hanti : forall a b, In a l -> In b l ->
            (0 < compareFn a b)%Q -> (compareFn b a < 0)%Q).
  { intros a b Ha Hb Hab.
    destruct (Hc a b a Ha Hb Ha) as (Haa & _ & _ & _ & Hgg).
    destruct (Hc b a b Hb Ha Hb) as (_ & Hs & _ & _ & _).
    destruct (Q_dec (compareFn b a) 0) as [[Hba|Hba]|Hba]; [assumption| |].
    - pose proof (Hgg Hab Hba). lra.
    - pose proof (Hs Hba). lra. }
  assert (Hanti' : forall a b, In a l -> In b l ->
            (compareFn a b < 0)%Q -> (0 < compareFn b a)%Q).
  { intros a b Ha Hb Hab.
    destruct (Hc a b a Ha Hb Ha) as (Haa & _ & _ & Hll & _).
    destruct (Hc b a b Hb Ha Hb) as (_ & Hs & _ & _ & _).
    destruct (Q_dec (compareFn b a) 0) as [[Hba|Hba]|Hba]; [|assumption|].
    - pose proof (Hll Hab Hba). lra.
    - pose proof (Hs Hba). lra. }
  (* "not after" is transitive *)
  assert (Hle : forall a b c, In a l -> In b l -> In c l ->
            in_order compareFn a b -> in_order compareFn b c ->
            in_order compareFn a c).
  { unfold in_order. intros a b c Ha Hb Hc' Hab Hbc.
    destruct (Qlt_le_dec 0 (compareFn a c)) as [Hac|]; [|assumption].
    exfalso. pose proof (Hanti a c Ha Hc' Hac) as Hca.
    destruct (Hc a b c Ha Hb Hc') as (_ & _ & Hee & Hll & _).
    destruct (Hc c a b Hc' Ha Hb) as (_ & _ & _ & Hll1 & _).
    destruct (Hc b c a Hb Hc' Ha) as (_ & _ & _ & Hll2 & _).
    destruct (Hc b c b Hb Hc' Hb) as (_ & Hs1 & _ & _ & _).
    destruct (Hc a b a Ha Hb Ha) as (_ & Hs2 & _ & _ & _).
    destruct (Q_dec (compareFn a b) 0) as [[Hab'|Hab']|Hab']; [|lra|];
      (destruct (Q_dec (compareFn b c) 0) as [[Hbc'|Hbc']|Hbc']; [|lra|]).
    - pose proof (Hll Hab' Hbc'). lra.
    - pose proof (Hll1 Hca Hab'). pose proof (Hs1 Hbc').
      pose proof (Hanti' c b Hc' Hb). lra.
    - pose proof (Hll2 Hbc' Hca). pose proof (Hs2 Hab'). lra.
    - pose proof (Hee Hab' Hbc'). lra. }
  (* inserting keeps a sorted array sorted *)
  assert (Hsorted : forall x s, In x l -> (forall z, In z s -> In z l) ->
            StronglySorted (in_order compareFn) s ->
            StronglySorted (in_order compareFn) (sort_insert compareFn x s)).
  { intros x s Hx. induction s as [|y s IH]; intros Hsub Hs; cbn.
    - repeat constructor.
    - assert (Hy : In y l) by (apply Hsub; now left).
      assert (Hsub' : forall z, In z s -> In z l)
        by (intros z Hz; apply Hsub; now right).
      apply StronglySorted_inv in Hs as [Hs Hys].
      destruct (Qgtb (compareFn x y) 0) eqn:E; unfold Qgtb in E.
      + apply negb_true_iff in E.
        assert (Hxy : (0 < compareFn x y)%Q).
        { apply Qnot_le_lt. intros H. apply Qle_bool_iff in H. congruence. }
        constructor; [now apply IH|].
        apply (Permutation_Forall (Permutation_sym (Hins A compareFn x s))).
        constructor; [|assumption].
        unfold in_order. pose proof (Hanti x y Hx Hy Hxy). lra.
      + apply negb_false_iff, Qle_bool_iff in E.
        constructor; [now constructor|]. constructor; [exact E|].
        apply List.Forall_forall. intros z Hz.
        apply (Hle x y z Hx Hy (Hsub' z Hz) E).
        revert z Hz. now apply List.Forall_forall. }
  assert (G : forall l', (forall z, In z l' -> In z l) ->
            StronglySorted (in_order compareFn) (array_sort compareFn l')).
  { induction l' as [|x l' IH]; intros Hsub; [constructor|]. cbn.
    apply Hsorted; [apply Hsub; now left| |apply IH].
    - intros z Hz. apply Hsub. right.
      exact (Permutation_in z (Hperm A compareFn l') Hz).
    - intros z Hz. apply Hsub. now right. }
  apply G. auto.
Defined.

(** ** Arrays of numbers with holes

    [new Array<number>(n)] has [n] holes; reading a hole, or reading past
    the end, yields [undefined].  Writing past the end extends the array. *)

Definition new_Array (n : nat) : list (option nat) := replicate n None.

Definition array_get (a : list (option nat)) (i : nat) : option nat :=
  match a !! i with
  | Some v => v
  | None => None
  end.

Definition array_set (a : list (option nat)) (i : nat) (v : nat)
  : list (option nat) :=
  if (i <? length a)%nat then <[i := Some v]> a
  else a ++ replicate (i - length a) None ++ [Some v].

(** [s1[i] === s2[j]]: two code units, or [undefined] on either side. *)
Definition char_eqb (c d : option ascii) : bool :=
  match c, d with
  | Some x, Some y => Ascii.eqb x y
  | None, None => true
  | _, _ => false
  end.

(** ** src/core/levenshtein.ts *)

Module Levenshtein.

Definition out_of_bounds : exn := Error "Array index out of bounds".

(** Lines 33-35: [for (let j = 0; j <= len2; j++) row1[j] = j]. *)
Definition init_row (len2 : nat) (row1 : list (option nat))
  : list (option nat) :=
  fold_left (fun r j => array_set r j j) (seq 0 (S len2)) row1.

(** Lines 45-54: the body of the inner loop at column [j] of line [i]. *)
Definition inner_step (s1 s2 : string) (i : nat)
    (prevRow currRow : list (option nat)) (j : nat)
  : result (list (option nat)) :=
  let cost := if char_eqb (String.get (i - 1) s1) (String.get (j - 1) s2)
              then 0 else 1 in
  match array_get currRow (j - 1), array_get prevRow j,
        array_get prevRow (j - 1) with
  | Some currJMinus1, Some prevJ, Some prevJMinus1 =>
      Ok (array_set currRow j
            (Nat.min (currJMinus1 + 1)
                     (Nat.min (prevJ + 1) (prevJMinus1 + cost))))
  | _, _, _ => Throw out_of_bounds
  end.

(** Lines 41-61: one turn of the outer loop; the state is the pair
    [(prevRow, currRow)] of the two distinct arrays, swapped at the end. *)
Definition outer_step (s1 s2 : string) (len2 : nat)
    (st : list (option nat) * list (option nat)) (i : nat)
  : result (list (option nat) * list (option nat)) :=
  let '(prevRow, currRow) := st in
  let currRow := array_set currRow 0 i in
  currRow ← foldM (inner_step s1 s2 i prevRow) (seq 1 len2) currRow;
  Ok (currRow, prevRow).

(** Lines 28-67: the dynamic program proper. *)
Definition levenshteinDP (s1 s2 : string) : result nat :=
  let len1 := String.length s1 in
  let len2 := String.length s2 in
  let row1 := new_Array (len2 + 1) in
  let row2 := new_Array (len2 + 1) in
  let row1 := init_row len2 row1 in
  '(prevRow, _) ← foldM (outer_step s1 s2 len2) (seq 1 len1) (row1, row2);
  match array_get prevRow len2 with
  | Some result => Ok result
  | None => Throw out_of_bounds
  end.

(** Lines 13-68.  The function calls itself once, with the arguments
    swapped, when [s1] is the shorter string; [fuel] bounds the depth of
    that recursion. *)
Fixpoint levenshteinDistance_fuel (fuel : nat) (s1 s2 : string)
  : result nat :=
  match fuel with
  | O => Throw (Error "Maximum call stack size exceeded")
  | S fuel' =>
      let len1 := String.length s1 in
      let len2 := String.length s2 in
      if (len1 =? 0)%nat then Ok len2
      else if (len2 =? 0)%nat then Ok len1
      else if String.eqb s1 s2 then Ok 0%nat
      else if (len1 <? len2)%nat then levenshteinDistance_fuel fuel' s2 s1
      else levenshteinDP s1 s2
  end.

Definition levenshteinDistance (s1 s2 : string) : result nat :=
  levenshteinDistance_fuel 2 s1 s2.

(** Lines 78-92. *)
Definition levenshteinRatio (s1 s2 : string) : result Q :=
  if String.eqb s1 s2 then Ok 100%Q
  else
    distance ← levenshteinDistance s1 s2;
    let maxLen := Nat.max (String.length s1) (String.length s2) in
    if (maxLen =? 0)%nat then Ok 100%Q
    else if (distance =? 0)%nat then Ok 100%Q
    else if (maxLen <=? distance)%nat then Ok 0%Q
    else Ok (((Qnat maxLen - Qnat distance) / Qnat maxLen) * 100)%Q.

End Levenshtein.

(** ** src/core/partialRatio.ts *)

Module PartialRatio.
Import Levenshtein.

(** [longer.includes(shorter)], [startsWith] and [endsWith]. *)
Definition includes (longer shorter : string) : bool :=
  match String.index 0 shorter longer with
  | Some _ => true
  | None => false
  end.

Definition startsWith (longer shorter : string) : bool :=
  String.prefix shorter longer.

Definition endsWith (longer shorter : string) : bool :=
  (String.length shorter <=? String.length longer)%nat &&
  String.eqb
    (String.substring (String.length longer - String.length shorter)
                      (String.length shorter) longer)
    shorter.

(** Lines 22-29: one window; [Done] is the [break] on a perfect match. *)
Definition window_step (shorter longer : string) (windowSize : nat)
    (bestRatio : Q) (i : nat) : result (ctl Q Q) :=
  let substring := String.substring i windowSize longer in
  ratio ← levenshteinRatio shorter substring;
  let bestRatio := Qmax bestRatio ratio in
  if Qeq_bool bestRatio 100 then Ok (Done bestRatio) else Ok (Next bestRatio).

Definition partialRatio (s1 s2 : string) : result Q :=
  let shorter :=
    if (String.length s1 <=? String.length s2)%nat then s1 else s2 in
  let longer :=
    if (String.length s2 <? String.length s1)%nat then s1 else s2 in
  if (String.length shorter =? 0)%nat then Ok 0%Q
  else if (String.length longer =? 0)%nat then Ok 0%Q
  else if includes longer shorter then Ok 100%Q
  else if startsWith longer shorter || endsWith longer shorter then Ok 100%Q
  else
    let bestRatio := 0%Q in
    let windowSize := String.length shorter in
    let maxPos := (String.length longer - windowSize)%nat in
    c ← for_loop (window_step shorter longer windowSize)
                 (seq 0 (S maxPos)) bestRatio;
    match c with
    | Next bestRatio => Ok bestRatio
    | Done bestRatio => Ok bestRatio
    end.

End PartialRatio.

(** ** src/core/tokenizer.ts *)

Module Tokenizer.

(** [toLowerCase] on the code units this embedding has, 0 to 255: the
    upper-case letters are [A-Z] (65-90) and the Latin-1 letters 192-214
    and 216-222, each 32 below its lower-case letter; 215 is the
    multiplication sign. *)
Definition lower_char (c : ascii) : ascii :=
  let code := nat_of_ascii c in
  if (((65 <=? code) && (code <=? 90))
      || ((192 <=? code) && (code <=? 214))
      || ((216 <=? code) && (code <=? 222)))%nat
  then ascii_of_nat (code + 32)
  else c.

Fixpoint toLowerCase (s : string) : string :=
  match s with
  | EmptyString => EmptyString
  | String c s' => String (lower_char c) (toLowerCase s')
  end.

(** [chars.join('')]. *)
Definition join_chars (chars : list ascii) : string :=
  string_of_list_ascii chars.

(** [tokens.join(' ')]. *)
Definition join (tokens : list string) : string := String.concat " " tokens.

(** Lines 19-33: one character; the state is [(tokens, tokenChars)]. *)
Definition tokenize_step (str : string)
    (st : list string * list ascii) (i : nat)
  : result (ctl (list string * list ascii) (list string * list ascii)) :=
  let '(tokens, tokenChars) := st in
  match String.get i str with
  | None => Ok (Done st)
  | Some char =>
      let code := nat_of_ascii char in
      if ((code =? 32) || (code =? 9) || (code =? 10) || (code =? 45)
          || (code =? 95))%nat
      then
        if (0 <? length tokenChars)%nat
        then Ok (Next (tokens ++ [toLowerCase (join_chars tokenChars)], []))
        else Ok (Next (tokens, tokenChars))
      else Ok (Next (tokens, tokenChars ++ [char]))
  end.

Definition tokenize (str : string) : result (list string) :=
  let len := String.length str in
  c ← for_loop (tokenize_step str) (seq 0 len) ([], []);
  let '(tokens, tokenChars) :=
    match c with Next st => st | Done st => st end in
  if (0 <? length tokenChars)%nat
  then Ok (tokens ++ [toLowerCase (join_chars tokenChars)])
  else Ok tokens.

(** The comparator of [sort()] without an argument, on strings. *)
Definition default_compare (x y : string) : Q :=
  if String.ltb x y then (-1)%Q
  else if String.ltb y x then 1%Q
  else 0%Q.

(** Lines 49-61. *)
Definition sortTokens (tokens : list string) : string :=
  if (length tokens <=? 1)%nat then join tokens
  else
    match tokens with
    | [t0; t1] =>
        if String.ltb t0 t1 then join [t0; t1] else join [t1; t0]
    | _ => let sorted := array_sort default_compare tokens in join sorted
    end.

(** A [Set<string>] keeps its elements in insertion order, without
    duplicates: a duplicate-free list. *)
Definition Set_has (s : list string) (x : string) : bool :=
  existsb (String.eqb x) s.

Definition Set_add (s : list string) (x : string) : list string :=
  if Set_has s x then s else s ++ [x].

(** Lines 69-71: [new Set(tokens)]. *)
Definition tokenSet (tokens : list string) : list string :=
  fold_left Set_add tokens [].

End Tokenizer.

(** ** src/core/tokenSortRatio.ts *)

Module TokenSortRatio.
Import Levenshtein Tokenizer.

Definition tokenSortRatio (s1 s2 : string) : result Q :=
  tokens1 ← tokenize s1;
  tokens2 ← tokenize s2;
  if ((length tokens1 =? 0) && (length tokens2 =? 0))%nat then Ok 100%Q
  else if ((length tokens1 =? 0) || (length tokens2 =? 0))%nat then Ok 0%Q
  else
    let sorted1 := sortTokens tokens1 in
    let sorted2 := sortTokens tokens2 in
    if String.eqb sorted1 sorted2 then Ok 100%Q
    else levenshteinRatio sorted1 sorted2.

End TokenSortRatio.

(** ** src/core/tokenSetRatio.ts *)

Module TokenSetRatio.
Import Levenshtein Tokenizer.

Definition tokenSetRatio (s1 s2 : string) : result Q :=
  tokens1 ← tokenize s1;
  tokens2 ← tokenize s2;
  if ((length tokens1 =? 0) && (length tokens2 =? 0))%nat then Ok 100%Q
  else if ((length tokens1 =? 0) || (length tokens2 =? 0))%nat then Ok 0%Q
  else
    let set1 := tokenSet tokens1 in
    let set2 := tokenSet tokens2 in
    (* lines 20-26: one pass over set1 *)
    let '(intersection, only1) :=
      fold_left (fun '(intersection, only1) token =>
                   if Set_has set2 token
                   then (Set_add intersection token, only1)
                   else (intersection, Set_add only1 token))
                set1 ([], []) in
    (* lines 29-33 *)
    let only2 :=
      fold_left (fun only2 token =>
                   if negb (Set_has set1 token) then Set_add only2 token
                   else only2)
                set2 [] in
    let intersectionArr := intersection in
    let only1Arr := only1 in
    let only2Arr := only2 in
    if (length intersectionArr =? 0)%nat then Ok 0%Q
    else
      let intersectionStr := sortTokens intersectionArr in
      (* lines 48-73: the two pre-allocated arrays, filled in order *)
      let combined1Arr := intersectionArr ++ only1Arr in
      let combined2Arr := intersectionArr ++ only2Arr in
      let combined1 := sortTokens combined1Arr in
      let combined2 := sortTokens combined2Arr in
      ratio1 ← (if (0 <? String.length intersectionStr)%nat
                then levenshteinRatio intersectionStr combined1 else Ok 0%Q);
      ratio2 ← (if (0 <? String.length intersectionStr)%nat
                then levenshteinRatio intersectionStr combined2 else Ok 0%Q);
      ratio3 ← levenshteinRatio combined1 combined2;
      Ok (Math_max3 ratio1 ratio2 ratio3).

End TokenSetRatio.

(** ** src/core/weightedRatio.ts *)

Module WeightedRatio.
Import Levenshtein PartialRatio TokenSortRatio TokenSetRatio.

Definition weightedRatio (s1 s2 : string) : result Q :=
  let len1 := String.length s1 in
  let len2 := String.length s2 in
  let lenRatio :=
    if (len2 <? len1)%nat then (Qnat len2 / Qnat len1)%Q
    else (Qnat len1 / Qnat len2)%Q in
  if String.eqb s1 s2 then Ok 100%Q
  else if Qgtb lenRatio 0.8 then
    simpleRatio ← levenshteinRatio s1 s2;
    if Qeq_bool simpleRatio 100 then Ok 100%Q
    else
      tokenSort ← tokenSortRatio s1 s2;
      if Qeq_bool tokenSort 100 then Ok 100%Q
      else
        tokenSet ← tokenSetRatio s1 s2;
        Ok (Math_max3 simpleRatio tokenSort tokenSet)
  else if Qltb lenRatio 0.6 then
    partial ← partialRatio s1 s2;
    if Qeq_bool partial 100 then Ok 100%Q
    else
      tokenSort ← tokenSortRatio s1 s2;
      tokenSet ← tokenSetRatio s1 s2;
      Ok (Math_max3 partial (tokenSort * 0.95) (tokenSet * 0.95))
  else
    simpleRatio ← levenshteinRatio s1 s2;
    if Qeq_bool simpleRatio 100 then Ok 100%Q
    else
      partial ← partialRatio s1 s2;
      if Qeq_bool partial 100 then Ok 100%Q
      else
        tokenSort ← tokenSortRatio s1 s2;
        tokenSet ← tokenSetRatio s1 s2;
        Ok (Math_max4 simpleRatio partial tokenSort tokenSet).

End WeightedRatio.

(** ** src/types.ts and src/process: the selection engines *)

Definition ScorerFunction : Type := string -> string -> result Q.

Record ExtractResult : Type := mkResult {
  choice : string;
  score : Q
}.

Definition ExtractOneResult : Type := ExtractResult.

Section Process.

(** The [sort] of arrays, which belongs to the host. *)
Variable sort : ArraySort.

(** [String.prototype.localeCompare] belongs to the host; its sign is all
    that the engines use. *)
Variable localeCompare : string -> string -> Z.

(** The comparator of both [sort] calls of [extract] (lines 41-47 and
    129-135). *)
Definition compareResults (a b : ExtractResult) : Q :=
  let diff := (score b - score a)%Q in
  if Qltb (Qabs diff) 0.001 then inject_Z (localeCompare (choice a) (choice b))
  else diff.

(** *** class MinHeap (lines 25-93) *)

Record MinHeap : Type := mkHeap {
  heap : list ExtractResult;
  size : Z
}.

(** Lines 50-60.  [index] strictly decreases, so [index + 1] turns are
    enough. *)
Fixpoint bubbleUp_loop (fuel : nat) (heap : list ExtractResult)
    (index : nat) : list ExtractResult :=
  match fuel with
  | O => heap
  | S fuel' =>
      if (0 <? index)%nat then
        let parent := ((index - 1) / 2)%nat in
        match heap !! parent, heap !! index with
        | Some parentItem, Some currentItem =>
            if Qle_bool (score parentItem) (score currentItem) then heap
            else
              bubbleUp_loop fuel'
                (<[parent := currentItem]> (<[index := parentItem]> heap))
                parent
        | _, _ => heap
        end
      else heap
  end.

Definition bubbleUp (heap : list ExtractResult) (index : nat)
  : list ExtractResult :=
  bubbleUp_loop (S index) heap index.

(** Lines 62-92.  [index] strictly increases and the loop stops when it has
    no child below [heap.length]. *)
Fixpoint bubbleDown_loop (fuel : nat) (heap : list ExtractResult)
    (index : nat) : list ExtractResult :=
  match fuel with
  | O => heap
  | S fuel' =>
      let left := (2 * index + 1)%nat in
      let right := (2 * index + 2)%nat in
      match heap !! index with
      | None => heap
      | Some currentItem =>
          let currentScore := score currentItem in
          let leftItem :=
            if (left <? length heap)%nat then heap !! left else None in
          let smallest :=
            match leftItem with
            | Some leftItem =>
                if Qltb (score leftItem) currentScore then left else index
            | None => index
            end in
          let rightItem :=
            if (right <? length heap)%nat then heap !! right else None in
          let smallest :=
            match rightItem, heap !! smallest with
            | Some rightItem, Some smallestItem =>
                if Qltb (score rightItem) (score smallestItem) then right
                else smallest
            | _, _ => smallest
            end in
          if (smallest =? index)%nat then heap
          else
            match heap !! smallest, heap !! index with
            | Some smallestItemForSwap, Some currentItemForSwap =>
                bubbleDown_loop fuel'
                  (<[smallest := currentItemForSwap]>
                     (<[index := smallestItemForSwap]> heap))
                  smallest
            | _, _ => heap
            end
      end
  end.

Definition bubbleDown (heap : list ExtractResult) (index : nat)
  : list ExtractResult :=
  bubbleDown_loop (S (length heap)) heap index.

(** [this.heap[0] = result]: the root is replaced; on an empty array the
    assignment creates the first element. *)
Definition set_root (heap : list ExtractResult) (result : ExtractResult)
  : list ExtractResult :=
  match heap with
  | [] => [result]
  | _ :: _ => <[0%nat := result]> heap
  end.

(** Lines 30-38.  [this.heap[0]?.score ?? 0] is the root's score, or [0]
    on an empty heap. *)
Definition push (h : MinHeap) (result : ExtractResult) : MinHeap :=
  if (Z.of_nat (length (heap h)) <? size h)%Z then
    let heap' := heap h ++ [result] in
    mkHeap (bubbleUp heap' (length heap' - 1)) (size h)
  else if Qgtb (score result)
                (match heap h !! 0%nat with
                 | Some root => score root
                 | None => 0%Q
                 end) then
    mkHeap (bubbleDown (set_root (heap h) result) 0) (size h)
  else h.

(** Lines 40-48. *)
Definition getResults (h : MinHeap) : list ExtractResult :=
  Array_sort sort compareResults (heap h).

(** [results.slice(0, limit)]. *)
Definition slice0 {A : Type} (l : list A) (limit : Z) : list A :=
  firstn (Z.to_nat limit) l.

(** [results.every((r) => r.score === 100)]. *)
Definition every_perfect (l : list ExtractResult) : bool :=
  forallb (fun r => Qeq_bool (score r) 100) l.

(** *** extract (lines 105-178) *)

(** Lines 122-127. *)
Definition score_all_step (query : string) (choices : list string)
    (scorer : ScorerFunction) (results : list ExtractResult) (i : Z)
  : result (list ExtractResult) :=
  match js_index choices i with
  | Some choice =>
      score ← scorer query choice;
      Ok (results ++ [mkResult choice score])
  | None => Ok results
  end.

(** Lines 153-175 and 204-224: one candidate of the heap scan.  The state
    is [(heap, perfectMatches)]; [Done] is the early [return].
    [check_length] is the extra [heapResults.length >= limit] test of the
    chunked variant. *)
Definition heap_step (check_length : bool) (query : string)
    (choices : list string) (scorer : ScorerFunction) (limit : Z)
    (st : MinHeap * Z) (i : Z)
  : result (ctl (MinHeap * Z) (list ExtractResult)) :=
  let '(heap, perfectMatches) := st in
  let maxPerfectMatches := limit in
  match js_index choices i with
  | None => Ok (Next st)
  | Some choice =>
      score ← scorer query choice;
      let result := mkResult choice score in
      if Qeq_bool score 100 then
        let perfectMatches := (perfectMatches + 1)%Z in
        let heap := push heap result in
        if (maxPerfectMatches <=? perfectMatches)%Z then
          let heapResults := getResults heap in
          if (if check_length
              then (limit <=? Z.of_nat (length heapResults))%Z else true)
             && every_perfect heapResults
          then Ok (Done (slice0 heapResults limit))
          else Ok (Next (heap, perfectMatches))
        else Ok (Next (heap, perfectMatches))
      else Ok (Next (push heap result, perfectMatches))
  end.

(** Lines 241-247: a confirmation chunk. *)
Definition sample_step (query : string) (choices : list string)
    (scorer : ScorerFunction) (heap : MinHeap) (i : Z) : result MinHeap :=
  match js_index choices i with
  | Some choice =>
      score ← scorer query choice;
      Ok (push heap (mkResult choice score))
  | None => Ok heap
  end.

(** Lines 200-253: one chunk.  The state is
    [(heap, processed, perfectMatches)]. *)
Definition chunk_step (query : string) (choices : list string)
    (scorer : ScorerFunction) (limit len chunkSize : Z)
    (st : MinHeap * Z * Z) (start : Z)
  : result (ctl (MinHeap * Z * Z) (list ExtractResult)) :=
  let '(heap, processed, perfectMatches) := st in
  let end_ := Z.min (start + chunkSize) len in
  c ← for_loop (heap_step true query choices scorer limit)
               (zrange start (Z.to_nat (end_ - start)))
               (heap, perfectMatches);
  match c with
  | Done r => Ok (Done r)
  | Next (heap, perfectMatches) =>
      let processed := (processed + (end_ - start))%Z in
      if Qgtb (inject_Z processed) (times (inject_Z len) 0.2) then
        let currentResults := getResults heap in
        if (limit <=? Z.of_nat (length currentResults))%Z then
          let minScore :=
            match js_index currentResults (limit - 1) with
            | Some r => score r
            | None => 0%Q
            end in
          if Qgtb minScore 93 then
            let sampleChunks := Z.min 2 ((len - processed) / chunkSize) in
            heap ←
              foldM (fun heap c =>
                       let sampleStart := (processed + c * chunkSize)%Z in
                       let sampleEnd :=
                         Z.min (sampleStart + chunkSize) len in
                       foldM (sample_step query choices scorer)
                             (zrange sampleStart
                                     (Z.to_nat (sampleEnd - sampleStart)))
                             heap)
                    (zrange 0 (Z.to_nat sampleChunks)) heap;
            Ok (Done (slice0 (getResults heap) limit))
          else Ok (Next (heap, processed, perfectMatches))
        else Ok (Next (heap, processed, perfectMatches))
      else Ok (Next (heap, processed, perfectMatches))
  end.

(** Lines 184-256. *)
Definition extractChunked (query : string) (choices : list string)
    (scorer : ScorerFunction) (limit : Z) : result (list ExtractResult) :=
  let len := Z.of_nat (length choices) in
  let chunkSize :=
    if (200000 <? len)%Z then 10000%Z
    else if (100000 <? len)%Z then 7500%Z
    else if (50000 <? len)%Z then 5000%Z
    else 3000%Z in
  let heap := mkHeap [] limit in
  c ← for_loop (chunk_step query choices scorer limit len chunkSize)
               (range_step 0 len chunkSize) (heap, 0%Z, 0%Z);
  match c with
  | Done r => Ok r
  | Next (heap, _, _) => Ok (slice0 (getResults heap) limit)
  end.

Definition extract (query : string) (choices : list string)
    (scorer : ScorerFunction) (limit : Z) : result (list ExtractResult) :=
  if (length choices =? 0)%nat then Ok []
  else if (limit <=? 0)%Z then Ok []
  else
    let limit :=
      if (Z.of_nat (length choices) <? limit)%Z
      then Z.of_nat (length choices) else limit in
    let len := Z.of_nat (length choices) in
    if (len <=? limit * 2)%Z then
      results ← foldM (score_all_step query choices scorer)
                      (zrange 0 (Z.to_nat len)) [];
      Ok (slice0 (Array_sort sort compareResults results) limit)
    else if (8000 <? len)%Z then
      extractChunked query choices scorer limit
    else
      let heap := mkHeap [] limit in
      c ← for_loop (heap_step false query choices scorer limit)
                   (zrange 0 (Z.to_nat len)) (heap, 0%Z);
      match c with
      | Done r => Ok r
      | Next (heap, _) => Ok (slice0 (getResults heap) limit)
      end.

End Process.

(** *** extractOne *)

(** The comparison made for every candidate looked at (lines 46-52, 97-110,
    115-128, 173-188 and 203-216): the state is the running best; [Done]
    is the exit on a perfect match. *)
Definition consider (query : string) (choices : list string)
    (scorer : ScorerFunction) (best : ExtractOneResult) (idx : Z)
  : result (ctl ExtractOneResult ExtractOneResult) :=
  match js_index choices idx with
  | None => Ok (Next best)
  | Some choice =>
      score' ← scorer query choice;
      if Qgtb score' (score best) then
        let best := mkResult choice score' in
        if Qeq_bool score' 100 then Ok (Done best) else Ok (Next best)
      else Ok (Next best)
  end.

(** Lines 136-153: one turn of the verification pass.  [Math_random v] is
    the value the host's [Math.random()] returns at this turn; the state is
    [(best, foundBetter)]. *)
Definition verify_step (Math_random : nat -> Q) (query : string)
    (choices : list string) (scorer : ScorerFunction) (len : Z)
    (st : ExtractOneResult * bool) (v : nat)
  : result (ctl (ExtractOneResult * bool) ExtractOneResult) :=
  let '(best, foundBetter) := st in
  let randomIdx := Qfloor (binary64 (Math_random v * inject_Z len)) in
  match js_index choices randomIdx with
  | None => Ok (Next st)
  | Some choice =>
      score' ← scorer query choice;
      if Qgtb score' (score best) then
        let best := mkResult choice score' in
        if Qeq_bool score' 100 then Ok (Done best) else Ok (Next (best, true))
      else Ok (Next st)
  end.

(** Lines 170-225: one chunk of the sequential scan.  The state is
    [(best, processed)]; [Done] is any of the [return]s. *)
Definition scan_chunk_step (query : string) (choices : list string)
    (scorer : ScorerFunction) (len chunkSize : Z)
    (earlyExitThreshold highScoreThreshold : Q)
    (st : ExtractOneResult * Z) (start : Z)
  : result (ctl (ExtractOneResult * Z) ExtractOneResult) :=
  let '(best, processed) := st in
  let end_ := Z.min (start + chunkSize) len in
  c ← for_loop (consider query choices scorer)
               (zrange start (Z.to_nat (end_ - start))) best;
  match c with
  | Done r => Ok (Done r)
  | Next best =>
      let processed := (processed + (end_ - start))%Z in
      if Qgtb (inject_Z processed) earlyExitThreshold then
        if Qgtb (score best) highScoreThreshold then
          let sampleCount := Z.min 200 ((len - processed) / 50) in
          let step := ((len - processed) / sampleCount)%Z in
          c ← for_loop
                (fun best s =>
                   let idx := (processed + s * step)%Z in
                   if (len <=? idx)%Z then Ok (Done best)
                   else consider query choices scorer best idx)
                (zrange 0 (Z.to_nat sampleCount)) best;
          match c with
          | Next best => Ok (Done best)
          | Done best => Ok (Done best)
          end
        else Ok (Next (best, processed))
      else Ok (Next (best, processed))
  end.

(** Lines 62-231. *)
Definition extractOneChunked (Math_random : nat -> Q) (query : string)
    (choices : list string) (scorer : ScorerFunction)
    (initialChoice : string) (initialScore : Q) : result ExtractOneResult :=
  let best := mkResult initialChoice initialScore in
  let len := Z.of_nat (length choices) in
  let chunkSize :=
    if (200000 <? len)%Z then 20000%Z
    else if (100000 <? len)%Z then 15000%Z
    else 10000%Z in
  let sampleIndices :=
    filter (fun idx => (0 < idx)%Z /\ (idx < len)%Z)
      [ 0%Z;
        Qfloor (times (inject_Z len) 0.1);
        Qfloor (times (inject_Z len) 0.2);
        Qfloor (times (inject_Z len) 0.3);
        Qfloor (times (inject_Z len) 0.5);
        Qfloor (times (inject_Z len) 0.7);
        Qfloor (times (inject_Z len) 0.9);
        (len - 1)%Z ] in
  let scan (best : ExtractOneResult) : result ExtractOneResult :=
    let processed := 1%Z in
    let earlyExitThreshold :=
      if (100000 <? len)%Z then times (inject_Z len) 0.1
      else times (inject_Z len) 0.15 in
    let highScoreThreshold := 97%Q in
    c ← for_loop (scan_chunk_step query choices scorer len chunkSize
                    earlyExitThreshold highScoreThreshold)
                 (range_step 1 len chunkSize) (best, processed);
    match c with
    | Done r => Ok r
    | Next (best, _) => Ok best
    end in
  if (20000 <? len)%Z then
    let additionalSamples :=
      if (200000 <? len)%Z then 50%Z
      else if (100000 <? len)%Z then 30%Z
      else if (50000 <? len)%Z then 20%Z
      else 15%Z in
    c ← for_loop
          (fun best s =>
             let idx := (((len - 1) * (s + 1)) / (additionalSamples + 1))%Z in
             consider query choices scorer best idx)
          (zrange 0 (Z.to_nat additionalSamples)) best;
    match c with
    | Done r => Ok r
    | Next best =>
        c ← for_loop (consider query choices scorer) sampleIndices best;
        match c with
        | Done r => Ok r
        | Next best =>
            if Qgtb (score best) 98 && (100000 <? len)%Z then
              let verifySamples := 100%nat in
              c ← for_loop (verify_step Math_random query choices scorer len)
                           (seq 0 verifySamples) (best, false);
              match c with
              | Done r => Ok r
              | Next (best, foundBetter) =>
                  if negb foundBetter then Ok best else scan best
              end
            else scan best
        end
    end
  else scan best.

(** Lines 13-59.  The loop of lines 42-53 leaves with [break] where
    [consider] answers [Done]; either way the running best is returned. *)
Definition extractOne (Math_random : nat -> Q) (query : string)
    (choices : list string) (scorer : ScorerFunction)
  : result (option ExtractOneResult) :=
  if (length choices =? 0)%nat then Ok None
  else
    let len := Z.of_nat (length choices) in
    match js_index choices 0 with
    | None => Ok None
    | Some firstChoice =>
        let bestChoice := firstChoice in
        bestScore ← scorer query bestChoice;
        if Qeq_bool bestScore 100 then Ok (Some (mkResult bestChoice bestScore))
        else if (20000 <? len)%Z then
          r ← extractOneChunked Math_random query choices scorer
                bestChoice bestScore;
          Ok (Some r)
        else
          c ← for_loop (consider query choices scorer)
                       (zrange 1 (Z.to_nat (len - 1)))
                       (mkResult bestChoice bestScore);
          match c with
          | Next best => Ok (Some best)
          | Done best => Ok (Some best)
          end
    end.

(** ** Edit scripts: what the distance is specified to count *)

Module EditDistance.

(** The code units of a string. *)
Definition chars (s : string) : list ascii := list_ascii_of_string s.

(** One single-character insertion, deletion or substitution, at any
    position. *)
Inductive edit1 : list ascii -> list ascii -> Prop :=
| edit_insert p c s : edit1 (p ++ s) (p ++ c :: s)
| edit_delete p c s : edit1 (p ++ c :: s) (p ++ s)
| edit_subst p c d s : c <> d -> edit1 (p ++ c :: s) (p ++ d :: s).

(** [edits n a b]: [n] successive edits transform [a] into [b]. *)
Inductive edits : nat -> list ascii -> list ascii -> Prop :=
| edits_O a : edits 0 a a
| edits_S n a b c : edit1 a b -> edits n b c -> edits (S n) a c.

(** The same edits, told from the head of the list. *)
Inductive step : list ascii -> list ascii -> Prop :=
| step_ins c l : step l (c :: l)
| step_del c l : step (c :: l) l
| step_sub c d l : c <> d -> step (c :: l) (d :: l)
| step_cons c l l' : step l l' -> step (c :: l) (c :: l').

(** An alignment of [a] with [b] of cost [n]. *)
Inductive align : list ascii -> list ascii -> nat -> Prop :=
| align_nil : align [] [] 0
| align_keep x a b n : align a b n -> align (x :: a) (x :: b) n
| align_subst x y a b n :
    x <> y -> align a b n -> align (x :: a) (y :: b) (S n)
| align_del x a b n : align a b n -> align (x :: a) b (S n)
| align_ins y a b n : align a b n -> align a (y :: b) (S n).

Definition cost (x y : ascii) : nat := if Ascii.eqb x y then 0 else 1.

(** The Wagner-Fischer recurrence, on the lists read from their heads. *)
Fixpoint lev (a b : list ascii) : nat :=
  match a with
  | [] => length b
  | x :: a' =>
      (fix lev_a (b : list ascii) : nat :=
         match b with
         | [] => length a
         | y :: b' =>
             Nat.min (lev_a b' + 1)
                     (Nat.min (lev a' b + 1) (lev a' b' + cost x y))
         end) b
  end.

(** The table of the dynamic program: the distance between the prefixes
    of lengths [i] and [j] of [s1] and [s2]. *)
Definition D (s1 s2 : string) (i j : nat) : nat :=
  lev (rev (take i (chars s1))) (rev (take j (chars s2))).

(** [r] is line [i] of that table. *)
Definition is_row (s1 s2 : string) (i : nat) (r : list (option nat))
  : Prop :=
  length r = S (String.length s2) /\
  forall k, k <= String.length s2 -> r !! k = Some (Some (D s1 s2 i k)).

End EditDistance.

(** ** Vocabulary of the statements *)

(** The value of an outcome that is known not to be an exception. *)
Definition value_of (c : result Q) : Q :=
  match c with
  | Ok r => r
  | Throw _ => 0%Q
  end.

(** Two outcomes are the same: the same exception, or equal numbers. *)
Definition same_result (c1 c2 : result Q) : Prop :=
  match c1, c2 with
  | Ok r1, Ok r2 => (r1 == r2)%Q
  | Throw e1, Throw e2 => e1 = e2
  | _, _ => False
  end.

(** [v] is the maximum of the non-empty list [rs]. *)
Definition is_max (v : Q) (rs : list Q) : Prop :=
  (exists r, In r rs /\ (v == r)%Q) /\ forall r, In r rs -> (r <= v)%Q.

(** [longer] contains [shorter] as a substring. *)
Definition is_substring (shorter longer : string) : Prop :=
  exists p q, longer = String.append p (String.append shorter q).

(** Every two neighbours of [l] are related by [R]. *)
Definition adjacent {A : Type} (R : A -> A -> Prop) (l : list A) : Prop :=
  forall i a b, l !! i = Some a -> l !! S i = Some b -> R a b.

(** Descending scores, and ascending text where two scores are closer
    than 0.001. *)
Definition descending_then_text (localeCompare : string -> string -> Z)
    (a b : ExtractResult) : Prop :=
  (score b <= score a)%Q /\
  ((Qabs (score a - score b) < 0.001)%Q ->
   (localeCompare (choice a) (choice b) <= 0)%Z).

(** What the comparator of [extract] orders by: scores at least 0.001
    apart descend; closer scores are ordered by text alone. *)
Definition tolerant_order (localeCompare : string -> string -> Z)
    (a b : ExtractResult) : Prop :=
  (score b + 0.001 <= score a)%Q \/
  ((Qabs (score a - score b) < 0.001)%Q /\
   (localeCompare (choice a) (choice b) <= 0)%Z).

(** [localeCompare] on the strings of this embedding, by code units: the
    order of the host on lower-case ASCII letters. *)
Definition ascii_localeCompare (a b : string) : Z :=
  match String.compare a b with
  | Lt => (-1)%Z
  | Eq => 0%Z
  | Gt => 1%Z
  end.

(** A scorer that computes a number without raising. *)
Definition pure_scorer (f : string -> string -> Q) : ScorerFunction :=
  fun s1 s2 => Ok (f s1 s2).

(** Every earlier element of [l] is related by [R] to every later one. *)
Definition ordered {A : Type} (R : A -> A -> Prop) (l : list A) : Prop :=
  forall i j a b, (i < j)%nat -> l !! i = Some a -> l !! j = Some b -> R a b.

(** The head of an array of results that satisfy [S], sorted by the host
    with the comparator of [extract]. *)
Definition sorted_slice (sort : ArraySort)
    (localeCompare : string -> string -> Z) (S : ExtractResult -> Prop)
    (r : list ExtractResult) : Prop :=
  exists X limit,
    Forall S X /\
    r = slice0 (Array_sort sort (compareResults localeCompare) X) limit.

(** A heap of capacity [limit] after [k] pushes. *)
Definition heap_ok (limit k : Z) (h : MinHeap) : Prop :=
  size h = limit /\ Z.of_nat (length (heap h)) = Z.min k limit.

(** ** Inputs on which the engines are evaluated *)

(** A scorer that returns 100 on equal strings and [other] elsewhere. *)
Definition exact_or (other : Q) : ScorerFunction :=
  pure_scorer (fun s1 s2 => if String.eqb s1 s2 then 100%Q else other).

(** Two scores closer than the tolerance of the comparator. *)
Definition near_tie_scorer : ScorerFunction :=
  pure_scorer (fun _ c => if String.eqb c "b" then 50.0005%Q else 50%Q).

(** Three scores, each closer than the tolerance to the next, the first
    and the last further apart. *)
Definition near_tie_chain_scorer : ScorerFunction :=
  pure_scorer (fun _ c => if String.eqb c "a" then 50%Q
                          else if String.eqb c "b" then 50.0006%Q
                          else 50.0012%Q).

(** Two spellings of a word that differ in the case of a Latin-1 letter:
    code unit 201 is the upper-case and 233 the lower-case E with acute
    accent. *)
Definition Ecole : string := String "201"%char "cole".
Definition ecole : string := String "233"%char "cole".

(** The scorer of tests/extract-edge.test.ts that always throws. *)
Definition raising_scorer : ScorerFunction :=
  fun _ _ => Throw (Error "Scorer error").

(** 20001 candidates; the only exact match of ["q"] is at index 19999. *)
Definition choices_20001 : list string :=
  repeat "x"%string (Z.to_nat 19999) ++ ["q"; "x"]%string.

(** 100001 candidates; the only ["b"] is at index 99999. *)
Definition choices_100001 : list string :=
  repeat "a"%string (Z.to_nat 99999) ++ ["b"; "a"]%string.

(** ** Vocabulary of the further properties *)

(** The five delimiters of [tokenize] (line 25 of tokenizer.ts). *)
Definition is_delimiter (c : ascii) : bool :=
  let code := nat_of_ascii c in
  ((code =? 32) || (code =? 9) || (code =? 10) || (code =? 45)
   || (code =? 95))%nat.

(** [str] without its delimiters. *)
Definition remove_delimiters (str : string) : string :=
  string_of_list_ascii
    (List.filter (fun c => negb (is_delimiter c)) (EditDistance.chars str)).

(** A token as [tokenize] makes them: not empty, free of delimiters and
    of upper-case letters. *)
Definition is_token (t : string) : Prop :=
  t <> EmptyString /\
  Forall (fun c => is_delimiter c = false /\ Tokenizer.lower_char c = c)
         (EditDistance.chars t).

(** One character of the scan of [tokenize], on the state
    [(tokens, tokenChars)]. *)
Definition scan_char (st : list string * list ascii) (c : ascii)
  : list string * list ascii :=
  let '(tokens, tokenChars) := st in
  if is_delimiter c then
    if (0 <? length tokenChars)%nat
    then (tokens ++ [Tokenizer.toLowerCase (Tokenizer.join_chars tokenChars)],
          [])
    else (tokens, tokenChars)
  else (tokens, tokenChars ++ [c]).

(** What the scan keeps true of the characters [seen] so far. *)
Definition scan_inv (seen : list ascii) (st : list string * list ascii)
  : Prop :=
  let '(tokens, cur) := st in
  Forall is_token tokens /\
  Forall (fun c => is_delimiter c = false) cur /\
  List.concat (map EditDistance.chars tokens) ++ map Tokenizer.lower_char cur =
  map Tokenizer.lower_char (List.filter (fun c => negb (is_delimiter c)) seen).


(** The order of a binary min-heap laid out in an array: no element
    scores below its parent, which sits at index [(i - 1) / 2]. *)
Definition is_heap (h : list ExtractResult) : Prop :=
  forall i x p, (0 < i)%nat -> h !! i = Some x ->
    h !! ((i - 1) / 2)%nat = Some p -> (score p <= score x)%Q.

(** The heap order but for the element at [k], which may score below its
    parent; its children do not score below its parent. *)
Definition up_inv (h : list ExtractResult) (k : nat) : Prop :=
  (forall i x p, (0 < i)%nat -> i <> k -> h !! i = Some x ->
     h !! ((i - 1) / 2)%nat = Some p -> (score p <= score x)%Q) /\
  (forall c x g, (0 < k)%nat -> (0 < c)%nat -> ((c - 1) / 2)%nat = k ->
     h !! c = Some x -> h !! ((k - 1) / 2)%nat = Some g ->
     (score g <= score x)%Q).

(** The heap order but for the element at [k], which may score above its
    children; its children do not score below its parent. *)
Definition down_inv (h : list ExtractResult) (k : nat) : Prop :=
  (forall i x p, (0 < i)%nat -> ((i - 1) / 2)%nat <> k -> h !! i = Some x ->
     h !! ((i - 1) / 2)%nat = Some p -> (score p <= score x)%Q) /\
  (forall c x g, (0 < k)%nat -> (0 < c)%nat -> ((c - 1) / 2)%nat = k ->
     h !! c = Some x -> h !! ((k - 1) / 2)%nat = Some g ->
     (score g <= score x)%Q).

(** [kept] holds the best of [kept ++ dropped]. *)
Definition keeps_best (kept dropped : list ExtractResult) : Prop :=
  forall d x, In d dropped -> In x kept -> (score d <= score x)%Q.

(** The candidates, each with the score [value] gives it. *)
Definition scored (value : string -> Q) (choices : list string)
  : list ExtractResult :=
  map (fun c => mkResult c (value c)) choices.

(** [r] is one of the candidates with the score the scorer returns for
    it. *)
Definition is_scored (query : string) (choices : list string)
    (scorer : ScorerFunction) (r : ExtractResult) : Prop :=
  In (choice r) choices /\ scorer query (choice r) = Ok (score r).

(** [r] is the candidate at index [i], it scores highest, and no earlier
    candidate scores as high. *)
Definition first_best (value : string -> Q) (choices : list string)
    (i : nat) (r : ExtractResult) : Prop :=
  choices !! i = Some (choice r) /\ score r = value (choice r) /\
  (forall c, In c choices -> (value c <= score r)%Q) /\
  (forall j c, (j < i)%nat -> choices !! j = Some c ->
     (value c < score r)%Q).

(** ** src/utils/processor.ts *)

Module Processor.

(** The code units [trim] removes, of those this embedding has: tab, line
    feed, vertical tab, form feed, carriage return, space and the
    no-break space. *)
Definition is_whitespace (c : ascii) : bool :=
  let code := nat_of_ascii c in
  (((9 <=? code) && (code <=? 13)) || (code =? 32) || (code =? 160))%nat.

Fixpoint trimStart (s : string) : string :=
  match s with
  | EmptyString => EmptyString
  | String c s' => if is_whitespace c then trimStart s' else s
  end.

Fixpoint trimEnd (s : string) : string :=
  match s with
  | EmptyString => EmptyString
  | String c s' =>
      match trimEnd s' with
      | EmptyString => if is_whitespace c then EmptyString
                       else String c EmptyString
      | t => String c t
      end
  end.

(** [str.trim()]. *)
Definition trim (s : string) : string := trimEnd (trimStart s).

Definition defaultProcessor (str : string) : string :=
  trim (Tokenizer.toLowerCase str).

End Processor.

(** A caller-supplied processor may raise, as a scorer may. *)
Definition ProcessorFunction : Type := string -> result string.

(** ** src/scorers/*.ts: a core scorer behind a processor

    [processor || defaultProcessor]: an absent processor is [None]. *)

Module Scorers.

Definition or_default (processor : option ProcessorFunction)
  : ProcessorFunction :=
  match processor with
  | Some p => p
  | None => fun str => Ok (Processor.defaultProcessor str)
  end.

Definition ratio (s1 s2 : string) (processor : option ProcessorFunction)
  : result Q :=
  let proc := or_default processor in
  p1 ← proc s1; p2 ← proc s2; Levenshtein.levenshteinRatio p1 p2.

Definition partialRatio (s1 s2 : string)
    (processor : option ProcessorFunction) : result Q :=
  let proc := or_default processor in
  p1 ← proc s1; p2 ← proc s2; PartialRatio.partialRatio p1 p2.

Definition tokenSortRatio (s1 s2 : string)
    (processor : option ProcessorFunction) : result Q :=
  let proc := or_default processor in
  p1 ← proc s1; p2 ← proc s2; TokenSortRatio.tokenSortRatio p1 p2.

Definition tokenSetRatio (s1 s2 : string)
    (processor : option ProcessorFunction) : result Q :=
  let proc := or_default processor in
  p1 ← proc s1; p2 ← proc s2; TokenSetRatio.tokenSetRatio p1 p2.

Definition WRatio (s1 s2 : string) (processor : option ProcessorFunction)
  : result Q :=
  let proc := or_default processor in
  p1 ← proc s1; p2 ← proc s2; WeightedRatio.weightedRatio p1 p2.

End Scorers.

(** ** src/builders/scorerBuilder.ts *)

Module ScorerBuilder.

Inductive Algorithm : Type :=
| weighted | simple | partial | tokenSort | tokenSet.

(** An absent property of the configuration object is [None]. *)
Record ScorerConfig : Type := mkConfig {
  algorithm : option Algorithm;
  processor : option ProcessorFunction;
  minScore : option Q;
  maxScore : option Q
}.

(** Lines 27-62. *)
Definition createScorer (config : ScorerConfig) : ScorerFunction :=
  let algorithm := default weighted (algorithm config) in
  let processor := Scorers.or_default (processor config) in
  let minScore := default 0%Q (minScore config) in
  let maxScore := default 100%Q (maxScore config) in
  let coreScorer :=
    match algorithm with
    | simple => Levenshtein.levenshteinRatio
    | partial => PartialRatio.partialRatio
    | tokenSort => TokenSortRatio.tokenSortRatio
    | tokenSet => TokenSetRatio.tokenSetRatio
    | weighted => WeightedRatio.weightedRatio
    end in
  fun s1 s2 =>
    processed1 ← processor s1;
    processed2 ← processor s2;
    score ← coreScorer processed1 processed2;
    Ok (Qmax minScore (Qmin maxScore score)).

(** Lines 67-101: the fields of a [ScorerBuilder]; each [with...] method
    assigns one and returns the builder. *)
Record Builder : Type := mkBuilder {
  b_algorithm : option Algorithm;
  b_processor : option ProcessorFunction;
  b_minScore : Q;
  b_maxScore : Q
}.

(** Lines 106-108. *)
Definition scorerBuilder : Builder :=
  mkBuilder (Some weighted) None 0%Q 100%Q.

Definition withAlgorithm (algorithm : option Algorithm) (this : Builder)
  : Builder :=
  mkBuilder algorithm (b_processor this) (b_minScore this) (b_maxScore this).

Definition withProcessor (processor : ProcessorFunction) (this : Builder)
  : Builder :=
  mkBuilder (b_algorithm this) (Some processor) (b_minScore this)
            (b_maxScore this).

Definition withMinScore (minScore : Q) (this : Builder) : Builder :=
  mkBuilder (b_algorithm this) (b_processor this) minScore (b_maxScore this).

Definition withMaxScore (maxScore : Q) (this : Builder) : Builder :=
  mkBuilder (b_algorithm this) (b_processor this) (b_minScore this) maxScore.

Definition build (this : Builder) : ScorerFunction :=
  createScorer (mkConfig (b_algorithm this) (b_processor this)
                         (Some (b_minScore this)) (Some (b_maxScore this))).

End ScorerBuilder.

(** Only white space. *)
Definition all_whitespace (s : string) : Prop :=
  Forall (fun c => Processor.is_whitespace c = true) (EditDistance.chars s).

(** Neither the first nor the last code unit is white space. *)
Definition no_outer_whitespace (s : string) : Prop :=
  forall c, head (EditDistance.chars s) = Some c \/
            last (EditDistance.chars s) = Some c ->
            Processor.is_whitespace c = false.

(** The function of the scorers layer that an algorithm of the builder
    names. *)
Definition scorer_of (a : ScorerBuilder.Algorithm)
  : string -> string -> option ProcessorFunction -> result Q :=
  match a with
  | ScorerBuilder.weighted => Scorers.WRatio
  | ScorerBuilder.simple => Scorers.ratio
  | ScorerBuilder.partial => Scorers.partialRatio
  | ScorerBuilder.tokenSort => Scorers.tokenSortRatio
  | ScorerBuilder.tokenSet => Scorers.tokenSetRatio
  end.

(** ** src/utils/lruCache.ts

    The node objects live in a store; a reference to a node is its index
    there, so that the two links of a node, the [head] and [tail] of the
    cache and the values of its [Map] can point to the same object.
    [Date.now()] is the argument [now] of the methods that read the
    clock. *)

Module LRU.

Section Cache.

Variable V : Type.

Record CacheNode : Type := mkNode {
  key : string;
  value : V;
  expires : option Z;
  prev : option nat;
  next : option nat
}.

(** A [Map<K, CacheNode>] with string keys: the entries in insertion
    order, one for each key. *)
Definition Map_get (m : list (string * nat)) (k : string) : option nat :=
  match List.find (fun e => String.eqb (fst e) k) m with
  | Some e => Some (snd e)
  | None => None
  end.

Definition Map_set (m : list (string * nat)) (k : string) (r : nat)
  : list (string * nat) :=
  if existsb (fun e => String.eqb (fst e) k) m
  then map (fun e => if String.eqb (fst e) k then (k, r) else e) m
  else m ++ [(k, r)].

Definition Map_delete (m : list (string * nat)) (k : string)
  : list (string * nat) :=
  List.filter (fun e => negb (String.eqb (fst e) k)) m.

Record LRUCache : Type := mkLRUCache {
  capacity : Z;
  cache : list (string * nat);
  head : option nat;
  tail : option nat;
  store : list CacheNode
}.

(** Lines 20-22. *)
Definition new_LRUCache (capacity : Z) : LRUCache :=
  mkLRUCache capacity [] None None [].

(** Reading a field of the node a reference points to. *)
Definition key_of (c : LRUCache) (node : nat) : option string :=
  key <$> store c !! node.
Definition value_of (c : LRUCache) (node : nat) : option V :=
  value <$> store c !! node.
Definition expires_of (c : LRUCache) (node : nat) : option Z :=
  store c !! node ≫= expires.
Definition prev_of (c : LRUCache) (node : nat) : option nat :=
  store c !! node ≫= prev.
Definition next_of (c : LRUCache) (node : nat) : option nat :=
  store c !! node ≫= next.

(** Assigning a field of the cache or of a node. *)
Definition set_cache (m : list (string * nat)) (c : LRUCache) : LRUCache :=
  mkLRUCache (capacity c) m (head c) (tail c) (store c).
Definition set_head (h : option nat) (c : LRUCache) : LRUCache :=
  mkLRUCache (capacity c) (cache c) h (tail c) (store c).
Definition set_tail (t : option nat) (c : LRUCache) : LRUCache :=
  mkLRUCache (capacity c) (cache c) (head c) t (store c).
Definition set_node (f : CacheNode -> CacheNode) (node : nat)
    (c : LRUCache) : LRUCache :=
  mkLRUCache (capacity c) (cache c) (head c) (tail c)
             (alter f node (store c)).

Definition with_value (v : V) (n : CacheNode) : CacheNode :=
  mkNode (key n) v (expires n) (prev n) (next n).
Definition with_expires (e : option Z) (n : CacheNode) : CacheNode :=
  mkNode (key n) (value n) e (prev n) (next n).
Definition with_prev (p : option nat) (n : CacheNode) : CacheNode :=
  mkNode (key n) (value n) (expires n) p (next n).
Definition with_next (x : option nat) (n : CacheNode) : CacheNode :=
  mkNode (key n) (value n) (expires n) (prev n) x.

(** [a === b] on a reference that may be [null] and a node. *)
Definition same_node (a : option nat) (node : nat) : bool :=
  match a with
  | Some r => (r =? node)%nat
  | None => false
  end.

(** Lines 103-124. *)
Definition moveToFront (node : nat) (c : LRUCache) : LRUCache :=
  if same_node (head c) node then c
  else
    let c := match prev_of c node with
             | Some p => set_node (with_next (next_of c node)) p c
             | None => c
             end in
    let c := match next_of c node with
             | Some n => set_node (with_prev (prev_of c node)) n c
             | None => c
             end in
    let c := if same_node (tail c) node then set_tail (prev_of c node) c
             else c in
    let c := set_node (with_prev None) node c in
    let c := set_node (with_next (head c)) node c in
    let c := match head c with
             | Some h => set_node (with_prev (Some node)) h c
             | None => c
             end in
    set_head (Some node) c.

(** Lines 73-91. *)
Definition delete (key : string) (c : LRUCache) : bool * LRUCache :=
  match Map_get (cache c) key with
  | None => (false, c)
  | Some node =>
      let c := match prev_of c node with
               | Some p => set_node (with_next (next_of c node)) p c
               | None => set_head (next_of c node) c
               end in
      let c := match next_of c node with
               | Some n => set_node (with_prev (prev_of c node)) n c
               | None => set_tail (prev_of c node) c
               end in
      (true, set_cache (Map_delete (cache c) key) c)
  end.

(** Lines 24-37. *)
Definition get (now : Z) (key : string) (c : LRUCache)
  : option V * LRUCache :=
  match Map_get (cache c) key with
  | None => (None, c)
  | Some node =>
      if match expires_of c node with
         | Some e => (e <? now)%Z
         | None => false
         end
      then (None, snd (delete key c))
      else
        let c := moveToFront node c in
        (value_of c node, c)
  end.

(** Lines 39-71. *)
Definition set (now : Z) (key : string) (value : V) (ttl : option Z)
    (c : LRUCache) : LRUCache :=
  match Map_get (cache c) key with
  | Some existing =>
      let c := set_node (with_value value) existing c in
      let c := set_node
                 (with_expires
                    (match ttl with
                     | Some ttl => Some (now + ttl)%Z
                     | None => None
                     end)) existing c in
      moveToFront existing c
  | None =>
      let c :=
        if (capacity c <=? Z.of_nat (length (cache c)))%Z then
          match tail c with
          | Some t =>
              match key_of c t with
              | Some k => snd (delete k c)
              | None => c
              end
          | None => c
          end
        else c in
      let newNode := length (store c) in
      let c :=
        mkLRUCache (capacity c) (cache c) (head c) (tail c)
          (store c ++
           [mkNode key value
              (match ttl with
               | Some ttl => Some (now + ttl)%Z
               | None => None
               end) None (head c)]) in
      let c := match head c with
               | Some h => set_node (with_prev (Some newNode)) h c
               | None => c
               end in
      let c := set_head (Some newNode) c in
      let c := match tail c with
               | None => set_tail (Some newNode) c
               | Some _ => c
               end in
      set_cache (Map_set (cache c) key newNode) c
  end.

(** Lines 93-97. *)
Definition clear (c : LRUCache) : LRUCache :=
  mkLRUCache (capacity c) [] None None (store c).

(** Lines 99-101. *)
Definition size (c : LRUCache) : nat := length (cache c).

(** Lines 126-146. *)
Definition cleanupExpired (now : Z) (c : LRUCache) : nat * LRUCache :=
  let keysToDelete :=
    fold_left
      (fun keysToDelete '(key, node) =>
         match expires_of c node with
         | Some e => if (e <? now)%Z then keysToDelete ++ [key]
                     else keysToDelete
         | None => keysToDelete
         end)
      (cache c) [] in
  fold_left
    (fun '(cleaned, c) key =>
       let '(deleted, c) := delete key c in
       (if deleted then S cleaned else cleaned, c))
    keysToDelete (0%nat, c).

End Cache.

Arguments mkNode {V} key value expires prev next.
Arguments key {V} c.
Arguments value {V} c.
Arguments expires {V} c.
Arguments prev {V} c.
Arguments next {V} c.
Arguments mkLRUCache {V} capacity cache head tail store.
Arguments capacity {V} l.
Arguments cache {V} l.
Arguments head {V} l.
Arguments tail {V} l.
Arguments store {V} l.
Arguments key_of {V} c node.
Arguments value_of {V} c node.
Arguments expires_of {V} c node.
Arguments prev_of {V} c node.
Arguments next_of {V} c node.
Arguments set_cache {V} m c.
Arguments set_head {V} h c.
Arguments set_tail {V} t c.
Arguments set_node {V} f node c.
Arguments with_value {V} v n.
Arguments with_expires {V} e n.
Arguments with_prev {V} p n.
Arguments with_next {V} x n.
Arguments moveToFront {V} node c.
Arguments delete {V} key c.
Arguments get {V} now key c.
Arguments set {V} now key value ttl c.
Arguments clear {V} c.
Arguments size {V} c.
Arguments cleanupExpired {V} now c.

End LRU.

(** *** The cache as a list of entries, most recently used first *)

Module LRUSpec.

Section Spec.

Variable V : Type.

(** A key with its value and its time of expiry. *)
Definition entry : Type := string * V * option Z.

Definition entry_key (e : entry) : string := fst (fst e).

Definition entry_of (n : LRU.CacheNode V) : entry :=
  (LRU.key n, LRU.value n, LRU.expires n).

(** The nodes met from [from] along the [next] links. *)
Fixpoint walk (fuel : nat) (st : list (LRU.CacheNode V))
    (from : option nat) : list nat :=
  match fuel, from with
  | S fuel', Some r =>
      match st !! r with
      | Some n => r :: walk fuel' st (LRU.next n)
      | None => []
      end
  | _, _ => []
  end.

Definition order (c : LRU.LRUCache V) : list nat :=
  walk (length (LRU.store c)) (LRU.store c) (LRU.head c).

Definition entries (c : LRU.LRUCache V) : list entry :=
  omap (fun r => entry_of <$> LRU.store c !! r) (order c).

(** [expires !== undefined && expires < now]. *)
Definition expired (now : Z) (e : option Z) : bool :=
  match e with
  | Some t => (t <? now)%Z
  | None => false
  end.

Definition has_key (k : string) (e : entry) : bool :=
  String.eqb (entry_key e) k.

Definition find_key (k : string) (es : list entry) : option entry :=
  List.find (has_key k) es.

Definition remove_key (k : string) (es : list entry) : list entry :=
  List.filter (fun e => negb (has_key k e)) es.

(** [seg st from p refs to last]: in the store [st] the [next] links lead
    from [from] through the nodes [refs] to [to], each node's [prev]
    link points to the node before it, [p] for the first; [last] is the
    last of [refs], [p] if there is none. *)
Inductive seg (st : list (LRU.CacheNode V))
  : option nat -> option nat -> list nat ->
    option nat -> option nat -> Prop :=
| seg_nil from p : seg st from p [] from p
| seg_cons r n p rs to last :
    st !! r = Some n -> LRU.prev n = p ->
    seg st (LRU.next n) (Some r) rs to last ->
    seg st (Some r) p (r :: rs) to last.

(** The doubly-linked list of the cache runs through [refs] from [head]
    to [tail], and the map holds exactly the keys of these nodes, each
    with its node. *)
Definition repr (c : LRU.LRUCache V) (refs : list nat) : Prop :=
  seg (LRU.store c) (LRU.head c) None refs None (LRU.tail c) /\
  List.NoDup refs /\
  List.NoDup (map fst (LRU.cache c)) /\
  forall k r, In (k, r) (LRU.cache c) <->
              In r refs /\ LRU.key_of c r = Some k.

Definition lru_ok (c : LRU.LRUCache V) : Prop := exists refs, repr c refs.

(** The calls a client can make. *)
Inductive call : Type :=
| Get (now : Z) (key : string)
| Set_ (now : Z) (key : string) (value : V) (ttl : option Z)
| Delete (key : string)
| Clear
| CleanupExpired (now : Z).

Definition run_call (c : LRU.LRUCache V) (op : call) : LRU.LRUCache V :=
  match op with
  | Get now key => snd (LRU.get now key c)
  | Set_ now key value ttl => LRU.set now key value ttl c
  | Delete key => snd (LRU.delete key c)
  | Clear => LRU.clear c
  | CleanupExpired now => snd (LRU.cleanupExpired now c)
  end.

(** A new cache after a sequence of calls. *)
Definition run_calls (capacity : Z) (ops : list call) : LRU.LRUCache V :=
  fold_left run_call ops (LRU.new_LRUCache V capacity).

End Spec.

Arguments entry_key {V} e.
Arguments entry_of {V} n.
Arguments walk {V} fuel st from.
Arguments order {V} c.
Arguments entries {V} c.
Arguments has_key {V} k e.
Arguments find_key {V} k es.
Arguments remove_key {V} k es.
Arguments seg {V} st _ _ _ _ _.
Arguments seg_nil {V} st from p.
Arguments seg_cons {V} st r n p rs to last _ _ _.
Arguments repr {V} c refs.
Arguments lru_ok {V} c.
Arguments Get {V} now key.
Arguments Set_ {V} now key value ttl.
Arguments Delete {V} key.
Arguments Clear {V}.
Arguments CleanupExpired {V} now.
Arguments run_call {V} c op.
Arguments run_calls {V} capacity ops.

End LRUSpec.

(** ** src/unnamed/part_005: the Cache decorator *)

Module CacheDecorator.

(** Lines 23-29 of [createCacheKey]: the key of two string arguments, each
    after a NUL character. *)
Definition createCacheKey (arg1 arg2 : string) : string :=
  String Ascii.zero (String.append arg1 (String Ascii.zero arg2)).

Record CacheOptions : Type := mkOptions {
  maxSize : option Z;
  ttl : option Z
}.

(** Line 79, with the default of line 69. *)
Definition new_cache (V : Type) (options : CacheOptions) : LRU.LRUCache V :=
  LRU.new_LRUCache V (default 1000%Z (maxSize options)).

(** Lines 83-98: the method that replaces [originalMethod], here a method
    of two strings such as a scorer, whose result depends on the two
    strings only and is not [undefined].  The state is the cache of the
    decorated method; [now_get] and [now_set] are the readings of the
    clock by [cache.get] and [cache.set]. *)
Definition cached {V : Type} (options : CacheOptions)
    (originalMethod : string -> string -> result V)
    (now_get now_set : Z) (arg1 arg2 : string) (cache : LRU.LRUCache V)
  : result V * LRU.LRUCache V :=
  let key := createCacheKey arg1 arg2 in
  let '(cached, cache) := LRU.get now_get key cache in
  match cached with
  | Some cached => (Ok cached, cache)
  | None =>
      match originalMethod arg1 arg2 with
      | Ok result =>
          (Ok result, LRU.set now_set key result (ttl options) cache)
      | Throw e => (Throw e, cache)
      end
  end.

End CacheDecorator.

(** What happens to the cache of a decorated method: a call, with the
    two readings of the clock and the two arguments, or a run of the
    cleanup that the timer of lines 50-58 starts every minute. *)
Inductive cache_event : Type :=
| Call (now_get now_set : Z) (arg1 arg2 : string)
| Cleanup (now : Z).

Definition run_event {V : Type} (options : CacheDecorator.CacheOptions)
    (originalMethod : string -> string -> result V)
    (cache : LRU.LRUCache V) (ev : cache_event) : LRU.LRUCache V :=
  match ev with
  | Call now_get now_set arg1 arg2 =>
      snd (CacheDecorator.cached options originalMethod now_get now_set
             arg1 arg2 cache)
  | Cleanup now => snd (LRU.cleanupExpired now cache)
  end.

(** The cache of a decorated method after a sequence of events. *)
Definition run_cached {V : Type} (options : CacheDecorator.CacheOptions)
    (originalMethod : string -> string -> result V)
    (events : list cache_event) : LRU.LRUCache V :=
  fold_left (run_event options originalMethod) events
            (CacheDecorator.new_cache V options).

(** No NUL character occurs in [s]. *)
Fixpoint nul_free (s : string) : Prop :=
  match s with
  | EmptyString => True
  | String c s' => c <> Ascii.zero /\ nul_free s'
  end.

(** ** Caches on which the operations are evaluated *)

(** A cache of capacity 2 after [set("a", 1)] and [set("b", 2, 10)] at
    time 0: ["b"] is the most recently used and expires at time 10. *)
Definition cache_a_b : LRU.LRUCache nat :=
  LRU.set 0 "b" 2%nat (Some 10%Z)
    (LRU.set 0 "a" 1%nat None (LRU.new_LRUCache nat 2)).

(** A method that returns its first argument. *)
Definition first_argument : string -> string -> result string :=
  fun arg1 _ => Ok arg1.

(** The options of a decorator without a time to live. *)
Definition default_options : CacheDecorator.CacheOptions :=
  CacheDecorator.mkOptions None None.

(** Two calls and a cleanup before the call that is observed. *)
Definition earlier_events : list cache_event :=
  [Call 0 0 "sitting" "kitten"; Call 1 1 "kitten" "sitting"; Cleanup 2].

Import Levenshtein EditDistance.

(** * Edit distance: the recurrence counts minimal edit scripts *)

Module EditDistanceFacts.

Lemma lev_nil_r a : lev a [] = length a.
Proof. destruct a; reflexivity. Qed.

Lemma lev_cons x a y b :
  lev (x :: a) (y :: b) =
  Nat.min (lev (x :: a) b + 1)
          (Nat.min (lev a (y :: b) + 1) (lev a b + cost x y)).
Proof. reflexivity. Qed.

Lemma cost_sym x y : cost x y = cost y x.
Proof. unfold cost. now rewrite Ascii.eqb_sym. Qed.

Lemma cost_refl x : cost x x = 0.
Proof. unfold cost. now rewrite Ascii.eqb_refl. Qed.

Lemma cost_neq x y : x <> y -> cost x y = 1.
Proof. unfold cost. intros H. apply Ascii.eqb_neq in H. now rewrite H. Qed.

Lemma cost_0 x y : cost x y = 0 -> x = y.
Proof.
  unfold cost. destruct (Ascii.eqb x y) eqn:E; [|discriminate].
  intros _. now apply Ascii.eqb_eq.
Qed.

Lemma lev_sym a : forall b, lev a b = lev b a.
Proof.
  induction a as [|x a IHa]; intros b.
  - now rewrite lev_nil_r.
  - induction b as [|y b IHb].
    + reflexivity.
    + rewrite !lev_cons, IHb, (IHa (y :: b)), (IHa b), (cost_sym x y). lia.
Qed.

Lemma lev_refl a : lev a a = 0.
Proof.
  induction a as [|x a IH]; [reflexivity|].
  rewrite lev_cons, IH, cost_refl. lia.
Qed.

Lemma lev_eq_0 a : forall b, lev a b = 0 -> a = b.
Proof.
  induction a as [|x a IH]; intros [|y b] H; try reflexivity;
    try discriminate.
  rewrite lev_cons in H.
  assert (lev a b = 0 /\ cost x y = 0) as [H1 H2] by lia.
  f_equal; [now apply cost_0 | now apply IH].
Qed.

(** The recurrence is reached by an alignment, and no alignment is
    cheaper. *)
Lemma align_nil_l b : align [] b (length b).
Proof. induction b; simpl; constructor; assumption. Qed.

Lemma align_nil_r a : align a [] (length a).
Proof. induction a; simpl; constructor; assumption. Qed.

Lemma align_lev a : forall b, align a b (lev a b).
Proof.
  induction a as [|x a IHa]; intros b.
  - apply align_nil_l.
  - induction b as [|y b IHb].
    + apply (align_nil_r (x :: a)).
    + rewrite lev_cons.
      destruct (Nat.min_spec (lev (x :: a) b + 1)
                  (Nat.min (lev a (y :: b) + 1) (lev a b + cost x y)))
        as [[_ ->]|[_ ->]].
      * rewrite Nat.add_1_r. now apply align_ins.
      * destruct (Nat.min_spec (lev a (y :: b) + 1) (lev a b + cost x y))
          as [[_ ->]|[_ ->]].
        -- rewrite Nat.add_1_r. apply align_del, IHa.
        -- destruct (ascii_dec x y) as [->|Hxy].
           ++ rewrite cost_refl, Nat.add_0_r. apply align_keep, IHa.
           ++ rewrite (cost_neq _ _ Hxy), Nat.add_1_r.
              now apply align_subst.
Qed.

Lemma lev_ins_le a y b : lev a (y :: b) <= S (lev a b).
Proof. destruct a; [simpl; lia | rewrite lev_cons; lia]. Qed.

Lemma lev_del_le x a b : lev (x :: a) b <= S (lev a b).
Proof.
  destruct b; [rewrite !lev_nil_r; simpl; lia | rewrite lev_cons; lia].
Qed.

Lemma lev_le_align a b n : align a b n -> lev a b <= n.
Proof.
  induction 1.
  - reflexivity.
  - rewrite lev_cons, cost_refl. lia.
  - rewrite lev_cons. pose proof (cost_neq x y H). lia.
  - pose proof (lev_del_le x a b). lia.
  - pose proof (lev_ins_le a y b). lia.
Qed.

(** Edit scripts and alignments. *)
Lemma edit1_cons x a b : edit1 a b -> edit1 (x :: a) (x :: b).
Proof.
  destruct 1 as [p c s|p c s|p c d s Hcd].
  - apply (edit_insert (x :: p)).
  - apply (edit_delete (x :: p)).
  - now apply (edit_subst (x :: p)).
Qed.

Lemma edits_cons x n a b : edits n a b -> edits n (x :: a) (x :: b).
Proof.
  induction 1; [constructor|].
  eapply edits_S; [apply edit1_cons|]; eassumption.
Qed.

Lemma align_edits a b n : align a b n -> edits n a b.
Proof.
  induction 1.
  - constructor.
  - now apply edits_cons.
  - eapply edits_S; [apply (edit_subst [] x y a); assumption|].
    now apply edits_cons.
  - eapply edits_S; [apply (edit_delete [] x a)|]. assumption.
  - eapply edits_S; [apply (edit_insert [] y a)|]. now apply edits_cons.
Qed.

Lemma edit1_step a b : edit1 a b -> step a b.
Proof.
  destruct 1 as [p c s|p c s|p c d s Hcd];
    induction p; simpl; try (now apply step_cons); now constructor.
Qed.

Lemma step_sym a b : step a b -> step b a.
Proof. induction 1; constructor; auto. Qed.

Lemma align_refl a : align a a 0.
Proof. induction a; constructor; assumption. Qed.

Lemma align_step a c n :
  align a c n -> forall a', step a a' -> exists m, m <= S n /\ align a' c m.
Proof.
  induction 1 as [|x a b n H IH|x y a b n Hxy H IH|x a b n H IH|y a b n H IH];
    intros a' Hs.
  - inversion Hs; subst. exists 1. split; [lia|].
    apply align_del, align_nil.
  - inversion Hs; subst.
    + exists (S n). split; [lia|]. now apply align_del, align_keep.
    + exists (S n). split; [lia|]. now apply align_ins.
    + exists (S n). split; [lia|]. apply align_subst; [congruence|assumption].
    + destruct (IH _ H3) as (m & Hm & Ha).
      exists m. split; [lia|]. now apply align_keep.
  - inversion Hs; subst.
    + exists (S (S n)). split; [lia|]. now apply align_del, align_subst.
    + exists (S n). split; [lia|]. now apply align_ins.
    + destruct (ascii_dec d y) as [->|Hdy].
      * exists n. split; [lia|]. now apply align_keep.
      * exists (S n). split; [lia|]. now apply align_subst.
    + destruct (IH _ H3) as (m & Hm & Ha).
      exists (S m). split; [lia|]. now apply align_subst.
  - inversion Hs; subst.
    + exists (S (S n)). split; [lia|]. now apply align_del, align_del.
    + exists n. split; [lia|]. assumption.
    + exists (S n). split; [lia|]. now apply align_del.
    + destruct (IH _ H3) as (m & Hm & Ha).
      exists (S m). split; [lia|]. now apply align_del.
  - destruct (IH _ Hs) as (m & Hm & Ha).
    exists (S m). split; [lia|]. now apply align_ins.
Qed.

Lemma edits_align n a b : edits n a b -> exists m, m <= n /\ align a b m.
Proof.
  induction 1 as [a|n a b c H1 H IH].
  - exists 0. split; [lia|]. apply align_refl.
  - destruct IH as (m & Hm & Ha).
    destruct (align_step _ _ _ Ha a (step_sym _ _ (edit1_step _ _ H1)))
      as (m' & Hm' & Ha').
    exists m'. split; [lia|assumption].
Qed.

(** [lev a b] edits transform [a] into [b], and no fewer do. *)
Lemma lev_edits a b : edits (lev a b) a b.
Proof. apply align_edits, align_lev. Qed.

Lemma lev_minimal n a b : edits n a b -> lev a b <= n.
Proof.
  intros H. destruct (edits_align _ _ _ H) as (m & Hm & Ha).
  pose proof (lev_le_align _ _ _ Ha). lia.
Qed.

Lemma edit1_rev a b : edit1 a b -> edit1 (rev a) (rev b).
Proof.
  destruct 1 as [p c s|p c s|p c d s Hcd];
    rewrite !rev_app_distr; simpl; rewrite <- ?app_assoc; simpl.
  - apply edit_insert.
  - apply edit_delete.
  - now apply edit_subst.
Qed.

Lemma edits_rev n a b : edits n a b -> edits n (rev a) (rev b).
Proof.
  induction 1; [constructor|].
  eapply edits_S; [apply edit1_rev|]; eassumption.
Qed.

Lemma lev_rev a b : lev (rev a) (rev b) = lev a b.
Proof.
  apply Nat.le_antisymm.
  - apply lev_minimal, edits_rev, lev_edits.
  - rewrite <- (rev_involutive a), <- (rev_involutive b) at 1.
    apply lev_minimal, edits_rev, lev_edits.
Qed.

Lemma lev_le_max a : forall b, lev a b <= Nat.max (length a) (length b).
Proof.
  induction a as [|x a IH]; intros b; [simpl; lia|].
  destruct b as [|y b]; [simpl; lia|].
  rewrite lev_cons. specialize (IH b). unfold cost.
  destruct (Ascii.eqb x y); simpl; lia.
Qed.

End EditDistanceFacts.

Import Levenshtein EditDistance EditDistanceFacts.

(** * The two-row dynamic program computes the recurrence *)

Module LevenshteinFacts.

Lemma bind_Ok {A B : Type} (a : A) (k : A -> result B) :
  (Ok a ≫= k) = k a.
Proof. reflexivity. Qed.

Lemma length_chars s : length (chars s) = String.length s.
Proof. induction s; simpl; congruence. Qed.

Lemma get_chars s : forall i, String.get i s = chars s !! i.
Proof. induction s as [|c s IH]; intros [|i]; simpl; auto. Qed.

Lemma chars_inj s1 s2 : chars s1 = chars s2 -> s1 = s2.
Proof.
  intros H. rewrite <- (string_of_list_ascii_of_string s1),
    <- (string_of_list_ascii_of_string s2). unfold chars in H. now rewrite H.
Qed.

Lemma array_set_in (a : list (option nat)) i v :
  i < length a -> array_set a i v = <[i := Some v]> a.
Proof.
  intros H. unfold array_set.
  destruct (Nat.ltb_spec i (length a)); [reflexivity|lia].
Qed.

Lemma array_get_Some (a : list (option nat)) i v :
  a !! i = Some (Some v) -> array_get a i = Some v.
Proof. unfold array_get. now intros ->. Qed.

Lemma rev_take_S (l : list ascii) i x :
  l !! i = Some x -> rev (take (S i) l) = x :: rev (take i l).
Proof. intros H. rewrite (take_S_r _ _ _ H). apply rev_unit. Qed.

Lemma init_row_loop len2 : forall n j (r : list (option nat)),
  length r = S len2 -> j + n <= S len2 ->
  exists r', fold_left (fun r j => array_set r j j) (seq j n) r = r' /\
  length r' = S len2 /\
  (forall k, j <= k < j + n -> r' !! k = Some (Some k)) /\
  (forall k, k < j -> r' !! k = r !! k).
Proof.
  induction n as [|n IH]; intros j r Hlen Hj; simpl.
  - exists r. repeat split; [assumption|lia].
  - assert (Hset : array_set r j j = <[j := Some j]> r)
      by (apply array_set_in; lia).
    rewrite Hset.
    destruct (IH (S j) (<[j := Some j]> r)) as (r' & H0 & H1 & H2 & H3);
      [now rewrite length_insert | lia |].
    exists r'. repeat split; [assumption|assumption| |].
    + intros k Hk. destruct (decide (k = j)) as [->|Hne].
      * rewrite H3 by lia. apply list_lookup_insert_eq. lia.
      * apply H2. lia.
    + intros k Hk. rewrite H3 by lia.
      apply list_lookup_insert_ne. lia.
Qed.

Section DP.

Variables s1 s2 : string.

Let len1 := String.length s1.
Let len2 := String.length s2.

Let D := EditDistance.D s1 s2.
Let is_row := EditDistance.is_row s1 s2.

Lemma D_0_r i : i <= len1 -> D i 0 = i.
Proof.
  intros H. unfold D, EditDistance.D. rewrite take_0. simpl. rewrite lev_nil_r.
  rewrite length_rev, length_take, length_chars. unfold len1 in H. lia.
Qed.

Lemma D_0_l j : j <= len2 -> D 0 j = j.
Proof.
  intros H. unfold D, EditDistance.D. rewrite take_0. simpl.
  rewrite length_rev, length_take, length_chars. unfold len2 in H. lia.
Qed.

Lemma D_rec i j :
  1 <= i <= len1 -> 1 <= j <= len2 ->
  D i j =
  Nat.min (D i (j - 1) + 1)
    (Nat.min (D (i - 1) j + 1)
       (D (i - 1) (j - 1) +
        (if char_eqb (String.get (i - 1) s1) (String.get (j - 1) s2)
         then 0 else 1))).
Proof.
  intros Hi Hj. destruct i as [|i]; [lia|]. destruct j as [|j]; [lia|].
  replace (S i - 1) with i by lia. replace (S j - 1) with j by lia.
  destruct (lookup_lt_is_Some_2 (chars s1) i) as [x Hx];
    [rewrite length_chars; unfold len1 in Hi; lia|].
  destruct (lookup_lt_is_Some_2 (chars s2) j) as [y Hy];
    [rewrite length_chars; unfold len2 in Hj; lia|].
  unfold D, EditDistance.D. rewrite !get_chars, Hx, Hy.
  rewrite (rev_take_S _ _ _ Hx), (rev_take_S _ _ _ Hy), lev_cons.
  reflexivity.
Qed.

Lemma init_row_is_row : is_row 0 (init_row len2 (new_Array (len2 + 1))).
Proof.
  destruct (init_row_loop len2 (S len2) 0 (new_Array (len2 + 1)))
    as (r' & H0 & H1 & H2 & _).
  - unfold new_Array. rewrite length_replicate. lia.
  - lia.
  - unfold init_row. rewrite H0.
    split; [exact H1|]. intros k Hk. rewrite D_0_l by assumption.
    apply H2. lia.
Qed.

Lemma inner_step_row i prev (cr : list (option nat)) j :
  1 <= i <= len1 -> is_row (i - 1) prev -> 1 <= j <= len2 ->
  length cr = S len2 -> cr !! (j - 1) = Some (Some (D i (j - 1))) ->
  inner_step s1 s2 i prev cr j = Ok (<[j := Some (D i j)]> cr).
Proof.
  intros Hi [Hlp Hprev] Hj Hlen Hcr. unfold inner_step.
  rewrite (array_get_Some cr (j - 1) (D i (j - 1))) by assumption.
  rewrite (array_get_Some prev j (D (i - 1) j)) by (apply Hprev; lia).
  rewrite (array_get_Some prev (j - 1) (D (i - 1) (j - 1)))
    by (apply Hprev; lia).
  rewrite <- D_rec by lia. now rewrite array_set_in by lia.
Qed.

Lemma inner_loop i prev :
  1 <= i <= len1 -> is_row (i - 1) prev ->
  forall n j (cr : list (option nat)),
    1 <= j -> j + n = S len2 -> length cr = S len2 ->
    (forall k, k < j -> cr !! k = Some (Some (D i k))) ->
    exists cr', foldM (inner_step s1 s2 i prev) (seq j n) cr = Ok cr' /\
                is_row i cr'.
Proof.
  intros Hi Hprev. induction n as [|n IH]; intros j cr Hj Hn Hlen Hcr.
  - exists cr. split; [reflexivity|]. split; [assumption|].
    intros k Hk. apply Hcr. lia.
  - cbn [foldM seq].
    rewrite (inner_step_row i prev cr j) by (auto; try lia; apply Hcr; lia).
    rewrite bind_Ok.
    apply IH; [lia|lia|now rewrite length_insert|].
    intros k Hk. destruct (decide (k = j)) as [->|Hne].
    + apply list_lookup_insert_eq. lia.
    + rewrite list_lookup_insert_ne by lia. apply Hcr. lia.
Qed.

Lemma outer_step_row i prev (cur : list (option nat)) :
  1 <= i <= len1 -> is_row (i - 1) prev -> length cur = S len2 ->
  exists cr', outer_step s1 s2 len2 (prev, cur) i = Ok (cr', prev) /\
              is_row i cr'.
Proof.
  intros Hi Hprev Hcur. unfold outer_step.
  destruct (inner_loop i prev Hi Hprev len2 1 (array_set cur 0 i))
    as (cr' & Hfold & Hrow).
  - lia.
  - lia.
  - rewrite array_set_in by lia. now rewrite length_insert.
  - intros k Hk. replace k with 0 by lia.
    rewrite array_set_in by lia. rewrite D_0_r by lia.
    apply list_lookup_insert_eq. lia.
  - exists cr'. now rewrite Hfold, bind_Ok.
Qed.

Lemma outer_loop : forall n i (prev cur : list (option nat)),
  1 <= i -> i + n = S len1 -> is_row (i - 1) prev -> length cur = S len2 ->
  exists prev' cur',
    foldM (outer_step s1 s2 len2) (seq i n) (prev, cur) = Ok (prev', cur') /\
    is_row len1 prev'.
Proof.
  induction n as [|n IH]; intros i prev cur Hi Hn Hprev Hcur.
  - exists prev, cur. split; [reflexivity|].
    replace len1 with (i - 1) by lia. assumption.
  - cbn [foldM seq].
    destruct (outer_step_row i prev cur) as (cr' & Hstep & Hrow);
      [lia|assumption|assumption|].
    rewrite Hstep, bind_Ok.
    apply IH; [lia|lia| |apply Hprev].
    replace (S i - 1) with i by lia. assumption.
Qed.

Lemma levenshteinDP_lev :
  levenshteinDP s1 s2 = Ok (lev (chars s1) (chars s2)).
Proof.
  unfold levenshteinDP. fold len1 len2.
  destruct (outer_loop len1 1 (init_row len2 (new_Array (len2 + 1)))
              (new_Array (len2 + 1))) as (prev' & cur' & Hfold & Hlen & Hrow).
  - lia.
  - lia.
  - apply init_row_is_row.
  - unfold new_Array. rewrite length_replicate. lia.
  - rewrite Hfold, bind_Ok.
    rewrite (array_get_Some prev' len2 (D len1 len2)) by (apply Hrow; lia).
    f_equal. unfold D, EditDistance.D, len1, len2.
    rewrite <- !length_chars, !firstn_all. apply lev_rev.
Qed.

End DP.

(** The distance, for every pair of strings and with the recursion of the
    source bounded by two calls. *)
Lemma levenshteinDistance_fuel_S fuel s1 s2 :
  levenshteinDistance_fuel (S fuel) s1 s2 =
  if (String.length s1 =? 0)%nat then Ok (String.length s2)
  else if (String.length s2 =? 0)%nat then Ok (String.length s1)
  else if String.eqb s1 s2 then Ok 0%nat
  else if (String.length s1 <? String.length s2)%nat
       then levenshteinDistance_fuel fuel s2 s1
       else levenshteinDP s1 s2.
Proof. reflexivity. Qed.

Lemma levenshteinDistance_fuel_lev fuel s1 s2 :
  2 <= fuel ->
  levenshteinDistance_fuel fuel s1 s2 = Ok (lev (chars s1) (chars s2)).
Proof.
  intros Hfuel. destruct fuel as [|[|fuel]]; try lia.
  rewrite levenshteinDistance_fuel_S.
  pose proof (length_chars s1) as L1. pose proof (length_chars s2) as L2.
  destruct (Nat.eqb_spec (String.length s1) 0) as [E1|N1].
  { destruct (chars s1); [|simpl in L1; lia]. simpl. now rewrite L2. }
  destruct (Nat.eqb_spec (String.length s2) 0) as [E2|N2].
  { destruct (chars s2); [|simpl in L2; lia]. now rewrite lev_nil_r, L1. }
  destruct (String.eqb_spec s1 s2) as [->|Hne].
  { now rewrite lev_refl. }
  destruct (Nat.ltb_spec (String.length s1) (String.length s2)) as [Hlt|Hge].
  - rewrite levenshteinDistance_fuel_S.
    destruct (Nat.eqb_spec (String.length s2) 0); [lia|].
    destruct (Nat.eqb_spec (String.length s1) 0); [lia|].
    destruct (String.eqb_spec s2 s1) as [->|_]; [congruence|].
    destruct (Nat.ltb_spec (String.length s2) (String.length s1)); [lia|].
    rewrite levenshteinDP_lev. f_equal. apply lev_sym.
  - apply levenshteinDP_lev.
Qed.

Lemma levenshteinDistance_lev s1 s2 :
  levenshteinDistance s1 s2 = Ok (lev (chars s1) (chars s2)).
Proof. apply levenshteinDistance_fuel_lev. lia. Qed.

End LevenshteinFacts.

Import Levenshtein EditDistance EditDistanceFacts LevenshteinFacts.

(** * Loops and numbers *)

Module LoopFacts.

(** The rule of a loop with an invariant [I] over the items already
    consumed and a postcondition [Q] of its early exits. *)
Lemma for_loop_ind {S R X : Type} (I : list X -> S -> Prop) (Q : R -> Prop)
    (body : S -> X -> result (ctl S R)) (xs : list X) (s0 : S) :
  I [] s0 ->
  (forall seen x rest s, xs = seen ++ x :: rest -> I seen s ->
     exists c, body s x = Ok c /\
       match c with Next s' => I (seen ++ [x]) s' | Done r => Q r end) ->
  exists c, for_loop body xs s0 = Ok c /\
    match c with Next s' => I xs s' | Done r => Q r end.
Proof.
  intros H0 Hstep.
  assert (G : forall rest seen s, xs = seen ++ rest -> I seen s ->
            exists c, for_loop body rest s = Ok c /\
              match c with Next s' => I xs s' | Done r => Q r end).
  { induction rest as [|x rest IH]; intros seen s Hxs Hs.
    - exists (Next s). rewrite app_nil_r in Hxs. subst. auto.
    - destruct (Hstep seen x rest s Hxs Hs) as (c & Hc & Hpost).
      cbn [for_loop]. rewrite Hc, bind_Ok. destruct c as [s'|r].
      + apply (IH (seen ++ [x])); [|assumption].
        now rewrite <- app_assoc.
      + exists (Done r). auto. }
  now apply (G xs []).
Qed.

Lemma foldM_ind {S X : Type} (I : list X -> S -> Prop)
    (f : S -> X -> result S) (xs : list X) (s0 : S) :
  I [] s0 ->
  (forall seen x rest s, xs = seen ++ x :: rest -> I seen s ->
     exists s', f s x = Ok s' /\ I (seen ++ [x]) s') ->
  exists s', foldM f xs s0 = Ok s' /\ I xs s'.
Proof.
  intros H0 Hstep.
  assert (G : forall rest seen s, xs = seen ++ rest -> I seen s ->
            exists s', foldM f rest s = Ok s' /\ I xs s').
  { induction rest as [|x rest IH]; intros seen s Hxs Hs.
    - exists s. rewrite app_nil_r in Hxs. subst. auto.
    - destruct (Hstep seen x rest s Hxs Hs) as (s' & Hc & Hpost).
      cbn [foldM]. rewrite Hc, bind_Ok.
      apply (IH (seen ++ [x])); [|assumption].
      now rewrite <- app_assoc. }
  now apply (G xs []).
Qed.

Lemma Qgtb_true x y : Qgtb x y = true <-> (y < x)%Q.
Proof.
  unfold Qgtb. rewrite negb_true_iff. split.
  - intros H. apply Qnot_le_lt. intros Hle.
    apply Qle_bool_iff in Hle. congruence.
  - intros H. destruct (Qle_bool x y) eqn:E; [|reflexivity].
    apply Qle_bool_iff in E. lra.
Qed.

Lemma Qgtb_false x y : Qgtb x y = false <-> (x <= y)%Q.
Proof.
  unfold Qgtb. rewrite negb_false_iff. apply Qle_bool_iff.
Qed.

Lemma Qltb_true x y : Qltb x y = true <-> (x < y)%Q.
Proof. apply Qgtb_true. Qed.

Lemma Qltb_false x y : Qltb x y = false <-> (y <= x)%Q.
Proof. apply Qgtb_false. Qed.

Lemma Qeq_bool_false x y : Qeq_bool x y = false <-> ~ (x == y)%Q.
Proof.
  split.
  - intros H E. apply Qeq_bool_iff in E. congruence.
  - intros H. destruct (Qeq_bool x y) eqn:E; [|reflexivity].
    apply Qeq_bool_iff in E. contradiction.
Qed.

Lemma Qmax_cases x y :
  (Qmax x y = x /\ (y <= x)%Q) \/ (Qmax x y = y /\ (x <= y)%Q).
Proof.
  unfold Qmax, GenericMinMax.gmax.
  destruct (x ?= y)%Q eqn:E.
  - left. split; [reflexivity|]. apply Qeq_alt in E. lra.
  - right. split; [reflexivity|]. apply Qlt_alt in E. lra.
  - left. split; [reflexivity|]. apply Qgt_alt in E. lra.
Qed.

Lemma Qnat_pos n : 0 < n -> (0 < Qnat n)%Q.
Proof.
  intros H. unfold Qnat. replace 0%Q with (inject_Z 0) by reflexivity.
  rewrite <- Zlt_Qlt. lia.
Qed.

Lemma Qnat_le n m : n <= m -> (Qnat n <= Qnat m)%Q.
Proof. intros H. unfold Qnat. rewrite <- Zle_Qle. lia. Qed.

Lemma Qnat_lt n m : n < m -> (Qnat n < Qnat m)%Q.
Proof. intros H. unfold Qnat. rewrite <- Zlt_Qlt. lia. Qed.

End LoopFacts.

Import LoopFacts.

(** * The ratio *)

Module RatioFacts.

Lemma ratio_formula_bounds m d :
  0 < d -> d < m ->
  (0 <= (Qnat m - Qnat d) / Qnat m * 100 /\
   (Qnat m - Qnat d) / Qnat m * 100 < 100)%Q.
Proof.
  intros Hd Hm.
  pose proof (Qnat_pos m ltac:(lia)) as Pm.
  pose proof (Qnat_pos d Hd) as Pd.
  pose proof (Qnat_lt d m Hm) as Pdm.
  assert (E : ((Qnat m - Qnat d) / Qnat m * 100 ==
               100 - 100 * (Qnat d / Qnat m))%Q) by (field; lra).
  assert (P1 : (0 < Qnat d / Qnat m)%Q) by (apply Qlt_shift_div_l; lra).
  assert (P2 : (Qnat d / Qnat m < 1)%Q) by (apply Qlt_shift_div_r; lra).
  rewrite E. split; lra.
Qed.

Lemma levenshteinRatio_unfold s1 s2 :
  levenshteinRatio s1 s2 =
  if String.eqb s1 s2 then Ok 100%Q
  else
    let distance := lev (chars s1) (chars s2) in
    let maxLen := Nat.max (String.length s1) (String.length s2) in
    if (maxLen =? 0)%nat then Ok 100%Q
    else if (distance =? 0)%nat then Ok 100%Q
    else if (maxLen <=? distance)%nat then Ok 0%Q
    else Ok (((Qnat maxLen - Qnat distance) / Qnat maxLen) * 100)%Q.
Proof.
  unfold levenshteinRatio. now rewrite levenshteinDistance_lev, bind_Ok.
Qed.

Lemma levenshteinRatio_total s1 s2 :
  exists r, levenshteinRatio s1 s2 = Ok r /\ (0 <= r <= 100)%Q.
Proof.
  rewrite levenshteinRatio_unfold. cbv zeta.
  destruct (String.eqb s1 s2); [exists 100%Q; split; [reflexivity|lra]|].
  destruct (Nat.eqb_spec (Nat.max (String.length s1) (String.length s2)) 0);
    [exists 100%Q; split; [reflexivity|lra]|].
  destruct (Nat.eqb_spec (lev (chars s1) (chars s2)) 0);
    [exists 100%Q; split; [reflexivity|lra]|].
  destruct (Nat.leb_spec (Nat.max (String.length s1) (String.length s2))
              (lev (chars s1) (chars s2)));
    [exists 0%Q; split; [reflexivity|lra]|].
  eexists. split; [reflexivity|].
  pose proof (ratio_formula_bounds
                (Nat.max (String.length s1) (String.length s2))
                (lev (chars s1) (chars s2)) ltac:(lia) ltac:(lia)).
  lra.
Qed.

Lemma levenshteinRatio_value s1 s2 :
  levenshteinRatio s1 s2 = Ok (value_of (levenshteinRatio s1 s2)).
Proof.
  destruct (levenshteinRatio_total s1 s2) as (r & -> & _). reflexivity.
Qed.

Lemma levenshteinRatio_sym s1 s2 :
  levenshteinRatio s1 s2 = levenshteinRatio s2 s1.
Proof.
  rewrite !levenshteinRatio_unfold.
  now rewrite String.eqb_sym, lev_sym, Nat.max_comm.
Qed.

Lemma levenshteinRatio_refl s : levenshteinRatio s s = Ok 100%Q.
Proof. unfold levenshteinRatio. now rewrite String.eqb_refl. Qed.

(** Only equal strings reach 100. *)
Lemma levenshteinRatio_100 s1 s2 r :
  levenshteinRatio s1 s2 = Ok r -> (r == 100)%Q -> s1 = s2.
Proof.
  rewrite levenshteinRatio_unfold. cbv zeta.
  destruct (String.eqb_spec s1 s2) as [|Hne]; [auto|].
  pose proof (length_chars s1) as L1. pose proof (length_chars s2) as L2.
  destruct (Nat.eqb_spec (Nat.max (String.length s1) (String.length s2)) 0)
    as [E|N].
  { intros _ _. apply chars_inj.
    destruct (chars s1), (chars s2); simpl in *; try lia. reflexivity. }
  destruct (Nat.eqb_spec (lev (chars s1) (chars s2)) 0) as [E0|N0].
  { intros _ _. apply chars_inj. now apply lev_eq_0. }
  destruct (Nat.leb_spec (Nat.max (String.length s1) (String.length s2))
              (lev (chars s1) (chars s2))).
  { intros [= <-] H100. lra. }
  intros [= <-] H100.
  pose proof (ratio_formula_bounds
                (Nat.max (String.length s1) (String.length s2))
                (lev (chars s1) (chars s2)) ltac:(lia) ltac:(lia)).
  lra.
Qed.

End RatioFacts.

Import Levenshtein EditDistance EditDistanceFacts LevenshteinFacts.
Import LoopFacts RatioFacts PartialRatio.

(** * partialRatio *)

Module PartialRatioFacts.

Lemma substring_0_split : forall l n s,
  String.substring 0 n l = s -> exists q, l = String.append s q.
Proof.
  induction l as [|c l IH]; intros n s H.
  - destruct n; simpl in H; subst; now exists EmptyString.
  - destruct n as [|n]; simpl in H.
    + subst. now exists (String c l).
    + destruct (IH n _ eq_refl) as (q & Hq). subst s.
      exists q. simpl. now rewrite <- Hq.
Qed.

Lemma substring_split : forall l m n s,
  String.substring m n l = s -> is_substring s l.
Proof.
  induction l as [|c l IH]; intros m n s H.
  - destruct m, n; simpl in H; subst; now exists EmptyString, EmptyString.
  - destruct m as [|m].
    + destruct (substring_0_split _ _ _ H) as (q & Hq).
      now exists EmptyString, q.
    + simpl in H. destruct (IH _ _ _ H) as (p & q & Hpq).
      exists (String c p), q. simpl. now rewrite <- Hpq.
Qed.

Lemma substring_0_app s q :
  String.substring 0 (String.length s) (String.append s q) = s.
Proof. induction s as [|c s IH]; simpl; [now destruct q|now rewrite IH]. Qed.

Lemma substring_app p : forall s q,
  String.substring (String.length p) (String.length s)
    (String.append p (String.append s q)) = s.
Proof. induction p as [|c p IH]; intros s q; simpl; [apply substring_0_app|apply IH]. Qed.

Lemma includes_is_substring longer shorter :
  includes longer shorter = true -> is_substring shorter longer.
Proof.
  unfold includes. destruct (String.index 0 shorter longer) eqn:E;
    [|discriminate].
  intros _. eapply substring_split, String.index_correct1, E.
Qed.

Lemma is_substring_includes longer shorter :
  is_substring shorter longer -> includes longer shorter = true.
Proof.
  intros (p & q & ->). unfold includes.
  destruct (String.index 0 shorter (String.append p (String.append shorter q)))
    eqn:E; [reflexivity|exfalso].
  destruct shorter as [|c s].
  - apply String.index_correct4 in E. lia.
  - eapply (String.index_correct3 _ (String.length p)) in E;
      [|discriminate|lia].
    apply E, substring_app.
Qed.

Lemma startsWith_is_substring longer shorter :
  startsWith longer shorter = true -> is_substring shorter longer.
Proof.
  unfold startsWith. intros H. apply String.prefix_correct in H.
  eapply substring_split, H.
Qed.

Lemma endsWith_is_substring longer shorter :
  endsWith longer shorter = true -> is_substring shorter longer.
Proof.
  unfold endsWith. intros H. apply andb_true_iff in H as [_ H].
  apply String.eqb_eq in H. eapply substring_split, H.
Qed.

(** The loop over the windows keeps the largest ratio met; it leaves early
    only with the largest possible one. *)
Lemma window_loop shorter longer w xs :
  exists c, for_loop (window_step shorter longer w) xs 0%Q = Ok c /\
    let v := match c with Next v => v | Done v => v end in
    let ratio_at i :=
      value_of (levenshteinRatio shorter (String.substring i w longer)) in
    (v == 0 \/ exists i, In i xs /\ v == ratio_at i)%Q /\
    forall i, In i xs -> (ratio_at i <= v)%Q.
Proof.
  set (ratio_at := fun i =>
    value_of (levenshteinRatio shorter (String.substring i w longer))).
  destruct (for_loop_ind
    (fun seen v => (v < 100)%Q /\
       ((v == 0)%Q \/ exists i, In i seen /\ (v == ratio_at i)%Q) /\
       forall i, In i seen -> (ratio_at i <= v)%Q)
    (fun v => (v == 100)%Q /\ exists i, In i xs /\ (v == ratio_at i)%Q)
    (window_step shorter longer w) xs 0%Q) as (c & Hc & Hpost).
  - split; [lra|]. split; [left; reflexivity|]. intros i [].
  - intros seen x rest v Hxs (Hlt & Hv & Hmax). unfold window_step.
    destruct (levenshteinRatio_total shorter (String.substring x w longer))
      as (r & Hr & Hr0 & Hr100).
    assert (Er : ratio_at x = r) by (unfold ratio_at; now rewrite Hr).
    rewrite Hr, bind_Ok.
    assert (Hin : forall i, In i (seen ++ [x]) -> In i seen \/ i = x).
    { intros i Hi. apply in_app_iff in Hi as [Hi|[Hi|[]]]; auto. }
    destruct (Qmax_cases v r) as [[-> Hle]|[-> Hle]].
    + destruct (Qeq_bool v 100) eqn:E.
      * apply Qeq_bool_iff in E. lra.
      * eexists. split; [reflexivity|]. split; [assumption|]. split.
        -- destruct Hv as [Hv|(i & Hi & Hv)]; [now left|right].
           exists i. split; [apply in_app_iff; now left|assumption].
        -- intros i Hi. destruct (Hin i Hi) as [Hs| ->]; [auto|].
           now rewrite Er.
    + destruct (Qeq_bool r 100) eqn:E.
      * apply Qeq_bool_iff in E. eexists. split; [reflexivity|].
        split; [assumption|]. exists x. split; [|now rewrite Er].
        rewrite Hxs. apply in_app_iff. right. now left.
      * apply Qeq_bool_false in E. eexists. split; [reflexivity|].
        split; [lra|]. split.
        -- right. exists x. split; [|now rewrite Er].
           apply in_app_iff. right. now left.
        -- intros i Hi. destruct (Hin i Hi) as [Hs| ->].
           ++ specialize (Hmax i Hs). lra.
           ++ rewrite Er. lra.
  - exists c. split; [assumption|]. cbv zeta. fold ratio_at.
    destruct c as [v|v].
    + destruct Hpost as (_ & Hv & Hmax). auto.
    + destruct Hpost as (Hv & Hi). split; [now right|].
      intros i _. unfold ratio_at.
      destruct (levenshteinRatio_total shorter (String.substring i w longer))
        as (r & -> & Hr). simpl. lra.
Qed.

Lemma partialRatio_windows s1 s2 :
  let shorter :=
    if (String.length s1 <=? String.length s2)%nat then s1 else s2 in
  let longer :=
    if (String.length s2 <? String.length s1)%nat then s1 else s2 in
  String.length s1 <> 0 -> String.length s2 <> 0 ->
  ~ is_substring shorter longer ->
  exists rs v,
    Forall2 (fun i r =>
               levenshteinRatio shorter
                 (String.substring i (String.length shorter) longer) = Ok r)
            (seq 0 (S (String.length longer - String.length shorter))) rs /\
    partialRatio s1 s2 = Ok v /\ is_max v rs.
Proof.
  intros shorter longer H1 H2 Hsub. unfold partialRatio.
  fold shorter longer.
  assert (Hs : String.length shorter <> 0)
    by (unfold shorter; destruct (_ <=? _)%nat; assumption).
  assert (Hl : String.length longer <> 0)
    by (unfold longer; destruct (_ <? _)%nat; assumption).
  destruct (Nat.eqb_spec (String.length shorter) 0); [contradiction|].
  destruct (Nat.eqb_spec (String.length longer) 0); [contradiction|].
  destruct (includes longer shorter) eqn:Ei.
  { exfalso. now apply Hsub, includes_is_substring. }
  destruct (startsWith longer shorter) eqn:Es.
  { exfalso. now apply Hsub, startsWith_is_substring. }
  destruct (endsWith longer shorter) eqn:Ee.
  { exfalso. now apply Hsub, endsWith_is_substring. }
  cbn [orb]. cbv zeta.
  set (xs := seq 0 (S (String.length longer - String.length shorter))).
  set (w := String.length shorter).
  set (ratio_at := fun i =>
    value_of (levenshteinRatio shorter (String.substring i w longer))).
  destruct (window_loop shorter longer w xs) as (c & Hc & Hv & Hmax).
  exists (map ratio_at xs), (match c with Next v => v | Done v => v end).
  split; [|split].
  - apply Forall2_fmap_r, Forall_Forall2_diag, Forall_forall.
    intros i _. apply levenshteinRatio_value.
  - rewrite Hc, bind_Ok. now destruct c.
  - fold ratio_at in Hv, Hmax. split.
    + destruct Hv as [Hv|(i & Hi & Hv)].
      * exists (ratio_at 0). split.
        { apply in_map_iff. exists 0. split; [reflexivity|].
          unfold xs. simpl. now left. }
        assert (H0 : In 0 xs) by (unfold xs; simpl; now left).
        specialize (Hmax 0 H0). unfold ratio_at in *.
        destruct (levenshteinRatio_total shorter
                    (String.substring 0 w longer)) as (r & Hr & Hb).
        rewrite Hr in *. simpl in *. lra.
      * exists (ratio_at i). split; [|assumption].
        apply in_map_iff. now exists i.
    + intros r Hr. apply in_map_iff in Hr as (i & <- & Hi). now apply Hmax.
Qed.

Lemma partialRatio_empty s1 s2 :
  String.length s1 = 0 \/ String.length s2 = 0 -> partialRatio s1 s2 = Ok 0%Q.
Proof.
  intros H. unfold partialRatio.
  destruct (Nat.leb_spec (String.length s1) (String.length s2));
    destruct (Nat.ltb_spec (String.length s2) (String.length s1)); try lia.
  - destruct (Nat.eqb_spec (String.length s1) 0); [reflexivity|].
    destruct (Nat.eqb_spec (String.length s2) 0); [reflexivity|lia].
  - destruct (Nat.eqb_spec (String.length s2) 0); [reflexivity|].
    destruct (Nat.eqb_spec (String.length s1) 0); [reflexivity|lia].
Qed.

Lemma partialRatio_contains s1 s2 :
  let shorter :=
    if (String.length s1 <=? String.length s2)%nat then s1 else s2 in
  let longer :=
    if (String.length s2 <? String.length s1)%nat then s1 else s2 in
  String.length s1 <> 0 -> String.length s2 <> 0 ->
  is_substring shorter longer -> partialRatio s1 s2 = Ok 100%Q.
Proof.
  intros shorter longer H1 H2 Hsub. unfold partialRatio.
  fold shorter longer.
  assert (Hs : String.length shorter <> 0)
    by (unfold shorter; destruct (_ <=? _)%nat; assumption).
  assert (Hl : String.length longer <> 0)
    by (unfold longer; destruct (_ <? _)%nat; assumption).
  destruct (Nat.eqb_spec (String.length shorter) 0); [contradiction|].
  destruct (Nat.eqb_spec (String.length longer) 0); [contradiction|].
  now rewrite (is_substring_includes _ _ Hsub).
Qed.

(** Every outcome of [partialRatio] is a number between 0 and 100. *)
Lemma partialRatio_total s1 s2 :
  exists r, partialRatio s1 s2 = Ok r /\ (0 <= r <= 100)%Q.
Proof.
  unfold partialRatio.
  set (shorter := if (String.length s1 <=? String.length s2)%nat
                  then s1 else s2).
  set (longer := if (String.length s2 <? String.length s1)%nat
                 then s1 else s2).
  destruct (_ =? 0)%nat; [exists 0%Q; split; [reflexivity|lra]|].
  destruct (_ =? 0)%nat; [exists 0%Q; split; [reflexivity|lra]|].
  destruct (includes _ _); [exists 100%Q; split; [reflexivity|lra]|].
  destruct (_ || _); [exists 100%Q; split; [reflexivity|lra]|].
  cbv zeta.
  destruct (window_loop shorter longer (String.length shorter)
              (seq 0 (S (String.length longer - String.length shorter))))
    as (c & Hc & Hv & Hmax).
  rewrite Hc, bind_Ok.
  exists (match c with Next v => v | Done v => v end).
  split; [now destruct c|].
  destruct Hv as [Hv|(i & Hi & Hv)]; [lra|].
  destruct (levenshteinRatio_total shorter
              (String.substring i (String.length shorter) longer))
    as (r & Hr & Hb).
  rewrite Hr in Hv. simpl in Hv. lra.
Qed.

End PartialRatioFacts.

Import Levenshtein EditDistance EditDistanceFacts LevenshteinFacts.
Import LoopFacts RatioFacts PartialRatio PartialRatioFacts.
Import Tokenizer TokenSortRatio TokenSetRatio WeightedRatio.

(** * The token scorers and the weighted dispatcher *)

Module WeightedRatioFacts.

Ltac split_max :=
  unfold Math_max3, Math_max4;
  repeat match goal with
         | |- context [Qmax ?x ?y] =>
             let E := fresh "E" in
             destruct (Qmax_cases x y) as [[E ?]|[E ?]]; rewrite E in *;
             clear E
         | H : context [Qmax ?x ?y] |- _ =>
             let E := fresh "E" in
             destruct (Qmax_cases x y) as [[E ?]|[E ?]]; rewrite E in *;
             clear E
         end.

Lemma tokenize_total str : exists tokens, tokenize str = Ok tokens.
Proof.
  unfold tokenize.
  destruct (for_loop_ind (fun _ _ => True) (fun _ => True)
              (tokenize_step str) (seq 0 (String.length str)) ([], []))
    as (c & Hc & _).
  - exact I.
  - intros seen x rest [tokens tokenChars] _ _. unfold tokenize_step.
    destruct (String.get x str); [|eexists; split; [reflexivity|exact I]].
    destruct (_ || _).
    + destruct (0 <? length tokenChars)%nat;
        eexists; (split; [reflexivity|]); exact I.
    + eexists. split; [reflexivity|exact I].
  - rewrite Hc, bind_Ok.
    destruct (match c with Next st => st | Done st => st end) as [ts tc].
    destruct (0 <? length tc)%nat; eexists; reflexivity.
Qed.

Lemma tokenSortRatio_total s1 s2 :
  exists r, tokenSortRatio s1 s2 = Ok r /\ (0 <= r <= 100)%Q.
Proof.
  unfold tokenSortRatio.
  destruct (tokenize_total s1) as (t1 & ->).
  destruct (tokenize_total s2) as (t2 & ->). rewrite !bind_Ok.
  destruct (_ && _); [exists 100%Q; split; [reflexivity|lra]|].
  destruct (_ || _); [exists 0%Q; split; [reflexivity|lra]|].
  cbv zeta.
  destruct (String.eqb _ _); [exists 100%Q; split; [reflexivity|lra]|].
  apply levenshteinRatio_total.
Qed.

Lemma tokenSetRatio_total s1 s2 :
  exists r, tokenSetRatio s1 s2 = Ok r /\ (0 <= r <= 100)%Q.
Proof.
  unfold tokenSetRatio.
  destruct (tokenize_total s1) as (t1 & ->).
  destruct (tokenize_total s2) as (t2 & ->). rewrite !bind_Ok.
  destruct (_ && _); [exists 100%Q; split; [reflexivity|lra]|].
  destruct (_ || _); [exists 0%Q; split; [reflexivity|lra]|].
  cbv zeta.
  destruct (fold_left _ (tokenSet t1) ([], [])) as [inter only1].
  destruct (length inter =? 0)%nat; [exists 0%Q; split; [reflexivity|lra]|].
  set (only2 := fold_left _ (tokenSet t2) []).
  destruct (levenshteinRatio_total (sortTokens inter)
              (sortTokens (inter ++ only1))) as (r1 & E1 & B1).
  destruct (levenshteinRatio_total (sortTokens inter)
              (sortTokens (inter ++ only2))) as (r2 & E2 & B2).
  destruct (levenshteinRatio_total (sortTokens (inter ++ only1))
              (sortTokens (inter ++ only2))) as (r3 & E3 & B3).
  rewrite E1, E2, E3.
  destruct (0 <? String.length (sortTokens inter))%nat; rewrite !bind_Ok;
    eexists; (split; [reflexivity|]); split_max; lra.
Qed.

Lemma lenRatio_min_max len1 len2 :
  (if (len2 <? len1)%nat then (Qnat len2 / Qnat len1)%Q
   else (Qnat len1 / Qnat len2)%Q) =
  (Qnat (Nat.min len1 len2) / Qnat (Nat.max len1 len2))%Q.
Proof.
  destruct (Nat.ltb_spec len2 len1).
  - now rewrite Nat.min_r, Nat.max_l by lia.
  - now rewrite Nat.min_l, Nat.max_r by lia.
Qed.

Lemma weightedRatio_refl s : weightedRatio s s = Ok 100%Q.
Proof. unfold weightedRatio. now rewrite String.eqb_refl. Qed.

Lemma weightedRatio_cases s1 s2 :
  s1 <> s2 ->
  exists r p ts tset w,
    levenshteinRatio s1 s2 = Ok r /\ partialRatio s1 s2 = Ok p /\
    tokenSortRatio s1 s2 = Ok ts /\ tokenSetRatio s1 s2 = Ok tset /\
    weightedRatio s1 s2 = Ok w /\
    let lenRatio :=
      (Qnat (Nat.min (String.length s1) (String.length s2)) /
       Qnat (Nat.max (String.length s1) (String.length s2)))%Q in
    ((0.8 < lenRatio)%Q -> (w == Math_max3 r ts tset)%Q) /\
    ((lenRatio < 0.6)%Q ->
       (w == Math_max3 p (ts * 0.95) (tset * 0.95))%Q) /\
    ((0.6 <= lenRatio <= 0.8)%Q -> (w == Math_max4 r p ts tset)%Q).
Proof.
  intros Hne.
  destruct (levenshteinRatio_total s1 s2) as (r & Er & Br).
  destruct (partialRatio_total s1 s2) as (p & Ep & Bp).
  destruct (tokenSortRatio_total s1 s2) as (ts & Ets & Bts).
  destruct (tokenSetRatio_total s1 s2) as (tset & Etset & Btset).
  exists r, p, ts, tset.
  unfold weightedRatio. cbv zeta. rewrite lenRatio_min_max.
  set (lenRatio := (Qnat _ / Qnat _)%Q). clearbody lenRatio.
  destruct (String.eqb_spec s1 s2) as [|_]; [contradiction|].
  rewrite Er, Ep, Ets, Etset, !bind_Ok.
  destruct (Qgtb lenRatio 0.8) eqn:G8.
  - apply Qgtb_true in G8.
    destruct (Qeq_bool r 100) eqn:Q1;
      [apply Qeq_bool_iff in Q1|apply Qeq_bool_false in Q1].
    { exists 100%Q. repeat split; try reflexivity; intros; try lra.
      split_max; lra. }
    destruct (Qeq_bool ts 100) eqn:Q2;
      [apply Qeq_bool_iff in Q2|apply Qeq_bool_false in Q2].
    { exists 100%Q. repeat split; try reflexivity; intros; try lra.
      split_max; lra. }
    eexists. repeat split; try reflexivity; intros; lra.
  - apply Qgtb_false in G8. destruct (Qltb lenRatio 0.6) eqn:L6.
    + apply Qltb_true in L6.
      destruct (Qeq_bool p 100) eqn:Q1;
        [apply Qeq_bool_iff in Q1|apply Qeq_bool_false in Q1].
      { exists 100%Q. repeat split; try reflexivity; intros; try lra.
        split_max; lra. }
      eexists. repeat split; try reflexivity; intros; lra.
    + apply Qltb_false in L6.
      destruct (Qeq_bool r 100) eqn:Q1;
        [apply Qeq_bool_iff in Q1|apply Qeq_bool_false in Q1].
      { exists 100%Q. repeat split; try reflexivity; intros; try lra.
        split_max; lra. }
      destruct (Qeq_bool p 100) eqn:Q2;
        [apply Qeq_bool_iff in Q2|apply Qeq_bool_false in Q2].
      { exists 100%Q. repeat split; try reflexivity; intros; try lra.
        split_max; lra. }
      eexists. repeat split; try reflexivity; intros; lra.
Qed.

Lemma weightedRatio_total s1 s2 :
  exists r, weightedRatio s1 s2 = Ok r.
Proof.
  destruct (String.eqb_spec s1 s2) as [->|Hne].
  - exists 100%Q. apply weightedRatio_refl.
  - destruct (weightedRatio_cases s1 s2 Hne)
      as (_ & _ & _ & _ & w & _ & _ & _ & _ & Hw & _).
    now exists w.
Qed.

End WeightedRatioFacts.

Import Levenshtein EditDistance EditDistanceFacts LevenshteinFacts.
Import LoopFacts RatioFacts PartialRatio PartialRatioFacts.
Import Tokenizer TokenSortRatio TokenSetRatio WeightedRatio.
Import WeightedRatioFacts.

(** * Sorting *)

Module SortFacts.

Section Sort.

Context {A : Type} (compareFn : A -> A -> Q).

Lemma sort_insert_perm x l :
  Permutation (sort_insert compareFn x l) (x :: l).
Proof.
  induction l as [|y l IH]; simpl; [reflexivity|].
  destruct (Qgtb (compareFn x y) 0); [|reflexivity].
  rewrite IH. apply perm_swap.
Qed.

Lemma array_sort_perm l : Permutation (array_sort compareFn l) l.
Proof.
  induction l as [|x l IH]; simpl; [reflexivity|].
  unfold array_sort in *. simpl. rewrite sort_insert_perm. now constructor.
Qed.

Lemma array_sort_length l : length (array_sort compareFn l) = length l.
Proof. apply Permutation_length, array_sort_perm. Qed.

(** The comparator never answers "after" both ways. *)
Hypothesis compareFn_total :
  forall a b, (0 < compareFn a b)%Q -> (compareFn b a <= 0)%Q.


Lemma sort_insert_HdRel y x l :
  HdRel (in_order compareFn) y l -> in_order compareFn y x ->
  HdRel (in_order compareFn) y (sort_insert compareFn x l).
Proof.
  intros Hl Hx. destruct l as [|z l]; simpl; [now constructor|].
  destruct (Qgtb (compareFn x z) 0); constructor; [|assumption].
  now inversion Hl.
Qed.

Lemma sort_insert_sorted x l :
  Sorted (in_order compareFn) l -> Sorted (in_order compareFn) (sort_insert compareFn x l).
Proof.
  induction 1 as [|y l Hs IH Hd]; simpl; [repeat constructor|].
  destruct (Qgtb (compareFn x y) 0) eqn:E.
  - apply Qgtb_true in E. constructor; [assumption|].
    apply sort_insert_HdRel; [assumption|]. now apply compareFn_total.
  - apply Qgtb_false in E. repeat constructor; assumption.
Qed.

Lemma array_sort_sorted l : Sorted (in_order compareFn) (array_sort compareFn l).
Proof.
  induction l as [|x l IH]; [constructor|].
  unfold array_sort in *. simpl. now apply sort_insert_sorted.
Qed.

End Sort.

(** The order of [sort()] on strings. *)
Lemma ascii_compare_lt_trans a b c :
  Ascii.compare a b = Lt -> Ascii.compare b c = Lt -> Ascii.compare a c = Lt.
Proof.
  unfold Ascii.compare. rewrite !N.compare_lt_iff. lia.
Qed.

Lemma ascii_compare_refl a : Ascii.compare a a = Eq.
Proof. unfold Ascii.compare. apply N.compare_refl. Qed.

Lemma string_compare_refl s : String.compare s s = Eq.
Proof.
  induction s as [|c s IH]; simpl; [reflexivity|].
  now rewrite ascii_compare_refl.
Qed.

Lemma string_compare_lt_trans a : forall b c,
  String.compare a b = Lt -> String.compare b c = Lt ->
  String.compare a c = Lt.
Proof.
  induction a as [|x a IH]; intros [|y b] [|z c]; simpl; try congruence.
  destruct (Ascii.compare x y) eqn:Exy; try discriminate;
    destruct (Ascii.compare y z) eqn:Eyz; try discriminate; intros H1 H2.
  - apply Ascii.compare_eq_iff in Exy, Eyz. subst.
    rewrite ascii_compare_refl. eauto.
  - apply Ascii.compare_eq_iff in Exy. subst. now rewrite Eyz.
  - apply Ascii.compare_eq_iff in Eyz. subst. now rewrite Exy.
  - now rewrite (ascii_compare_lt_trans _ _ _ Exy Eyz).
Qed.

Lemma ltb_false_leb a b : String.ltb b a = false <-> String.leb a b = true.
Proof.
  unfold String.ltb, String.leb. rewrite (String.compare_antisym a b).
  destruct (String.compare b a); simpl; intuition congruence.
Qed.

Lemma leb_trans a b c :
  String.leb a b = true -> String.leb b c = true -> String.leb a c = true.
Proof.
  unfold String.leb.
  destruct (String.compare a b) eqn:Eab; try discriminate;
    destruct (String.compare b c) eqn:Ebc; try discriminate; intros _ _.
  - apply String.compare_eq_iff in Eab, Ebc. subst.
    now rewrite string_compare_refl.
  - apply String.compare_eq_iff in Eab. subst. now rewrite Ebc.
  - apply String.compare_eq_iff in Ebc. subst. now rewrite Eab.
  - now rewrite (string_compare_lt_trans _ _ _ Eab Ebc).
Qed.

Lemma default_compare_le a b :
  (default_compare a b <= 0)%Q <-> String.leb a b = true.
Proof.
  rewrite <- ltb_false_leb. unfold default_compare.
  destruct (String.ltb a b) eqn:Eab, (String.ltb b a) eqn:Eba;
    split; intros H; try reflexivity; try lra; try discriminate.
  exfalso. unfold String.ltb in *.
  rewrite (String.compare_antisym a b) in Eab.
  destruct (String.compare b a); discriminate.
Qed.

Lemma default_compare_total a b :
  (0 < default_compare a b)%Q -> (default_compare b a <= 0)%Q.
Proof.
  intros H. apply default_compare_le.
  destruct (String.leb_total a b) as [Hab|Hba]; [|assumption].
  apply default_compare_le in Hab. lra.
Qed.

(** Sorting tokens forgets the order they came in. *)
Lemma array_sort_default_perm l l' :
  Permutation l l' ->
  array_sort default_compare l = array_sort default_compare l'.
Proof.
  intros HP.
  assert (HA : AntiSymm eq (fun a b => String.leb a b = true))
    by (intros a b; apply String.leb_antisym).
  apply (StronglySorted_unique (fun a b => String.leb a b = true)).
  - apply Sorted_StronglySorted; [intros a b c; apply leb_trans|].
    eapply Sorted_ind with (P := Sorted _); [constructor| |
      apply (array_sort_sorted default_compare default_compare_total l)].
    intros a l0 _ IH Hd. constructor; [assumption|].
    destruct Hd; constructor. now apply default_compare_le.
  - apply Sorted_StronglySorted; [intros a b c; apply leb_trans|].
    eapply Sorted_ind with (P := Sorted _); [constructor| |
      apply (array_sort_sorted default_compare default_compare_total l')].
    intros a l0 _ IH Hd. constructor; [assumption|].
    destruct Hd; constructor. now apply default_compare_le.
  - rewrite !array_sort_perm. assumption.
Qed.

Lemma sortTokens_perm l l' :
  Permutation l l' -> sortTokens l = sortTokens l'.
Proof.
  intros HP. pose proof (Permutation_length HP) as HL.
  unfold sortTokens. rewrite <- HL.
  destruct (Nat.leb_spec (length l) 1) as [H1|H1].
  - destruct l as [|a [|b l]]; simpl in H1; try lia.
    + apply Permutation_nil in HP. now subst.
    + apply Permutation_length_1_inv in HP. now subst.
  - destruct l as [|a [|b [|c l]]]; simpl in H1; try lia.
    + apply Permutation_length_2_inv in HP as [->| ->]; [reflexivity|].
      unfold String.ltb. rewrite (String.compare_antisym a b).
      destruct (String.compare b a) eqn:E; simpl; try reflexivity.
      apply String.compare_eq_iff in E. now subst.
    + destruct l' as [|a' [|b' [|c' l']]]; simpl in HL; try lia.
      now rewrite (array_sort_default_perm _ _ HP).
Qed.

Lemma Array_sort_length (sort : ArraySort) {A : Type}
    (compareFn : A -> A -> Q) (l : list A) :
  length (Array_sort sort compareFn l) = length l.
Proof. apply Permutation_length, Array_sort_permutes. Qed.

End SortFacts.

Import Levenshtein EditDistance EditDistanceFacts LevenshteinFacts.
Import LoopFacts RatioFacts PartialRatio PartialRatioFacts.
Import Tokenizer TokenSortRatio TokenSetRatio WeightedRatio.
Import WeightedRatioFacts SortFacts.

(** * Symmetry of the scorers *)

Module SymmetryFacts.

Lemma string_length_append p q :
  String.length (String.append p q) = String.length p + String.length q.
Proof. induction p; simpl; congruence. Qed.

Lemma is_substring_same_length s l :
  is_substring s l -> String.length s = String.length l -> s = l.
Proof.
  intros (p & q & ->) H. rewrite !string_length_append in H.
  destruct p; [|simpl in H; lia]. destruct q; [|simpl in H; lia].
  simpl. clear H. induction s; simpl; congruence.
Qed.

Lemma is_substring_refl s : is_substring s s.
Proof.
  exists EmptyString, EmptyString. simpl.
  induction s; simpl; congruence.
Qed.

Lemma substring_0_all s : String.substring 0 (String.length s) s = s.
Proof. induction s; simpl; congruence. Qed.

(** On strings of one length the three containment tests all say whether
    the strings are equal. *)
Lemma includes_same_length a b :
  String.length a = String.length b -> includes a b = String.eqb a b.
Proof.
  intros H. destruct (String.eqb_spec a b) as [->|Hne].
  - apply is_substring_includes, is_substring_refl.
  - destruct (includes a b) eqn:E; [|reflexivity].
    apply includes_is_substring, is_substring_same_length in E; congruence.
Qed.

Lemma startsWith_same_length a b :
  String.length a = String.length b -> a <> b -> startsWith a b = false.
Proof.
  intros H Hne. destruct (startsWith a b) eqn:E; [|reflexivity].
  apply startsWith_is_substring, is_substring_same_length in E; congruence.
Qed.

Lemma endsWith_same_length a b :
  String.length a = String.length b -> a <> b -> endsWith a b = false.
Proof.
  intros H Hne. destruct (endsWith a b) eqn:E; [|reflexivity].
  apply endsWith_is_substring, is_substring_same_length in E; congruence.
Qed.

Lemma partialRatio_sym s1 s2 : partialRatio s1 s2 = partialRatio s2 s1.
Proof.
  unfold partialRatio.
  destruct (Nat.lt_trichotomy (String.length s1) (String.length s2))
    as [H|[H|H]].
  - destruct (Nat.leb_spec (String.length s1) (String.length s2)); [|lia].
    destruct (Nat.ltb_spec (String.length s2) (String.length s1)); [lia|].
    destruct (Nat.leb_spec (String.length s2) (String.length s1)); [lia|].
    destruct (Nat.ltb_spec (String.length s1) (String.length s2)); [|lia].
    reflexivity.
  - destruct (Nat.leb_spec (String.length s1) (String.length s2)); [|lia].
    destruct (Nat.ltb_spec (String.length s2) (String.length s1)); [lia|].
    destruct (Nat.leb_spec (String.length s2) (String.length s1)); [|lia].
    destruct (Nat.ltb_spec (String.length s1) (String.length s2)); [lia|].
    destruct (Nat.eqb_spec (String.length s1) 0),
      (Nat.eqb_spec (String.length s2) 0); try lia; try reflexivity.
    rewrite (includes_same_length s2 s1), (includes_same_length s1 s2),
      (String.eqb_sym s2 s1) by auto.
    destruct (String.eqb_spec s1 s2) as [|Hne]; [reflexivity|].
    rewrite !startsWith_same_length, !endsWith_same_length by auto.
    cbn [orb]. cbv zeta.
    replace (String.length s2 - String.length s1) with 0 by lia.
    replace (String.length s1 - String.length s2) with 0 by lia.
    cbn [seq for_loop]. unfold window_step.
    assert (W1 : String.substring 0 (String.length s1) s2 = s2)
      by (rewrite H; apply substring_0_all).
    assert (W2 : String.substring 0 (String.length s2) s1 = s1)
      by (rewrite <- H; apply substring_0_all).
    rewrite W1, W2, (levenshteinRatio_sym s2 s1). reflexivity.
  - destruct (Nat.leb_spec (String.length s1) (String.length s2)); [lia|].
    destruct (Nat.ltb_spec (String.length s2) (String.length s1)); [|lia].
    destruct (Nat.leb_spec (String.length s2) (String.length s1)); [|lia].
    destruct (Nat.ltb_spec (String.length s1) (String.length s2)); [lia|].
    reflexivity.
Qed.

Lemma tokenSortRatio_sym s1 s2 :
  tokenSortRatio s1 s2 = tokenSortRatio s2 s1.
Proof.
  unfold tokenSortRatio.
  destruct (tokenize_total s1) as (t1 & ->).
  destruct (tokenize_total s2) as (t2 & ->). rewrite !bind_Ok.
  rewrite (andb_comm (length t2 =? 0)%nat), (orb_comm (length t2 =? 0)%nat).
  cbv zeta.
  now rewrite (String.eqb_sym (sortTokens t2)),
    (levenshteinRatio_sym (sortTokens t2)).
Qed.

(** Sets of tokens. *)
Lemma Set_has_In s x : Set_has s x = true <-> In x s.
Proof.
  unfold Set_has. rewrite existsb_exists. split.
  - intros (y & Hy & E). apply String.eqb_eq in E. now subst.
  - intros H. exists x. split; [assumption|apply String.eqb_refl].
Qed.

Lemma Set_has_false s x : Set_has s x = false <-> ~ In x s.
Proof.
  rewrite <- Set_has_In. destruct (Set_has s x); intuition congruence.
Qed.

Lemma Set_add_new s x : ~ In x s -> Set_add s x = s ++ [x].
Proof.
  intros H. unfold Set_add. apply Set_has_false in H. now rewrite H.
Qed.

Lemma Set_add_NoDup s x : List.NoDup s -> List.NoDup (Set_add s x).
Proof.
  intros H. unfold Set_add. destruct (Set_has s x) eqn:E; [assumption|].
  apply Set_has_false in E.
  apply (Permutation_NoDup (l := x :: s)).
  - rewrite Permutation_app_comm. reflexivity.
  - now constructor.
Qed.

Lemma tokenSet_NoDup tokens : List.NoDup (tokenSet tokens).
Proof.
  unfold tokenSet.
  assert (G : forall acc, List.NoDup acc ->
                List.NoDup (fold_left Set_add tokens acc)).
  { induction tokens as [|t ts IH]; intros acc H; simpl; [assumption|].
    apply IH, Set_add_NoDup, H. }
  apply G. constructor.
Qed.

Lemma split_fold (f : list string * list string -> string ->
                      list string * list string) set2 :
  (forall i o t, f (i, o) t =
     if Set_has set2 t then (Set_add i t, o) else (i, Set_add o t)) ->
  forall l i0 o0, List.NoDup l ->
    (forall x, In x l -> ~ In x i0 /\ ~ In x o0) ->
    fold_left f l (i0, o0) =
    (i0 ++ List.filter (Set_has set2) l,
     o0 ++ List.filter (fun t => negb (Set_has set2 t)) l).
Proof.
  intros Hf. induction l as [|t l IH]; intros i0 o0 Hnd Hnew; simpl.
  - now rewrite !app_nil_r.
  - inversion Hnd as [|? ? Ht Hnd']; subst.
    destruct (Hnew t (or_introl eq_refl)) as [Hi Ho].
    rewrite Hf. destruct (Set_has set2 t); simpl.
    + rewrite (Set_add_new _ _ Hi), IH, <- app_assoc; [reflexivity|assumption|].
      intros x Hx. destruct (Hnew x (or_intror Hx)) as [Hxi Hxo].
      split; [|assumption]. rewrite in_app_iff. intros [?|[->|[]]]; auto.
    + rewrite (Set_add_new _ _ Ho), IH, <- app_assoc; [reflexivity|assumption|].
      intros x Hx. destruct (Hnew x (or_intror Hx)) as [Hxi Hxo].
      split; [assumption|]. rewrite in_app_iff. intros [?|[->|[]]]; auto.
Qed.

Lemma only_fold (f : list string -> string -> list string) set1 :
  (forall o t, f o t = if negb (Set_has set1 t) then Set_add o t else o) ->
  forall l o0, List.NoDup l -> (forall x, In x l -> ~ In x o0) ->
    fold_left f l o0 =
    o0 ++ List.filter (fun t => negb (Set_has set1 t)) l.
Proof.
  intros Hf. induction l as [|t l IH]; intros o0 Hnd Hnew; simpl.
  - now rewrite app_nil_r.
  - inversion Hnd as [|? ? Ht Hnd']; subst.
    rewrite Hf. destruct (Set_has set1 t); simpl.
    + apply IH; [assumption|]. intros x Hx. apply Hnew. now right.
    + rewrite (Set_add_new _ _ (Hnew t (or_introl eq_refl))), IH,
        <- app_assoc; [reflexivity|assumption|].
      intros x Hx. rewrite in_app_iff. intros [?|[->|[]]]; [|auto].
      now apply (Hnew x (or_intror Hx)).
Qed.

(** [tokenSetRatio] once the token lists are known. *)
Lemma tokenSetRatio_unfold s1 s2 tokens1 tokens2 :
  tokenize s1 = Ok tokens1 -> tokenize s2 = Ok tokens2 ->
  tokenSetRatio s1 s2 =
  if ((length tokens1 =? 0) && (length tokens2 =? 0))%nat then Ok 100%Q
  else if ((length tokens1 =? 0) || (length tokens2 =? 0))%nat then Ok 0%Q
  else
    let set1 := tokenSet tokens1 in
    let set2 := tokenSet tokens2 in
    let inter := List.filter (Set_has set2) set1 in
    let only1 := List.filter (fun t => negb (Set_has set2 t)) set1 in
    let only2 := List.filter (fun t => negb (Set_has set1 t)) set2 in
    if (length inter =? 0)%nat then Ok 0%Q
    else
      let r1 := value_of (levenshteinRatio (sortTokens inter)
                            (sortTokens (inter ++ only1))) in
      let r2 := value_of (levenshteinRatio (sortTokens inter)
                            (sortTokens (inter ++ only2))) in
      let r3 := value_of (levenshteinRatio (sortTokens (inter ++ only1))
                            (sortTokens (inter ++ only2))) in
      if (0 <? String.length (sortTokens inter))%nat
      then Ok (Math_max3 r1 r2 r3)
      else Ok (Math_max3 0 0 r3).
Proof.
  intros E1 E2. unfold tokenSetRatio. rewrite E1, E2, !bind_Ok.
  destruct (_ && _); [reflexivity|]. destruct (_ || _); [reflexivity|].
  cbv zeta.
  rewrite (split_fold _ (tokenSet tokens2))
    by (auto using tokenSet_NoDup; intros [] []; reflexivity).
  rewrite (only_fold _ (tokenSet tokens1))
    by (auto using tokenSet_NoDup; reflexivity).
  cbn [app].
  destruct (length _ =? 0)%nat; [reflexivity|].
  rewrite (levenshteinRatio_value
             (sortTokens (List.filter (Set_has (tokenSet tokens2))
                            (tokenSet tokens1)))
             (sortTokens (_ ++ List.filter
                (fun t => negb (Set_has (tokenSet tokens2) t)) _))).
  rewrite (levenshteinRatio_value
             (sortTokens (List.filter (Set_has (tokenSet tokens2))
                            (tokenSet tokens1)))
             (sortTokens (_ ++ List.filter
                (fun t => negb (Set_has (tokenSet tokens1) t)) _))).
  rewrite (levenshteinRatio_value
             (sortTokens (_ ++ List.filter
                (fun t => negb (Set_has (tokenSet tokens2) t)) _))
             (sortTokens (_ ++ List.filter
                (fun t => negb (Set_has (tokenSet tokens1) t)) _))).
  destruct (0 <? _)%nat; reflexivity.
Qed.

Lemma inter_perm set1 set2 :
  List.NoDup set1 -> List.NoDup set2 ->
  Permutation (List.filter (Set_has set2) set1)
              (List.filter (Set_has set1) set2).
Proof.
  intros H1 H2. apply Permutation.NoDup_Permutation.
  - now apply List.NoDup_filter.
  - now apply List.NoDup_filter.
  - intros x. rewrite !filter_In, !Set_has_In. tauto.
Qed.

Lemma tokenSetRatio_sym s1 s2 :
  same_result (tokenSetRatio s1 s2) (tokenSetRatio s2 s1).
Proof.
  destruct (tokenize_total s1) as (t1 & E1).
  destruct (tokenize_total s2) as (t2 & E2).
  rewrite (tokenSetRatio_unfold s1 s2 t1 t2 E1 E2),
    (tokenSetRatio_unfold s2 s1 t2 t1 E2 E1).
  rewrite (andb_comm (length t2 =? 0)%nat), (orb_comm (length t2 =? 0)%nat).
  destruct (_ && _); [simpl; reflexivity|].
  destruct (_ || _); [simpl; reflexivity|].
  cbv zeta.
  pose proof (inter_perm (tokenSet t1) (tokenSet t2)
                (tokenSet_NoDup t1) (tokenSet_NoDup t2)) as HP.
  rewrite <- (Permutation_length HP).
  destruct (length _ =? 0)%nat; [simpl; reflexivity|].
  rewrite <- (sortTokens_perm _ _ HP).
  rewrite <- !(sortTokens_perm _ _ (Permutation_app_tail _ HP)).
  rewrite (levenshteinRatio_sym
             (sortTokens (_ ++ List.filter
                (fun t => negb (Set_has (tokenSet t1) t)) _))).
  destruct (0 <? _)%nat; simpl; split_max; lra.
Qed.

Lemma weightedRatio_sym s1 s2 :
  same_result (weightedRatio s1 s2) (weightedRatio s2 s1).
Proof.
  unfold weightedRatio. cbv zeta.
  rewrite !lenRatio_min_max, (Nat.min_comm (String.length s2)),
    (Nat.max_comm (String.length s2)), (String.eqb_sym s2 s1).
  destruct (String.eqb s1 s2); [simpl; reflexivity|].
  rewrite <- (levenshteinRatio_sym s1 s2), <- (partialRatio_sym s1 s2),
    <- (tokenSortRatio_sym s1 s2).
  pose proof (tokenSetRatio_sym s1 s2) as Hset.
  destruct (levenshteinRatio_total s1 s2) as (r & -> & _).
  destruct (partialRatio_total s1 s2) as (p & -> & _).
  destruct (tokenSortRatio_total s1 s2) as (ts & -> & _).
  destruct (tokenSetRatio_total s1 s2) as (tset & Et & _).
  destruct (tokenSetRatio_total s2 s1) as (tset' & Et' & _).
  rewrite Et, Et' in *. simpl in Hset. rewrite !bind_Ok.
  destruct (Qgtb _ 0.8).
  - destruct (Qeq_bool r 100); [simpl; reflexivity|].
    destruct (Qeq_bool ts 100); [simpl; reflexivity|].
    simpl. split_max; lra.
  - destruct (Qltb _ 0.6).
    + destruct (Qeq_bool p 100); [simpl; reflexivity|].
      simpl. split_max; lra.
    + destruct (Qeq_bool r 100); [simpl; reflexivity|].
      destruct (Qeq_bool p 100); [simpl; reflexivity|].
      simpl. split_max; lra.
Qed.

End SymmetryFacts.

Import LevenshteinFacts LoopFacts Tokenizer SortFacts.

(** * The selection engines *)

Module EngineFacts.

Lemma bind_Throw {A B : Type} (e : exn) (k : A -> result B) :
  (Throw e ≫= k) = Throw e.
Proof. reflexivity. Qed.

Lemma zrange_S start n :
  zrange start (S n) = start :: zrange (start + 1) n.
Proof.
  unfold zrange. cbn [seq map]. f_equal; [lia|].
  rewrite <- seq_shift, map_map. apply map_ext. intros k. lia.
Qed.

Lemma zrange_length start n : length (zrange start n) = n.
Proof. unfold zrange. now rewrite length_map, length_seq. Qed.

Lemma zrange_In start n i :
  In i (zrange start n) <-> (start <= i < start + Z.of_nat n)%Z.
Proof.
  unfold zrange. rewrite in_map_iff. split.
  - intros (k & <- & Hk). apply in_seq in Hk. lia.
  - intros H. exists (Z.to_nat (i - start)). split; [lia|].
    apply in_seq. lia.
Qed.

(** The item met after [seen] in a counting loop is [start + |seen|]. *)
Lemma zrange_split start n seen x rest :
  zrange start n = seen ++ x :: rest ->
  x = (start + Z.of_nat (length seen))%Z /\
  (Z.of_nat (length seen) < Z.of_nat n)%Z.
Proof.
  intros H.
  assert (HL : length (zrange start n) = length (seen ++ x :: rest))
    by now rewrite H.
  rewrite zrange_length, length_app in HL. simpl in HL.
  assert (Hx : zrange start n !! length seen = Some x).
  { rewrite H. rewrite lookup_app_r by lia.
    now rewrite Nat.sub_diag. }
  unfold zrange in Hx. rewrite list_lookup_fmap in Hx.
  rewrite lookup_seq_lt in Hx by lia. simpl in Hx.
  split; [congruence|lia].
Qed.

Lemma js_index_nat {A : Type} (a : list A) (k : nat) :
  js_index a (Z.of_nat k) = a !! k.
Proof.
  unfold js_index. destruct (Z.ltb_spec (Z.of_nat k) 0); [lia|].
  now rewrite Nat2Z.id.
Qed.

Lemma js_index_Some {A : Type} (a : list A) (i : Z) :
  (0 <= i < Z.of_nat (length a))%Z -> exists x, js_index a i = Some x.
Proof.
  intros H. unfold js_index. destruct (Z.ltb_spec i 0); [lia|].
  apply lookup_lt_is_Some_2. lia.
Qed.

Lemma js_index_In {A : Type} (a : list A) (i : Z) x :
  js_index a i = Some x -> In x a.
Proof.
  unfold js_index. destruct (i <? 0)%Z; [discriminate|].
  intros H. apply list_elem_of_In. eapply list_elem_of_lookup_2, H.
Qed.

Lemma In_js_index {A : Type} (a : list A) x :
  In x a -> exists i, (0 <= i < Z.of_nat (length a))%Z /\
                      js_index a i = Some x.
Proof.
  intros H. apply list_elem_of_In, list_elem_of_lookup_1 in H as (k & Hk).
  exists (Z.of_nat k). split.
  - apply lookup_lt_Some in Hk. lia.
  - now rewrite js_index_nat.
Qed.

(** Two loops that run the same bodies end alike. *)
Lemma for_loop_ext {S R X : Type} (f g : S -> X -> result (ctl S R)) xs :
  (forall s x, In x xs -> f s x = g s x) ->
  forall s, for_loop f xs s = for_loop g xs s.
Proof.
  induction xs as [|x xs IH]; intros H s; [reflexivity|].
  cbn [for_loop]. rewrite (H s x) by now left.
  destruct (g s x) as [[s'|r]|e]; try reflexivity.
  rewrite !bind_Ok. apply IH. intros s0 x0 Hx. apply H. now right.
Qed.

Lemma foldM_ext {S X : Type} (f g : S -> X -> result S) xs :
  (forall s x, In x xs -> f s x = g s x) ->
  forall s, foldM f xs s = foldM g xs s.
Proof.
  induction xs as [|x xs IH]; intros H s; [reflexivity|].
  cbn [foldM]. rewrite (H s x) by now left.
  destruct (g s x) as [s'|e]; [|reflexivity].
  rewrite !bind_Ok. apply IH. intros s0 x0 Hx. apply H. now right.
Qed.

(** What an early exit of a loop returns was returned by its body. *)
Lemma for_loop_Done {S R X : Type} (body : S -> X -> result (ctl S R)) xs :
  forall s r, for_loop body xs s = Ok (Done r) ->
  exists s' x, In x xs /\ body s' x = Ok (Done r).
Proof.
  induction xs as [|x xs IH]; intros s r H; [discriminate|].
  cbn [for_loop] in H. destruct (body s x) as [[s'|r']|e] eqn:E;
    try discriminate.
  - rewrite bind_Ok in H. destruct (IH _ _ H) as (s0 & x0 & Hx & Hb).
    exists s0, x0. split; [now right|assumption].
  - rewrite bind_Ok in H. injection H as <-.
    exists s, x. split; [now left|assumption].
Qed.

(** ** A scorer that raises *)

Section Raising.

Variable sort : ArraySort.
Variable localeCompare : string -> string -> Z.
Variables (query : string) (choices : list string) (scorer : ScorerFunction).
Variable e : exn.

Hypothesis scorer_raises : forall c, scorer query c = Throw e.
Hypothesis choices_nonempty : choices <> [].

Lemma first_choice : exists c, js_index choices 0 = Some c.
Proof. destruct choices; [contradiction|]. now eexists. Qed.

Lemma len_pos : (0 < Z.of_nat (length choices))%Z.
Proof. destruct choices; [contradiction|]. simpl. lia. Qed.

Lemma heap_step_raises b limit st :
  heap_step sort localeCompare b query choices scorer limit st 0 = Throw e.
Proof.
  unfold heap_step. destruct st as [h pm].
  destruct first_choice as (c & ->). now rewrite scorer_raises.
Qed.

Lemma heap_loop_raises b limit n st :
  (0 < n)%nat ->
  for_loop (heap_step sort localeCompare b query choices scorer limit)
           (zrange 0 n) st = Throw e.
Proof.
  intros Hn. destruct n; [lia|]. rewrite zrange_S. cbn [for_loop].
  now rewrite heap_step_raises.
Qed.

Lemma score_all_step_raises results :
  score_all_step query choices scorer results 0 = Throw e.
Proof.
  unfold score_all_step.
  destruct first_choice as (c & ->). now rewrite scorer_raises.
Qed.

Lemma extract_raises limit :
  (0 < limit)%Z ->
  extract sort localeCompare query choices scorer limit = Throw e.
Proof.
  intros Hlimit. pose proof len_pos as Hlen. unfold extract.
  destruct (Nat.eqb_spec (length choices) 0); [lia|].
  destruct (Z.leb_spec limit 0); [lia|].
  set (limit' := if (Z.of_nat (length choices) <? limit)%Z
                 then Z.of_nat (length choices) else limit).
  destruct (Z.of_nat (length choices) <=? limit' * 2)%Z.
  - destruct (Z.to_nat (Z.of_nat (length choices))) eqn:E; [lia|].
    rewrite zrange_S. cbn [foldM]. now rewrite score_all_step_raises.
  - destruct (8000 <? Z.of_nat (length choices))%Z.
    + unfold extractChunked.
      set (chunkSize := if (200000 <? _)%Z then _ else _).
      assert (Hcs : (0 < chunkSize)%Z).
      { unfold chunkSize. repeat destruct (_ <? _)%Z; lia. }
      unfold range_step.
      destruct (Z.to_nat ((Z.of_nat (length choices) - 0 + chunkSize - 1)
                          / chunkSize)) eqn:E.
      { assert (1 <= (Z.of_nat (length choices) - 0 + chunkSize - 1)
                     / chunkSize)%Z
          by (apply Z.div_le_lower_bound; lia). lia. }
      cbn [seq map for_loop].
      assert (Hstep : forall st,
                chunk_step sort localeCompare query choices scorer limit'
                  (Z.of_nat (length choices)) chunkSize st
                  (0 + Z.of_nat 0 * chunkSize) = Throw e).
      { intros [[h pr] pm]. unfold chunk_step.
        rewrite heap_loop_raises; [reflexivity|]. lia. }
      now rewrite Hstep.
    + rewrite heap_loop_raises; [reflexivity|]. lia.
Qed.

Lemma extractOne_raises Math_random :
  extractOne Math_random query choices scorer = Throw e.
Proof.
  pose proof len_pos as Hlen. unfold extractOne.
  destruct (Nat.eqb_spec (length choices) 0); [lia|].
  destruct first_choice as (c & ->). now rewrite scorer_raises.
Qed.

End Raising.

(** ** extractOne on an exact match *)

Section ExactMatch.

Variables (query : string) (choices : list string) (scorer : ScorerFunction).

Hypothesis scorer_bounded :
  forall c, In c choices -> exists v, scorer query c = Ok v /\ (v <= 100)%Q.
Hypothesis scorer_equal :
  exists v, scorer query query = Ok v /\ (v == 100)%Q.
Hypothesis has_match : In query choices.

Lemma scan_finds_match best0 n :
  (score best0 < 100)%Q ->
  (Z.of_nat n < Z.of_nat (length choices))%Z ->
  exists c, for_loop (consider query choices scorer) (zrange 1 n) best0 = Ok c /\
    match c with
    | Next best =>
        (score best < 100)%Q /\
        forall i, In i (zrange 1 n) -> js_index choices i <> Some query
    | Done best => (score best == 100)%Q
    end.
Proof.
  intros H0 Hn.
  apply (for_loop_ind
    (fun seen best => (score best < 100)%Q /\
       forall i, In i seen -> js_index choices i <> Some query)
    (fun best => (score best == 100)%Q)).
  - split; [assumption|]. intros i [].
  - intros seen x rest best Hxs (Hb & Hseen).
    apply zrange_split in Hxs as (Hx & Hlen).
    destruct (js_index_Some choices x) as (c & Hc); [lia|].
    unfold consider. rewrite Hc.
    destruct (scorer_bounded c (js_index_In _ _ _ Hc)) as (v & Hv & Hle).
    rewrite Hv, bind_Ok.
    assert (Hq : c = query -> (v == 100)%Q).
    { intros ->. destruct scorer_equal as (v' & Hv' & E). congruence. }
    assert (Hnew : forall i, In i (seen ++ [x]) -> c <> query ->
                     js_index choices i <> Some query).
    { intros i Hi Hne. apply in_app_iff in Hi as [Hi|[<-|[]]]; [auto|].
      rewrite Hc. congruence. }
    destruct (Qgtb v (score best)) eqn:G;
      [apply Qgtb_true in G|apply Qgtb_false in G].
    + destruct (Qeq_bool v 100) eqn:E;
        [apply Qeq_bool_iff in E|apply Qeq_bool_false in E].
      * eexists. split; [reflexivity|]. assumption.
      * eexists. split; [reflexivity|]. simpl. split; [lra|].
        intros i Hi. apply (Hnew i Hi). intros Hcq. now apply E, Hq.
    + eexists. split; [reflexivity|]. split; [assumption|].
      intros i Hi. apply (Hnew i Hi). intros Hcq. specialize (Hq Hcq). lra.
Qed.

End ExactMatch.

(** ** Where the random source of the host is consulted *)

Lemma extractOneChunked_random Math_random Math_random' query choices scorer
    initialChoice initialScore :
  (Z.of_nat (length choices) <= 100000)%Z ->
  extractOneChunked Math_random query choices scorer initialChoice
    initialScore =
  extractOneChunked Math_random' query choices scorer initialChoice
    initialScore.
Proof.
  intros Hlen. unfold extractOneChunked.
  destruct (Z.ltb_spec 100000 (Z.of_nat (length choices))) as [|_]; [lia|].
  cbv zeta.
  destruct (20000 <? Z.of_nat (length choices))%Z; [|reflexivity].
  destruct (for_loop _ _ _) as [[best|r]|e]; try reflexivity.
  rewrite !bind_Ok.
  destruct (for_loop _ _ _) as [[best'|r]|e]; try reflexivity.
  rewrite !bind_Ok. now rewrite andb_false_r.
Qed.

Lemma extractOne_random Math_random Math_random' query choices scorer :
  (Z.of_nat (length choices) <= 100000)%Z ->
  extractOne Math_random query choices scorer =
  extractOne Math_random' query choices scorer.
Proof.
  intros Hlen. unfold extractOne.
  destruct (length choices =? 0)%nat; [reflexivity|].
  destruct (js_index choices 0) as [c0|]; [|reflexivity].
  destruct (scorer query c0) as [v0|e0]; [|reflexivity]. rewrite !bind_Ok.
  destruct (Qeq_bool v0 100); [reflexivity|].
  destruct (20000 <? Z.of_nat (length choices))%Z; [|reflexivity].
  now rewrite (extractOneChunked_random Math_random Math_random').
Qed.

End EngineFacts.

Import LevenshteinFacts LoopFacts Tokenizer SortFacts EngineFacts.

(** * The number of results of extract *)

Module LengthFacts.

Lemma bubbleUp_loop_length fuel : forall h index,
  length (bubbleUp_loop fuel h index) = length h.
Proof.
  induction fuel as [|fuel IH]; intros h index; simpl; [reflexivity|].
  destruct (0 <? index)%nat; [|reflexivity].
  destruct (h !! _); [|reflexivity]. destruct (h !! index); [|reflexivity].
  destruct (Qle_bool _ _); [reflexivity|].
  now rewrite IH, !length_insert.
Qed.

Lemma bubbleDown_loop_length fuel : forall h index,
  length (bubbleDown_loop fuel h index) = length h.
Proof.
  induction fuel as [|fuel IH]; intros h index; [reflexivity|].
  cbn [bubbleDown_loop]. cbv zeta.
  destruct (h !! index); [|reflexivity].
  destruct (_ =? index)%nat; [reflexivity|].
  destruct (h !! _); [|reflexivity].
  now rewrite IH, !length_insert.
Qed.

Lemma push_size h r : size (push h r) = size h.
Proof.
  unfold push. destruct (_ <? size h)%Z; [reflexivity|].
  destruct (Qgtb _ _); reflexivity.
Qed.

Lemma push_length h r :
  (0 < size h)%Z ->
  length (heap (push h r)) =
  if (Z.of_nat (length (heap h)) <? size h)%Z then S (length (heap h))
  else length (heap h).
Proof.
  intros Hsize. unfold push.
  destruct (Z.ltb_spec (Z.of_nat (length (heap h))) (size h)); simpl.
  - unfold bubbleUp. rewrite bubbleUp_loop_length, length_app. simpl. lia.
  - destruct (Qgtb _ _); [|reflexivity]. simpl.
    unfold bubbleDown. rewrite bubbleDown_loop_length.
    destruct (heap h) as [|x l]; [simpl in *; lia|].
    unfold set_root. now rewrite length_insert.
Qed.

Lemma push_ok limit k h r :
  (0 < limit)%Z -> (0 <= k)%Z ->
  heap_ok limit k h -> heap_ok limit (k + 1) (push h r).
Proof.
  intros Hlimit Hk [Hs Hl]. split; [now rewrite push_size|].
  rewrite push_length, Hs by lia.
  destruct (Z.ltb_spec (Z.of_nat (length (heap h))) limit); lia.
Qed.

Lemma slice0_length {A : Type} (l : list A) limit :
  length (slice0 l limit) = Nat.min (Z.to_nat limit) (length l).
Proof. unfold slice0. apply length_firstn. Qed.

Section Length.

Variable sort : ArraySort.
Variable localeCompare : string -> string -> Z.
Variables (query : string) (choices : list string) (scorer : ScorerFunction).
Variable limit : Z.

Hypothesis scorer_total : forall c, exists v, scorer query c = Ok v.
Hypothesis limit_pos : (0 < limit)%Z.

Let len := Z.of_nat (length choices).

Lemma getResults_length h :
  length (getResults sort localeCompare h) = length (heap h).
Proof. unfold getResults. apply Array_sort_length. Qed.

(** One batch of candidates through the heap. *)
Lemma heap_loop b start n h pm :
  (0 <= start)%Z -> (start + Z.of_nat n <= len)%Z ->
  heap_ok limit start h -> (pm <= start)%Z ->
  exists c,
    for_loop (heap_step sort localeCompare b query choices scorer limit)
             (zrange start n) (h, pm) = Ok c /\
    match c with
    | Next (h', pm') =>
        heap_ok limit (start + Z.of_nat n) h' /\
        (pm' <= start + Z.of_nat n)%Z
    | Done r => length r = Z.to_nat limit
    end.
Proof.
  intros Hstart Hn Hh Hpm.
  destruct (for_loop_ind
    (fun seen '(h', pm') =>
       heap_ok limit (start + Z.of_nat (length seen)) h' /\
       (pm' <= start + Z.of_nat (length seen))%Z)
    (fun r => length r = Z.to_nat limit)
    (heap_step sort localeCompare b query choices scorer limit)
    (zrange start n) (h, pm)) as (c & Hc & Hpost).
  - simpl. rewrite Z.add_0_r. auto.
  - intros seen x rest [h' pm'] Hxs (Hh' & Hpm').
    apply zrange_split in Hxs as (Hx & Hlen).
    destruct (js_index_Some choices x) as (c & Hc); [unfold len in Hn; lia|].
    unfold heap_step. rewrite Hc.
    destruct (scorer_total c) as (v & ->). rewrite bind_Ok.
    rewrite length_app. cbn [length].
    replace (start + Z.of_nat (length seen + 1))%Z
      with (start + Z.of_nat (length seen) + 1)%Z by lia.
    pose proof (push_ok limit (start + Z.of_nat (length seen)) h'
                  (mkResult c v) limit_pos ltac:(lia) Hh') as Hp.
    destruct (Qeq_bool v 100).
    + destruct (Z.leb_spec limit (pm' + 1)).
      * destruct (_ && _).
        -- eexists. split; [reflexivity|]. cbn beta iota.
           rewrite slice0_length, getResults_length.
           destruct Hp as [_ Hp]. lia.
        -- eexists. split; [reflexivity|]. split; [assumption|lia].
      * eexists. split; [reflexivity|]. split; [assumption|lia].
    + eexists. split; [reflexivity|]. split; [assumption|lia].
  - exists c. split; [assumption|]. destruct c as [[h' pm']|r]; [|assumption].
    now rewrite zrange_length in Hpost.
Qed.

(** A confirmation chunk leaves a full heap full. *)
Lemma sample_loop xs h :
  heap_ok limit limit h ->
  exists h', foldM (sample_step query choices scorer) xs h = Ok h' /\
             heap_ok limit limit h'.
Proof.
  intros Hh.
  apply (foldM_ind (fun _ h' => heap_ok limit limit h')); [assumption|].
  intros seen x rest h0 _ [Hs Hl]. unfold sample_step.
  destruct (js_index choices x) as [c|]; [|now eexists].
  destruct (scorer_total c) as (v & ->). rewrite bind_Ok.
  eexists. split; [reflexivity|]. split; [now rewrite push_size|].
  rewrite push_length, Hs by lia.
  destruct (Z.ltb_spec (Z.of_nat (length (heap h0))) limit); lia.
Qed.

Lemma sample_chunks chunkSize processed cs h :
  heap_ok limit limit h ->
  exists h',
    foldM (fun heap c =>
             let sampleStart := (processed + c * chunkSize)%Z in
             let sampleEnd := Z.min (sampleStart + chunkSize) len in
             foldM (sample_step query choices scorer)
                   (zrange sampleStart (Z.to_nat (sampleEnd - sampleStart)))
                   heap) cs h = Ok h' /\
    heap_ok limit limit h'.
Proof.
  intros Hh.
  apply (foldM_ind (fun _ h' => heap_ok limit limit h')); [assumption|].
  intros seen x rest h0 _ Hh0. cbv zeta. now apply sample_loop.
Qed.

Lemma range_step_split stop step seen x rest :
  (0 < step)%Z ->
  range_step 0 stop step = seen ++ x :: rest ->
  x = (Z.of_nat (length seen) * step)%Z /\ (x < stop)%Z.
Proof.
  intros Hstep H. unfold range_step in H.
  set (n := Z.to_nat ((stop - 0 + step - 1) / step)) in H.
  assert (HL : length (seen ++ x :: rest) = n)
    by (rewrite <- H; now rewrite length_map, length_seq).
  rewrite length_app in HL. simpl in HL.
  assert (Hx : (seen ++ x :: rest) !! length seen = Some x).
  { rewrite lookup_app_r by lia. now rewrite Nat.sub_diag. }
  rewrite <- H, list_lookup_fmap, lookup_seq_lt in Hx by lia.
  simpl in Hx. injection Hx as Hx.
  split; [lia|].
  assert (Hk : (Z.of_nat (length seen) + 1 <= (stop + step - 1) / step)%Z).
  { unfold n in HL. replace (stop - 0)%Z with stop in HL by lia. lia. }
  pose proof (Z.mul_div_le (stop + step - 1) step Hstep). nia.
Qed.

Lemma range_step_covers stop step :
  (0 < step)%Z -> (0 <= stop)%Z ->
  (stop <= Z.of_nat (length (range_step 0 stop step)) * step)%Z.
Proof.
  intros Hstep Hstop. unfold range_step.
  rewrite length_map, length_seq. replace (stop - 0)%Z with stop by lia.
  assert (0 <= (stop + step - 1) / step)%Z
    by (apply Z.div_pos; lia).
  rewrite Z2Nat.id by assumption.
  pose proof (Z.mul_succ_div_gt (stop + step - 1) step Hstep). nia.
Qed.

(** One chunk of the chunked scan; [k] chunks came before. *)
Lemma chunk_step_ok chunkSize k h pm :
  (0 < chunkSize)%Z -> (Z.of_nat k * chunkSize < len)%Z ->
  heap_ok limit (Z.of_nat k * chunkSize) h ->
  (pm <= Z.of_nat k * chunkSize)%Z ->
  exists c,
    chunk_step sort localeCompare query choices scorer limit len chunkSize
      (h, (Z.of_nat k * chunkSize)%Z, pm) (Z.of_nat k * chunkSize) = Ok c /\
    match c with
    | Next (h', processed', pm') =>
        processed' = Z.min (Z.of_nat (S k) * chunkSize) len /\
        heap_ok limit processed' h' /\ (pm' <= processed')%Z
    | Done r => length r = Z.to_nat limit
    end.
Proof.
  intros Hcs Hk Hh Hpm. unfold chunk_step.
  set (start := (Z.of_nat k * chunkSize)%Z) in *.
  set (end_ := Z.min (start + chunkSize) len).
  assert (He : (start < end_ <= len)%Z) by (unfold end_; lia).
  destruct (heap_loop true start (Z.to_nat (end_ - start)) h pm)
    as (c & Hc & Hpost); [lia|lia|assumption|assumption|].
  rewrite Hc, bind_Ok. destruct c as [[h' pm']|r].
  2:{ exists (Done r). auto. }
  cbv zeta.
  replace (start + Z.of_nat (Z.to_nat (end_ - start)))%Z with end_
    in Hpost by lia.
  replace (start + (end_ - start))%Z with end_ by lia.
  destruct Hpost as (Hh' & Hpm').
  assert (Hend : end_ = Z.min (Z.of_nat (S k) * chunkSize) len)
    by (unfold end_, start; lia).
  destruct (Qgtb _ _).
  - rewrite getResults_length.
    destruct (Z.leb_spec limit (Z.of_nat (length (heap h')))).
    + destruct (Qgtb _ 93).
      * destruct (sample_chunks chunkSize end_
                    (zrange 0 (Z.to_nat (Z.min 2 ((len - end_) / chunkSize))))
                    h') as (h'' & Hs & Hh'').
        { destruct Hh' as [Hs' Hl']. split; [assumption|lia]. }
        cbv zeta in Hs. rewrite Hs, bind_Ok.
        eexists. split; [reflexivity|]. cbn beta iota.
        rewrite slice0_length, getResults_length.
        destruct Hh'' as [_ Hl'']. lia.
      * eexists. split; [reflexivity|]. rewrite <- Hend. auto.
    + eexists. split; [reflexivity|]. rewrite <- Hend. auto.
  - eexists. split; [reflexivity|]. rewrite <- Hend. auto.
Qed.

Lemma extractChunked_length :
  (limit <= len)%Z ->
  exists r,
    extractChunked sort localeCompare query choices scorer limit = Ok r /\
            length r = Z.to_nat limit.
Proof.
  intros Hlimit. unfold extractChunked. fold len.
  set (chunkSize := if (200000 <? len)%Z then _ else _).
  assert (Hcs : (0 < chunkSize)%Z).
  { unfold chunkSize. repeat destruct (_ <? _)%Z; lia. }
  destruct (for_loop_ind
    (fun seen '(h, processed, pm) =>
       processed = Z.min (Z.of_nat (length seen) * chunkSize) len /\
       heap_ok limit processed h /\ (pm <= processed)%Z)
    (fun r => length r = Z.to_nat limit)
    (chunk_step sort localeCompare query choices scorer limit len chunkSize)
    (range_step 0 len chunkSize) (mkHeap [] limit, 0%Z, 0%Z))
    as (c & Hc & Hpost).
  - simpl. repeat split; try lia. simpl. lia.
  - intros seen x rest [[h processed] pm] Hxs (Hp & Hh & Hpm).
    apply range_step_split in Hxs as (Hx & Hlt); [|assumption].
    assert (Hproc : processed = (Z.of_nat (length seen) * chunkSize)%Z)
      by lia.
    clear Hp. subst processed x.
    destruct (chunk_step_ok chunkSize (length seen) h pm)
      as (c & Hc & Hpost); [assumption|lia|assumption|assumption|].
    exists c. split; [assumption|].
    destruct c as [[[h' processed'] pm']|r]; [|assumption].
    rewrite length_app. cbn [length].
    now replace (length seen + 1) with (S (length seen)) by lia.
  - rewrite Hc, bind_Ok. destruct c as [[[h processed] pm]|r].
    + destruct Hpost as (Hp & [Hs Hl] & _).
      pose proof (range_step_covers len chunkSize Hcs ltac:(lia)).
      eexists. split; [reflexivity|].
      rewrite slice0_length, getResults_length. lia.
    + now exists r.
Qed.

Lemma score_all_length n :
  (Z.of_nat n <= len)%Z ->
  exists results,
    foldM (score_all_step query choices scorer) (zrange 0 n) [] = Ok results /\
    length results = n.
Proof.
  intros Hn.
  destruct (foldM_ind (fun seen results => length results = length seen)
              (score_all_step query choices scorer) (zrange 0 n) [])
    as (results & Hr & Hpost).
  - reflexivity.
  - intros seen x rest results Hxs Hlen.
    apply zrange_split in Hxs as (Hx & Hlt).
    destruct (js_index_Some choices x) as (c & Hc); [unfold len in Hn; lia|].
    unfold score_all_step. rewrite Hc.
    destruct (scorer_total c) as (v & ->). rewrite bind_Ok.
    eexists. split; [reflexivity|]. rewrite !length_app. simpl. lia.
  - exists results. split; [assumption|]. now rewrite zrange_length in Hpost.
Qed.

End Length.

End LengthFacts.

(** * The loops of the heap end within their bounds *)

Module HeapFacts.

Lemma bubbleUp_loop_fuel fuel1 : forall fuel2 h index,
  index < fuel1 -> index < fuel2 ->
  bubbleUp_loop fuel1 h index = bubbleUp_loop fuel2 h index.
Proof.
  induction fuel1 as [|fuel1 IH]; intros [|fuel2] h index H1 H2; try lia.
  cbn [bubbleUp_loop]. cbv zeta.
  destruct (Nat.ltb_spec 0 index); [|reflexivity].
  destruct (h !! _); [|reflexivity]. destruct (h !! index); [|reflexivity].
  destruct (Qle_bool _ _); [reflexivity|].
  assert ((index - 1) / 2 < index) by (apply Nat.Div0.div_lt_upper_bound; lia).
  apply IH; lia.
Qed.

Lemma bubbleDown_loop_fuel fuel1 : forall fuel2 h index,
  length h - index < fuel1 -> length h - index < fuel2 ->
  bubbleDown_loop fuel1 h index = bubbleDown_loop fuel2 h index.
Proof.
  induction fuel1 as [|fuel1 IH]; intros [|fuel2] h index H1 H2; try lia.
  cbn [bubbleDown_loop]. cbv zeta.
  destruct (h !! index) as [currentItem|] eqn:Ei; [|reflexivity].
  set (smallest1 := match (if (2 * index + 1 <? length h)%nat
                          then h !! (2 * index + 1)%nat else None) with
                    | Some leftItem =>
                        if Qltb (score leftItem) (score currentItem)
                        then (2 * index + 1)%nat else index
                    | None => index
                    end).
  set (smallest := match (if (2 * index + 2 <? length h)%nat
                         then h !! (2 * index + 2)%nat else None),
                         h !! smallest1 with
                   | Some rightItem, Some smallestItem =>
                       if Qltb (score rightItem) (score smallestItem)
                       then (2 * index + 2)%nat else smallest1
                   | _, _ => smallest1
                   end).
  assert (Hs1 : smallest1 = index \/ smallest1 = 2 * index + 1).
  { unfold smallest1. destruct (if (_ <? _)%nat then _ else _); [|auto].
    destruct (Qltb _ _); auto. }
  assert (Hs : smallest = index \/ index < smallest).
  { unfold smallest. clearbody smallest1. destruct (if (_ <? _)%nat then _ else _); [|lia].
    destruct (h !! smallest1); [|lia]. destruct (Qltb _ _); lia. }
  clearbody smallest.
  destruct (Nat.eqb_spec smallest index); [reflexivity|].
  destruct (h !! smallest) eqn:Es; [|reflexivity].
  apply lookup_lt_Some in Es.
  apply IH; rewrite !length_insert; lia.
Qed.

(** [bubbleUp] and [bubbleDown] are given turns enough. *)
Lemma bubbleUp_enough fuel h index :
  index < fuel -> bubbleUp_loop fuel h index = bubbleUp h index.
Proof. intros H. apply bubbleUp_loop_fuel; lia. Qed.

Lemma bubbleDown_enough fuel h index :
  length h < fuel -> bubbleDown_loop fuel h index = bubbleDown h index.
Proof. intros H. apply bubbleDown_loop_fuel; lia. Qed.

End HeapFacts.

Import LevenshteinFacts LoopFacts EngineFacts.

(** * The engines use the scorer through its values on the candidates *)

Module DeterminismFacts.

Section Ext.

Variable sort : ArraySort.
Variable localeCompare : string -> string -> Z.
Variables (query : string) (choices : list string).
Variables scorer scorer' : ScorerFunction.

Hypothesis scorer_agree :
  forall c, In c choices -> scorer query c = scorer' query c.

Lemma consider_ext best idx :
  consider query choices scorer best idx =
  consider query choices scorer' best idx.
Proof.
  unfold consider. destruct (js_index choices idx) as [c|] eqn:E;
    [|reflexivity].
  now rewrite (scorer_agree c (js_index_In _ _ _ E)).
Qed.

Lemma verify_step_ext Math_random len st v :
  verify_step Math_random query choices scorer len st v =
  verify_step Math_random query choices scorer' len st v.
Proof.
  unfold verify_step. destruct st as [best found].
  destruct (js_index choices _) as [c|] eqn:E; [|reflexivity].
  now rewrite (scorer_agree c (js_index_In _ _ _ E)).
Qed.

Lemma score_all_step_ext results i :
  score_all_step query choices scorer results i =
  score_all_step query choices scorer' results i.
Proof.
  unfold score_all_step. destruct (js_index choices i) as [c|] eqn:E;
    [|reflexivity].
  now rewrite (scorer_agree c (js_index_In _ _ _ E)).
Qed.

Lemma heap_step_ext b limit st i :
  heap_step sort localeCompare b query choices scorer limit st i =
  heap_step sort localeCompare b query choices scorer' limit st i.
Proof.
  unfold heap_step. destruct st as [h pm].
  destruct (js_index choices i) as [c|] eqn:E; [|reflexivity].
  now rewrite (scorer_agree c (js_index_In _ _ _ E)).
Qed.

Lemma sample_step_ext h i :
  sample_step query choices scorer h i =
  sample_step query choices scorer' h i.
Proof.
  unfold sample_step. destruct (js_index choices i) as [c|] eqn:E;
    [|reflexivity].
  now rewrite (scorer_agree c (js_index_In _ _ _ E)).
Qed.

Lemma chunk_step_ext limit len chunkSize st start :
  chunk_step sort localeCompare query choices scorer limit len chunkSize
    st start =
  chunk_step sort localeCompare query choices scorer' limit len chunkSize
    st start.
Proof.
  unfold chunk_step. destruct st as [[h processed] pm].
  rewrite (for_loop_ext
             (heap_step sort localeCompare true query choices scorer limit)
             (heap_step sort localeCompare true query choices scorer' limit))
    by (intros; apply heap_step_ext).
  destruct (for_loop _ _ _) as [[[h' pm']|r]|e]; try reflexivity.
  rewrite !bind_Ok. cbv zeta.
  destruct (Qgtb _ _); [|reflexivity].
  destruct (limit <=? _)%Z; [|reflexivity].
  destruct (Qgtb _ 93); [|reflexivity].
  match goal with
  | |- (foldM ?F ?xs ?s ≫= _) = (foldM ?G _ _ ≫= _) =>
      rewrite (foldM_ext F G xs); [reflexivity|]
  end.
  intros s x _. apply foldM_ext. intros; apply sample_step_ext.
Qed.

Lemma extract_ext limit :
  extract sort localeCompare query choices scorer limit =
  extract sort localeCompare query choices scorer' limit.
Proof.
  unfold extract, extractChunked.
  rewrite (foldM_ext (score_all_step query choices scorer)
                     (score_all_step query choices scorer'))
    by (intros; apply score_all_step_ext).
  destruct (length choices =? 0)%nat; [reflexivity|].
  destruct (limit <=? 0)%Z; [reflexivity|].
  set (limit' := if (_ <? limit)%Z then _ else limit).
  destruct (_ <=? limit' * 2)%Z; [reflexivity|].
  destruct (8000 <? _)%Z.
  - match goal with
    | |- (for_loop ?F ?xs ?s ≫= _) = (for_loop ?G _ _ ≫= _) =>
        rewrite (for_loop_ext F G xs); [reflexivity|]
    end.
    intros; apply chunk_step_ext.
  - now rewrite (for_loop_ext
                   (heap_step sort localeCompare false query choices scorer
                      limit')
                   (heap_step sort localeCompare false query choices scorer'
                      limit'))
      by (intros; apply heap_step_ext).
Qed.

Lemma scan_chunk_step_ext len chunkSize threshold high st start :
  scan_chunk_step query choices scorer len chunkSize threshold high st start =
  scan_chunk_step query choices scorer' len chunkSize threshold high st start.
Proof.
  unfold scan_chunk_step. destruct st as [best processed].
  rewrite (for_loop_ext (consider query choices scorer)
                        (consider query choices scorer'))
    by (intros; apply consider_ext).
  destruct (for_loop _ _ _) as [[best'|r]|e]; try reflexivity.
  rewrite !bind_Ok. cbv zeta.
  destruct (Qgtb _ _); [|reflexivity].
  destruct (Qgtb _ _); [|reflexivity].
  match goal with
  | |- (for_loop ?F ?xs ?s ≫= _) = (for_loop ?G _ _ ≫= _) =>
      rewrite (for_loop_ext F G xs); [reflexivity|]
  end.
  intros s x _. cbv beta. destruct (len <=? _)%Z; [reflexivity|].
  apply consider_ext.
Qed.

Lemma extractOneChunked_ext Math_random initialChoice initialScore :
  extractOneChunked Math_random query choices scorer initialChoice
    initialScore =
  extractOneChunked Math_random query choices scorer' initialChoice
    initialScore.
Proof.
  unfold extractOneChunked. cbv zeta.
  set (chunkSize := if (200000 <? _)%Z then _ else _).
  set (threshold := if (100000 <? _)%Z then _ else _).
  assert (Hscan : forall best,
    for_loop (scan_chunk_step query choices scorer
                (Z.of_nat (length choices)) chunkSize threshold 97)
             (range_step 1 (Z.of_nat (length choices)) chunkSize) (best, 1%Z)
    = for_loop (scan_chunk_step query choices scorer'
                  (Z.of_nat (length choices)) chunkSize threshold 97)
               (range_step 1 (Z.of_nat (length choices)) chunkSize)
               (best, 1%Z)).
  { intros best. apply for_loop_ext. intros; apply scan_chunk_step_ext. }
  destruct (20000 <? _)%Z; [|now rewrite Hscan].
  match goal with
  | |- (for_loop ?F ?xs ?s ≫= _) = (for_loop ?G _ _ ≫= _) =>
      rewrite (for_loop_ext F G xs) by (intros; apply consider_ext)
  end.
  destruct (for_loop _ _ _) as [[best|r]|e]; try reflexivity.
  rewrite !bind_Ok.
  rewrite (for_loop_ext (consider query choices scorer)
                        (consider query choices scorer'))
    by (intros; apply consider_ext).
  destruct (for_loop _ _ _) as [[best'|r]|e]; try reflexivity.
  rewrite !bind_Ok.
  destruct (_ && _); [|now rewrite Hscan].
  rewrite (for_loop_ext
             (verify_step Math_random query choices scorer
                (Z.of_nat (length choices)))
             (verify_step Math_random query choices scorer'
                (Z.of_nat (length choices))))
    by (intros; apply verify_step_ext).
  destruct (for_loop _ _ _) as [[[best'' found]|r]|e]; try reflexivity.
  rewrite !bind_Ok. destruct (negb found); [reflexivity|].
  now rewrite Hscan.
Qed.

Lemma extractOne_ext Math_random :
  extractOne Math_random query choices scorer =
  extractOne Math_random query choices scorer'.
Proof.
  unfold extractOne.
  destruct (length choices =? 0)%nat; [reflexivity|].
  destruct (js_index choices 0) as [c0|] eqn:Hc0; [|reflexivity].
  rewrite (scorer_agree c0 (js_index_In _ _ _ Hc0)).
  destruct (scorer' query c0) as [v0|e0]; [|reflexivity]. rewrite !bind_Ok.
  destruct (Qeq_bool v0 100); [reflexivity|].
  destruct (20000 <? _)%Z.
  - now rewrite extractOneChunked_ext.
  - now rewrite (for_loop_ext (consider query choices scorer)
                              (consider query choices scorer'))
      by (intros; apply consider_ext).
Qed.

End Ext.

End DeterminismFacts.

(** * The properties of the specification *)

Import Levenshtein PartialRatio Tokenizer TokenSortRatio TokenSetRatio.
Import WeightedRatio EditDistance.
Import EditDistanceFacts LevenshteinFacts LoopFacts RatioFacts.
Import PartialRatioFacts WeightedRatioFacts SortFacts SymmetryFacts.
Import EngineFacts LengthFacts DeterminismFacts.

(** ** The examples of section 8 of the specification *)

Example distance_kitten_sitting :
  levenshteinDistance "kitten" "sitting" = Ok 3.
Proof. reflexivity. Qed.

Example distance_abc_def : levenshteinDistance "abc" "def" = Ok 3.
Proof. reflexivity. Qed.

Example ratio_abc_def : levenshteinRatio "abc" "def" = Ok 0%Q.
Proof. reflexivity. Qed.

Example tokenSortRatio_John_Smith :
  tokenSortRatio "John Smith" "Smith John" = Ok 100%Q.
Proof. reflexivity. Qed.

Example tokenSetRatio_hello_world :
  exists r, tokenSetRatio "hello hello world" "hello world" = Ok r /\
            (90 < r)%Q.
Proof. exists 100%Q. split; [reflexivity|lra]. Qed.

Example extract_apple :
  extract insertion_sort ascii_localeCompare "apple"
    ["apple"; "apply"; "application"; "banana"]%string weightedRatio 2 =
  Ok [mkResult "apple" 100; mkResult "application" (400 # 5)].
Proof. vm_compute. reflexivity. Qed.

Example extractOne_empty :
  extractOne (fun _ => 0%Q) "q" [] weightedRatio = Ok None.
Proof. reflexivity. Qed.

(** ** C1 *)




(** ** C3 *)

(** C3: with a scorer that does not raise, [extract] returns exactly
    [min(K, |C|)] results when [K > 0], in each of its three tiers and
    whatever sort the host has; it returns the empty sequence when
    [K <= 0] or [C] is empty. *)
Theorem extract_result_count
    (sort : ArraySort) (localeCompare : string -> string -> Z)
    (query : string) (choices : list string) (scorer : ScorerFunction)
    (limit : Z) :
  (forall c, exists v, scorer query c = Ok v) ->
  ((0 < limit)%Z ->
   exists r, extract sort localeCompare query choices scorer limit = Ok r /\
             length r = Z.to_nat (Z.min limit (Z.of_nat (length choices)))) /\
  ((limit <= 0)%Z \/ choices = [] ->
   extract sort localeCompare query choices scorer limit = Ok []).
Proof.
  intros Htotal. unfold extract. split.
  - intros Hlimit.
    destruct (Nat.eqb_spec (length choices) 0) as [E|N].
    { exists []. split; [reflexivity|]. rewrite E. simpl. lia. }
    destruct (Z.leb_spec limit 0); [lia|].
    set (limit' := if (Z.of_nat (length choices) <? limit)%Z
                   then Z.of_nat (length choices) else limit).
    assert (Hl' : limit' = Z.min limit (Z.of_nat (length choices))).
    { unfold limit'.
      destruct (Z.ltb_spec (Z.of_nat (length choices)) limit); lia. }
    rewrite <- Hl'.
    assert (Hpos' : (0 < limit')%Z) by lia.
    destruct (Z.leb_spec (Z.of_nat (length choices)) (limit' * 2)).
    + destruct (score_all_length query choices scorer Htotal
                  (Z.to_nat (Z.of_nat (length choices))))
        as (results & -> & Hr); [lia|].
      rewrite bind_Ok. eexists. split; [reflexivity|].
      rewrite slice0_length, Array_sort_length, Hr. lia.
    + destruct (Z.ltb_spec 8000 (Z.of_nat (length choices))).
      * apply extractChunked_length; [assumption|assumption|lia].
      * destruct (heap_loop sort localeCompare query choices scorer limit'
                    Htotal Hpos' false 0
                    (Z.to_nat (Z.of_nat (length choices)))
                    (mkHeap [] limit') 0)
          as (c & -> & Hpost); [lia|lia|split; simpl; lia|lia|].
        rewrite bind_Ok. destruct c as [[h pm]|r].
        -- destruct Hpost as ([Hs Hl] & _). eexists. split; [reflexivity|].
           rewrite slice0_length, getResults_length. lia.
        -- now exists r.
  - intros H.
    destruct (Nat.eqb_spec (length choices) 0); [reflexivity|].
    destruct (Z.leb_spec limit 0); [reflexivity|].
    destruct H as [H|H]; [lia|]. subst. simpl in *. lia.
Qed.

Lemma extract_result_count_witness :
  exists r,
    extract insertion_sort ascii_localeCompare "a"
      ["apple"; "banana"; "orange"; "grape"; "pineapple"]%string
      (exact_or 50) 2 = Ok r /\
    length r = 2%nat.
Proof.
  apply (extract_result_count insertion_sort ascii_localeCompare "a"
           ["apple"; "banana"; "orange"; "grape"; "pineapple"]%string
           (exact_or 50) 2).
  - intros c. eexists. reflexivity.
  - reflexivity.
Defined.

(** ** C4 *)

(** C4: [levenshteinDistance a b] is the least number of single-character
    insertions, deletions and substitutions that transform [a] into [b];
    the distance between the empty string and [s] is [|s|] on either
    side, and the distance between [s] and itself is 0. *)
Theorem levenshteinDistance_minimal_edits (a b : string) :
  (exists d, levenshteinDistance a b = Ok d /\
             edits d (chars a) (chars b) /\
             forall n, edits n (chars a) (chars b) -> d <= n) /\
  levenshteinDistance "" a = Ok (String.length a) /\
  levenshteinDistance a "" = Ok (String.length a) /\
  levenshteinDistance a a = Ok 0%nat.
Proof.
  rewrite !levenshteinDistance_lev. repeat split.
  - exists (lev (chars a) (chars b)). repeat split.
    + apply lev_edits.
    + intros n. apply lev_minimal.
  - simpl. now rewrite length_chars.
  - simpl. now rewrite lev_nil_r, length_chars.
  - now rewrite lev_refl.
Qed.

(** ** C5 *)

(** C5: for [a <> b], [weightedRatio a b] is the maximum of the ratio, the
    token-sort ratio and the token-set ratio when [lenRatio > 0.8]; of the
    partial ratio and 0.95 times the two token ratios when
    [lenRatio < 0.6]; of all four otherwise; and [weightedRatio s s] is
    100.  The early returns on a component that scores 100 agree with
    these maxima. *)
Theorem weightedRatio_dispatch (a b : string) :
  (a <> b ->
   exists r p ts tset w,
     levenshteinRatio a b = Ok r /\ partialRatio a b = Ok p /\
     tokenSortRatio a b = Ok ts /\ tokenSetRatio a b = Ok tset /\
     weightedRatio a b = Ok w /\
     let lenRatio :=
       (Qnat (Nat.min (String.length a) (String.length b)) /
        Qnat (Nat.max (String.length a) (String.length b)))%Q in
     ((0.8 < lenRatio)%Q -> (w == Math_max3 r ts tset)%Q) /\
     ((lenRatio < 0.6)%Q ->
        (w == Math_max3 p (ts * 0.95) (tset * 0.95))%Q) /\
     ((0.6 <= lenRatio <= 0.8)%Q -> (w == Math_max4 r p ts tset)%Q)) /\
  weightedRatio a a = Ok 100%Q.
Proof.
  split; [apply weightedRatio_cases|apply weightedRatio_refl].
Qed.

(** ** C6 *)

(** C6, as stated, fails for [extractOne]: among 100001 candidates the
    verification pass draws its positions from [Math.random()], and two
    runs on the same arguments return different results: one that draws
    position 0 every time keeps ["a"] (score 99), one that draws position
    99999 finds ["b"] (score 100). *)
Lemma extractOne_depends_on_random :
  extractOne (fun _ => 0%Q) "b" choices_100001 (exact_or 99) =
    Ok (Some (mkResult "a" 99)) /\
  extractOne (fun _ => 0.999985%Q) "b" choices_100001 (exact_or 99) =
    Ok (Some (mkResult "b" 100)).
Proof. split; vm_compute; reflexivity. Qed.

(** C6, amended: on a host, the outcome of [extract] depends on the
    scorer only through its values on the candidates, so that two
    invocations with identical arguments and a deterministic scorer
    return the same sequence; the same holds of [extractOne], whatever
    the random source of the host returns, as long as there are at most
    100000 candidates. *)
Theorem selection_deterministic
    (sort : ArraySort) (localeCompare : string -> string -> Z)
    (Math_random Math_random' : nat -> Q) (query : string)
    (choices : list string) (scorer scorer' : ScorerFunction) (limit : Z) :
  (forall c, In c choices -> scorer query c = scorer' query c) ->
  extract sort localeCompare query choices scorer limit =
  extract sort localeCompare query choices scorer' limit /\
  ((Z.of_nat (length choices) <= 100000)%Z ->
   extractOne Math_random query choices scorer =
   extractOne Math_random' query choices scorer').
Proof.
  intros Hagree. split.
  - now apply extract_ext.
  - intros Hlen.
    rewrite (extractOne_ext query choices scorer scorer' Hagree Math_random).
    now apply extractOne_random.
Qed.

Lemma selection_deterministic_witness :
  extract insertion_sort ascii_localeCompare "apple"
    ["banana"; "apple"]%string (exact_or 98) 5 =
  extract insertion_sort ascii_localeCompare "apple"
    ["banana"; "apple"]%string (exact_or 98) 5 /\
  ((Z.of_nat (length ["banana"; "apple"]%string) <= 100000)%Z ->
   extractOne (fun _ => 0%Q) "apple" ["banana"; "apple"]%string
     (exact_or 98) =
   extractOne (fun _ => 0.999985%Q) "apple" ["banana"; "apple"]%string
     (exact_or 98)).
Proof.
  apply (selection_deterministic insertion_sort ascii_localeCompare
           (fun _ => 0%Q)
           (fun _ => 0.999985%Q) "apple" ["banana"; "apple"]%string
           (exact_or 98) (exact_or 98) 5).
  intros c _. reflexivity.
Defined.

(** ** C7 *)

(** C7: if the scorer raises the exception [e] on every call, then on a
    non-empty candidate list [extractOne] raises [e], and so does
    [extract] for every limit above 0. *)
Theorem scorer_exception_propagates
    (sort : ArraySort) (localeCompare : string -> string -> Z)
    (Math_random : nat -> Q)
    (query : string) (choices : list string) (scorer : ScorerFunction)
    (e : exn) (limit : Z) :
  (forall s1 s2, scorer s1 s2 = Throw e) ->
  choices <> [] ->
  ((0 < limit)%Z ->
   extract sort localeCompare query choices scorer limit = Throw e) /\
  extractOne Math_random query choices scorer = Throw e.
Proof.
  intros Hraise Hne. split.
  - intros Hlimit. now apply extract_raises.
  - now apply extractOne_raises.
Qed.

Lemma scorer_exception_propagates_witness :
  ((0 < 5)%Z ->
   extract insertion_sort ascii_localeCompare "test" ["apple"]%string
     raising_scorer 5 =
   Throw (Error "Scorer error")) /\
  extractOne (fun _ => 0%Q) "test" ["apple"]%string raising_scorer =
  Throw (Error "Scorer error").
Proof.
  apply (scorer_exception_propagates insertion_sort ascii_localeCompare
           (fun _ => 0%Q)
           "test" ["apple"]%string raising_scorer (Error "Scorer error") 5).
  - intros s1 s2. reflexivity.
  - discriminate.
Defined.

(** ** C8 *)

(** C8: with [shorter] and [longer] being [a] and [b] ordered by length,
    [partialRatio a b] is 0 when either string is empty; otherwise 100
    when [longer] contains [shorter] as a substring; otherwise the maximum
    of [ratio(shorter, longer[i .. i+|shorter|])] over every offset [i]
    from 0 to [|longer| - |shorter|].  In particular
    [partialRatio("abc", "abcdef") = 100] and [partialRatio("", "x") = 0]. *)
Theorem partialRatio_spec (a b : string) :
  let shorter :=
    if (String.length a <=? String.length b)%nat then a else b in
  let longer :=
    if (String.length b <? String.length a)%nat then a else b in
  (String.length a = 0%nat \/ String.length b = 0%nat ->
   partialRatio a b = Ok 0%Q) /\
  (String.length a <> 0%nat -> String.length b <> 0%nat ->
   is_substring shorter longer -> partialRatio a b = Ok 100%Q) /\
  (String.length a <> 0%nat -> String.length b <> 0%nat ->
   ~ is_substring shorter longer ->
   exists rs v,
     Forall2 (fun i r =>
                levenshteinRatio shorter
                  (String.substring i (String.length shorter) longer) = Ok r)
             (seq 0 (S (String.length longer - String.length shorter))) rs /\
     partialRatio a b = Ok v /\ is_max v rs) /\
  partialRatio "abc" "abcdef" = Ok 100%Q /\
  partialRatio "" "x" = Ok 0%Q.
Proof.
  cbv zeta. split; [|split; [|split; [|split]]].
  - apply partialRatio_empty.
  - apply partialRatio_contains.
  - apply partialRatio_windows.
  - reflexivity.
  - reflexivity.
Qed.

(** ** C9 *)

(** C9: [levenshteinDistance] returns a number for every pair of strings:
    neither read of the two rows nor the read of the final cell meets
    [undefined], so no "Array index out of bounds" is raised; and the
    function calls itself at most once. *)
Theorem levenshteinDistance_never_raises (a b : string) :
  exists d,
    levenshteinDistance a b = Ok d /\
    levenshteinDistance a b <> Throw out_of_bounds /\
    forall fuel, 2 <= fuel -> levenshteinDistance_fuel fuel a b = Ok d.
Proof.
  exists (lev (chars a) (chars b)). rewrite levenshteinDistance_lev.
  split; [reflexivity|]. split; [discriminate|].
  intros fuel. apply levenshteinDistance_fuel_lev.
Qed.

(** ** C10 *)

(** C10: every built-in scorer returns the same value when its two
    arguments are swapped: [ratio], [partialRatio], [tokenSortRatio],
    [tokenSetRatio] and [weightedRatio]. *)
Theorem scorers_symmetric (a b : string) :
  levenshteinRatio a b = levenshteinRatio b a /\
  partialRatio a b = partialRatio b a /\
  tokenSortRatio a b = tokenSortRatio b a /\
  (exists r r', tokenSetRatio a b = Ok r /\ tokenSetRatio b a = Ok r' /\
                (r == r')%Q) /\
  (exists r r', weightedRatio a b = Ok r /\ weightedRatio b a = Ok r' /\
                (r == r')%Q).
Proof.
  split; [apply levenshteinRatio_sym|].
  split; [apply partialRatio_sym|].
  split; [apply tokenSortRatio_sym|].
  split.
  - pose proof (tokenSetRatio_sym a b) as H.
    destruct (tokenSetRatio_total a b) as (r & Hr & _).
    destruct (tokenSetRatio_total b a) as (r' & Hr' & _).
    rewrite Hr, Hr' in H. now exists r, r'.
  - pose proof (weightedRatio_sym a b) as H.
    destruct (weightedRatio_total a b) as (r & Hr).
    destruct (weightedRatio_total b a) as (r' & Hr').
    rewrite Hr, Hr' in H. now exists r, r'.
Qed.

(** * Further facts on the distance and the ratios *)

Module MetricFacts.

Lemma edits_app n a b : edits n a b ->
  forall m c, edits m b c -> edits (n + m) a c.
Proof.
  induction 1 as [a|n a b b' H1 H IH]; intros m c Hm; [assumption|].
  simpl. eapply edits_S; [eassumption|]. now apply IH.
Qed.

Lemma align_lengths a b n :
  align a b n -> length a <= length b + n /\ length b <= length a + n.
Proof. induction 1; simpl; lia. Qed.

(** A window of [longer] that equals [shorter] witnesses containment. *)
Lemma ratio_100_window shorter longer i w r :
  levenshteinRatio shorter (String.substring i w longer) = Ok r ->
  (r == 100)%Q -> is_substring shorter longer.
Proof.
  intros Hr H100. pose proof (levenshteinRatio_100 _ _ _ Hr H100) as E.
  eapply substring_split. symmetry. exact E.
Qed.

End MetricFacts.

Import MetricFacts.

(** * The tokenizer *)

Module TokenFacts.

Lemma chars_string_of_list l : chars (string_of_list_ascii l) = l.
Proof. apply list_ascii_of_string_of_list_ascii. Qed.

Lemma string_of_chars s : string_of_list_ascii (chars s) = s.
Proof. apply string_of_list_ascii_of_string. Qed.

Lemma chars_toLowerCase s : chars (toLowerCase s) = map lower_char (chars s).
Proof. induction s as [|c s IH]; simpl; [reflexivity|]. now rewrite IH. Qed.

Lemma chars_append s t :
  chars (String.append s t) = chars s ++ chars t.
Proof. induction s as [|c s IH]; simpl; [reflexivity|]. now rewrite IH. Qed.

Lemma lower_char_idem c : lower_char (lower_char c) = lower_char c.
Proof. destruct c as [[] [] [] [] [] [] [] []]; reflexivity. Qed.

Lemma lower_char_delimiter c : is_delimiter (lower_char c) = is_delimiter c.
Proof. destruct c as [[] [] [] [] [] [] [] []]; reflexivity. Qed.

Lemma toLowerCase_idem s : toLowerCase (toLowerCase s) = toLowerCase s.
Proof.
  induction s as [|c s IH]; simpl; [reflexivity|].
  now rewrite lower_char_idem, IH.
Qed.

(** The loop over the indices of [str] is a scan of its characters. *)
Lemma tokenize_step_scan str i c st :
  chars str !! i = Some c ->
  tokenize_step str st i = Ok (Next (scan_char st c)).
Proof.
  intros H. unfold tokenize_step, scan_char. destruct st as [tokens cur].
  rewrite get_chars, H. unfold is_delimiter. cbv zeta.
  destruct (_ || _); [|reflexivity].
  destruct (0 <? length cur)%nat; reflexivity.
Qed.

Lemma tokenize_loop_scan str : forall n k st,
  k + n = length (chars str) ->
  for_loop (tokenize_step str) (seq k n) st =
  Ok (Next (fold_left scan_char (drop k (chars str)) st)).
Proof.
  induction n as [|n IH]; intros k st Hk.
  - rewrite drop_ge by lia. reflexivity.
  - destruct (lookup_lt_is_Some_2 (chars str) k) as [c Hc]; [lia|].
    cbn [seq for_loop]. rewrite (tokenize_step_scan _ _ _ _ Hc), bind_Ok.
    rewrite IH by lia. rewrite (drop_S _ _ _ Hc). reflexivity.
Qed.

Lemma tokenize_scan str :
  tokenize str =
  let '(tokens, tokenChars) := fold_left scan_char (chars str) ([], []) in
  if (0 <? length tokenChars)%nat
  then Ok (tokens ++ [toLowerCase (join_chars tokenChars)])
  else Ok tokens.
Proof.
  unfold tokenize. rewrite <- length_chars.
  rewrite (tokenize_loop_scan str (length (chars str)) 0) by lia.
  rewrite drop_0, bind_Ok. reflexivity.
Qed.

Lemma is_token_lower cur :
  cur <> [] -> Forall (fun c => is_delimiter c = false) cur ->
  is_token (toLowerCase (join_chars cur)).
Proof.
  intros Hne Hcur. split.
  - intros E. apply (f_equal chars) in E.
    rewrite chars_toLowerCase in E. unfold join_chars in E.
    rewrite chars_string_of_list in E. destruct cur; [congruence|discriminate].
  - rewrite chars_toLowerCase. unfold join_chars.
    rewrite chars_string_of_list. apply Forall_map.
    eapply Forall_impl; [exact Hcur|]. intros c Hc. cbv beta.
    now rewrite lower_char_delimiter, lower_char_idem.
Qed.

Lemma scan_char_inv seen st c :
  scan_inv seen st -> scan_inv (seen ++ [c]) (scan_char st c).
Proof.
  destruct st as [tokens cur]. unfold scan_inv, scan_char.
  intros (Ht & Hc & Hcat). rewrite List.filter_app, map_app. cbn [List.filter].
  destruct (is_delimiter c) eqn:Ec; cbn [negb map].
  - rewrite app_nil_r.
    destruct (Nat.ltb_spec 0 (length cur)) as [Hpos|Hzero].
    + split; [|split; [constructor|]].
      * apply Forall_app. split; [assumption|]. constructor; [|constructor].
        apply is_token_lower; [|assumption]. destruct cur; [simpl in *; lia|].
        discriminate.
      * rewrite map_app, concat_app. cbn [map List.concat].
        rewrite chars_toLowerCase. unfold join_chars.
        rewrite chars_string_of_list, !app_nil_r. exact Hcat.
    + auto.
  - split; [assumption|]. split.
    + apply Forall_app. split; [assumption|]. now constructor.
    + now rewrite map_app, app_assoc, Hcat.
Qed.

Lemma scan_inv_fold cs : forall seen st,
  scan_inv seen st -> scan_inv (seen ++ cs) (fold_left scan_char cs st).
Proof.
  induction cs as [|c cs IH]; intros seen st H; simpl.
  - now rewrite app_nil_r.
  - replace (seen ++ c :: cs) with ((seen ++ [c]) ++ cs)
      by now rewrite <- app_assoc.
    apply IH, scan_char_inv, H.
Qed.

Lemma chars_concat_nil tokens :
  chars (String.concat "" tokens) = List.concat (map chars tokens).
Proof.
  induction tokens as [|t [|t' ts] IH]; [reflexivity| |].
  - simpl. now rewrite app_nil_r.
  - change (String.concat "" (t :: t' :: ts))
      with (String.append t (String.append "" (String.concat "" (t' :: ts)))).
    rewrite chars_append. cbn [String.append].
    rewrite IH. reflexivity.
Qed.

(** The upper-case letters of Latin-1 are lower-cased with [A-Z]. *)
Example tokenize_Ecole :
  tokenize (String.append Ecole " T") = Ok [ecole; "t"%string].
Proof. reflexivity. Qed.

(** X5: [tokenize] returns, without raising, tokens that are non-empty,
    free of delimiters (space, tab, line feed, dash, underscore) and of
    upper-case letters; put end to end they are the lower-cased input
    less its delimiters, so no other character is lost or added. *)
Lemma tokenize_spec str :
  exists tokens,
    tokenize str = Ok tokens /\ Forall is_token tokens /\
    String.concat "" tokens = toLowerCase (remove_delimiters str).
Proof.
  rewrite tokenize_scan.
  pose proof (scan_inv_fold (chars str) [] ([], [])) as H.
  destruct (fold_left scan_char (chars str) ([], [])) as [tokens cur].
  destruct H as (Ht & Hc & Hcat).
  { split; [constructor|]. split; [constructor|reflexivity]. }
  cbn [app] in Hcat.
  assert (Hcat' : forall toks,
            List.concat (map chars toks) =
            map lower_char
              (List.filter (fun c => negb (is_delimiter c)) (chars str)) ->
            String.concat "" toks = toLowerCase (remove_delimiters str)).
  { intros toks E. apply chars_inj.
    rewrite chars_concat_nil, chars_toLowerCase. unfold remove_delimiters.
    now rewrite chars_string_of_list. }
  destruct (Nat.ltb_spec 0 (length cur)) as [Hpos|Hzero].
  - eexists. split; [reflexivity|]. split.
    + apply Forall_app. split; [assumption|]. constructor; [|constructor].
      apply is_token_lower; [|assumption]. destruct cur; [simpl in *; lia|].
      discriminate.
    + apply Hcat'. rewrite map_app, concat_app. cbn [map List.concat].
      rewrite chars_toLowerCase. unfold join_chars.
      rewrite chars_string_of_list, app_nil_r. exact Hcat.
  - exists tokens. split; [reflexivity|]. split; [assumption|].
    apply Hcat'. destruct cur; [|simpl in *; lia].
    now rewrite app_nil_r in Hcat.
Qed.

End TokenFacts.

Import MetricFacts TokenFacts.

(** * Tokens joined and sorted *)

Module TokenOrderFacts.

Lemma is_token_fixed t : is_token t -> toLowerCase (join_chars (chars t)) = t.
Proof.
  intros [_ H]. unfold join_chars. apply chars_inj.
  rewrite chars_toLowerCase, chars_string_of_list.
  induction H as [|c l [_ Hc] _ IH]; simpl; [reflexivity|].
  now rewrite Hc, IH.
Qed.

Lemma scan_token cs : forall toks cur,
  Forall (fun c => is_delimiter c = false) cs ->
  fold_left scan_char cs (toks, cur) = (toks, cur ++ cs).
Proof.
  induction cs as [|c cs IH]; intros toks cur H; simpl.
  - now rewrite app_nil_r.
  - inversion H as [|? ? Hc Hcs]; subst. rewrite Hc, IH by assumption.
    now rewrite <- app_assoc.
Qed.

Lemma is_token_chars t :
  is_token t ->
  chars t <> [] /\ Forall (fun c => is_delimiter c = false) (chars t).
Proof.
  intros [Hne H]. split.
  - intros E. apply Hne, chars_inj. now rewrite E.
  - eapply Forall_impl; [exact H|]. now intros c [Hc _].
Qed.

Lemma scan_join ts : forall t toks,
  Forall is_token (t :: ts) ->
  exists tk cur,
    fold_left scan_char (chars (join (t :: ts))) (toks, []) = (tk, cur) /\
    cur <> [] /\
    tk ++ [toLowerCase (join_chars cur)] = toks ++ t :: ts.
Proof.
  induction ts as [|t' ts IH]; intros t toks H;
    inversion H as [|? ? Ht Hts]; subst;
    destruct (is_token_chars t Ht) as [Hne Hnd].
  - exists toks, (chars t). unfold join. cbn [String.concat].
    rewrite scan_token by assumption. cbn [app].
    split; [reflexivity|]. split; [assumption|].
    now rewrite is_token_fixed.
  - unfold join in *.
    change (String.concat " " (t :: t' :: ts))
      with (String.append t
              (String.append " " (String.concat " " (t' :: ts)))).
    rewrite chars_append, fold_left_app, scan_token by assumption.
    cbn [app String.append chars list_ascii_of_string fold_left].
    change (list_ascii_of_string (String.concat " " (t' :: ts)))
      with (chars (String.concat " " (t' :: ts))).
    unfold scan_char at 2. cbn [is_delimiter].
    replace (is_delimiter " ") with true by reflexivity.
    destruct (Nat.ltb_spec 0 (length (chars t))) as [_|Hz];
      [|destruct (chars t); [congruence|simpl in Hz; lia]].
    rewrite is_token_fixed by assumption.
    destruct (IH t' (toks ++ [t]) Hts) as (tk & cur & E & Hcur & Htk).
    exists tk, cur. rewrite E. split; [reflexivity|].
    split; [assumption|]. now rewrite Htk, <- app_assoc.
Qed.

(** X6: [tokenize] undoes [join]: tokens that are non-empty, free of
    delimiters and of upper-case letters, joined by spaces and tokenized
    again, come back unchanged. *)
Lemma tokenize_join tokens :
  Forall is_token tokens -> tokenize (join tokens) = Ok tokens.
Proof.
  intros H. rewrite tokenize_scan. destruct tokens as [|t ts].
  - reflexivity.
  - destruct (scan_join ts t [] H) as (tk & cur & -> & Hcur & Htk).
    destruct (Nat.ltb_spec 0 (length cur)) as [_|Hz];
      [|destruct cur; [congruence|simpl in Hz; lia]].
    now rewrite Htk.
Qed.

(** X7: [sortTokens] returns the tokens joined by spaces in ascending
    order of code units: the joined list is a permutation of the
    tokens and is sorted, whichever of its three branches is taken. *)
Lemma sortTokens_sorted tokens :
  exists sorted,
    Permutation sorted tokens /\
    Sorted (fun a b => String.leb a b = true) sorted /\
    sortTokens tokens = join sorted.
Proof.
  unfold sortTokens.
  destruct (Nat.leb_spec (length tokens) 1) as [H1|H1].
  - exists tokens. split; [reflexivity|]. split; [|reflexivity].
    destruct tokens as [|a [|b l]]; simpl in H1; try lia;
      repeat constructor.
  - destruct tokens as [|a [|b [|c l]]]; simpl in H1; try lia.
    + destruct (String.ltb a b) eqn:E.
      * exists [a; b]. split; [reflexivity|]. split; [|reflexivity].
        repeat constructor. unfold String.ltb, String.leb in *.
        destruct (String.compare a b); congruence.
      * exists [b; a]. split; [apply perm_swap|]. split; [|reflexivity].
        repeat constructor. now apply ltb_false_leb.
    + exists (array_sort default_compare (a :: b :: c :: l)).
      split; [apply array_sort_perm|]. split; [|reflexivity].
      eapply Sorted_ind with (P := Sorted _); [constructor| |
        apply (array_sort_sorted default_compare default_compare_total)].
      intros x l0 _ IH Hd. constructor; [assumption|].
      destruct Hd; constructor. now apply default_compare_le.
Qed.

(** Sets of tokens. *)
Lemma Set_add_In s x y : In y (Set_add s x) <-> In y s \/ y = x.
Proof.
  unfold Set_add. destruct (Set_has s x) eqn:E.
  - apply Set_has_In in E. split; [auto|]. intros [H| ->]; assumption.
  - rewrite in_app_iff. simpl. intuition.
Qed.

Lemma tokenSet_In tokens x : In x (tokenSet tokens) <-> In x tokens.
Proof.
  unfold tokenSet.
  assert (G : forall acc, In x (fold_left Set_add tokens acc) <->
                          In x acc \/ In x tokens).
  { induction tokens as [|t ts IH]; intros acc; simpl; [tauto|].
    rewrite IH, Set_add_In. intuition. }
  rewrite G. simpl. tauto.
Qed.

(** Token lists that are reorderings of each other score 100. *)
Lemma tokenSortRatio_perm s1 s2 tokens1 tokens2 :
  tokenize s1 = Ok tokens1 -> tokenize s2 = Ok tokens2 ->
  Permutation tokens1 tokens2 -> tokenSortRatio s1 s2 = Ok 100%Q.
Proof.
  intros E1 E2 HP. unfold tokenSortRatio. rewrite E1, E2, !bind_Ok.
  rewrite <- (Permutation_length HP).
  destruct (length tokens1 =? 0)%nat; [reflexivity|]. cbn [andb orb].
  cbv zeta. rewrite (sortTokens_perm _ _ HP). now rewrite String.eqb_refl.
Qed.

Lemma filter_all {A : Type} (f : A -> bool) l :
  (forall x, In x l -> f x = true) -> List.filter f l = l.
Proof.
  induction l as [|x l IH]; intros H; simpl; [reflexivity|].
  rewrite (H x (or_introl eq_refl)), IH; [reflexivity|].
  intros y Hy. apply H. now right.
Qed.

Lemma filter_none {A : Type} (f : A -> bool) l :
  (forall x, In x l -> f x = false) -> List.filter f l = [].
Proof.
  induction l as [|x l IH]; intros H; simpl; [reflexivity|].
  rewrite (H x (or_introl eq_refl)). apply IH.
  intros y Hy. apply H. now right.
Qed.

(** X10: [tokenSetRatio] is 0 on two strings that each have a token
    and share none. *)
Lemma tokenSetRatio_disjoint s1 s2 tokens1 tokens2 :
  tokenize s1 = Ok tokens1 -> tokenize s2 = Ok tokens2 ->
  tokens1 <> [] -> tokens2 <> [] ->
  (forall t, In t tokens1 -> ~ In t tokens2) ->
  tokenSetRatio s1 s2 = Ok 0%Q.
Proof.
  intros E1 E2 N1 N2 Hdis. rewrite (tokenSetRatio_unfold _ _ _ _ E1 E2).
  destruct tokens1; [congruence|]. destruct tokens2; [congruence|].
  cbn [length Nat.eqb andb orb]. cbv zeta.
  rewrite filter_none; [reflexivity|].
  intros t Ht. apply Set_has_false. rewrite tokenSet_In.
  apply Hdis. now apply tokenSet_In.
Qed.

Lemma tokenSetRatio_same_set s1 s2 tokens1 tokens2 :
  tokenize s1 = Ok tokens1 -> tokenize s2 = Ok tokens2 ->
  tokens1 <> [] ->
  (forall t, In t tokens1 <-> In t tokens2) ->
  exists r, tokenSetRatio s1 s2 = Ok r /\ (r == 100)%Q.
Proof.
  intros E1 E2 N1 Hsame. rewrite (tokenSetRatio_unfold _ _ _ _ E1 E2).
  assert (N2 : tokens2 <> []).
  { destruct tokens1 as [|t ts]; [congruence|].
    intros ->. apply (Hsame t). now left. }
  destruct tokens1 as [|t1 ts1]; [congruence|].
  destruct tokens2 as [|t2 ts2]; [congruence|].
  cbn [length Nat.eqb andb orb]. cbv zeta.
  set (set1 := tokenSet (t1 :: ts1)). set (set2 := tokenSet (t2 :: ts2)).
  assert (Hin : forall t, In t set1 <-> In t set2)
    by (intros t; unfold set1, set2; rewrite !tokenSet_In; apply Hsame).
  rewrite (filter_all (Set_has set2) set1)
    by (intros t Ht; now apply Set_has_In, Hin).
  rewrite (filter_none (fun t => negb (Set_has set2 t)) set1)
    by (intros t Ht; apply negb_false_iff, Set_has_In; now apply Hin).
  rewrite (filter_none (fun t => negb (Set_has set1 t)) set2)
    by (intros t Ht; apply negb_false_iff, Set_has_In; now apply Hin).
  rewrite app_nil_r, levenshteinRatio_refl. cbn [value_of].
  assert (Hne : (length set1 =? 0)%nat = false).
  { apply Nat.eqb_neq. intros E. apply length_zero_iff_nil in E.
    assert (Ht : In t1 set1)
      by (unfold set1; apply tokenSet_In; now left).
    rewrite E in Ht. destruct Ht. }
  rewrite Hne. destruct (0 <? _)%nat; eexists; (split; [reflexivity|]);
    split_max; lra.
Qed.

(** The dispatcher never leaves the range of its components. *)
Lemma weightedRatio_bounds s1 s2 :
  exists r, weightedRatio s1 s2 = Ok r /\ (0 <= r <= 100)%Q.
Proof.
  unfold weightedRatio. cbv zeta.
  destruct (levenshteinRatio_total s1 s2) as (r & -> & Br).
  destruct (partialRatio_total s1 s2) as (p & -> & Bp).
  destruct (tokenSortRatio_total s1 s2) as (ts & -> & Bts).
  destruct (tokenSetRatio_total s1 s2) as (tset & -> & Btset).
  rewrite !bind_Ok.
  destruct (String.eqb s1 s2); [exists 100%Q; split; [reflexivity|lra]|].
  destruct (Qgtb _ 0.8).
  - destruct (Qeq_bool r 100); [exists 100%Q; split; [reflexivity|lra]|].
    destruct (Qeq_bool ts 100); [exists 100%Q; split; [reflexivity|lra]|].
    eexists. split; [reflexivity|]. split_max; lra.
  - destruct (Qltb _ 0.6).
    + destruct (Qeq_bool p 100); [exists 100%Q; split; [reflexivity|lra]|].
      eexists. split; [reflexivity|]. split_max; lra.
    + destruct (Qeq_bool r 100); [exists 100%Q; split; [reflexivity|lra]|].
      destruct (Qeq_bool p 100); [exists 100%Q; split; [reflexivity|lra]|].
      eexists. split; [reflexivity|]. split_max; lra.
Qed.

End TokenOrderFacts.

Import MetricFacts TokenFacts TokenOrderFacts.

(** * The binary heap of MinHeap *)

Module HeapOrderFacts.

Lemma parent_split j :
  0 < j -> j = 2 * ((j - 1) / 2) + 1 \/ j = 2 * ((j - 1) / 2) + 2.
Proof.
  intros H. pose proof (Nat.div_mod_eq (j - 1) 2) as E.
  pose proof (Nat.mod_upper_bound (j - 1) 2 ltac:(lia)) as B.
  generalize dependent ((j - 1) / 2). generalize dependent ((j - 1) mod 2).
  intros m Hm d E. lia.
Qed.

Lemma parent_lt j : 0 < j -> (j - 1) / 2 < j.
Proof. intros H. pose proof (parent_split j H). lia. Qed.

Lemma parent_left i : (2 * i + 1 - 1) / 2 = i.
Proof.
  replace (2 * i + 1 - 1) with (i * 2) by lia. apply Nat.div_mul. lia.
Qed.

Lemma parent_right i : (2 * i + 2 - 1) / 2 = i.
Proof.
  replace (2 * i + 2 - 1) with (1 + i * 2) by lia.
  rewrite Nat.div_add by lia. reflexivity.
Qed.

Lemma parent_child j i :
  0 < j -> (j - 1) / 2 = i -> j = 2 * i + 1 \/ j = 2 * i + 2.
Proof. intros H <-. now apply parent_split. Qed.

(** The array after [[h[a], h[b]] = [y, x]]. *)
Lemma lookup_swap (h : list ExtractResult) a b x y i :
  h !! a = Some x -> h !! b = Some y -> a <> b ->
  <[b := x]> (<[a := y]> h) !! i =
  if decide (i = b) then Some x
  else if decide (i = a) then Some y else h !! i.
Proof.
  intros Ha Hb Hab. apply lookup_lt_Some in Ha, Hb.
  destruct (decide (i = b)) as [->|Hib].
  - apply list_lookup_insert_eq. now rewrite length_insert.
  - rewrite list_lookup_insert_ne by congruence.
    destruct (decide (i = a)) as [->|Hia].
    + now apply list_lookup_insert_eq.
    + now rewrite list_lookup_insert_ne by congruence.
Qed.

Ltac lookups :=
  repeat match goal with
         | H : context [decide (?a = ?b)] |- _ =>
             destruct (decide (a = b)); try lia; subst
         | H : Some _ = Some _ |- _ => injection H as H; subst
         end.

Lemma up_inv_swap h k cur par :
  0 < k -> h !! k = Some cur -> h !! ((k - 1) / 2) = Some par ->
  (score cur < score par)%Q -> up_inv h k ->
  up_inv (<[(k - 1) / 2 := cur]> (<[k := par]> h)) ((k - 1) / 2).
Proof.
  intros Hk Hcur Hpar Hlt [H1 H2].
  pose proof (parent_lt k Hk) as Hp.
  set (p := (k - 1) / 2) in *.
  assert (L : forall i, <[p := cur]> (<[k := par]> h) !! i =
                if decide (i = p) then Some cur
                else if decide (i = k) then Some par else h !! i)
    by (intros i; apply lookup_swap; [assumption|assumption|lia]).
  split.
  - intros i x q Hi Hne Hx Hq. rewrite L in Hx, Hq.
    pose proof (parent_lt i Hi) as Hpi.
    destruct (decide (i = p)); [contradiction|].
    destruct (decide (i = k)) as [->|Hik].
    + fold p in Hq. destruct (decide (p = p)); [|contradiction].
      injection Hx as <-. injection Hq as <-. lra.
    + destruct (decide ((i - 1) / 2 = p)) as [Ep|Np].
      * injection Hq as <-.
        pose proof (H1 i x par Hi Hik Hx ltac:(now rewrite Ep)). lra.
      * destruct (decide ((i - 1) / 2 = k)) as [Ek|Nk].
        -- injection Hq as <-. apply (H2 i x par); auto.
        -- apply (H1 i x q); auto.
  - intros c x g Hp0 Hc Hcp Hx Hg. rewrite L in Hx, Hg.
    pose proof (parent_lt p Hp0) as Hpp. pose proof (parent_lt c Hc) as Hpc.
    destruct (decide ((p - 1) / 2 = p)); [lia|].
    destruct (decide ((p - 1) / 2 = k)); [lia|].
    destruct (decide (c = p)); [lia|].
    pose proof (H1 p par g Hp0 ltac:(lia) Hpar Hg) as Hgp.
    destruct (decide (c = k)) as [->|Hck].
    + injection Hx as <-. assumption.
    + pose proof (H1 c x par Hc Hck Hx ltac:(now rewrite Hcp)). lra.
Qed.

Lemma up_inv_heap h k :
  up_inv h k ->
  (0 < k -> forall cur par, h !! k = Some cur ->
     h !! ((k - 1) / 2) = Some par -> (score par <= score cur)%Q) ->
  is_heap h.
Proof.
  intros [H1 _] Hk i x p Hi Hx Hp.
  destruct (decide (i = k)) as [->|Hne].
  - now apply (Hk Hi x p).
  - now apply (H1 i x p).
Qed.

Lemma bubbleUp_loop_heap fuel : forall h k,
  k < fuel -> k < length h -> up_inv h k ->
  is_heap (bubbleUp_loop fuel h k).
Proof.
  induction fuel as [|fuel IH]; intros h k Hf Hk Hinv; [lia|].
  cbn [bubbleUp_loop]. cbv zeta.
  destruct (Nat.ltb_spec 0 k) as [Hpos|Hzero].
  2:{ apply (up_inv_heap h k Hinv). lia. }
  pose proof (parent_lt k Hpos) as Hp.
  destruct (lookup_lt_is_Some_2 h ((k - 1) / 2)) as [par Hpar]; [lia|].
  destruct (lookup_lt_is_Some_2 h k) as [cur Hcur]; [lia|].
  rewrite Hpar, Hcur.
  destruct (Qle_bool (score par) (score cur)) eqn:E.
  - apply Qle_bool_iff in E. apply (up_inv_heap h k Hinv).
    intros _ c p Hc Hp'. congruence.
  - apply IH; [lia|rewrite !length_insert; lia|].
    apply up_inv_swap; try assumption.
    apply Qnot_le_lt. intros Hle. apply Qle_bool_iff in Hle. congruence.
Qed.

Lemma bubbleUp_loop_perm fuel : forall h k,
  Permutation (bubbleUp_loop fuel h k) h.
Proof.
  induction fuel as [|fuel IH]; intros h k; [reflexivity|].
  cbn [bubbleUp_loop]. cbv zeta.
  destruct (0 <? k)%nat; [|reflexivity].
  destruct (h !! ((k - 1) / 2)) as [par|] eqn:Hpar; [|reflexivity].
  destruct (h !! k) as [cur|] eqn:Hcur; [|reflexivity].
  destruct (Qle_bool _ _); [reflexivity|].
  rewrite IH. now apply Permutation_insert_swap.
Qed.

(** The element [bubbleDown] swaps with is the smaller child. *)
Lemma down_inv_swap h k s cur small :
  h !! k = Some cur -> h !! s = Some small ->
  (s = 2 * k + 1 \/ s = 2 * k + 2)%nat ->
  (score small < score cur)%Q ->
  (forall c x, (c = 2 * k + 1 \/ c = 2 * k + 2)%nat -> h !! c = Some x ->
     (score small <= score x)%Q) ->
  down_inv h k ->
  down_inv (<[s := cur]> (<[k := small]> h)) s.
Proof.
  intros Hcur Hsmall Hs Hlt Hmin [H1 H2].
  assert (Hks : k <> s) by lia.
  assert (Hps : (s - 1) / 2 = k)
    by (destruct Hs as [-> | ->]; [apply parent_left|apply parent_right]).
  assert (L : forall i, <[s := cur]> (<[k := small]> h) !! i =
                if decide (i = s) then Some cur
                else if decide (i = k) then Some small else h !! i)
    by (intros i; apply lookup_swap; assumption).
  split.
  - intros i x q Hi Hne Hx Hq. rewrite L in Hx, Hq.
    pose proof (parent_lt i Hi) as Hpi.
    destruct (decide (i = s)) as [->|His].
    + rewrite Hps in Hq. destruct (decide (k = s)); [lia|].
      destruct (decide (k = k)); [|contradiction].
      injection Hx as <-. injection Hq as <-. lra.
    + destruct (decide ((i - 1) / 2 = s)); [contradiction|].
      destruct (decide (i = k)) as [->|Hik].
      * injection Hx as <-.
        destruct (decide ((k - 1) / 2 = k)); [lia|].
        apply (H2 s small q); auto. lia.
      * destruct (decide ((i - 1) / 2 = k)) as [Ek|Nk].
        -- injection Hq as <-. apply (Hmin i x); [|assumption].
           now apply parent_child.
        -- apply (H1 i x q); auto.
  - intros c x g Hs0 Hc Hcp Hx Hg. rewrite L in Hx, Hg.
    rewrite Hps in Hg. destruct (decide (k = s)); [lia|].
    destruct (decide (k = k)); [|contradiction]. injection Hg as <-.
    pose proof (parent_lt c Hc) as Hpc.
    destruct (decide (c = s)); [lia|]. destruct (decide (c = k)); [lia|].
    pose proof (H1 c x small Hc ltac:(lia) Hx ltac:(now rewrite Hcp)).
    assumption.
Qed.

Lemma down_inv_heap h k :
  down_inv h k ->
  (forall c x cur, (c = 2 * k + 1 \/ c = 2 * k + 2)%nat ->
     h !! c = Some x -> h !! k = Some cur -> (score cur <= score x)%Q) ->
  is_heap h.
Proof.
  intros [H1 _] Hk i x p Hi Hx Hp.
  destruct (decide ((i - 1) / 2 = k)) as [E|Hne].
  - rewrite E in Hp. apply (Hk i x p); [|assumption|assumption].
    now apply parent_child.
  - now apply (H1 i x p).
Qed.

Lemma guarded_lookup (h : list ExtractResult) c :
  (if (c <? length h)%nat then h !! c else None) = h !! c.
Proof.
  destruct (Nat.ltb_spec c (length h)); [reflexivity|].
  symmetry. apply lookup_ge_None. lia.
Qed.

Lemma Qltb_spec a b : reflect (a < b)%Q (Qltb a b).
Proof.
  destruct (Qltb a b) eqn:E; constructor.
  - now apply Qltb_true.
  - apply Qltb_false in E. lra.
Qed.

Lemma bubbleDown_loop_heap fuel : forall h k,
  length h - k < fuel -> down_inv h k ->
  is_heap (bubbleDown_loop fuel h k).
Proof.
  induction fuel as [|fuel IH]; intros h k Hf Hinv; [lia|].
  cbn [bubbleDown_loop]. cbv zeta.
  destruct (h !! k) as [cur|] eqn:Hcur.
  2:{ apply (down_inv_heap h k Hinv). intros c x cur' _ _ Hc. congruence. }
  pose proof (lookup_lt_Some _ _ _ Hcur) as Hklen.
  rewrite !guarded_lookup.
  assert (Hstay : (forall c x, (c = 2 * k + 1 \/ c = 2 * k + 2)%nat ->
                     h !! c = Some x -> (score cur <= score x)%Q) ->
                  is_heap h).
  { intros Hmin. apply (down_inv_heap h k Hinv).
    intros c x cur' Hc Hx Hcur'. assert (cur' = cur) by congruence.
    subst. now apply (Hmin c x). }
  assert (Hgo : forall s small, h !! s = Some small ->
                  (s = 2 * k + 1 \/ s = 2 * k + 2)%nat ->
                  (score small < score cur)%Q ->
                  (forall c x, (c = 2 * k + 1 \/ c = 2 * k + 2)%nat ->
                     h !! c = Some x -> (score small <= score x)%Q) ->
                  is_heap (bubbleDown_loop fuel
                             (<[s := cur]> (<[k := small]> h)) s)).
  { intros s small Hs Hidx Hlt Hmin. apply IH.
    - rewrite !length_insert. apply lookup_lt_Some in Hs. lia.
    - now apply down_inv_swap. }
  destruct (h !! (2 * k + 1)%nat) as [l|] eqn:Hl;
    [destruct (Qltb_spec (score l) (score cur)) as [Hlc|Hlc]|];
    rewrite ?Hl, ?Hcur;
    (destruct (h !! (2 * k + 2)%nat) as [r|] eqn:Hr;
     [match goal with
      | |- context [Qltb (score r) ?b] =>
          destruct (Qltb_spec (score r) b) as [Hrc|Hrc]
      end|]);
    match goal with
    | |- context [(?s =? k)%nat] =>
        destruct (Nat.eqb_spec s k) as [E|E]; try lia
    end;
    rewrite ?Hl, ?Hr, ?Hcur;
    try (apply Hstay; intros c x [-> | ->] Hx;
         rewrite ?Hl, ?Hr in Hx; try discriminate;
         injection Hx as <-; lra);
    try (eapply Hgo; [eassumption|lia|lra|];
         intros c x [-> | ->] Hx;
         rewrite ?Hl, ?Hr in Hx; try discriminate;
         injection Hx as <-; lra).
Qed.

Lemma bubbleDown_loop_perm fuel : forall h k,
  Permutation (bubbleDown_loop fuel h k) h.
Proof.
  induction fuel as [|fuel IH]; intros h k; [reflexivity|].
  cbn [bubbleDown_loop]. cbv zeta.
  destruct (h !! k) as [cur|] eqn:Hcur; [|reflexivity].
  destruct (_ =? k)%nat; [reflexivity|].
  match goal with
  | |- context [h !! ?s] =>
      lazymatch s with
      | k => fail
      | _ => destruct (h !! s) as [small|] eqn:Hs; [|reflexivity]
      end
  end.
  rewrite IH. now apply Permutation_insert_swap.
Qed.

(** The root of a heap scores least. *)
Lemma heap_root_min h r :
  is_heap h -> h !! 0%nat = Some r ->
  forall i x, h !! i = Some x -> (score r <= score x)%Q.
Proof.
  intros Hh Hr i. induction i as [i IH] using lt_wf_ind. intros x Hx.
  destruct (Nat.eq_dec i 0) as [->|Hne].
  - assert (x = r) by congruence. subst. lra.
  - pose proof (parent_lt i ltac:(lia)) as Hp.
    destruct (lookup_lt_is_Some_2 h ((i - 1) / 2)) as [p Hpl].
    { apply lookup_lt_Some in Hx. lia. }
    pose proof (Hh i x p ltac:(lia) Hx Hpl).
    pose proof (IH _ Hp p Hpl). lra.
Qed.

Lemma is_heap_nil : is_heap [].
Proof. intros i x p _ Hx. discriminate. Qed.

Lemma bubbleUp_heap h r :
  is_heap h -> is_heap (bubbleUp (h ++ [r]) (length (h ++ [r]) - 1)).
Proof.
  intros Hh. rewrite length_app. cbn [length].
  replace (length h + 1 - 1) with (length h) by lia.
  unfold bubbleUp. apply bubbleUp_loop_heap; [lia|rewrite length_app; simpl; lia|].
  split.
  - intros i x p Hi Hne Hx Hp.
    pose proof (lookup_lt_Some _ _ _ Hx) as Hlt.
    rewrite length_app in Hlt. cbn [length] in Hlt.
    pose proof (parent_lt i Hi).
    rewrite lookup_app_l in Hx, Hp by lia. now apply (Hh i x p).
  - intros c x g _ Hc Hcp Hx _.
    pose proof (lookup_lt_Some _ _ _ Hx) as Hlt.
    rewrite length_app in Hlt. cbn [length] in Hlt.
    pose proof (parent_lt c Hc). lia.
Qed.

Lemma bubbleDown_heap h r :
  is_heap h -> is_heap (bubbleDown (set_root h r) 0).
Proof.
  intros Hh. unfold bubbleDown. apply bubbleDown_loop_heap; [lia|].
  split; [|intros c x g Hk; lia].
  intros i x p Hi Hne Hx Hp.
  destruct h as [|y h].
  - cbn [set_root] in Hx. apply lookup_lt_Some in Hx. simpl in Hx. lia.
  - cbn [set_root] in Hx, Hp.
    rewrite list_lookup_insert_ne in Hx, Hp by lia. now apply (Hh i x p).
Qed.

(** [push] keeps the heap order. *)
Lemma push_heap h r : is_heap (heap h) -> is_heap (heap (push h r)).
Proof.
  intros Hh. unfold push.
  destruct (_ <? size h)%Z; cbn [heap]; [now apply bubbleUp_heap|].
  destruct (Qgtb _ _); cbn [heap]; [now apply bubbleDown_heap|assumption].
Qed.

(** What [push] lets go of: nothing while there is room, then the lesser
    of the root and the new element. *)
Lemma push_keeps h r :
  (0 < size h)%Z -> is_heap (heap h) ->
  exists d,
    Permutation (heap (push h r) ++ d) (heap h ++ [r]) /\
    keeps_best (heap (push h r)) d /\
    ((Z.of_nat (length (heap h)) < size h)%Z -> d = []).
Proof.
  intros Hsize Hh. unfold push.
  destruct (Z.ltb_spec (Z.of_nat (length (heap h))) (size h)) as [Hroom|Hfull];
    cbn [heap].
  - exists []. rewrite app_nil_r. split; [|split; [|reflexivity]].
    + unfold bubbleUp. apply bubbleUp_loop_perm.
    + intros d x [].
  - destruct (heap h) as [|root rest] eqn:Hheap; [simpl in Hfull; lia|].
    cbn [lookup list_lookup].
    assert (Hmin : forall x, In x (root :: rest) ->
                     (score root <= score x)%Q).
    { intros x Hx. apply (proj2 (list_elem_of_In _ _)) in Hx.
      apply list_elem_of_lookup in Hx as (i & Hi).
      now apply (heap_root_min (root :: rest) root Hh eq_refl i x). }
    destruct (Qgtb (score r) (score root)) eqn:E;
      [apply Qgtb_true in E|apply Qgtb_false in E]; cbn [heap].
    + exists [root]. split; [|split; [|lia]].
      * unfold bubbleDown. rewrite bubbleDown_loop_perm. cbn [set_root].
        cbn. rewrite <- !Permutation_cons_append. apply perm_swap.
      * intros d x [<-|[]] Hx.
        unfold bubbleDown in Hx.
        apply (Permutation_in _ (bubbleDown_loop_perm _ _ _)) in Hx.
        cbn in Hx. destruct Hx as [<-|Hx]; [lra|].
        apply Hmin. now right.
    + exists [r]. rewrite Hheap. split; [reflexivity|]. split; [|lia].
      intros d x [<-|[]] Hx. specialize (Hmin x Hx). lra.
Qed.

Lemma keeps_best_perm kept kept' dropped dropped' :
  Permutation kept kept' -> Permutation dropped dropped' ->
  keeps_best kept dropped -> keeps_best kept' dropped'.
Proof.
  intros Hk Hd H d x Hd' Hx. apply H.
  - now apply (Permutation_in _ (Permutation_sym Hd)).
  - now apply (Permutation_in _ (Permutation_sym Hk)).
Qed.

(** One more push onto a heap that holds the best of what was pushed. *)
Lemma push_best limit h r items :
  (0 < limit)%Z -> size h = limit -> is_heap (heap h) ->
  (exists dropped, Permutation (heap h ++ dropped) items /\
     keeps_best (heap h) dropped /\
     ((Z.of_nat (length (heap h)) < limit)%Z -> dropped = [])) ->
  exists dropped, Permutation (heap (push h r) ++ dropped) (items ++ [r]) /\
    keeps_best (heap (push h r)) dropped /\
    ((Z.of_nat (length (heap (push h r))) < limit)%Z -> dropped = []).
Proof.
  intros Hlimit Hsize Hh (dropped & Hperm & Hbest & Hroom).
  destruct (push_keeps h r ltac:(lia) Hh) as (d & Hd & Hdbest & Hdroom).
  exists (d ++ dropped). split; [|split].
  - rewrite app_assoc, Hd, <- Hperm.
    rewrite <- !app_assoc. apply Permutation_app_head, Permutation_app_comm.
  - intros x y Hx Hy. apply in_app_or in Hx as [Hx|Hx]; [now apply Hdbest|].
    (* an element dropped earlier is below the whole heap of then, so
       below whatever [d] holds, and the new heap is that heap, [r]
       added, [d] removed *)
    assert (Hy' : In y (heap h ++ [r])).
    { apply (Permutation_in _ Hd). apply in_or_app. now left. }
    apply in_app_or in Hy' as [Hy'|[<-|[]]]; [now apply Hbest|].
    destruct (Z.ltb_spec (Z.of_nat (length (heap h))) limit) as [Hlt|Hge].
    + rewrite (Hroom Hlt) in Hx. destruct Hx.
    + (* the heap was full: [r] went in only above the root *)
      unfold push in Hy, Hd |- *. rewrite Hsize in Hy, Hd.
      destruct (Z.ltb_spec (Z.of_nat (length (heap h))) limit); [lia|].
      destruct (heap h) as [|root rest] eqn:Hheap; [simpl in Hge; lia|].
      cbn [lookup list_lookup] in Hy, Hd.
      destruct (Qgtb (score r) (score root)) eqn:E;
        [apply Qgtb_true in E|apply Qgtb_false in E]; cbn [heap] in Hy, Hd.
      * assert (score x <= score root)%Q by (apply Hbest; [assumption|now left]).
        lra.
      * rewrite Hheap in Hy.
        (* [r] is not in the heap unless it equals an element of it *)
        now apply Hbest.
  - intros Hlt. rewrite push_length in Hlt by lia. rewrite Hsize in Hlt.
    destruct (Z.ltb_spec (Z.of_nat (length (heap h))) limit) as [Hr|Hr];
      [|lia].
    rewrite (Hdroom ltac:(lia)), (Hroom Hr). reflexivity.
Qed.

End HeapOrderFacts.

Import MetricFacts TokenFacts TokenOrderFacts HeapOrderFacts.

(** * What extract selects *)

Module SelectionFacts.

(** The rules of the two loops for a property of the state that holds
    whenever the loop returns. *)
Lemma for_loop_inv {S R X : Type} (I : S -> Prop) (Q : R -> Prop)
    (body : S -> X -> result (ctl S R)) (xs : list X) :
  (forall s x c, In x xs -> I s -> body s x = Ok c ->
     match c with Next s' => I s' | Done r => Q r end) ->
  forall s0 c, I s0 -> for_loop body xs s0 = Ok c ->
  match c with Next s' => I s' | Done r => Q r end.
Proof.
  induction xs as [|x xs IH]; intros Hstep s0 c H0 Hc.
  - cbn in Hc. injection Hc as <-. assumption.
  - cbn [for_loop] in Hc.
    destruct (body s0 x) as [[s'|r]|e] eqn:E; try discriminate.
    + rewrite bind_Ok in Hc.
      apply (IH (fun s x c Hx => Hstep s x c (or_intror Hx)) s' c);
        [|assumption].
      apply (Hstep s0 x (Next s') (or_introl eq_refl) H0 E).
    + rewrite bind_Ok in Hc. injection Hc as <-.
      apply (Hstep s0 x (Done r) (or_introl eq_refl) H0 E).
Qed.

Lemma foldM_inv {S X : Type} (I : S -> Prop)
    (f : S -> X -> result S) (xs : list X) :
  (forall s x s', In x xs -> I s -> f s x = Ok s' -> I s') ->
  forall s0 s', I s0 -> foldM f xs s0 = Ok s' -> I s'.
Proof.
  induction xs as [|x xs IH]; intros Hstep s0 s' H0 Hc.
  - cbn in Hc. injection Hc as <-. assumption.
  - cbn [foldM] in Hc. destruct (f s0 x) as [s1|e] eqn:E; try discriminate.
    rewrite bind_Ok in Hc.
    apply (IH (fun s x c Hx => Hstep s x c (or_intror Hx)) s1 s');
      [|assumption].
    apply (Hstep s0 x s1 (or_introl eq_refl) H0 E).
Qed.

Lemma bind_inv {A B : Type} (c : result A) (k : A -> result B) b :
  (c ≫= k) = Ok b -> exists a, c = Ok a /\ k a = Ok b.
Proof. destruct c as [a|e]; [|discriminate]. intros H. now exists a. Qed.

(** [push] puts nothing in the heap but the element pushed. *)
Lemma push_In h r x : In x (heap (push h r)) -> In x (heap h) \/ x = r.
Proof.
  unfold push. destruct (_ <? size h)%Z; cbn [heap].
  - intros H. unfold bubbleUp in H.
    apply (Permutation_in _ (bubbleUp_loop_perm _ _ _)) in H.
    apply in_app_or in H as [H|[<-|[]]]; auto.
  - destruct (Qgtb _ _); cbn [heap]; [|auto].
    intros H. unfold bubbleDown in H.
    apply (Permutation_in _ (bubbleDown_loop_perm _ _ _)) in H.
    destruct (heap h) as [|y l]; cbn in H.
    + destruct H as [<-|[]]. auto.
    + destruct H as [<-|H]; auto. left. now right.
Qed.

Lemma push_Forall (P : ExtractResult -> Prop) h r :
  Forall P (heap h) -> P r -> Forall P (heap (push h r)).
Proof.
  intros Hh Hr. apply List.Forall_forall. intros x Hx.
  apply push_In in Hx as [Hx| ->]; [|assumption].
  revert x Hx. now apply List.Forall_forall.
Qed.

Lemma slice0_Forall {A : Type} (P : A -> Prop) l limit :
  Forall P l -> Forall P (slice0 l limit).
Proof. unfold slice0. apply Forall_take. Qed.

Section Members.

Variable sort : ArraySort.
Variable localeCompare : string -> string -> Z.
Variables (query : string) (choices : list string) (scorer : ScorerFunction).

Let P := is_scored query choices scorer.

Lemma getResults_Forall h :
  Forall P (heap h) -> Forall P (getResults sort localeCompare h).
Proof.
  intros H. unfold getResults.
  apply (Permutation_Forall
           (Permutation_sym (Array_sort_permutes sort _ _ _)) H).
Qed.

Lemma scored_candidate i c v :
  js_index choices i = Some c -> scorer query c = Ok v -> P (mkResult c v).
Proof. intros Hc Hv. split; [now apply js_index_In in Hc|assumption]. Qed.

Lemma heap_step_members b limit st i c :
  Forall P (heap (fst st)) ->
  heap_step sort localeCompare b query choices scorer limit st i = Ok c ->
  match c with
  | Next st' => Forall P (heap (fst st'))
  | Done r => Forall P r
  end.
Proof.
  destruct st as [h pm]. cbn [fst]. intros Hh. unfold heap_step.
  destruct (js_index choices i) as [ch|] eqn:Hch.
  2:{ intros [= <-]. assumption. }
  intros H. apply bind_inv in H as (v & Hv & H).
  pose proof (push_Forall P h (mkResult ch v) Hh
                (scored_candidate i ch v Hch Hv)) as Hp.
  destruct (Qeq_bool v 100).
  - destruct (limit <=? pm + 1)%Z.
    + destruct (_ && _); injection H as <-; cbn [fst]; [|assumption].
      now apply slice0_Forall, getResults_Forall.
    + injection H as <-. assumption.
  - injection H as <-. assumption.
Qed.

Lemma sample_step_members h i h' :
  Forall P (heap h) -> sample_step query choices scorer h i = Ok h' ->
  Forall P (heap h').
Proof.
  intros Hh. unfold sample_step.
  destruct (js_index choices i) as [ch|] eqn:Hch.
  2:{ intros [= <-]. assumption. }
  intros H. apply bind_inv in H as (v & Hv & H). injection H as <-.
  apply push_Forall; [assumption|]. now apply (scored_candidate i).
Qed.

Lemma chunk_step_members limit len chunkSize st start c :
  Forall P (heap (fst (fst st))) ->
  chunk_step sort localeCompare query choices scorer limit len chunkSize st start
    = Ok c ->
  match c with
  | Next st' => Forall P (heap (fst (fst st')))
  | Done r => Forall P r
  end.
Proof.
  destruct st as [[h processed] pm]. cbn [fst]. intros Hh. unfold chunk_step.
  intros H. apply bind_inv in H as (c1 & Hc1 & H).
  apply (for_loop_inv (fun st => Forall P (heap (fst st))) (Forall P)) in Hc1;
    [| intros s x c0 _; apply heap_step_members | assumption].
  destruct c1 as [[h1 pm1]|r]; [|now injection H as <-].
  cbn [fst] in Hc1.
  destruct (Qgtb _ _); [|now injection H as <-].
  destruct (limit <=? _)%Z; [|now injection H as <-].
  destruct (Qgtb _ 93); [|now injection H as <-].
  apply bind_inv in H as (h2 & Hh2 & H). injection H as <-.
  apply slice0_Forall, getResults_Forall.
  apply (foldM_inv (fun h => Forall P (heap h))) in Hh2; [assumption| |assumption].
  intros s x s' _ Hs Hfold.
  apply (foldM_inv (fun h => Forall P (heap h))) in Hfold; [assumption| |assumption].
  intros s0 x0 s0' _. apply sample_step_members.
Qed.

Lemma extractChunked_members limit results :
  extractChunked sort localeCompare query choices scorer limit = Ok results ->
  Forall P results.
Proof.
  unfold extractChunked. intros H. apply bind_inv in H as (c & Hc & H).
  apply (for_loop_inv (fun st => Forall P (heap (fst (fst st)))) (Forall P))
    in Hc; [| intros s x c0 _; apply chunk_step_members | constructor].
  destruct c as [[[h p] pm]|r]; injection H as <-; [|assumption].
  now apply slice0_Forall, getResults_Forall.
Qed.

Lemma score_all_step_members results i results' :
  Forall P results ->
  score_all_step query choices scorer results i = Ok results' ->
  Forall P results'.
Proof.
  intros Hr. unfold score_all_step.
  destruct (js_index choices i) as [ch|] eqn:Hch.
  2:{ intros [= <-]. assumption. }
  intros H. apply bind_inv in H as (v & Hv & H). injection H as <-.
  apply Forall_app. split; [assumption|].
  constructor; [|constructor]. now apply (scored_candidate i).
Qed.

(** X15: whatever tier [extract] takes and whatever sort the host has,
    every result it returns is one of the candidates together with the
    score the scorer returned for it and the query. *)
Lemma extract_members limit results :
  extract sort localeCompare query choices scorer limit = Ok results ->
  Forall P results.
Proof.
  unfold extract.
  destruct (length choices =? 0)%nat; [intros [= <-]; constructor|].
  destruct (limit <=? 0)%Z; [intros [= <-]; constructor|].
  cbv zeta.
  set (limit' := if (Z.of_nat (length choices) <? limit)%Z
                 then Z.of_nat (length choices) else limit).
  destruct (_ <=? limit' * 2)%Z.
  - intros H. apply bind_inv in H as (all & Hall & H). injection H as <-.
    apply slice0_Forall.
    apply (Permutation_Forall
             (Permutation_sym (Array_sort_permutes sort _ _ _))).
    apply (foldM_inv (Forall P)) in Hall; [assumption| |constructor].
    intros s x s' _. apply score_all_step_members.
  - destruct (8000 <? _)%Z; [apply extractChunked_members|].
    intros H. apply bind_inv in H as (c & Hc & H).
    apply (for_loop_inv (fun st => Forall P (heap (fst st))) (Forall P))
      in Hc; [| intros s x c0 _; apply heap_step_members | constructor].
    destruct c as [[h pm]|r]; injection H as <-; [|assumption].
    now apply slice0_Forall, getResults_Forall.
Qed.

End Members.

Lemma scored_app value l1 l2 :
  scored value (l1 ++ l2) = scored value l1 ++ scored value l2.
Proof. apply map_app. Qed.

Lemma scored_take_S value (choices : list string) k c :
  choices !! k = Some c ->
  scored value (take (S k) choices) =
  scored value (take k choices) ++ [mkResult c (value c)].
Proof.
  intros H. rewrite (take_S_r _ _ _ H). now rewrite scored_app.
Qed.

Lemma every_perfect_In l x :
  every_perfect l = true -> In x l -> (score x == 100)%Q.
Proof.
  unfold every_perfect. rewrite forallb_forall. intros H Hx.
  now apply Qeq_bool_iff, H.
Qed.

Section Best.

Variable sort : ArraySort.
Variable localeCompare : string -> string -> Z.
Variables (query : string) (choices : list string) (scorer : ScorerFunction).
Variable value : string -> Q.
Variable limit : Z.

Hypothesis scorer_value : forall c, In c choices -> scorer query c = Ok (value c).
Hypothesis scorer_bounded : forall c, In c choices -> (value c <= 100)%Q.
Hypothesis limit_pos : (0 < limit)%Z.

(** The heap after the first [k] candidates. *)
Let best_of (k : nat) (h : MinHeap) : Prop :=
  size h = limit /\ is_heap (heap h) /\
  Z.of_nat (length (heap h)) = Z.min (Z.of_nat k) limit /\
  exists dropped,
    Permutation (heap h ++ dropped) (scored value (take k choices)) /\
    keeps_best (heap h) dropped /\
    ((Z.of_nat (length (heap h)) < limit)%Z -> dropped = []).

Lemma push_best_of k h c :
  choices !! k = Some c -> best_of k h ->
  best_of (S k) (push h (mkResult c (value c))).
Proof.
  intros Hc (Hsize & Hheap & Hlen & Hbest).
  split; [now rewrite push_size|]. split; [now apply push_heap|]. split.
  - rewrite push_length, Hsize by lia.
    destruct (Z.ltb_spec (Z.of_nat (length (heap h))) limit); lia.
  - rewrite (scored_take_S _ _ _ _ Hc). now apply push_best.
Qed.

(** A full heap of the best of a prefix, read out. *)
Lemma best_of_results k h later :
  (limit <= Z.of_nat k)%Z -> best_of k h ->
  choices = take k choices ++ later ->
  (forall x c, In x (heap h) -> In c later -> (value c <= score x)%Q) ->
  exists rest,
    length (slice0 (getResults sort localeCompare h) limit) =
      Z.to_nat limit /\
    Permutation (slice0 (getResults sort localeCompare h) limit ++ rest)
                (scored value choices) /\
    keeps_best (slice0 (getResults sort localeCompare h) limit) rest.
Proof.
  intros Hk (Hsize & Hheap & Hlen & dropped & Hperm & Hbest & _) Hsplit Hlater.
  assert (Hall : slice0 (getResults sort localeCompare h) limit =
                 getResults sort localeCompare h).
  { unfold slice0. apply firstn_all2.
    unfold getResults. rewrite Array_sort_length. lia. }
  rewrite Hall.
  assert (Hsort : Permutation (getResults sort localeCompare h) (heap h))
    by apply Array_sort_permutes.
  exists (dropped ++ scored value later). split; [|split].
  - unfold getResults. rewrite Array_sort_length. lia.
  - rewrite Hsplit at 1. rewrite scored_app, <- Hperm, Hsort.
    now rewrite app_assoc.
  - intros d x Hd Hx. apply (Permutation_in _ Hsort) in Hx.
    apply in_app_or in Hd as [Hd|Hd]; [now apply Hbest|].
    unfold scored in Hd. apply in_map_iff in Hd as (c & <- & Hc).
    cbn [score]. now apply Hlater.
Qed.

Lemma heap_loop_best n :
  (limit <= Z.of_nat n)%Z -> n = length choices ->
  exists c,
    for_loop (heap_step sort localeCompare false query choices scorer limit)
             (zrange 0 n) (mkHeap [] limit, 0%Z) = Ok c /\
    exists results rest,
      match c with
      | Next (h, _) => results = slice0 (getResults sort localeCompare h) limit
      | Done r => results = r
      end /\
      length results = Z.to_nat limit /\
      Permutation (results ++ rest) (scored value choices) /\
      keeps_best results rest.
Proof.
  intros Hn Hlen.
  destruct (for_loop_ind
    (fun seen '(h, pm) =>
       best_of (length seen) h /\ (pm <= Z.of_nat (length seen))%Z)
    (fun r => exists rest, length r = Z.to_nat limit /\
                Permutation (r ++ rest) (scored value choices) /\
                keeps_best r rest)
    (heap_step sort localeCompare false query choices scorer limit)
    (zrange 0 n) (mkHeap [] limit, 0%Z)) as (c & Hc & Hpost).
  - cbn [length]. split; [|lia]. split; [reflexivity|].
    split; [apply is_heap_nil|]. split; [cbn; lia|].
    exists []. cbn. rewrite take_0. repeat split; auto. intros d x [].
  - intros seen x rest [h pm] Hxs (Hh & Hpm).
    apply zrange_split in Hxs as (Hx & Hlt). rewrite Z.add_0_l in Hx.
    subst x. unfold heap_step. rewrite js_index_nat.
    destruct (lookup_lt_is_Some_2 choices (length seen)) as [c Hc]; [lia|].
    rewrite Hc.
    assert (Hin : In c choices)
      by (apply list_elem_of_In; eapply list_elem_of_lookup_2, Hc).
    rewrite (scorer_value c Hin), bind_Ok.
    rewrite length_app. cbn [length]. rewrite Nat.add_1_r.
    pose proof (push_best_of _ _ _ Hc Hh) as Hp.
    set (h' := push h (mkResult c (value c))) in *.
    destruct (Qeq_bool (value c) 100);
      [|eexists; split; [reflexivity|]; split; [assumption|lia]].
    destruct (Z.leb_spec limit (pm + 1));
      [|eexists; split; [reflexivity|]; split; [assumption|lia]].
    cbn [andb].
    destruct (every_perfect (getResults sort localeCompare h')) eqn:E;
      [|eexists; split; [reflexivity|]; split; [assumption|lia]].
    eexists. split; [reflexivity|]. cbn beta iota.
    apply (best_of_results (S (length seen)) h'
             (drop (S (length seen)) choices)); [lia|assumption| |].
    + now rewrite take_drop.
    + intros y d Hy Hd.
      assert (Hy' : In y (getResults sort localeCompare h'))
        by (apply (Permutation_in _
                    (Permutation_sym (Array_sort_permutes sort _ _ _)));
            exact Hy).
      rewrite (every_perfect_In _ _ E Hy'). apply scorer_bounded.
      rewrite <- (take_drop (S (length seen)) choices).
      apply in_or_app. now right.
  - exists c. split; [assumption|].
    destruct c as [[h pm]|r].
    + rewrite zrange_length in Hpost. destruct Hpost as (Hh & _).
      destruct (best_of_results n h []) as (rest & Hlength & Hperm & Hbest);
        [lia|assumption| |intros x c _ []|].
      * rewrite app_nil_r, Hlen. now rewrite firstn_all.
      * exists (slice0 (getResults sort localeCompare h) limit), rest. auto.
    + destruct Hpost as (rest & Hlength & Hperm & Hbest).
      exists r, rest. auto.
Qed.

(** X16: in the heap tier of [extract] (more than twice [limit]
    candidates, at most 8000), with a scorer that returns numbers up to
    100, the results are exactly the [limit] best, whatever the sort of
    the host: there are [limit] of them, together with the candidates
    left out they are all the scored candidates, and no candidate left
    out scores above a returned one. *)
Lemma extract_heap_tier :
  (limit * 2 < Z.of_nat (length choices))%Z ->
  (Z.of_nat (length choices) <= 8000)%Z ->
  exists results rest,
    extract sort localeCompare query choices scorer limit = Ok results /\
    length results = Z.to_nat limit /\
    Permutation (results ++ rest) (scored value choices) /\
    keeps_best results rest.
Proof.
  intros Hlo Hhi. unfold extract.
  destruct (Nat.eqb_spec (length choices) 0); [lia|].
  destruct (Z.leb_spec limit 0); [lia|].
  destruct (Z.ltb_spec (Z.of_nat (length choices)) limit); [lia|].
  cbv zeta.
  destruct (Z.leb_spec (Z.of_nat (length choices)) (limit * 2)); [lia|].
  destruct (Z.ltb_spec 8000 (Z.of_nat (length choices))); [lia|].
  rewrite Nat2Z.id.
  destruct (heap_loop_best (length choices) ltac:(lia) eq_refl)
    as (c & -> & results & rest & Hres & Hlength & Hperm & Hbest).
  rewrite bind_Ok. exists results, rest.
  split; [|auto]. destruct c as [[h pm]|r]; now subst.
Qed.

End Best.

Section All.

Variable sort : ArraySort.
Variable localeCompare : string -> string -> Z.
Variables (query : string) (choices : list string) (scorer : ScorerFunction).
Variable value : string -> Q.
Variable limit : Z.

Hypothesis scorer_value : forall c, In c choices -> scorer query c = Ok (value c).

Lemma score_all_scored n :
  n <= length choices ->
  foldM (score_all_step query choices scorer) (zrange 0 n) [] =
  Ok (scored value (take n choices)).
Proof.
  intros Hn.
  destruct (foldM_ind
    (fun seen results => results = scored value (take (length seen) choices))
    (score_all_step query choices scorer) (zrange 0 n) [])
    as (results & Hr & Hpost).
  - cbn. now rewrite take_0.
  - intros seen x rest results Hxs ->.
    apply zrange_split in Hxs as (Hx & Hlt). rewrite Z.add_0_l in Hx.
    subst x. unfold score_all_step. rewrite js_index_nat.
    destruct (lookup_lt_is_Some_2 choices (length seen)) as [c Hc]; [lia|].
    rewrite Hc.
    assert (Hin : In c choices)
      by (apply list_elem_of_In; eapply list_elem_of_lookup_2, Hc).
    rewrite (scorer_value c Hin), bind_Ok.
    eexists. split; [reflexivity|].
    rewrite length_app. cbn [length]. rewrite Nat.add_1_r.
    now rewrite (scored_take_S _ _ _ _ Hc).
  - rewrite zrange_length in Hpost. now subst.
Qed.

(** X17: with [limit] at least the number of candidates, [extract]
    returns every candidate, each once with its score, whatever sort
    the host has. *)
Lemma extract_all :
  (Z.of_nat (length choices) <= limit)%Z ->
  exists results,
    extract sort localeCompare query choices scorer limit = Ok results /\
    Permutation results (scored value choices).
Proof.
  intros Hlimit. unfold extract.
  destruct (Nat.eqb_spec (length choices) 0) as [E|E].
  { exists []. split; [reflexivity|].
    destruct choices; [reflexivity|discriminate]. }
  destruct (Z.leb_spec limit 0); [lia|]. cbv zeta.
  set (limit' := if (Z.of_nat (length choices) <? limit)%Z
                 then Z.of_nat (length choices) else limit).
  assert (Hl : limit' = Z.of_nat (length choices)).
  { unfold limit'.
    destruct (Z.ltb_spec (Z.of_nat (length choices)) limit); lia. }
  rewrite Hl.
  destruct (Z.leb_spec (Z.of_nat (length choices))
              (Z.of_nat (length choices) * 2)); [|lia].
  rewrite Nat2Z.id, score_all_scored, bind_Ok by lia.
  rewrite firstn_all. eexists. split; [reflexivity|].
  unfold slice0. rewrite Nat2Z.id.
  rewrite firstn_all2 by (rewrite Array_sort_length; unfold scored;
                          rewrite length_map; lia).
  apply Array_sort_permutes.
Qed.

End All.

End SelectionFacts.

Import MetricFacts TokenFacts TokenOrderFacts HeapOrderFacts SelectionFacts.

(** * The order of the results of extract *)

Module OrderFacts.

Lemma StronglySorted_firstn {A : Type} (R : A -> A -> Prop) l :
  StronglySorted R l -> forall n, StronglySorted R (firstn n l).
Proof.
  induction 1 as [|a l Hs IH Hd]; intros [|n]; cbn; try constructor.
  - apply IH.
  - now apply Forall_take.
Qed.

Lemma StronglySorted_ordered {A : Type} (R : A -> A -> Prop) l :
  StronglySorted R l -> ordered R l.
Proof.
  induction 1 as [|a l Hs IH Hd]; intros i j x y Hij Hx Hy; [discriminate|].
  destruct j as [|j]; [lia|]. cbn in Hy. destruct i as [|i]; cbn in Hx.
  - injection Hx as <-.
    apply (proj1 (List.Forall_forall _ _) Hd).
    apply list_elem_of_In. eapply list_elem_of_lookup_2, Hy.
  - apply (IH i j); [lia|assumption|assumption].
Qed.

Lemma ordered_adjacent {A : Type} (R : A -> A -> Prop) l :
  ordered R l -> adjacent R l.
Proof.
  intros H i a b Ha Hb. apply (H i (S i)); [lia|assumption|assumption].
Qed.

(** Where the comparator is consistent, a host's sort of two elements is
    the one order that is sorted. *)
Lemma Array_sort_two (sort : ArraySort) {A : Type}
    (compareFn : A -> A -> Q) (x y : A) :
  consistent_on (fun z => In z [x; y]) compareFn ->
  (0 < compareFn x y)%Q ->
  Array_sort sort compareFn [x; y] = [y; x].
Proof.
  intros Hc Hxy.
  pose proof (Array_sort_permutes sort A compareFn [x; y]) as Hp.
  pose proof (Array_sort_sorts sort A compareFn [x; y] Hc) as Hs.
  destruct (Array_sort sort compareFn [x; y]) as [|a [|b [|c l]]];
    try (apply Permutation_length in Hp; discriminate).
  apply Permutation_length_2 in Hp as [[-> ->]|[-> ->]]; [|reflexivity].
  apply StronglySorted_inv in Hs as [_ Hs].
  apply Forall_inv in Hs. unfold in_order in Hs. lra.
Qed.

Section Order.

Variable sort : ArraySort.
Variable localeCompare : string -> string -> Z.

Lemma in_order_tolerant a b :
  in_order (compareResults localeCompare) a b ->
  tolerant_order localeCompare a b.
Proof.
  unfold in_order, compareResults, tolerant_order. cbv zeta.
  rewrite (Qabs_Qminus (score a) (score b)).
  destruct (Qltb _ 0.001) eqn:E;
    [apply Qltb_true in E|apply Qltb_false in E]; intros H.
  - right. split; [assumption|].
    replace 0%Q with (inject_Z 0) in H by reflexivity.
    now rewrite <- Zle_Qle in H.
  - left. rewrite Qabs_neg in E by lra. lra.
Qed.

Variables (query : string) (choices : list string) (scorer : ScorerFunction).

Let S := is_scored query choices scorer.

Lemma sorted_slice_ordered r :
  consistent_on S (compareResults localeCompare) ->
  sorted_slice sort localeCompare S r ->
  ordered (tolerant_order localeCompare) r.
Proof.
  intros Hc (X & limit & HX & ->). unfold slice0.
  assert (Hs : StronglySorted (in_order (compareResults localeCompare))
                 (Array_sort sort (compareResults localeCompare) X)).
  { apply Array_sort_sorts. intros a b c Ha Hb Hc'.
    apply Hc; apply (proj1 (List.Forall_forall _ _) HX); assumption. }
  pose proof (StronglySorted_firstn _ _ Hs (Z.to_nat limit)) as Hs'.
  intros i j a b Hij Ha Hb. apply in_order_tolerant.
  exact (StronglySorted_ordered _ _ Hs' i j a b Hij Ha Hb).
Qed.

Lemma getResults_sorted_slice h limit :
  Forall S (heap h) ->
  sorted_slice sort localeCompare S
    (slice0 (getResults sort localeCompare h) limit).
Proof. intros H. exists (heap h), limit. split; [assumption|reflexivity]. Qed.

Lemma heap_step_sorted b limit st i c :
  Forall S (heap (fst st)) ->
  heap_step sort localeCompare b query choices scorer limit st i = Ok c ->
  match c with
  | Next st' => Forall S (heap (fst st'))
  | Done r => sorted_slice sort localeCompare S r
  end.
Proof.
  destruct st as [h pm]. cbn [fst]. intros Hh. unfold heap_step.
  destruct (js_index choices i) as [ch|] eqn:Hch.
  2:{ intros [= <-]. assumption. }
  intros H. apply bind_inv in H as (v & Hv & H).
  pose proof (push_Forall S h (mkResult ch v) Hh
                (scored_candidate query choices scorer i ch v Hch Hv)) as Hp.
  destruct (Qeq_bool v 100).
  - destruct (limit <=? pm + 1)%Z.
    + destruct (_ && _); injection H as <-; cbn [fst]; [|assumption].
      now apply getResults_sorted_slice.
    + injection H as <-. assumption.
  - injection H as <-. assumption.
Qed.

Lemma chunk_step_sorted limit len chunkSize st start c :
  Forall S (heap (fst (fst st))) ->
  chunk_step sort localeCompare query choices scorer limit len chunkSize
    st start = Ok c ->
  match c with
  | Next st' => Forall S (heap (fst (fst st')))
  | Done r => sorted_slice sort localeCompare S r
  end.
Proof.
  destruct st as [[h processed] pm]. cbn [fst]. intros Hh. unfold chunk_step.
  intros H. apply bind_inv in H as (c1 & Hc1 & H).
  apply (for_loop_inv (fun st => Forall S (heap (fst st)))
           (sorted_slice sort localeCompare S)) in Hc1;
    [| intros s x c0 _; apply heap_step_sorted | assumption].
  destruct c1 as [[h1 pm1]|r]; [|now injection H as <-].
  cbn [fst] in Hc1.
  destruct (Qgtb _ _); [|now injection H as <-].
  destruct (limit <=? _)%Z; [|now injection H as <-].
  destruct (Qgtb _ 93); [|now injection H as <-].
  apply bind_inv in H as (h2 & Hh2 & H). injection H as <-.
  apply getResults_sorted_slice.
  apply (foldM_inv (fun h => Forall S (heap h))) in Hh2;
    [assumption| |assumption].
  intros s x s' _ Hs Hfold.
  apply (foldM_inv (fun h => Forall S (heap h))) in Hfold;
    [assumption| |assumption].
  intros s0 x0 s0' _. apply sample_step_members.
Qed.

Lemma extract_sorted_slice limit r :
  extract sort localeCompare query choices scorer limit = Ok r ->
  sorted_slice sort localeCompare S r.
Proof.
  unfold extract.
  destruct (length choices =? 0)%nat.
  { intros [= <-]. exists [], 0%Z. split; [constructor|].
    unfold slice0. now rewrite firstn_O. }
  destruct (limit <=? 0)%Z.
  { intros [= <-]. exists [], 0%Z. split; [constructor|].
    unfold slice0. now rewrite firstn_O. }
  cbv zeta.
  set (limit' := if (Z.of_nat (length choices) <? limit)%Z
                 then Z.of_nat (length choices) else limit).
  destruct (_ <=? limit' * 2)%Z.
  - intros H. apply bind_inv in H as (all & Hall & H). injection H as <-.
    exists all, limit'. split; [|reflexivity].
    apply (foldM_inv (Forall S)) in Hall; [assumption| |constructor].
    intros s x s' _. apply score_all_step_members.
  - destruct (8000 <? _)%Z.
    + unfold extractChunked. intros H. apply bind_inv in H as (c & Hc & H).
      apply (for_loop_inv (fun st => Forall S (heap (fst (fst st))))
               (sorted_slice sort localeCompare S)) in Hc;
        [| intros s x c0 _; apply chunk_step_sorted | constructor].
      destruct c as [[[h p] pm]|r']; injection H as <-; [|assumption].
      now apply getResults_sorted_slice.
    + intros H. apply bind_inv in H as (c & Hc & H).
      apply (for_loop_inv (fun st => Forall S (heap (fst st)))
               (sorted_slice sort localeCompare S)) in Hc;
        [| intros s x c0 _; apply heap_step_sorted | constructor].
      destruct c as [[h pm]|r']; injection H as <-; [|assumption].
      now apply getResults_sorted_slice.
Qed.

End Order.

(** The comparator of [extract] on the two near-tie candidates. *)
Lemma near_tie_consistent :
  consistent_on (is_scored "q" ["b"; "a"]%string near_tie_scorer)
    (compareResults ascii_localeCompare).
Proof.
  intros [ca va] [cb vb] [cc vc] [Ha Hva] [Hb Hvb] [Hc Hvc].
  cbn [choice score] in *.
  destruct Ha as [<-|[<-|[]]]; injection Hva as <-;
    destruct Hb as [<-|[<-|[]]]; injection Hvb as <-;
    destruct Hc as [<-|[<-|[]]]; injection Hvc as <-;
    vm_compute; repeat split; intros; congruence.
Qed.

(** The condition on the comparator is needed: with three scores in a
    chain of near ties the comparator puts ["a"] before ["b"], ["b"]
    before ["c"] and ["c"] before ["a"], so no order of the three
    results, whatever the host's sort returns, has every earlier result
    before every later one for it. *)
Lemma near_tie_chain_unordered (sort : ArraySort) results :
  extract sort ascii_localeCompare "q" ["a"; "b"; "c"]%string
    near_tie_chain_scorer 3 = Ok results ->
  ~ ordered (tolerant_order ascii_localeCompare) results.
Proof.
  change (extract sort ascii_localeCompare "q" ["a"; "b"; "c"]%string
            near_tie_chain_scorer 3)
    with (Ok (slice0 (Array_sort sort (compareResults ascii_localeCompare)
                        [mkResult "a" 50; mkResult "b" 50.0006;
                         mkResult "c" 50.0012]) 3)).
  intros [= <-] Ho.
  pose proof (Array_sort_permutes sort _ (compareResults ascii_localeCompare)
                [mkResult "a" 50; mkResult "b" 50.0006;
                 mkResult "c" 50.0012]) as Hp.
  unfold slice0 in Ho.
  rewrite firstn_all2 in Ho by (rewrite (Permutation_length Hp); cbn; lia).
  revert Hp Ho. generalize (Array_sort sort (compareResults ascii_localeCompare)
                [mkResult "a" 50; mkResult "b" 50.0006;
                 mkResult "c" 50.0012]).
  intros l Hp Ho.
  assert (Hidx : forall r, In r [mkResult "a" 50; mkResult "b" 50.0006;
                                 mkResult "c" 50.0012] ->
                 exists i, l !! i = Some r).
  { intros r Hr. apply (Permutation_in _ (Permutation_sym Hp)) in Hr.
    apply list_elem_of_In in Hr. now apply list_elem_of_lookup_1 in Hr. }
  destruct (Hidx (mkResult "a" 50)) as [ia Ha]; [cbn; auto|].
  destruct (Hidx (mkResult "b" 50.0006)) as [ib Hb]; [cbn; auto|].
  destruct (Hidx (mkResult "c" 50.0012)) as [ic Hc]; [cbn; auto|].
  assert (Hno : forall x y : ExtractResult,
            tolerant_order ascii_localeCompare x y ->
            (x, y) <> (mkResult "b" 50.0006, mkResult "a" 50) /\
            (x, y) <> (mkResult "c" 50.0012, mkResult "b" 50.0006) /\
            (x, y) <> (mkResult "a" 50, mkResult "c" 50.0012)).
  { intros x y Hxy.
    repeat split; intros [= -> ->]; destruct Hxy as [H|[H1 H2]];
      vm_compute in *;
      first [discriminate | now apply H | now apply H1 | now apply H2]. }
  assert (Hab : ia < ib).
  { destruct (lt_eq_lt_dec ia ib) as [[H|H]|H]; [assumption| |].
    - subst. rewrite Ha in Hb. discriminate.
    - destruct (Hno _ _ (Ho ib ia _ _ H Hb Ha)) as (N & _). now contradict N. }
  assert (Hbc : ib < ic).
  { destruct (lt_eq_lt_dec ib ic) as [[H|H]|H]; [assumption| |].
    - subst. rewrite Hb in Hc. discriminate.
    - destruct (Hno _ _ (Ho ic ib _ _ H Hc Hb)) as (_ & N & _).
      now contradict N. }
  destruct (Hno _ _ (Ho ia ic _ _ ltac:(lia) Ha Hc)) as (_ & _ & N).
  now contradict N.
Qed.

End OrderFacts.

(** * Claim C2 *)

Import OrderFacts.




Import MetricFacts TokenFacts TokenOrderFacts HeapOrderFacts SelectionFacts.

(** * What extractOne selects *)

Module BestMatchFacts.

Section Members.

Variables (query : string) (choices : list string) (scorer : ScorerFunction).

Let P := is_scored query choices scorer.

Lemma consider_members best idx c :
  P best -> consider query choices scorer best idx = Ok c ->
  match c with Next b => P b | Done b => P b end.
Proof.
  intros Hb. unfold consider.
  destruct (js_index choices idx) as [ch|] eqn:Hch.
  2:{ intros [= <-]. assumption. }
  intros H. apply bind_inv in H as (v & Hv & H).
  assert (Hnew : P (mkResult ch v))
    by (split; [now apply js_index_In in Hch|assumption]).
  destruct (Qgtb v (score best)); [|now injection H as <-].
  destruct (Qeq_bool v 100); now injection H as <-.
Qed.

Lemma verify_step_members Math_random len st v c :
  P (fst st) ->
  verify_step Math_random query choices scorer len st v = Ok c ->
  match c with Next st' => P (fst st') | Done b => P b end.
Proof.
  destruct st as [best found]. cbn [fst]. intros Hb. unfold verify_step.
  destruct (js_index choices _) as [ch|] eqn:Hch.
  2:{ intros [= <-]. assumption. }
  intros H. apply bind_inv in H as (w & Hw & H).
  assert (Hnew : P (mkResult ch w))
    by (split; [now apply js_index_In in Hch|assumption]).
  destruct (Qgtb w (score best)); [|now injection H as <-].
  destruct (Qeq_bool w 100); now injection H as <-.
Qed.

Lemma scan_chunk_step_members len chunkSize t1 t2 st start c :
  P (fst st) ->
  scan_chunk_step query choices scorer len chunkSize t1 t2 st start = Ok c ->
  match c with Next st' => P (fst st') | Done b => P b end.
Proof.
  destruct st as [best processed]. cbn [fst]. intros Hb.
  unfold scan_chunk_step. intros H. apply bind_inv in H as (c1 & Hc1 & H).
  apply (for_loop_inv P P) in Hc1;
    [| intros s x c0 _; apply consider_members | assumption].
  destruct c1 as [b1|r]; [|now injection H as <-].
  destruct (Qgtb _ t1); [|now injection H as <-].
  destruct (Qgtb _ t2); [|now injection H as <-].
  apply bind_inv in H as (c2 & Hc2 & H).
  apply (for_loop_inv P P) in Hc2; [| |assumption].
  - destruct c2; now injection H as <-.
  - intros s x c0 _ Hs. destruct (len <=? _)%Z.
    + now intros [= <-].
    + now apply consider_members.
Qed.

Lemma extractOneChunked_members Math_random c0 v0 r :
  P (mkResult c0 v0) ->
  extractOneChunked Math_random query choices scorer c0 v0 = Ok r -> P r.
Proof.
  intros H0. unfold extractOneChunked. cbv zeta.
  set (len := Z.of_nat (length choices)).
  set (chunkSize := if (200000 <? len)%Z then _ else _).
  set (t1 := if (100000 <? len)%Z then _ else _).
  assert (Hscan : forall best r,
    P best ->
    (c ← for_loop (scan_chunk_step query choices scorer len chunkSize t1 97)
           (range_step 1 len chunkSize) (best, 1%Z);
     match c with
     | Done r => Ok r
     | Next (best, _) => Ok best
     end) = Ok r -> P r).
  { intros best r' Hb H. apply bind_inv in H as (c & Hc & H).
    apply (for_loop_inv (fun st => P (fst st)) P) in Hc;
      [| intros s x c1 _; apply scan_chunk_step_members | assumption].
    destruct c as [[b p]|b]; now injection H as <-. }
  destruct (20000 <? len)%Z; [|now apply Hscan].
  intros H. apply bind_inv in H as (c1 & Hc1 & H).
  apply (for_loop_inv P P) in Hc1;
    [| intros s x c _; apply consider_members | assumption].
  destruct c1 as [b1|r1]; [|now injection H as <-].
  apply bind_inv in H as (c2 & Hc2 & H).
  apply (for_loop_inv P P) in Hc2;
    [| intros s x c _; apply consider_members | assumption].
  destruct c2 as [b2|r2]; [|now injection H as <-].
  destruct (_ && _); [|now apply (Hscan b2)].
  apply bind_inv in H as (c3 & Hc3 & H).
  apply (for_loop_inv (fun st => P (fst st)) P) in Hc3;
    [| intros s x c _; apply verify_step_members | assumption].
  destruct c3 as [[b3 found]|r3]; [|now injection H as <-].
  destruct (negb found); [now injection H as <-|now apply (Hscan b3)].
Qed.

(** X19: whatever tier [extractOne] takes, the result it returns is one
    of the candidates together with the score the scorer returned for
    it and the query. *)
Lemma extractOne_members Math_random r :
  extractOne Math_random query choices scorer = Ok (Some r) -> P r.
Proof.
  unfold extractOne. destruct (length choices =? 0)%nat; [discriminate|].
  destruct (js_index choices 0) as [c0|] eqn:Hc0; [|discriminate].
  intros H. apply bind_inv in H as (v0 & Hv0 & H).
  assert (H0 : P (mkResult c0 v0))
    by (split; [now apply js_index_In in Hc0|assumption]).
  destruct (Qeq_bool v0 100); [now injection H as <-|].
  destruct (20000 <? _)%Z.
  - apply bind_inv in H as (r' & Hr' & H). injection H as <-.
    now apply (extractOneChunked_members Math_random c0 v0).
  - apply bind_inv in H as (c & Hc & H).
    apply (for_loop_inv P P) in Hc;
      [| intros s x c1 _; apply consider_members | assumption].
    destruct c; now injection H as <-.
Qed.

(** X18: [extractOne] returns [null] exactly when there is no
    candidate. *)
Lemma extractOne_None Math_random :
  extractOne Math_random query choices scorer = Ok None <-> choices = [].
Proof.
  unfold extractOne. split.
  - destruct choices as [|c0 l]; [reflexivity|]. cbn [length Nat.eqb].
    unfold js_index. cbn [Z.ltb Z.compare Z.to_nat lookup list_lookup].
    intros H. apply bind_inv in H as (v0 & Hv0 & H).
    destruct (Qeq_bool v0 100); [discriminate|].
    destruct (20000 <? _)%Z.
    + apply bind_inv in H as (r' & Hr' & H). discriminate.
    + apply bind_inv in H as (c & Hc & H). destruct c; discriminate.
  - intros ->. reflexivity.
Qed.

End Members.

Section Exhaustive.

Variables (query : string) (choices : list string) (scorer : ScorerFunction).
Variable value : string -> Q.

Hypothesis scorer_value : forall c, In c choices -> scorer query c = Ok (value c).
Hypothesis scorer_bounded : forall c, In c choices -> (value c <= 100)%Q.

(** The running best after the candidates before [k]. *)
Let best_upto (k : nat) (b : ExtractResult) : Prop :=
  exists i, (i < k)%nat /\ choices !! i = Some (choice b) /\
    score b = value (choice b) /\
    (forall j c, (j < k)%nat -> choices !! j = Some c ->
       (value c <= score b)%Q) /\
    (forall j c, (j < i)%nat -> choices !! j = Some c ->
       (value c < score b)%Q).

Lemma best_upto_all b :
  best_upto (length choices) b -> exists i, first_best value choices i b.
Proof.
  intros (i & Hi & Hc & Hs & Hmax & Hfirst). exists i.
  split; [assumption|]. split; [assumption|]. split; [|assumption].
  intros c Hin. apply list_elem_of_In, list_elem_of_lookup_1 in Hin as (j & Hj).
  apply (Hmax j c); [|assumption]. now apply lookup_lt_Some in Hj.
Qed.

Lemma consider_best k b c :
  choices !! k = Some c -> best_upto k b ->
  exists r, consider query choices scorer b (Z.of_nat k) = Ok r /\
    match r with
    | Next b' => best_upto (S k) b'
    | Done b' => exists i, first_best value choices i b'
    end.
Proof.
  intros Hc (i & Hi & Hb & Hs & Hmax & Hfirst).
  assert (Hin : In c choices)
    by (apply list_elem_of_In; eapply list_elem_of_lookup_2, Hc).
  unfold consider. rewrite js_index_nat, Hc, (scorer_value c Hin), bind_Ok.
  destruct (Qgtb (value c) (score b)) eqn:E;
    [apply Qgtb_true in E|apply Qgtb_false in E].
  - assert (Hnew : forall j d, (j < k)%nat -> choices !! j = Some d ->
                     (value d < value c)%Q).
    { intros j d Hj Hd. specialize (Hmax j d Hj Hd). lra. }
    destruct (Qeq_bool (value c) 100) eqn:E100.
    + eexists. split; [reflexivity|]. exists k. unfold first_best. cbn [score choice].
      split; [assumption|]. split; [reflexivity|]. split; [|assumption].
      intros d Hd. apply Qeq_bool_iff in E100.
      pose proof (scorer_bounded d Hd). cbn [score]. lra.
    + eexists. split; [reflexivity|]. exists k. cbn [score choice].
      split; [lia|]. split; [assumption|]. split; [reflexivity|].
      split; [|assumption].
      intros j d Hj Hd. destruct (Nat.eq_dec j k) as [->|Hne].
      * assert (d = c) by congruence. subst. lra.
      * apply Qlt_le_weak, (Hnew j d); [lia|assumption].
  - eexists. split; [reflexivity|]. exists i.
    split; [lia|]. split; [assumption|]. split; [assumption|].
    split; [|assumption].
    intros j d Hj Hd. destruct (Nat.eq_dec j k) as [->|Hne].
    + assert (d = c) by congruence. now subst.
    + apply (Hmax j d); [lia|assumption].
Qed.

(** X20: on at most 20000 candidates, with a scorer that returns
    numbers up to 100, [extractOne] returns a candidate of the highest
    score, and of these the first in the list. *)
Lemma extractOne_exhaustive Math_random :
  choices <> [] -> (Z.of_nat (length choices) <= 20000)%Z ->
  exists r i,
    extractOne Math_random query choices scorer = Ok (Some r) /\
    first_best value choices i r.
Proof.
  intros Hne Hlen. unfold extractOne. cbv zeta.
  assert (Hlen0 : (0 < length choices)%nat).
  { clear -Hne. destruct choices; [contradiction|simpl; lia]. }
  destruct (lookup_lt_is_Some_2 choices 0 Hlen0) as [c0 H0].
  destruct (Nat.eqb_spec (length choices) 0); [lia|].
  change 0%Z with (Z.of_nat 0). rewrite js_index_nat, H0.
  assert (Hin : In c0 choices)
    by (apply list_elem_of_In; eapply list_elem_of_lookup_2, H0).
  rewrite (scorer_value c0 Hin), bind_Ok.
  assert (Hstart : best_upto 1 (mkResult c0 (value c0))).
  { exists 0%nat. unfold best_upto. cbn [score choice]. split; [lia|]. split; [assumption|].
    split; [reflexivity|]. split; [|intros j c Hj; lia].
    intros j c Hj Hc. assert (j = 0)%nat by lia. subst.
    assert (c = c0) by congruence. subst. lra. }
  destruct (Qeq_bool (value c0) 100) eqn:E100.
  { eexists _, 0%nat. split; [reflexivity|]. unfold first_best. cbn [score choice].
    split; [assumption|]. split; [reflexivity|].
    split; [|intros j c Hj; lia].
    intros d Hd. apply Qeq_bool_iff in E100.
    pose proof (scorer_bounded d Hd). cbn [score]. lra. }
  destruct (Z.ltb_spec 20000 (Z.of_nat (length choices))); [lia|].
  destruct (for_loop_ind
    (fun seen b => best_upto (S (length seen)) b)
    (fun b => exists i, first_best value choices i b)
    (consider query choices scorer)
    (zrange 1 (Z.to_nat (Z.of_nat (length choices) - 1)))
    (mkResult c0 (value c0))) as (c & Hc & Hpost).
  - exact Hstart.
  - intros seen x rest b Hxs Hb.
    apply zrange_split in Hxs as (Hx & Hlt).
    replace x with (Z.of_nat (S (length seen))) by lia.
    destruct (lookup_lt_is_Some_2 choices (S (length seen))) as [c Hc]; [lia|].
    destruct (consider_best _ _ _ Hc Hb) as (r & Hr & Hpost).
    exists r. split; [assumption|]. destruct r; [|assumption].
    rewrite length_app. cbn [length]. now rewrite Nat.add_1_r.
  - destruct c as [b|b].
    + rewrite zrange_length in Hpost.
      replace (S (Z.to_nat (Z.of_nat (length choices) - 1)))
        with (length choices) in Hpost by lia.
      destruct (best_upto_all b Hpost) as (i & Hi). exists b, i.
      unfold ExtractOneResult in *. now rewrite Hc, bind_Ok.
    + destruct Hpost as (i & Hi). exists b, i.
      unfold ExtractOneResult in *. now rewrite Hc, bind_Ok.
Qed.

End Exhaustive.

End BestMatchFacts.

Import MetricFacts TokenFacts TokenOrderFacts HeapOrderFacts SelectionFacts.
Import BestMatchFacts.
Import Processor.

(** * The default processor, the scorers layer and the scorer builder *)

Module ProcessorFacts.

Lemma is_whitespace_lower c : is_whitespace (lower_char c) = is_whitespace c.
Proof.
  destruct c as [[] [] [] [] [] [] [] []]; reflexivity.
Qed.

Lemma toLowerCase_trimStart s :
  toLowerCase (trimStart s) = trimStart (toLowerCase s).
Proof.
  induction s as [|c s IH]; [reflexivity|].
  cbn [trimStart toLowerCase]. rewrite is_whitespace_lower.
  destruct (is_whitespace c); [assumption|reflexivity].
Qed.

Lemma toLowerCase_trimEnd s :
  toLowerCase (trimEnd s) = trimEnd (toLowerCase s).
Proof.
  induction s as [|c s IH]; [reflexivity|].
  cbn [trimEnd toLowerCase]. rewrite <- IH, is_whitespace_lower.
  destruct (trimEnd s) as [|d t]; cbn [toLowerCase]; [|reflexivity].
  destruct (is_whitespace c); reflexivity.
Qed.

Lemma toLowerCase_trim s : toLowerCase (trim s) = trim (toLowerCase s).
Proof. unfold trim. now rewrite toLowerCase_trimEnd, toLowerCase_trimStart. Qed.

(** [trimStart] removes a prefix of white space and stops at the first
    other code unit. *)
Lemma trimStart_spec s :
  exists pre, s = String.append pre (trimStart s) /\ all_whitespace pre /\
    forall c, head (chars (trimStart s)) = Some c -> is_whitespace c = false.
Proof.
  induction s as [|c s (pre & Hs & Hpre & Hhead)].
  - exists EmptyString. repeat split; [constructor|discriminate].
  - cbn [trimStart]. destruct (is_whitespace c) eqn:E.
    + exists (String c pre). split; [cbn; now rewrite <- Hs|].
      split; [now constructor|assumption].
    + exists EmptyString. split; [reflexivity|]. split; [constructor|].
      cbn. intros d [= <-]. assumption.
Qed.

Lemma trimEnd_spec s :
  exists post, s = String.append (trimEnd s) post /\ all_whitespace post /\
    (forall c, last (chars (trimEnd s)) = Some c -> is_whitespace c = false) /\
    (forall c, head (chars s) = Some c -> is_whitespace c = false ->
       head (chars (trimEnd s)) = Some c).
Proof.
  induction s as [|c s (post & Hs & Hpost & Hlast & _)].
  - exists EmptyString. repeat split; try constructor; discriminate.
  - cbn [trimEnd]. destruct (trimEnd s) as [|d t] eqn:E.
    + destruct (is_whitespace c) eqn:Ec.
      * exists (String c post). split; [cbn in *; now rewrite <- Hs|].
        split; [now constructor|]. split; [discriminate|].
        cbn. intros d [= <-]. congruence.
      * exists post. split; [cbn in *; now rewrite <- Hs|].
        split; [assumption|]. split; [|now cbn].
        cbn. intros d [= <-]. assumption.
    + exists post. split; [cbn in *; now rewrite <- Hs|].
      split; [assumption|]. split; [|now cbn].
      intros e He. apply Hlast. exact He.
Qed.

Lemma trimStart_fixed s :
  (forall c, head (chars s) = Some c -> is_whitespace c = false) ->
  trimStart s = s.
Proof.
  destruct s as [|c s]; [reflexivity|]. intros H. cbn [trimStart].
  now rewrite (H c eq_refl).
Qed.

Lemma trimEnd_fixed s :
  (forall c, last (chars s) = Some c -> is_whitespace c = false) ->
  trimEnd s = s.
Proof.
  induction s as [|c s IH]; [reflexivity|]. intros H. cbn [trimEnd].
  destruct s as [|d s'].
  - cbn. now rewrite (H c eq_refl).
  - rewrite IH; [reflexivity|]. intros e He. apply H. exact He.
Qed.

Lemma trim_no_outer_whitespace s : no_outer_whitespace (trim s).
Proof.
  unfold trim.
  destruct (trimStart_spec s) as (pre & _ & _ & Hhead).
  destruct (trimEnd_spec (trimStart s)) as (post & Hs & _ & Hlast & Hkeep).
  intros c [Hc|Hc]; [|now apply Hlast].
  (* the head of the result is the head of what [trimStart] left *)
  destruct (trimStart s) as [|d t] eqn:E; [discriminate|].
  cbn [trimEnd] in Hc |- *.
  assert (Hd : is_whitespace d = false) by now apply Hhead.
  destruct (trimEnd t); [rewrite Hd in Hc|]; cbn in Hc; congruence.
Qed.

Lemma trim_fixed s : no_outer_whitespace s -> trim s = s.
Proof.
  intros H. unfold trim.
  rewrite (trimStart_fixed s) by (intros c Hc; apply H; now left).
  apply trimEnd_fixed. intros c Hc. apply H. now right.
Qed.

Lemma trim_spec s :
  exists pre post,
    s = String.append pre (String.append (trim s) post) /\
    all_whitespace pre /\ all_whitespace post.
Proof.
  destruct (trimStart_spec s) as (pre & Hs & Hpre & _).
  destruct (trimEnd_spec (trimStart s)) as (post & Ht & Hpost & _).
  exists pre, post. unfold trim. now rewrite <- Ht.
Qed.

End ProcessorFacts.

Module ScorerLayerFacts.
Import ProcessorFacts ScorerBuilder.

(** The core scorer an algorithm selects. *)
Lemma core_bounds (a : Algorithm) p1 p2 :
  exists r,
    match a with
    | simple => levenshteinRatio
    | partial => partialRatio
    | tokenSort => tokenSortRatio
    | tokenSet => tokenSetRatio
    | weighted => weightedRatio
    end p1 p2 = Ok r /\ (0 <= r <= 100)%Q.
Proof.
  destruct a.
  - apply weightedRatio_bounds.
  - apply levenshteinRatio_total.
  - apply partialRatio_total.
  - apply tokenSortRatio_total.
  - apply tokenSetRatio_total.
Qed.

Lemma clamp_id r : (0 <= r <= 100)%Q -> (Qmax 0 (Qmin 100 r) == r)%Q.
Proof.
  intros H. rewrite (Q.min_r 100 r) by lra. apply Q.max_r. lra.
Qed.

Lemma clamp_range lo hi r :
  (lo <= hi)%Q -> (lo <= Qmax lo (Qmin hi r) <= hi)%Q.
Proof.
  intros H. split; [apply Q.le_max_l|].
  apply Q.max_lub; [assumption|apply Q.le_min_l].
Qed.

Lemma clamp_crossed lo hi r : (hi < lo)%Q -> (Qmax lo (Qmin hi r) == lo)%Q.
Proof.
  intros H. apply Q.max_l.
  apply Qle_trans with hi; [apply Q.le_min_l|lra].
Qed.

(** Without bounds of its own, a built scorer is the function of the
    scorers layer. *)
Lemma createScorer_layer a p s1 s2 :
  same_result (createScorer (mkConfig a p None None) s1 s2)
              (scorer_of (default weighted a) s1 s2 p).
Proof.
  unfold createScorer. cbn [algorithm processor minScore maxScore default].
  assert (G : forall alg : Algorithm,
    same_result
      (processed1 ← Scorers.or_default p s1;
       processed2 ← Scorers.or_default p s2;
       score ← match alg with
               | simple => levenshteinRatio
               | partial => partialRatio
               | tokenSort => tokenSortRatio
               | tokenSet => tokenSetRatio
               | weighted => weightedRatio
               end processed1 processed2;
       Ok (Qmax 0 (Qmin 100 score)))
      (scorer_of alg s1 s2 p)).
  { intros alg.
    assert (E : scorer_of alg s1 s2 p =
      (p1 ← Scorers.or_default p s1; p2 ← Scorers.or_default p s2;
       match alg with
       | simple => levenshteinRatio
       | partial => partialRatio
       | tokenSort => tokenSortRatio
       | tokenSet => tokenSetRatio
       | weighted => weightedRatio
       end p1 p2)) by (destruct alg; reflexivity).
    rewrite E.
    destruct (Scorers.or_default p s1) as [p1|e]; [|reflexivity].
    destruct (Scorers.or_default p s2) as [p2|e]; [|reflexivity].
    rewrite !bind_Ok.
    destruct (core_bounds alg p1 p2) as (r & -> & Hr).
    rewrite bind_Ok. cbn [same_result]. now apply clamp_id. }
  destruct a as [alg|]; apply G.
Qed.

(** X24: a scorer made by [createScorer] with a processor that does
    not raise returns a number within its bounds when [minScore] is at
    most [maxScore]; when [minScore] exceeds [maxScore] it returns
    [minScore] whatever the strings. *)
Lemma createScorer_clamps config s1 s2 :
  (forall s, exists t, Scorers.or_default (processor config) s = Ok t) ->
  exists v, createScorer config s1 s2 = Ok v /\
    ((default 0 (minScore config) <= default 100 (maxScore config))%Q ->
     (default 0 (minScore config) <= v <= default 100 (maxScore config))%Q) /\
    ((default 100 (maxScore config) < default 0 (minScore config))%Q ->
     (v == default 0 (minScore config))%Q).
Proof.
  intros Hp. unfold createScorer.
  destruct (Hp s1) as (t1 & ->). destruct (Hp s2) as (t2 & ->).
  rewrite !bind_Ok.
  destruct (core_bounds (default weighted (algorithm config)) t1 t2)
    as (r & -> & _).
  rewrite bind_Ok. eexists. split; [reflexivity|]. split.
  - apply clamp_range.
  - apply clamp_crossed.
Qed.

(** Two spellings that differ in the case of a Latin-1 letter are equal
    once processed. *)
Example ratio_Ecole : Scorers.ratio Ecole ecole None = Ok 100%Q.
Proof. reflexivity. Qed.

(** X22: on two strings that are equal once lower-cased and trimmed, the
    functions of the scorers layer with the default processor return
    100, except [partialRatio] where the processed string is empty: it
    returns 0 there. *)
Lemma layer_equal_processed s1 s2 :
  defaultProcessor s1 = defaultProcessor s2 ->
  Scorers.ratio s1 s2 None = Ok 100%Q /\
  Scorers.tokenSortRatio s1 s2 None = Ok 100%Q /\
  (exists r, Scorers.tokenSetRatio s1 s2 None = Ok r /\ (r == 100)%Q) /\
  Scorers.WRatio s1 s2 None = Ok 100%Q /\
  Scorers.partialRatio s1 s2 None =
    Ok (if (String.length (defaultProcessor s1) =? 0)%nat
        then 0%Q else 100%Q).
Proof.
  intros E.
  unfold Scorers.ratio, Scorers.tokenSortRatio, Scorers.tokenSetRatio,
    Scorers.WRatio, Scorers.partialRatio, Scorers.or_default.
  cbv zeta. rewrite !bind_Ok, <- E.
  set (p := defaultProcessor s1).
  destruct (tokenize_total p) as (tokens & Ht).
  split; [apply levenshteinRatio_refl|].
  split; [now apply (tokenSortRatio_perm p p tokens tokens)|].
  split; [|split; [apply weightedRatio_refl|]].
  - destruct tokens as [|t ts] eqn:Etok.
    + exists 100%Q. split; [|reflexivity].
      unfold tokenSetRatio. now rewrite Ht, !bind_Ok.
    + apply (tokenSetRatio_same_set p p (t :: ts) (t :: ts));
        [assumption|assumption|discriminate|tauto].
  - destruct (Nat.eqb_spec (String.length p) 0) as [E0|N0].
    + apply partialRatio_empty. now left.
    + apply partialRatio_contains; [assumption|assumption|].
      destruct (_ <=? _)%nat, (_ <? _)%nat; apply is_substring_refl.
Qed.

End ScorerLayerFacts.

Import MetricFacts TokenFacts TokenOrderFacts HeapOrderFacts SelectionFacts.
Import BestMatchFacts.

(** * The linked list of LRUCache *)

Module LinkFacts.
Import LRUSpec.

Section Links.

Variable V : Type.

Implicit Types (st : list (LRU.CacheNode V)) (refs l : list nat).
Implicit Types (r x q : nat).

Lemma seg_nil_inv st from p0 to last :
  seg st from p0 [] to last -> from = to /\ last = p0.
Proof. inversion 1; subst. auto. Qed.

Lemma seg_cons_inv st from p0 r rs to last :
  seg st from p0 (r :: rs) to last ->
  from = Some r /\
  exists n, st !! r = Some n /\ LRU.prev n = p0 /\
            seg st (LRU.next n) (Some r) rs to last.
Proof. inversion 1; subst. split; [reflexivity|]. now exists n. Qed.

(** A segment only reads the nodes it runs through. *)
Lemma seg_frame st st' from p0 refs to last :
  (forall r, In r refs -> st' !! r = st !! r) ->
  seg st from p0 refs to last -> seg st' from p0 refs to last.
Proof.
  intros Hsame H. induction H as [from p0|r n p0 rs to last Hn Hp H IH].
  - constructor.
  - apply (seg_cons st' r n); [|assumption|].
    + rewrite Hsame by now left. assumption.
    + apply IH. intros r' Hr'. apply Hsame. now right.
Qed.

Lemma seg_alter st (f : LRU.CacheNode V -> LRU.CacheNode V) r from p0 refs to last :
  ~ In r refs -> seg st from p0 refs to last ->
  seg (alter f r st) from p0 refs to last.
Proof.
  intros Hr. apply seg_frame. intros r' Hr'.
  apply list_lookup_alter_ne. intros ->. contradiction.
Qed.

Lemma seg_app st l1 : forall from p0 l2 to last mid last1,
  seg st from p0 l1 mid last1 -> seg st mid last1 l2 to last ->
  seg st from p0 (l1 ++ l2) to last.
Proof.
  induction l1 as [|r l1 IH]; intros from p0 l2 to last mid last1 H1 H2.
  - apply seg_nil_inv in H1 as [-> ->]. assumption.
  - apply seg_cons_inv in H1 as (-> & n & Hn & Hp & H1).
    apply (seg_cons st r n); [assumption|assumption|].
    now apply (IH _ _ _ _ _ mid last1).
Qed.

Lemma seg_split st l1 : forall from p0 l2 to last,
  seg st from p0 (l1 ++ l2) to last ->
  exists mid last1,
    seg st from p0 l1 mid last1 /\ seg st mid last1 l2 to last.
Proof.
  induction l1 as [|r l1 IH]; intros from p0 l2 to last H.
  - exists from, p0. split; [constructor|assumption].
  - apply seg_cons_inv in H as (-> & n & Hn & Hp & H).
    destruct (IH _ _ _ _ _ H) as (mid & last1 & H1 & H2).
    exists mid, last1. split; [|assumption].
    now apply (seg_cons st r n).
Qed.

(** The end of a segment that is not empty. *)
Lemma seg_snoc_inv st l x from p0 to last :
  seg st from p0 (l ++ [x]) to last ->
  last = Some x /\
  exists n last1, st !! x = Some n /\ LRU.next n = to /\
    LRU.prev n = last1 /\ seg st from p0 l (Some x) last1.
Proof.
  intros H. apply seg_split in H as (mid & last1 & H1 & H2).
  apply seg_cons_inv in H2 as (-> & n & Hn & Hp & H2).
  apply seg_nil_inv in H2 as [Hto ->].
  split; [reflexivity|]. now exists n, last1.
Qed.

Lemma seg_lookup st from p0 refs to last r :
  seg st from p0 refs to last -> In r refs -> is_Some (st !! r).
Proof.
  induction 1 as [|r' n p0 rs to last Hn Hp H IH]; intros Hr; [destruct Hr|].
  destruct Hr as [->|Hr]; [now exists n|auto].
Qed.

(** The first link of a segment that is not empty, and the link back of
    its first node. *)
Lemma seg_first st from p0 refs to last :
  seg st from p0 refs to last ->
  from = match refs with r :: _ => Some r | [] => to end.
Proof. destruct 1; reflexivity. Qed.

(** Redirecting the [next] link of the last node. *)
Lemma seg_set_last_next st l x from p0 to to' last :
  ~ In x l -> seg st from p0 (l ++ [x]) to last ->
  seg (alter (LRU.with_next to') x st) from p0 (l ++ [x]) to' last.
Proof.
  intros Hx H.
  apply seg_snoc_inv in H as (-> & n & last1 & Hn & Hto & Hp & H).
  apply (seg_app _ _ _ _ _ _ _ (Some x) last1).
  - now apply seg_alter.
  - apply (seg_cons _ x (LRU.with_next to' n)).
    + rewrite list_lookup_alter_eq, Hn. reflexivity.
    + exact Hp.
    + constructor.
Qed.

(** Redirecting the [prev] link of the first node. *)
Lemma seg_set_first_prev st q l p0 p1 to last :
  ~ In q l -> seg st (Some q) p0 (q :: l) to last ->
  seg (alter (LRU.with_prev p1) q st) (Some q) p1 (q :: l) to last.
Proof.
  intros Hq H. apply seg_cons_inv in H as (_ & n & Hn & Hp & H).
  apply (seg_cons _ q (LRU.with_prev p1 n)).
  - rewrite list_lookup_alter_eq, Hn. reflexivity.
  - reflexivity.
  - now apply seg_alter.
Qed.

(** Following the links finds the nodes of a list that ends. *)
Lemma walk_seg st refs : forall fuel from p0 last,
  seg st from p0 refs None last -> length refs <= fuel ->
  walk fuel st from = refs.
Proof.
  induction refs as [|r refs IH]; intros fuel from p0 last H Hfuel.
  - apply seg_nil_inv in H as [-> _]. destruct fuel; reflexivity.
  - apply seg_cons_inv in H as (-> & n & Hn & Hp & H).
    destruct fuel as [|fuel]; [simpl in Hfuel; lia|].
    cbn [walk]. rewrite Hn. f_equal.
    apply (IH fuel _ (Some r) last H). simpl in Hfuel. lia.
Qed.

Lemma refs_bound st from p0 refs to last :
  seg st from p0 refs to last -> List.NoDup refs ->
  length refs <= length st.
Proof.
  intros H Hnd.
  assert (Hincl : incl refs (seq 0 (length st))).
  { intros r Hr. apply in_seq. split; [lia|].
    destruct (seg_lookup _ _ _ _ _ _ r H Hr) as (n & Hn).
    apply lookup_lt_Some in Hn. lia. }
  pose proof (NoDup_incl_length Hnd Hincl) as Hle.
  now rewrite List.length_seq in Hle.
Qed.

End Links.

End LinkFacts.

Import MetricFacts TokenFacts TokenOrderFacts HeapOrderFacts SelectionFacts.
Import BestMatchFacts LinkFacts.

(** * The operations of LRUCache on the list of entries *)

Module CacheFacts.
Import LRUSpec.

Section Cache.

Variable V : Type.

Implicit Types (c : LRU.LRUCache V) (st : list (LRU.CacheNode V)).
Implicit Types (refs l : list nat) (m : list (string * nat)).

(** ** The map *)

Lemma Map_get_In m k r :
  List.NoDup (map fst m) -> LRU.Map_get m k = Some r <-> In (k, r) m.
Proof.
  unfold LRU.Map_get. induction m as [|[k' r'] m IH]; intros Hnd; simpl.
  - split; [discriminate|tauto].
  - inversion Hnd as [|? ? Hk' Hm]; subst.
    destruct (String.eqb_spec k' k) as [->|Hne].
    + split.
      * intros [= ->]. now left.
      * intros [[= ->]|Hin]; [reflexivity|].
        exfalso. apply Hk'. apply in_map_iff. now exists (k, r).
    + rewrite (IH Hm). split; [tauto|]. intros [[= -> ->]|H]; tauto.
Qed.

Lemma Map_get_None m k :
  LRU.Map_get m k = None <-> forall r, ~ In (k, r) m.
Proof.
  unfold LRU.Map_get. induction m as [|[k' r'] m IH]; simpl.
  - split; [tauto|reflexivity].
  - destruct (String.eqb_spec k' k) as [->|Hne].
    + split; [discriminate|]. intros H. exfalso. apply (H r'). now left.
    + rewrite IH. split.
      * intros H r [[= -> ->]|Hin]; [contradiction|]. now apply (H r).
      * intros H r Hin. apply (H r). now right.
Qed.

Lemma Map_delete_In m k k' r :
  In (k', r) (LRU.Map_delete m k) <-> In (k', r) m /\ k' <> k.
Proof.
  unfold LRU.Map_delete. rewrite filter_In. cbn [fst].
  rewrite negb_true_iff. split; intros [H1 H2]; (split; [assumption|]).
  - now apply String.eqb_neq.
  - now apply String.eqb_neq.
Qed.

Lemma Map_delete_NoDup m k :
  List.NoDup (map fst m) -> List.NoDup (map fst (LRU.Map_delete m k)).
Proof.
  unfold LRU.Map_delete. induction m as [|[k' r'] m IH]; intros Hnd; simpl.
  - constructor.
  - inversion Hnd as [|? ? Hk' Hm]; subst.
    destruct (negb (k' =? k)%string); [|now apply IH].
    cbn [map fst]. constructor; [|now apply IH].
    intros Hin. apply Hk'. apply in_map_iff in Hin as ([k2 r2] & <- & Hin).
    apply filter_In in Hin as [Hin _]. apply in_map_iff. now exists (k2, r2).
Qed.

Lemma Map_set_fresh m k r :
  LRU.Map_get m k = None -> LRU.Map_set m k r = m ++ [(k, r)].
Proof.
  unfold LRU.Map_set, LRU.Map_get. intros H.
  destruct (existsb _ m) eqn:E; [|reflexivity].
  apply existsb_exists in E as (e & He & Hk).
  destruct (List.find (fun e => (fst e =? k)%string) m) eqn:Efind;
    [discriminate|].
  pose proof (find_none _ _ Efind e He) as Hno. cbn beta in Hno. congruence.
Qed.

(** ** Lists without duplicates *)

Lemma NoDup_mid (l1 : list nat) x l2 :
  List.NoDup (l1 ++ x :: l2) ->
  ~ In x l1 /\ ~ In x l2 /\ List.NoDup l1 /\ List.NoDup l2 /\
  (forall y, In y l1 -> ~ In y l2).
Proof.
  intros H. pose proof (NoDup_remove_2 _ _ _ H) as Hx.
  pose proof (NoDup_remove_1 _ _ _ H) as H'.
  rewrite in_app_iff in Hx.
  split; [tauto|]. split; [tauto|].
  split; [exact (NoDup_app_remove_r _ _ H')|].
  split; [exact (NoDup_app_remove_l _ _ H')|].
  clear H Hx. induction l1 as [|a l1 IH]; intros y Hy; [destruct Hy|].
  simpl in H'. inversion H' as [|? ? Ha Hl]; subst.
  destruct Hy as [->|Hy]; [|now apply IH].
  intros Hin. apply Ha. apply in_app_iff. now right.
Qed.

Lemma NoDup_split_unique (l1 l2 l1' l2' : list nat) x :
  List.NoDup (l1 ++ x :: l2) -> l1 ++ x :: l2 = l1' ++ x :: l2' ->
  l1 = l1' /\ l2 = l2'.
Proof.
  intros Hnd E. assert (Hnd' := Hnd). rewrite E in Hnd'.
  destruct (NoDup_mid _ _ _ Hnd) as (Hr1 & _).
  destruct (NoDup_mid _ _ _ Hnd') as (Hr1' & _).
  clear Hnd Hnd'. revert l1' E Hr1'.
  induction l1 as [|a l1 IH]; intros l1' E H1'.
  - destruct l1' as [|b l1'].
    + injection E as <-. auto.
    + injection E as <- E. exfalso. apply H1'. now left.
  - destruct l1' as [|b l1'].
    + injection E as -> E. exfalso. apply Hr1. now left.
    + injection E as <- E.
      destruct (IH (fun H => Hr1 (or_intror H)) l1' E
                   (fun H => H1' (or_intror H))) as [-> ->].
      auto.
Qed.

(** ** Taking a node out of the list *)

(** The side of the node before [r]: its [next] link, or [head]. *)
Lemma unlink_prev st hd l1 r pv nx :
  ~ In r l1 -> List.NoDup l1 ->
  seg st hd None l1 (Some r) pv ->
  seg (match pv with
       | Some p => alter (LRU.with_next nx) p st
       | None => st
       end)
      (match pv with Some _ => hd | None => nx end)
      None l1 nx pv /\
  (pv = None <-> l1 = []) /\ (hd = Some r <-> l1 = []) /\
  (forall p, pv = Some p -> In p l1).
Proof.
  intros Hr Hnd H. destruct l1 as [|a l1'] using rev_ind.
  - apply seg_nil_inv in H as [-> ->].
    split; [constructor|]. split; [tauto|]. split; [tauto|discriminate].
  - clear IHl1'. pose proof (seg_first _ _ _ _ _ _ _ H) as Hhd.
    pose proof H as H'.
    apply seg_snoc_inv in H' as (-> & _).
    apply NoDup_mid in Hnd as (Ha & _).
    split; [eapply seg_set_last_next; [exact Ha|exact H]|].
    split; [split; [discriminate|intros E; now apply app_eq_nil in E as [_ E]]|].
    split.
    + split; [|intros E; now apply app_eq_nil in E as [_ E]].
      intros ->. exfalso. apply Hr.
      destruct l1'; simpl in Hhd; injection Hhd as <-;
        apply in_app_iff; [right|left]; now left.
    + intros p [= <-]. apply in_app_iff. right. now left.
Qed.

(** The side of the node after [r]: its [prev] link, or [tail]. *)
Lemma unlink_next st tl l2 r pv nx :
  ~ In r l2 -> List.NoDup l2 ->
  seg st nx (Some r) l2 None tl ->
  seg (match nx with
       | Some q => alter (LRU.with_prev pv) q st
       | None => st
       end)
      nx pv l2 None
      (match nx with Some _ => tl | None => pv end) /\
  (nx = None <-> l2 = []) /\ (tl = Some r <-> l2 = []) /\
  (forall q, nx = Some q -> In q l2).
Proof.
  intros Hr Hnd H. destruct l2 as [|q l2'].
  - apply seg_nil_inv in H as [-> ->].
    split; [constructor|]. split; [tauto|]. split; [tauto|discriminate].
  - pose proof (seg_first _ _ _ _ _ _ _ H) as ->.
    inversion Hnd as [|? ? Hq Hnd']; subst.
    split; [eapply seg_set_first_prev; [exact Hq|exact H]|].
    split; [split; discriminate|]. split.
    + split; [|discriminate]. intros ->. exfalso.
      destruct l2' as [|b l2''] using rev_ind.
      * apply seg_cons_inv in H as (_ & n & _ & _ & H).
        apply seg_nil_inv in H as [_ [= ->]]. apply Hr. now left.
      * change (q :: l2'' ++ [b]) with ((q :: l2'') ++ [b]) in H.
        apply seg_snoc_inv in H as ([= ->] & _).
        apply Hr. right. apply in_app_iff. right. now left.
    + intros q' [= <-]. now left.
Qed.

(** The store, [head] and [tail] once the node [n] at [r] is taken out
    of the list. *)
Lemma unlink_seg st hd tl l1 r l2 n :
  seg st hd None (l1 ++ r :: l2) None tl ->
  List.NoDup (l1 ++ r :: l2) -> st !! r = Some n ->
  seg (match LRU.next n with
       | Some q => alter (LRU.with_prev (LRU.prev n)) q
       | None => fun st => st
       end
         (match LRU.prev n with
          | Some p => alter (LRU.with_next (LRU.next n)) p st
          | None => st
          end))
      (match LRU.prev n with Some _ => hd | None => LRU.next n end)
      None (l1 ++ l2) None
      (match LRU.next n with Some _ => tl | None => LRU.prev n end) /\
  (LRU.prev n = None <-> l1 = []) /\ (hd = Some r <-> l1 = []) /\
  (LRU.next n = None <-> l2 = []) /\ (tl = Some r <-> l2 = []) /\
  (forall p, LRU.prev n = Some p -> In p l1) /\
  (forall q, LRU.next n = Some q -> In q l2).
Proof.
  intros H Hnd Hn.
  destruct (NoDup_mid _ _ _ Hnd) as (Hr1 & Hr2 & Hnd1 & Hnd2 & Hdis).
  apply seg_split in H as (mid & last1 & H1 & H2).
  apply seg_cons_inv in H2 as (-> & n' & Hn' & Hp & H2).
  assert (n' = n) by congruence. subst n'. subst last1.
  destruct (unlink_prev st hd l1 r (LRU.prev n) (LRU.next n) Hr1 Hnd1 H1)
    as (S1 & E1 & E1' & I1).
  destruct (unlink_next st tl l2 r (LRU.prev n) (LRU.next n) Hr2 Hnd2 H2)
    as (S2 & E2 & E2' & I2).
  split; [|tauto].
  apply (seg_app _ _ _ _ _ _ _ _ (LRU.next n) (LRU.prev n)).
  - (* the nodes before [r] are not touched by the update after it *)
    destruct (LRU.next n) as [q|] eqn:Enx; [|exact S1].
    apply seg_alter; [|exact S1].
    intros Hq. apply (Hdis q Hq). now apply I2.
  - (* the nodes after [r] are not touched by the update before it *)
    destruct (LRU.prev n) as [p|] eqn:Epv;
      destruct (LRU.next n) as [q|] eqn:Enx; try exact S2.
    + assert (Hpq : p <> q).
      { intros ->. apply (Hdis q); [now apply I1|now apply I2]. }
      rewrite list_alter_alter_ne by congruence.
      apply seg_alter; [|exact S2].
      intros Hp'. apply (Hdis p); [now apply I1|assumption].
    + apply seg_alter; [|exact S2].
      intros Hp'. apply (Hdis p); [now apply I1|assumption].
Qed.

(** ** What the links do not touch *)

Lemma entry_alter st (f : LRU.CacheNode V -> LRU.CacheNode V) r r' :
  (forall n, entry_of (f n) = entry_of n) ->
  entry_of <$> alter f r st !! r' = entry_of <$> st !! r'.
Proof.
  intros Hf. destruct (Nat.eq_dec r r') as [->|Hne].
  - rewrite list_lookup_alter_eq. destruct (st !! r'); [|reflexivity].
    cbn. now rewrite Hf.
  - now rewrite list_lookup_alter_ne.
Qed.

Lemma key_of_entry c r :
  LRU.key_of c r = entry_key <$> (entry_of <$> LRU.store c !! r).
Proof. unfold LRU.key_of. now destruct (LRU.store c !! r). Qed.

(** Assigning [value] or [expires] leaves the links alone. *)
Lemma seg_alter_data st (f : LRU.CacheNode V -> LRU.CacheNode V) r
    from p0 refs to last :
  (forall n, LRU.prev (f n) = LRU.prev n /\ LRU.next (f n) = LRU.next n) ->
  seg st from p0 refs to last -> seg (alter f r st) from p0 refs to last.
Proof.
  intros Hf H. induction H as [from p0|r' n p0 rs to last Hn Hp H IH].
  - constructor.
  - destruct (Nat.eq_dec r r') as [->|Hne].
    + apply (seg_cons _ r' (f n)).
      * now rewrite list_lookup_alter_eq, Hn.
      * now rewrite (proj1 (Hf n)).
      * now rewrite (proj2 (Hf n)).
    + apply (seg_cons _ r' n); [|assumption|assumption].
      now rewrite list_lookup_alter_ne.
Qed.

(** ** The list of entries of a well-formed cache *)

Lemma entries_repr c refs :
  repr c refs ->
  entries c = omap (fun r => entry_of <$> LRU.store c !! r) refs.
Proof.
  intros (Hseg & Hnd & _). unfold entries, order.
  rewrite (walk_seg _ _ _ _ _ _ _ Hseg); [reflexivity|].
  apply (refs_bound _ _ _ _ _ _ _ Hseg Hnd).
Qed.

Lemma omap_entries_ext st st' refs :
  (forall r, entry_of <$> st' !! r = entry_of <$> st !! r) ->
  omap (fun r => entry_of <$> st' !! r) refs =
  omap (fun r => entry_of <$> st !! r) refs.
Proof.
  intros H. induction refs as [|r refs IH]; [reflexivity|].
  cbn [omap list_omap]. now rewrite H, IH.
Qed.

Lemma repr_lookup c refs r :
  repr c refs -> In r refs -> exists n, LRU.store c !! r = Some n.
Proof.
  intros (Hseg & _) Hr.
  now destruct (seg_lookup _ _ _ _ _ _ _ r Hseg Hr) as (n & Hn); exists n.
Qed.

(** No two nodes of the list have the same key. *)
Lemma repr_key_inj c refs r r' k :
  repr c refs -> In r refs -> In r' refs ->
  LRU.key_of c r = Some k -> LRU.key_of c r' = Some k -> r = r'.
Proof.
  intros (_ & _ & Hkeys & Hmap) Hr Hr' Hk Hk'.
  assert (H1 : In (k, r) (LRU.cache c)) by now apply Hmap.
  assert (H2 : In (k, r') (LRU.cache c)) by now apply Hmap.
  apply (Map_get_In _ _ _ Hkeys) in H1, H2. congruence.
Qed.

Lemma repr_get c refs k r :
  repr c refs -> LRU.Map_get (LRU.cache c) k = Some r ->
  exists l1 l2 n,
    refs = l1 ++ r :: l2 /\ LRU.store c !! r = Some n /\ LRU.key n = k.
Proof.
  intros Hrepr Hget. pose proof Hrepr as (_ & _ & Hkeys & Hmap).
  apply (Map_get_In _ _ _ Hkeys), Hmap in Hget as (Hr & Hk).
  destruct (in_split _ _ Hr) as (l1 & l2 & ->).
  unfold LRU.key_of in Hk.
  destruct (LRU.store c !! r) as [n|] eqn:Hn; [|discriminate].
  injection Hk as Hk. now exists l1, l2, n.
Qed.

Lemma remove_key_app k (a b : list (entry V)) :
  remove_key k (a ++ b) = remove_key k a ++ remove_key k b.
Proof. apply List.filter_app. Qed.

Lemma remove_key_cons k (e : entry V) es :
  remove_key k (e :: es) =
  if String.eqb (entry_key e) k then remove_key k es
  else e :: remove_key k es.
Proof.
  unfold remove_key, has_key. cbn [List.filter].
  now destruct (String.eqb (entry_key e) k).
Qed.

(** The entries other than that of key [k]. *)
Lemma remove_key_repr c l1 r l2 k :
  repr c (l1 ++ r :: l2) -> LRU.key_of c r = Some k ->
  remove_key k (omap (fun r => entry_of <$> LRU.store c !! r)
                     (l1 ++ r :: l2)) =
  omap (fun r => entry_of <$> LRU.store c !! r) (l1 ++ l2).
Proof.
  intros Hrepr Hk.
  assert (Hother : forall l, (forall x, In x l -> In x (l1 ++ r :: l2)) ->
            ~ In r l ->
            remove_key k (omap (fun r => entry_of <$> LRU.store c !! r) l) =
            omap (fun r => entry_of <$> LRU.store c !! r) l).
  { induction l as [|x l IH]; intros Hin Hr; [reflexivity|].
    cbn [omap list_omap].
    destruct (repr_lookup c _ x Hrepr (Hin x (or_introl eq_refl)))
      as (nx & Hnx).
    rewrite Hnx. cbn [fmap option_fmap option_map].
    rewrite remove_key_cons. cbn [entry_key entry_of fst].
    destruct (String.eqb_spec (LRU.key nx) k) as [E|N].
    - exfalso. apply Hr. left. symmetry.
      apply (repr_key_inj c _ r x k Hrepr); auto.
      + apply in_app_iff. right. now left.
      + apply Hin. now left.
      + unfold LRU.key_of. now rewrite Hnx, <- E.
    - f_equal. apply IH.
      + intros y Hy. apply Hin. now right.
      + intros Hr'. apply Hr. now right. }
  destruct (NoDup_mid _ _ _ (proj1 (proj2 Hrepr))) as (Hr1 & Hr2 & _).
  rewrite !omap_app, remove_key_app. cbn [omap list_omap].
  unfold LRU.key_of in Hk.
  destruct (LRU.store c !! r) as [n|] eqn:Hn; [|discriminate].
  injection Hk as Hk. cbn [fmap option_fmap option_map].
  rewrite remove_key_cons. cbn [entry_key entry_of fst].
  rewrite Hk, String.eqb_refl.
  rewrite (Hother l1), (Hother l2); auto.
  - intros x Hx. apply in_app_iff. right. now right.
  - intros x Hx. apply in_app_iff. now left.
Qed.

(** ** delete *)

Lemma delete_unfold c k r n :
  LRU.Map_get (LRU.cache c) k = Some r -> LRU.store c !! r = Some n ->
  (forall p, LRU.prev n = Some p -> p <> r) ->
  LRU.delete k c =
  (true,
   LRU.mkLRUCache (LRU.capacity c) (LRU.Map_delete (LRU.cache c) k)
     (match LRU.prev n with Some _ => LRU.head c | None => LRU.next n end)
     (match LRU.next n with Some _ => LRU.tail c | None => LRU.prev n end)
     (match LRU.next n with
      | Some q => alter (LRU.with_prev (LRU.prev n)) q
      | None => fun st => st
      end
        (match LRU.prev n with
         | Some p => alter (LRU.with_next (LRU.next n)) p (LRU.store c)
         | None => LRU.store c
         end))).
Proof.
  intros Hget Hn Hp. unfold LRU.delete. rewrite Hget.
  unfold LRU.prev_of, LRU.next_of. rewrite Hn. cbn [mbind option_bind].
  destruct (LRU.prev n) as [p|] eqn:Epv.
  - cbn [LRU.set_node LRU.store LRU.head LRU.tail LRU.cache LRU.capacity].
    rewrite list_lookup_alter_ne by (now apply Hp). rewrite Hn.
    cbn [mbind option_bind]. rewrite Epv.
    destruct (LRU.next n); reflexivity.
  - cbn [LRU.set_head LRU.store LRU.head LRU.tail LRU.cache LRU.capacity].
    rewrite Hn. cbn [mbind option_bind]. rewrite Epv.
    destruct (LRU.next n); reflexivity.
Qed.

(** Two updates of links keep every entry. *)
Lemma unlink_entries st (n : LRU.CacheNode V) r :
  entry_of <$>
    (match LRU.next n with
     | Some q => alter (LRU.with_prev (LRU.prev n)) q
     | None => fun st => st
     end
       (match LRU.prev n with
        | Some p => alter (LRU.with_next (LRU.next n)) p st
        | None => st
        end)) !! r =
  entry_of <$> st !! r.
Proof.
  destruct (LRU.next n), (LRU.prev n);
    rewrite ?entry_alter by reflexivity; reflexivity.
Qed.

Lemma unlink_length st (n : LRU.CacheNode V) :
  length
    (match LRU.next n with
     | Some q => alter (LRU.with_prev (LRU.prev n)) q
     | None => fun st => st
     end
       (match LRU.prev n with
        | Some p => alter (LRU.with_next (LRU.next n)) p st
        | None => st
        end)) = length st.
Proof.
  destruct (LRU.next n), (LRU.prev n); now rewrite ?length_alter.
Qed.

Lemma delete_hit c l1 r l2 k :
  repr c (l1 ++ r :: l2) -> LRU.Map_get (LRU.cache c) k = Some r ->
  fst (LRU.delete k c) = true /\
  repr (snd (LRU.delete k c)) (l1 ++ l2) /\
  (forall r', entry_of <$> LRU.store (snd (LRU.delete k c)) !! r' =
              entry_of <$> LRU.store c !! r') /\
  LRU.capacity (snd (LRU.delete k c)) = LRU.capacity c /\
  length (LRU.store (snd (LRU.delete k c))) = length (LRU.store c) /\
  LRU.cache (snd (LRU.delete k c)) = LRU.Map_delete (LRU.cache c) k.
Proof.
  intros Hrepr Hget.
  destruct (repr_get c _ k r Hrepr Hget) as (l1' & l2' & n & E & Hn & Hk).
  pose proof Hrepr as (Hseg & Hnd & Hkeys & Hmap).
  destruct (NoDup_split_unique _ _ _ _ _ Hnd E) as [<- <-]. clear E.
  destruct (unlink_seg _ _ _ _ _ _ _ Hseg Hnd Hn)
    as (Hseg' & _ & _ & _ & _ & Hp & _).
  destruct (NoDup_mid _ _ _ Hnd) as (Hr1 & Hr2 & _).
  rewrite (delete_unfold c k r n Hget Hn)
    by (intros p Hpv ->; now apply Hr1, Hp).
  cbn [fst snd LRU.store LRU.capacity LRU.cache].
  split; [reflexivity|].
  split; [|split; [intros r'; apply unlink_entries|
           split; [reflexivity|split; [apply unlink_length|reflexivity]]]].
  split; [exact Hseg'|]. split; [exact (NoDup_remove_1 _ _ _ Hnd)|].
  cbn [LRU.cache]. split; [now apply Map_delete_NoDup|].
  intros k' r'. rewrite Map_delete_In, Hmap, !key_of_entry.
  cbn [LRU.store]. rewrite unlink_entries.
  rewrite !in_app_iff. cbn [In]. split.
  - intros ((Hin & Hk') & Hne). split; [|assumption].
    destruct Hin as [Hin|[<-|Hin]]; auto.
    exfalso. apply Hne. rewrite Hn in Hk'. cbn in Hk'. congruence.
  - intros (Hin & Hk'). split; [split; [tauto|assumption]|].
    intros ->.
    assert (r' = r).
    { apply (repr_key_inj c _ r' r k Hrepr).
      - apply in_app_iff. destruct Hin; [now left|right; now right].
      - apply in_app_iff. right. now left.
      - now rewrite key_of_entry.
      - unfold LRU.key_of. rewrite Hn. cbn. congruence. }
    subst r'. destruct Hin; contradiction.
Qed.

Lemma delete_miss c k :
  LRU.Map_get (LRU.cache c) k = None -> LRU.delete k c = (false, c).
Proof. intros H. unfold LRU.delete. now rewrite H. Qed.

(** A key that is not in the map is the key of no entry. *)
Lemma remove_key_absent c refs k :
  repr c refs -> LRU.Map_get (LRU.cache c) k = None ->
  find_key k (entries c) = None /\ remove_key k (entries c) = entries c.
Proof.
  intros Hrepr Hget. rewrite (entries_repr c refs Hrepr).
  pose proof Hrepr as (_ & _ & _ & Hmap).
  assert (Hno : forall r, In r refs -> LRU.key_of c r <> Some k).
  { intros r Hr Hk. apply (proj1 (Map_get_None _ _) Hget r).
    now apply Hmap. }
  clear Hget Hmap.
  assert (G : forall l, (forall r, In r l -> In r refs) ->
    find_key k (omap (fun r => entry_of <$> LRU.store c !! r) l) = None /\
    remove_key k (omap (fun r => entry_of <$> LRU.store c !! r) l) =
    omap (fun r => entry_of <$> LRU.store c !! r) l).
  { induction l as [|x l IH]; intros Hin; [split; reflexivity|].
    cbn [omap list_omap].
    destruct (repr_lookup c _ x Hrepr (Hin x (or_introl eq_refl)))
      as (nx & Hnx).
    rewrite Hnx. cbn [fmap option_fmap option_map].
    rewrite remove_key_cons. unfold find_key. cbn [List.find].
    unfold has_key at 1. cbn [entry_key entry_of fst].
    destruct (String.eqb_spec (LRU.key nx) k) as [E|N].
    - exfalso. apply (Hno x (Hin x (or_introl eq_refl))).
      unfold LRU.key_of. now rewrite Hnx, <- E.
    - destruct (IH (fun r Hr => Hin r (or_intror Hr))) as [IH1 IH2].
      split; [exact IH1|now rewrite IH2]. }
  apply G. auto.
Qed.

(** The entry of a key that is in the map. *)
Lemma find_key_present c l1 r l2 n :
  repr c (l1 ++ r :: l2) -> LRU.store c !! r = Some n ->
  find_key (LRU.key n) (entries c) = Some (entry_of n).
Proof.
  intros Hrepr Hn. rewrite (entries_repr c _ Hrepr).
  destruct (NoDup_mid _ _ _ (proj1 (proj2 Hrepr))) as (Hr1 & _).
  assert (G : forall l (es : list (entry V)),
    (forall x, In x l -> In x (l1 ++ r :: l2)) ->
    ~ In r l ->
    find_key (LRU.key n)
      (omap (fun r => entry_of <$> LRU.store c !! r) l ++ es) =
    find_key (LRU.key n) es).
  { induction l as [|x l IH]; intros es Hin Hr; [reflexivity|].
    cbn [omap list_omap].
    destruct (repr_lookup c _ x Hrepr (Hin x (or_introl eq_refl)))
      as (nx & Hnx).
    rewrite Hnx. cbn [fmap option_fmap option_map app].
    unfold find_key. cbn [List.find]. fold (find_key (V:=V) (LRU.key n)).
    unfold has_key at 1. cbn [entry_key entry_of fst].
    destruct (String.eqb_spec (LRU.key nx) (LRU.key n)) as [E|N].
    - exfalso. apply Hr. left.
      apply (repr_key_inj c _ x r (LRU.key n) Hrepr).
      + apply Hin. now left.
      + apply in_app_iff. right. now left.
      + unfold LRU.key_of. now rewrite Hnx, <- E.
      + unfold LRU.key_of. now rewrite Hn.
    - apply IH; [intros y Hy; apply Hin; now right|].
      intros Hr'. apply Hr. now right. }
  rewrite omap_app, G; [|intros x Hx; apply in_app_iff; now left|assumption].
  cbn [omap list_omap]. rewrite Hn. cbn [fmap option_fmap option_map].
  unfold find_key, has_key. cbn [List.find entry_key entry_of fst].
  now rewrite String.eqb_refl.
Qed.

(** ** moveToFront *)

Lemma moveToFront_head c r :
  LRU.head c = Some r -> LRU.moveToFront r c = c.
Proof.
  intros H. unfold LRU.moveToFront. rewrite H. cbn [LRU.same_node].
  now rewrite Nat.eqb_refl.
Qed.

Lemma moveToFront_unfold c r n p h :
  LRU.store c !! r = Some n -> LRU.prev n = Some p -> p <> r ->
  LRU.head c = Some h -> h <> r ->
  (forall q, LRU.next n = Some q -> q <> r) ->
  (LRU.tail c = Some r <-> LRU.next n = None) ->
  LRU.moveToFront r c =
  LRU.mkLRUCache (LRU.capacity c) (LRU.cache c) (Some r)
    (match LRU.next n with Some _ => LRU.tail c | None => LRU.prev n end)
    (alter (LRU.with_prev (Some r)) h
       (alter (LRU.with_next (Some h)) r
          (alter (LRU.with_prev None) r
             (match LRU.next n with
              | Some q => alter (LRU.with_prev (LRU.prev n)) q
              | None => fun st => st
              end
                (match LRU.prev n with
                 | Some p => alter (LRU.with_next (LRU.next n)) p
                               (LRU.store c)
                 | None => LRU.store c
                 end))))).
Proof.
  intros Hn Epv Hp Hh Hhr Hq Htl. unfold LRU.moveToFront.
  rewrite Hh. cbn [LRU.same_node].
  rewrite (proj2 (Nat.eqb_neq h r) Hhr).
  unfold LRU.prev_of, LRU.next_of. rewrite Hn. cbn [mbind option_bind].
  rewrite Epv.
  cbn [LRU.set_node LRU.store LRU.head LRU.tail LRU.cache LRU.capacity].
  rewrite list_lookup_alter_ne by assumption. rewrite Hn.
  cbn [mbind option_bind]. rewrite Epv.
  destruct (LRU.next n) as [q|] eqn:Enx.
  - cbn [LRU.set_node LRU.store LRU.head LRU.tail LRU.cache LRU.capacity].
    assert (Ht : LRU.same_node (LRU.tail c) r = false).
    { destruct (LRU.tail c) as [t|] eqn:Et; [|reflexivity].
      cbn [LRU.same_node]. apply Nat.eqb_neq. intros ->.
      destruct Htl as [Htl _]. now specialize (Htl eq_refl). }
    rewrite Ht.
    cbn [LRU.set_node LRU.set_head LRU.store LRU.head LRU.tail LRU.cache
         LRU.capacity].
    rewrite Hh.
    cbn [LRU.set_node LRU.set_head LRU.store LRU.head LRU.tail LRU.cache
         LRU.capacity].
    reflexivity.
  - cbn [LRU.set_node LRU.store LRU.head LRU.tail LRU.cache LRU.capacity].
    rewrite (proj2 Htl eq_refl). cbn [LRU.same_node].
    rewrite Nat.eqb_refl.
    cbn [LRU.set_node LRU.set_tail LRU.set_head LRU.store LRU.head LRU.tail
         LRU.cache LRU.capacity].
    rewrite list_lookup_alter_ne by assumption. rewrite Hn.
    cbn [mbind option_bind]. rewrite Epv, Hh.
    cbn [LRU.set_node LRU.set_tail LRU.set_head LRU.store LRU.head LRU.tail
         LRU.cache LRU.capacity].
    reflexivity.
Qed.

Lemma moveToFront_repr c l1 r l2 :
  repr c (l1 ++ r :: l2) ->
  repr (LRU.moveToFront r c) (r :: l1 ++ l2) /\
  LRU.cache (LRU.moveToFront r c) = LRU.cache c /\
  LRU.capacity (LRU.moveToFront r c) = LRU.capacity c /\
  length (LRU.store (LRU.moveToFront r c)) = length (LRU.store c) /\
  forall r', entry_of <$> LRU.store (LRU.moveToFront r c) !! r' =
             entry_of <$> LRU.store c !! r'.
Proof.
  intros Hrepr. pose proof Hrepr as (Hseg & Hnd & Hkeys & Hmap).
  destruct (repr_lookup c _ r Hrepr) as (n & Hn);
    [apply in_app_iff; right; now left|].
  destruct (unlink_seg _ _ _ _ _ _ _ Hseg Hnd Hn)
    as (Hseg' & Epv & Ehd & Enx & Etl & Hp & Hq).
  destruct (NoDup_mid _ _ _ Hnd) as (Hr1 & Hr2 & Hnd1 & Hnd2 & Hdis).
  destruct l1 as [|h l1'].
  { rewrite (moveToFront_head c r) by now apply Ehd. auto. }
  destruct (LRU.prev n) as [p|] eqn:Epv';
    [|now specialize (proj1 Epv eq_refl)].
  pose proof (seg_first _ _ _ _ _ _ _ Hseg) as Hh. cbn [app] in Hh.
  assert (Hhr : h <> r) by (intros ->; apply Hr1; now left).
  assert (Hpr : p <> r) by (intros ->; now apply Hr1, Hp).
  rewrite (moveToFront_unfold c r n p h Hn Epv' Hpr Hh Hhr)
    by (try (intros q Hnq ->; now apply Hr2, Hq); rewrite Etl, Enx; tauto).
  cbn [LRU.store LRU.cache LRU.capacity].
  split; [|split; [reflexivity|split; [reflexivity|split]]].
  - assert (Hnr : ~ In r ((h :: l1') ++ l2)).
    { rewrite in_app_iff. tauto. }
    assert (Hnd' : List.NoDup ((h :: l1') ++ l2))
      by exact (NoDup_remove_1 _ _ _ Hnd).
    split; [|split; [constructor; assumption|split; [exact Hkeys|]]].
    + cbn [LRU.store LRU.head LRU.tail]. rewrite Epv'.
      (* the node of [r] itself *)
      set (st2 := match LRU.next n with
                  | Some q => alter (LRU.with_prev (Some p)) q
                  | None => fun st => st
                  end (alter (LRU.with_next (LRU.next n)) p (LRU.store c)))
        in *.
      assert (Hn2 : st2 !! r = Some n).
      { unfold st2. destruct (LRU.next n) as [q|] eqn:Enx'.
        - rewrite !list_lookup_alter_ne; [assumption| |].
          + assumption.
          + intros ->. now apply Hr2, Hq.
        - now rewrite list_lookup_alter_ne. }
      apply (seg_cons _ r
               (LRU.with_next (Some h) (LRU.with_prev None n))).
      * rewrite list_lookup_alter_ne by assumption.
        rewrite list_lookup_alter_eq, list_lookup_alter_eq, Hn2.
        reflexivity.
      * reflexivity.
      * cbn [LRU.next LRU.with_next].
        cbn [app] in Hseg', Hnd', Hnr |- *.
        rewrite Hh in Hseg'.
        eapply seg_set_first_prev; [now inversion Hnd'|].
        apply seg_alter; [assumption|].
        apply seg_alter; [assumption|].
        exact Hseg'.
    + (* the map reads the same keys *)
      intros k r'. cbn [LRU.cache]. rewrite Hmap, !key_of_entry.
      cbn [LRU.store]. rewrite !entry_alter by reflexivity.
      rewrite unlink_entries.
      cbn [In]. rewrite !in_app_iff. cbn [In]. tauto.
  - now rewrite !length_alter, unlink_length.
  - intros r'. rewrite !entry_alter by reflexivity. apply unlink_entries.
Qed.

(** ** The number of entries *)

Lemma omap_entries_length c refs :
  repr c refs ->
  length (omap (fun r => entry_of <$> LRU.store c !! r) refs) = length refs.
Proof.
  intros Hrepr.
  assert (G : forall l, (forall r, In r l -> In r refs) ->
    length (omap (fun r => entry_of <$> LRU.store c !! r) l) = length l).
  { induction l as [|x l IH]; intros Hin; [reflexivity|].
    cbn [omap list_omap].
    destruct (repr_lookup c _ x Hrepr (Hin x (or_introl eq_refl)))
      as (nx & ->).
    cbn. f_equal. apply IH. intros r Hr. apply Hin. now right. }
  apply G. auto.
Qed.

Lemma repr_size c refs :
  repr c refs ->
  LRU.size c = length refs /\ LRU.size c = length (entries c).
Proof.
  intros Hrepr. pose proof Hrepr as (_ & Hnd & Hkeys & Hmap).
  assert (Hlen : LRU.size c = length refs).
  { unfold LRU.size. rewrite <- (length_map snd (LRU.cache c)).
    apply Permutation_length, Permutation.NoDup_Permutation.
    - (* two entries of the map with the same node have the same key *)
      assert (G : forall m, List.NoDup (map fst m) ->
                (forall k r, In (k, r) m -> LRU.key_of c r = Some k) ->
                List.NoDup (map snd m)).
      { induction m as [|[k r] m IH]; intros Hk Hm; [constructor|].
        cbn [map fst snd] in *. inversion Hk as [|? ? Hk1 Hk2]; subst.
        constructor.
        - intros Hin. apply in_map_iff in Hin as ([k' r'] & Er & Hin).
          cbn [snd] in Er. subst r'.
          assert (k' = k).
          { pose proof (Hm k r (or_introl eq_refl)).
            pose proof (Hm k' r (or_intror Hin)). congruence. }
          subst k'. apply Hk1. apply in_map_iff. now exists (k, r).
        - apply IH; [assumption|]. intros k' r' Hin. apply Hm. now right. }
      apply G; [assumption|]. intros k r Hin. now apply Hmap.
    - assumption.
    - intros r. rewrite in_map_iff. split.
      + intros ([k r'] & Er & Hin). cbn [snd] in Er. subst r'.
        now apply Hmap in Hin.
      + intros Hr. destruct (repr_lookup c _ r Hrepr Hr) as (n & Hn).
        exists (LRU.key n, r). split; [reflexivity|].
        apply Hmap. split; [assumption|]. unfold LRU.key_of. now rewrite Hn. }
  split; [assumption|].
  now rewrite Hlen, (entries_repr c refs Hrepr), omap_entries_length.
Qed.

(** ** get *)

Lemma get_repr now k c refs :
  repr c refs ->
  lru_ok (snd (LRU.get now k c)) /\
  LRU.capacity (snd (LRU.get now k c)) = LRU.capacity c /\
  LRU.size (snd (LRU.get now k c)) <= LRU.size c /\
  match find_key k (entries c) with
  | None => LRU.get now k c = (None, c)
  | Some e =>
      if expired now (snd e)
      then fst (LRU.get now k c) = None /\
           entries (snd (LRU.get now k c)) = remove_key k (entries c)
      else fst (LRU.get now k c) = Some (snd (fst e)) /\
           entries (snd (LRU.get now k c)) = e :: remove_key k (entries c)
  end.
Proof.
  intros Hrepr. unfold LRU.get.
  destruct (LRU.Map_get (LRU.cache c) k) as [r|] eqn:Hget.
  2:{ destruct (remove_key_absent c refs k Hrepr Hget) as [-> _].
      split; [now exists refs|]. split; [reflexivity|].
      split; reflexivity. }
  destruct (repr_get c refs k r Hrepr Hget) as (l1 & l2 & n & -> & Hn & Hk).
  subst k. rewrite (find_key_present c l1 r l2 n Hrepr Hn).
  unfold LRU.expires_of. rewrite Hn. cbn [mbind option_bind].
  cbn [entry_of snd fst]. unfold expired.
  assert (Hkey : LRU.key_of c r = Some (LRU.key n))
    by (unfold LRU.key_of; now rewrite Hn).
  pose proof (remove_key_repr c l1 r l2 (LRU.key n) Hrepr Hkey) as Hrem.
  rewrite <- (entries_repr c _ Hrepr) in Hrem.
  destruct (match LRU.expires n with
            | Some e => (e <? now)%Z
            | None => false
            end).
  - destruct (delete_hit c l1 r l2 (LRU.key n) Hrepr Hget)
      as (_ & Hrepr' & Hent & Hcap & _).
    cbn [snd fst].
    split; [now exists (l1 ++ l2)|]. split; [assumption|].
    split.
    { rewrite (proj1 (repr_size _ _ Hrepr')), (proj1 (repr_size _ _ Hrepr)).
      rewrite !length_app. simpl. lia. }
    split; [reflexivity|].
    rewrite (entries_repr _ _ Hrepr'), Hrem.
    now apply omap_entries_ext.
  - destruct (moveToFront_repr c l1 r l2 Hrepr)
      as (Hrepr' & Hcache & Hcap & _ & Hent).
    cbn [snd fst].
    split; [now exists (r :: l1 ++ l2)|]. split; [assumption|].
    split; [unfold LRU.size; now rewrite Hcache|]. split.
    + unfold LRU.value_of.
      pose proof (Hent r) as Hr. rewrite Hn in Hr.
      destruct (LRU.store (LRU.moveToFront r c) !! r) as [n'|];
        [|discriminate].
      cbn in Hr |- *. injection Hr as Hr. unfold entry_of in Hr.
      congruence.
    + rewrite (entries_repr _ _ Hrepr'), Hrem. cbn [omap list_omap].
      rewrite (Hent r), Hn. cbn [fmap option_fmap option_map]. f_equal.
      now apply omap_entries_ext.
Qed.

(** ** set *)

Lemma set_fresh_unfold now k v ttl c :
  LRU.Map_get (LRU.cache c) k = None ->
  LRU.set now k v ttl c =
  let c :=
    if (LRU.capacity c <=? Z.of_nat (length (LRU.cache c)))%Z then
      match LRU.tail c with
      | Some t =>
          match LRU.key_of c t with
          | Some k => snd (LRU.delete k c)
          | None => c
          end
      | None => c
      end
    else c in
  LRU.mkLRUCache (LRU.capacity c)
    (LRU.Map_set (LRU.cache c) k (length (LRU.store c)))
    (Some (length (LRU.store c)))
    (match LRU.tail c with
     | None => Some (length (LRU.store c))
     | Some t => Some t
     end)
    (match LRU.head c with
     | Some h =>
         alter (LRU.with_prev (Some (length (LRU.store c)))) h
           (LRU.store c ++
            [LRU.mkNode k v
               (match ttl with
                | Some ttl => Some (now + ttl)%Z
                | None => None
                end) None (LRU.head c)])
     | None =>
         LRU.store c ++
         [LRU.mkNode k v
            (match ttl with
             | Some ttl => Some (now + ttl)%Z
             | None => None
             end) None (LRU.head c)]
     end).
Proof.
  intros H. unfold LRU.set. rewrite H. cbv zeta.
  set (ce := if (LRU.capacity c <=? Z.of_nat (length (LRU.cache c)))%Z
             then _ else c).
  cbn [LRU.head LRU.tail LRU.store LRU.cache LRU.capacity].
  destruct (LRU.head ce), (LRU.tail ce); reflexivity.
Qed.

(** A list that ends at [tail]. *)
Lemma repr_tail c refs :
  repr c refs ->
  match LRU.tail c with
  | Some t => exists l, refs = l ++ [t]
  | None => refs = []
  end.
Proof.
  intros (Hseg & _). destruct refs as [|x l] using rev_ind.
  - apply seg_nil_inv in Hseg as [_ ->]. reflexivity.
  - apply seg_snoc_inv in Hseg as (-> & _). now exists l.
Qed.

Lemma repr_head c refs :
  repr c refs ->
  LRU.head c = match refs with r :: _ => Some r | [] => None end.
Proof. intros (Hseg & _). exact (seg_first _ _ _ _ _ _ _ Hseg). Qed.

(** The eviction of line 49-51, before a key that is not in the map is
    added. *)
Lemma evict_repr c refs k :
  repr c refs -> LRU.Map_get (LRU.cache c) k = None ->
  exists refs',
    repr (if (LRU.capacity c <=? Z.of_nat (length (LRU.cache c)))%Z then
            match LRU.tail c with
            | Some t =>
                match LRU.key_of c t with
                | Some k => snd (LRU.delete k c)
                | None => c
                end
            | None => c
            end
          else c) refs' /\
    LRU.Map_get
      (LRU.cache
         (if (LRU.capacity c <=? Z.of_nat (length (LRU.cache c)))%Z then
            match LRU.tail c with
            | Some t =>
                match LRU.key_of c t with
                | Some k => snd (LRU.delete k c)
                | None => c
                end
            | None => c
            end
          else c)) k = None /\
    LRU.capacity
      (if (LRU.capacity c <=? Z.of_nat (length (LRU.cache c)))%Z then
         match LRU.tail c with
         | Some t =>
             match LRU.key_of c t with
             | Some k => snd (LRU.delete k c)
             | None => c
             end
         | None => c
         end
       else c) = LRU.capacity c /\
    entries
      (if (LRU.capacity c <=? Z.of_nat (length (LRU.cache c)))%Z then
         match LRU.tail c with
         | Some t =>
             match LRU.key_of c t with
             | Some k => snd (LRU.delete k c)
             | None => c
             end
         | None => c
         end
       else c) =
    if (LRU.capacity c <=? Z.of_nat (length (entries c)))%Z
    then removelast (entries c) else entries c.
Proof.
  intros Hrepr Hget.
  destruct (repr_size c refs Hrepr) as [_ Hsize]. unfold LRU.size in Hsize.
  rewrite <- Hsize.
  destruct (LRU.capacity c <=? Z.of_nat (length (LRU.cache c)))%Z;
    [|now exists refs].
  pose proof (repr_tail c refs Hrepr) as Htail.
  destruct (LRU.tail c) as [t|] eqn:Et.
  2:{ exists refs. subst refs.
      split; [assumption|]. split; [assumption|]. split; [reflexivity|].
      now rewrite (entries_repr c [] Hrepr). }
  destruct Htail as (l & ->).
  destruct (repr_lookup c _ t Hrepr) as (n & Hn);
    [apply in_app_iff; right; now left|].
  unfold LRU.key_of. rewrite Hn. cbn [fmap option_fmap option_map].
  pose proof Hrepr as (_ & _ & Hkeys & Hmap).
  assert (Hgt : LRU.Map_get (LRU.cache c) (LRU.key n) = Some t).
  { apply (Map_get_In _ _ _ Hkeys), Hmap. split.
    - apply in_app_iff. right. now left.
    - unfold LRU.key_of. now rewrite Hn. }
  destruct (delete_hit c l t [] (LRU.key n) Hrepr Hgt)
    as (_ & Hrepr' & Hent & Hcap & _ & Hcache).
  rewrite app_nil_r in Hrepr'.
  exists l. split; [assumption|]. split; [|split; [assumption|]].
  - rewrite Hcache. apply Map_get_None. intros r Hr.
    apply Map_delete_In in Hr as [Hr _].
    now apply (proj1 (Map_get_None _ _) Hget r).
  - rewrite (entries_repr _ _ Hrepr'), (entries_repr _ _ Hrepr).
    rewrite omap_app. cbn [omap list_omap]. rewrite Hn.
    cbn [fmap option_fmap option_map]. rewrite removelast_last.
    now apply omap_entries_ext.
Qed.

Lemma omap_entries_same st st' refs :
  (forall r, In r refs -> entry_of <$> st' !! r = entry_of <$> st !! r) ->
  omap (fun r => entry_of <$> st' !! r) refs =
  omap (fun r => entry_of <$> st !! r) refs.
Proof.
  intros H. induction refs as [|r refs IH]; [reflexivity|].
  cbn [omap list_omap]. rewrite (H r) by now left.
  rewrite IH; [reflexivity|]. intros r' Hr'. apply H. now right.
Qed.

(** The map once a key that was not in it is set. *)
Lemma push_front_map c refs k new st' :
  repr c refs -> LRU.Map_get (LRU.cache c) k = None -> ~ In new refs ->
  (forall r, In r refs ->
     entry_of <$> st' !! r = entry_of <$> LRU.store c !! r) ->
  entry_key <$> (entry_of <$> st' !! new) = Some k ->
  List.NoDup (map fst (LRU.Map_set (LRU.cache c) k new)) /\
  forall k' r',
    In (k', r') (LRU.Map_set (LRU.cache c) k new) <->
    In r' (new :: refs) /\
    entry_key <$> (entry_of <$> st' !! r') = Some k'.
Proof.
  intros (_ & _ & Hkeys & Hmap) Hget Hfresh Hent Hnew.
  rewrite (Map_set_fresh _ _ _ Hget). split.
  - rewrite map_app. cbn [map fst].
    apply List.NoDup_app; [assumption|constructor; [intros []|constructor]|].
    intros k' Hk' [<-|[]].
    apply in_map_iff in Hk' as ([k2 r2] & Ek & Hin). cbn [fst] in Ek.
    subst k2. now apply (proj1 (Map_get_None _ _) Hget r2).
  - intros k' r'. rewrite in_app_iff. cbn [In].
    rewrite Hmap, key_of_entry. split.
    + intros [(Hin & Hk')|[[= <- <-]|[]]].
      * split; [now right|]. now rewrite Hent.
      * split; [now left|assumption].
    + intros ([<-|Hin] & Hk').
      * right. left. congruence.
      * left. split; [assumption|]. now rewrite <- Hent.
Qed.

(** A new node at the front. *)
Lemma push_front_repr c refs k v e :
  repr c refs -> LRU.Map_get (LRU.cache c) k = None ->
  repr
    (LRU.mkLRUCache (LRU.capacity c)
       (LRU.Map_set (LRU.cache c) k (length (LRU.store c)))
       (Some (length (LRU.store c)))
       (match LRU.tail c with
        | None => Some (length (LRU.store c))
        | Some t => Some t
        end)
       (match LRU.head c with
        | Some h =>
            alter (LRU.with_prev (Some (length (LRU.store c)))) h
              (LRU.store c ++ [LRU.mkNode k v e None (LRU.head c)])
        | None => LRU.store c ++ [LRU.mkNode k v e None (LRU.head c)]
        end))
    (length (LRU.store c) :: refs) /\
  entries
    (LRU.mkLRUCache (LRU.capacity c)
       (LRU.Map_set (LRU.cache c) k (length (LRU.store c)))
       (Some (length (LRU.store c)))
       (match LRU.tail c with
        | None => Some (length (LRU.store c))
        | Some t => Some t
        end)
       (match LRU.head c with
        | Some h =>
            alter (LRU.with_prev (Some (length (LRU.store c)))) h
              (LRU.store c ++ [LRU.mkNode k v e None (LRU.head c)])
        | None => LRU.store c ++ [LRU.mkNode k v e None (LRU.head c)]
        end)) = (k, v, e) :: entries c.
Proof.
  intros Hrepr Hget. pose proof Hrepr as (Hseg & Hnd & Hkeys & Hmap).
  pose proof (repr_head c refs Hrepr) as Hhd.
  pose proof (repr_tail c refs Hrepr) as Htl.
  assert (Hold : forall r, In r refs -> (r < length (LRU.store c))%nat).
  { intros r Hr. destruct (repr_lookup c _ r Hrepr Hr) as (n & Hn).
    now apply lookup_lt_Some in Hn. }
  assert (Hfresh : ~ In (length (LRU.store c)) refs).
  { intros Hin. specialize (Hold _ Hin). lia. }
  assert (Hlast : forall (x : LRU.CacheNode V),
            (LRU.store c ++ [x]) !! length (LRU.store c) = Some x).
  { intros x. rewrite lookup_app_r by lia. now rewrite Nat.sub_diag. }
  assert (G : forall st' tl',
    seg st' (Some (length (LRU.store c))) None
        (length (LRU.store c) :: refs) None tl' ->
    (forall r, In r refs ->
       entry_of <$> st' !! r = entry_of <$> LRU.store c !! r) ->
    entry_of <$> st' !! length (LRU.store c) = Some (k, v, e) ->
    repr (LRU.mkLRUCache (LRU.capacity c)
            (LRU.Map_set (LRU.cache c) k (length (LRU.store c)))
            (Some (length (LRU.store c))) tl' st')
         (length (LRU.store c) :: refs) /\
    entries (LRU.mkLRUCache (LRU.capacity c)
               (LRU.Map_set (LRU.cache c) k (length (LRU.store c)))
               (Some (length (LRU.store c))) tl' st') =
    (k, v, e) :: entries c).
  { intros st' tl' Hseg' Hent Hnew.
    assert (Hrepr' :
      repr (LRU.mkLRUCache (LRU.capacity c)
              (LRU.Map_set (LRU.cache c) k (length (LRU.store c)))
              (Some (length (LRU.store c))) tl' st')
           (length (LRU.store c) :: refs)).
    { split; [exact Hseg'|]. split; [now constructor|].
      cbn [LRU.cache].
      destruct (push_front_map c refs k (length (LRU.store c)) st'
                  Hrepr Hget Hfresh Hent) as [Hk Hm].
      { now rewrite Hnew. }
      split; [exact Hk|]. intros k' r'. rewrite key_of_entry. apply Hm. }
    split; [exact Hrepr'|].
    rewrite (entries_repr _ _ Hrepr'), (entries_repr _ _ Hrepr).
    cbn [omap list_omap LRU.store]. rewrite Hnew. f_equal.
    now apply omap_entries_same. }
  destruct refs as [|h rest].
  - rewrite Hhd. destruct (LRU.tail c) eqn:Et;
      [destruct Htl as ([|? ?] & ?); discriminate|].
    apply G.
    + apply (seg_cons _ _ (LRU.mkNode k v e None None));
        [apply Hlast|reflexivity|constructor].
    + intros r [].
    + now rewrite Hlast.
  - rewrite Hhd. destruct (LRU.tail c) as [t|] eqn:Et; [|discriminate].
    assert (Hhn : h <> length (LRU.store c))
      by (specialize (Hold h (or_introl eq_refl)); lia).
    apply G.
    + apply (seg_cons _ _ (LRU.mkNode k v e None (Some h))).
      * rewrite list_lookup_alter_ne by assumption. apply Hlast.
      * reflexivity.
      * cbn [LRU.next]. rewrite Hhd in Hseg.
        inversion Hnd as [|? ? Hh Hrest]; subst.
        eapply seg_set_first_prev; [assumption|].
        apply (seg_frame _ (LRU.store c)); [|exact Hseg].
        intros r Hr. apply lookup_app_l. now apply Hold.
    + intros r Hr. rewrite entry_alter by reflexivity.
      rewrite lookup_app_l by (now apply Hold). reflexivity.
    + rewrite entry_alter by reflexivity. now rewrite Hlast.
Qed.

Lemma key_of_set_node c (f : LRU.CacheNode V -> LRU.CacheNode V) r r' :
  (forall n, LRU.key (f n) = LRU.key n) ->
  LRU.key_of (LRU.set_node f r c) r' = LRU.key_of c r'.
Proof.
  intros Hf. unfold LRU.key_of, LRU.set_node. cbn [LRU.store].
  destruct (Nat.eq_dec r r') as [->|Hne].
  - rewrite list_lookup_alter_eq. destruct (LRU.store c !! r'); [|reflexivity].
    cbn. now rewrite Hf.
  - now rewrite list_lookup_alter_ne.
Qed.

(** Assigning [value] or [expires] of a node keeps the cache well
    formed. *)
Lemma set_node_data_repr c refs (f : LRU.CacheNode V -> LRU.CacheNode V) r :
  (forall n, LRU.key (f n) = LRU.key n /\ LRU.prev (f n) = LRU.prev n /\
             LRU.next (f n) = LRU.next n) ->
  repr c refs -> repr (LRU.set_node f r c) refs.
Proof.
  intros Hf (Hseg & Hnd & Hkeys & Hmap).
  split; [|split; [assumption|split; [assumption|]]].
  - cbn [LRU.set_node LRU.store LRU.head LRU.tail].
    apply seg_alter_data; [|assumption]. intros n. now destruct (Hf n).
  - intros k' r'. rewrite key_of_set_node by (intros n; now destruct (Hf n)).
    apply Hmap.
Qed.

Lemma set_existing_repr now k v ttl c l1 r l2 :
  repr c (l1 ++ r :: l2) -> LRU.Map_get (LRU.cache c) k = Some r ->
  repr (LRU.set now k v ttl c) (r :: l1 ++ l2) /\
  LRU.capacity (LRU.set now k v ttl c) = LRU.capacity c /\
  entries (LRU.set now k v ttl c) =
    (k, v, match ttl with
           | Some ttl => Some (now + ttl)%Z
           | None => None
           end) :: remove_key k (entries c).
Proof.
  intros Hrepr Hget. unfold LRU.set. rewrite Hget. cbv zeta.
  set (e := match ttl with Some ttl => Some (now + ttl)%Z | None => None end).
  destruct (repr_get c _ k r Hrepr Hget) as (l1' & l2' & n & _ & Hn & Hk).
  assert (Hkey : LRU.key_of c r = Some k)
    by (unfold LRU.key_of; rewrite Hn; cbn; congruence).
  pose proof (remove_key_repr c l1 r l2 k Hrepr Hkey) as Hrem.
  rewrite <- (entries_repr c _ Hrepr) in Hrem.
  set (c2 := LRU.set_node (LRU.with_expires e) r
               (LRU.set_node (LRU.with_value v) r c)).
  assert (Hrepr2 : repr c2 (l1 ++ r :: l2)).
  { unfold c2. apply set_node_data_repr; [intros ?; repeat split|].
    apply set_node_data_repr; [intros ?; repeat split|]. assumption. }
  destruct (moveToFront_repr c2 l1 r l2 Hrepr2)
    as (Hrepr' & _ & Hcap & _ & Hent).
  split; [assumption|]. split; [assumption|].
  rewrite (entries_repr _ _ Hrepr'), Hrem.
  cbn [omap list_omap]. rewrite (Hent r).
  assert (Hr2 : LRU.store c2 !! r =
                Some (LRU.with_expires e (LRU.with_value v n))).
  { unfold c2. cbn [LRU.set_node LRU.store].
    now rewrite !list_lookup_alter_eq, Hn. }
  assert (E : entry_of (LRU.with_expires e (LRU.with_value v n)) = (k, v, e))
    by (unfold entry_of; cbn; now rewrite Hk).
  rewrite Hr2. cbn [fmap option_fmap option_map]. rewrite E. f_equal.
  rewrite (omap_entries_ext (LRU.store c2) _ _ Hent).
  apply omap_entries_same. intros r' Hr'.
  destruct (NoDup_mid _ _ _ (proj1 (proj2 Hrepr))) as (Hr1 & Hr2' & _).
  unfold c2. cbn [LRU.set_node LRU.store].
  rewrite !list_lookup_alter_ne; [reflexivity| |];
    intros ->; apply in_app_iff in Hr'; tauto.
Qed.

(** [set] on the list of entries. *)
Lemma set_repr now k v ttl c refs :
  repr c refs ->
  lru_ok (LRU.set now k v ttl c) /\
  LRU.capacity (LRU.set now k v ttl c) = LRU.capacity c /\
  entries (LRU.set now k v ttl c) =
    (k, v, match ttl with
           | Some ttl => Some (now + ttl)%Z
           | None => None
           end) ::
    match find_key k (entries c) with
    | Some _ => remove_key k (entries c)
    | None =>
        if (LRU.capacity c <=? Z.of_nat (length (entries c)))%Z
        then removelast (entries c) else entries c
    end.
Proof.
  intros Hrepr.
  destruct (LRU.Map_get (LRU.cache c) k) as [r|] eqn:Hget.
  - destruct (repr_get c refs k r Hrepr Hget) as (l1 & l2 & n & -> & Hn & Hk).
    destruct (set_existing_repr now k v ttl c l1 r l2 Hrepr Hget)
      as (Hrepr' & Hcap & Hent).
    split; [now exists (r :: l1 ++ l2)|]. split; [assumption|].
    rewrite Hent. subst k.
    now rewrite (find_key_present c l1 r l2 n Hrepr Hn).
  - destruct (remove_key_absent c refs k Hrepr Hget) as [-> _].
    rewrite (set_fresh_unfold now k v ttl c Hget). cbv zeta.
    destruct (evict_repr c refs k Hrepr Hget)
      as (refs' & Hrepr' & Hget' & Hcap & Hent).
    destruct (push_front_repr _ refs' k v
                (match ttl with
                 | Some ttl => Some (now + ttl)%Z
                 | None => None
                 end) Hrepr' Hget') as (Hrepr'' & Hent').
    split; [eexists; exact Hrepr''|]. split; [exact Hcap|].
    rewrite Hent'. now rewrite Hent.
Qed.

(** ** delete, clear and cleanupExpired on the list of entries *)

Lemma delete_repr k c refs :
  repr c refs ->
  lru_ok (snd (LRU.delete k c)) /\
  LRU.capacity (snd (LRU.delete k c)) = LRU.capacity c /\
  entries (snd (LRU.delete k c)) = remove_key k (entries c) /\
  fst (LRU.delete k c) =
    match find_key k (entries c) with Some _ => true | None => false end.
Proof.
  intros Hrepr.
  destruct (LRU.Map_get (LRU.cache c) k) as [r|] eqn:Hget.
  - destruct (repr_get c refs k r Hrepr Hget) as (l1 & l2 & n & -> & Hn & Hk).
    destruct (delete_hit c l1 r l2 k Hrepr Hget)
      as (Hfst & Hrepr' & Hent & Hcap & _).
    split; [now exists (l1 ++ l2)|]. split; [assumption|]. split.
    + assert (Hkey : LRU.key_of c r = Some k)
        by (unfold LRU.key_of; rewrite Hn; cbn; congruence).
      rewrite (entries_repr _ _ Hrepr'), (entries_repr _ _ Hrepr).
      rewrite (remove_key_repr c l1 r l2 k Hrepr Hkey).
      now apply omap_entries_ext.
    + rewrite Hfst. subst k.
      now rewrite (find_key_present c l1 r l2 n Hrepr Hn).
  - rewrite (delete_miss c k Hget). cbn [fst snd].
    destruct (remove_key_absent c refs k Hrepr Hget) as [-> ->].
    split; [now exists refs|]. auto.
Qed.

Lemma new_repr capacity : repr (LRU.new_LRUCache V capacity) [].
Proof.
  split; [constructor|]. split; [constructor|]. split; [constructor|].
  intros k r. cbn. tauto.
Qed.

Lemma clear_repr c : repr (LRU.clear c) [].
Proof.
  split; [constructor|]. split; [constructor|]. split; [constructor|].
  intros k r. cbn. tauto.
Qed.

Lemma entries_nil c : repr c [] -> entries c = [].
Proof. intros H. now rewrite (entries_repr c [] H). Qed.

(** The keys [cleanupExpired] collects. *)
Lemma keysToDelete_filter now c m (acc : list string) :
  fold_left
    (fun keysToDelete '(key, node) =>
       match LRU.expires_of c node with
       | Some e => if (e <? now)%Z then keysToDelete ++ [key]
                   else keysToDelete
       | None => keysToDelete
       end) m acc =
  acc ++ map fst
           (List.filter (fun e => expired now (LRU.expires_of c (snd e))) m).
Proof.
  revert acc. induction m as [|[k r] m IH]; intros acc; cbn [fold_left].
  - now rewrite app_nil_r.
  - rewrite IH. cbn [List.filter snd]. unfold expired at 2.
    destruct (LRU.expires_of c r) as [e|]; [|reflexivity].
    destruct (e <? now)%Z; [|reflexivity].
    cbn [map fst]. now rewrite <- app_assoc.
Qed.

(** Deleting keys that are in the map, one after the other. *)
Lemma delete_all keys : forall cleaned c refs,
  repr c refs -> List.NoDup keys ->
  (forall k, In k keys -> exists r, In (k, r) (LRU.cache c)) ->
  lru_ok (snd (fold_left
                 (fun '(cleaned, c) key =>
                    let '(deleted, c) := LRU.delete key c in
                    (if deleted then S cleaned else cleaned, c))
                 keys (cleaned, c))) /\
  fst (fold_left
         (fun '(cleaned, c) key =>
            let '(deleted, c) := LRU.delete key c in
            (if deleted then S cleaned else cleaned, c))
         keys (cleaned, c)) = cleaned + length keys /\
  LRU.capacity
    (snd (fold_left
            (fun '(cleaned, c) key =>
               let '(deleted, c) := LRU.delete key c in
               (if deleted then S cleaned else cleaned, c))
            keys (cleaned, c))) = LRU.capacity c /\
  entries
    (snd (fold_left
            (fun '(cleaned, c) key =>
               let '(deleted, c) := LRU.delete key c in
               (if deleted then S cleaned else cleaned, c))
            keys (cleaned, c))) =
  List.filter (fun e => negb (existsb (String.eqb (entry_key e)) keys))
              (entries c) /\
  length
    (entries
       (snd (fold_left
               (fun '(cleaned, c) key =>
                  let '(deleted, c) := LRU.delete key c in
                  (if deleted then S cleaned else cleaned, c))
               keys (cleaned, c)))) + length keys = length (entries c).
Proof.
  induction keys as [|k keys IH]; intros cleaned c refs Hrepr Hnd Hin.
  - cbn [fold_left fst snd length existsb negb].
    split; [now exists refs|]. split; [lia|]. split; [reflexivity|].
    split; [|lia].
    clear. induction (entries c) as [|e es IHes]; [reflexivity|].
    cbn [List.filter]. now rewrite <- IHes.
  - cbn [fold_left]. inversion Hnd as [|? ? Hk Hnd']; subst.
    destruct (Hin k (or_introl eq_refl)) as (r & Hr).
    pose proof Hrepr as (_ & _ & Hkeys & Hmap).
    assert (Hget : LRU.Map_get (LRU.cache c) k = Some r)
      by now apply (Map_get_In _ _ _ Hkeys).
    destruct (repr_get c refs k r Hrepr Hget) as (l1 & l2 & n & -> & Hn & Hkn).
    destruct (delete_hit c l1 r l2 k Hrepr Hget)
      as (Hfst & Hrepr' & Hent & Hcap & _ & Hcache).
    destruct (delete_repr k c _ Hrepr) as (_ & _ & Hentries & _).
    destruct (LRU.delete k c) as [deleted c1]. cbn [fst snd] in *. subst deleted.
    destruct (IH (S cleaned) c1 (l1 ++ l2) Hrepr' Hnd')
      as (H1 & H2 & H3 & H4 & H5).
    { intros k' Hk'. destruct (Hin k' (or_intror Hk')) as (r' & Hr').
      exists r'. rewrite Hcache. apply Map_delete_In. split; [assumption|].
      intros ->. contradiction. }
    split; [assumption|]. split; [rewrite H2; simpl; lia|].
    split; [congruence|]. split.
    2:{ cbn [length].
        rewrite (entries_repr _ _ Hrepr), (entries_repr _ _ Hrepr') in *.
        rewrite (omap_entries_length _ _ Hrepr) in *.
        rewrite (omap_entries_length _ _ Hrepr') in H5.
        rewrite !length_app in *. cbn [length] in *. lia. }
    rewrite H4, Hentries. unfold remove_key, has_key.
    clear. induction (entries c) as [|e es IHes]; [reflexivity|].
    cbn [List.filter existsb].
    destruct (String.eqb (entry_key e) k); cbn [negb orb];
      [assumption|].
    cbn [List.filter]. destruct (existsb _ keys); cbn [negb];
      [assumption|now f_equal].
Qed.

Lemma filter_split_length {A : Type} (p : A -> bool) (l : list A) :
  length (List.filter p l) + length (List.filter (fun x => negb (p x)) l) =
  length l.
Proof.
  induction l as [|x l IH]; [reflexivity|]. cbn [List.filter].
  destruct (p x); cbn [negb length]; lia.
Qed.

Lemma NoDup_map_filter m (p : string * nat -> bool) :
  List.NoDup (map fst m) -> List.NoDup (map fst (List.filter p m)).
Proof.
  induction m as [|[k r] m IH]; intros Hnd; [constructor|].
  inversion Hnd as [|? ? Hk Hm]; subst. cbn [List.filter].
  destruct (p (k, r)); [|now apply IH].
  cbn [map fst]. constructor; [|now apply IH].
  intros Hin. apply Hk. apply in_map_iff in Hin as ([k2 r2] & <- & Hin).
  apply filter_In in Hin as [Hin _]. apply in_map_iff. now exists (k2, r2).
Qed.

Lemma cleanupExpired_repr now c refs :
  repr c refs ->
  lru_ok (snd (LRU.cleanupExpired now c)) /\
  LRU.capacity (snd (LRU.cleanupExpired now c)) = LRU.capacity c /\
  entries (snd (LRU.cleanupExpired now c)) =
    List.filter (fun e => negb (expired now (snd e))) (entries c) /\
  fst (LRU.cleanupExpired now c) =
    length (List.filter (fun e => expired now (snd e)) (entries c)).
Proof.
  intros Hrepr. pose proof Hrepr as (_ & _ & Hkeys & Hmap).
  unfold LRU.cleanupExpired. cbv zeta.
  rewrite keysToDelete_filter. cbn [app].
  set (keys := map fst (List.filter
                (fun e => expired now (LRU.expires_of c (snd e)))
                (LRU.cache c))).
  destruct (delete_all keys 0 c refs Hrepr) as (H1 & H2 & H3 & H4 & H5).
  { now apply NoDup_map_filter. }
  { intros k Hk. apply in_map_iff in Hk as ([k' r] & <- & Hin).
    apply filter_In in Hin as [Hin _]. now exists r. }
  assert (Hfilter :
    List.filter (fun e => negb (existsb (String.eqb (entry_key e)) keys))
                (entries c) =
    List.filter (fun e => negb (expired now (snd e))) (entries c)).
  { apply filter_ext_in. intros e He. f_equal.
    rewrite (entries_repr c refs Hrepr) in He.
    apply list_elem_of_In, list_elem_of_omap in He as (r & Hr & He).
    apply list_elem_of_In in Hr.
    destruct (LRU.store c !! r) as [n|] eqn:Hn; [|discriminate].
    cbn in He. injection He as <-. cbn [entry_key entry_of fst snd].
    assert (Hexp : LRU.expires_of c r = LRU.expires n)
      by (unfold LRU.expires_of; now rewrite Hn).
    destruct (expired now (LRU.expires n)) eqn:E.
    - apply existsb_exists. exists (LRU.key n).
      split; [|apply String.eqb_refl].
      apply in_map_iff. exists (LRU.key n, r). split; [reflexivity|].
      apply filter_In. cbn [snd]. rewrite Hexp. split; [|assumption].
      apply Hmap. split; [assumption|]. unfold LRU.key_of. now rewrite Hn.
    - apply not_true_is_false. intros Hex.
      apply existsb_exists in Hex as (k & Hk & Ek).
      apply String.eqb_eq in Ek. subst k.
      apply in_map_iff in Hk as ([k' r'] & Ek & Hin). cbn [fst] in Ek.
      subst k'. apply filter_In in Hin as [Hin Hexp']. cbn [snd] in Hexp'.
      apply Hmap in Hin as [Hr' Hk'].
      assert (r' = r).
      { apply (repr_key_inj c refs r' r (LRU.key n) Hrepr); auto.
        unfold LRU.key_of. now rewrite Hn. }
      subst r'. rewrite Hexp in Hexp'. congruence. }
  split; [assumption|]. split; [assumption|].
  split; [now rewrite H4|].
  rewrite Hfilter in H4. rewrite H4 in H5. rewrite H2.
  pose proof (filter_split_length (fun e => expired now (snd e)) (entries c))
    as Hsplit.
  clearbody keys. cbn [Nat.add]. unfold entry in *. lia.
Qed.

(** ** Any sequence of calls *)

Lemma entries_keys_NoDup c refs :
  repr c refs -> List.NoDup (map entry_key (entries c)).
Proof.
  intros Hrepr. rewrite (entries_repr c refs Hrepr).
  pose proof Hrepr as (_ & Hnd & _).
  assert (G : forall l, (forall r, In r l -> In r refs) -> List.NoDup l ->
    List.NoDup
      (map entry_key (omap (fun r => entry_of <$> LRU.store c !! r) l)) /\
    forall k, In k (map entry_key
                (omap (fun r => entry_of <$> LRU.store c !! r) l)) ->
      exists r, In r l /\ LRU.key_of c r = Some k).
  { induction l as [|x l IH]; intros Hin Hl.
    - split; [constructor|]. intros k [].
    - inversion Hl as [|? ? Hx Hl']; subst.
      destruct (IH (fun r Hr => Hin r (or_intror Hr)) Hl') as [IH1 IH2].
      cbn [omap list_omap].
      destruct (repr_lookup c _ x Hrepr (Hin x (or_introl eq_refl)))
        as (nx & Hnx).
      rewrite Hnx. cbn [fmap option_fmap option_map map].
      assert (Hkx : LRU.key_of c x = Some (entry_key (entry_of nx)))
        by (unfold LRU.key_of; now rewrite Hnx).
      split.
      + constructor; [|assumption]. intros Hk.
        destruct (IH2 _ Hk) as (r & Hr & Hkr).
        assert (r = x).
        { apply (repr_key_inj c refs r x (entry_key (entry_of nx)) Hrepr);
            [apply Hin; now right|apply Hin; now left|assumption|assumption]. }
        subst r. contradiction.
      + intros k [<-|Hk].
        * exists x. split; [now left|assumption].
        * destruct (IH2 _ Hk) as (r & Hr & Hkr). exists r.
          split; [now right|assumption]. }
  apply G; auto.
Qed.

Lemma filter_shorter {A : Type} (p : A -> bool) (l : list A) :
  length (List.filter p l) <= length l.
Proof.
  induction l as [|x l IH]; [reflexivity|]. cbn [List.filter].
  destruct (p x); cbn [length]; lia.
Qed.

Lemma remove_key_shorter k (es : list (entry V)) e :
  find_key k es = Some e -> length (remove_key k es) < length es.
Proof.
  unfold find_key. induction es as [|x es IH]; [discriminate|].
  cbn [List.find]. rewrite remove_key_cons. unfold has_key.
  destruct (String.eqb (entry_key x) k).
  - intros _. cbn [length]. unfold remove_key.
    pose proof (filter_shorter (fun e => negb (has_key k e)) es). lia.
  - intros H. specialize (IH H). cbn [length]. lia.
Qed.

Lemma remove_key_length k (es : list (entry V)) :
  length (remove_key k es) <= length es.
Proof.
  unfold remove_key. apply filter_shorter.
Qed.

Lemma removelast_shorter {A : Type} (l : list A) :
  length (removelast l) = length l - 1.
Proof.
  destruct l as [|x l] using rev_ind; [reflexivity|].
  rewrite removelast_last, length_app. cbn [length]. lia.
Qed.

(** One call keeps the cache well formed and within its bounds. *)
Lemma run_call_ok c (op : call V) :
  lru_ok c ->
  lru_ok (run_call c op) /\
  LRU.capacity (run_call c op) = LRU.capacity c /\
  (Z.of_nat (LRU.size (run_call c op)) <=
   Z.max (Z.of_nat (LRU.size c)) (Z.max (LRU.capacity c) 1))%Z.
Proof.
  intros (refs & Hrepr).
  destruct (repr_size c refs Hrepr) as [_ Hsize].
  destruct op as [now k|now k v ttl|k| |now]; cbn [run_call].
  - destruct (get_repr now k c refs Hrepr) as (Hok & Hcap & Hle & _).
    split; [assumption|]. split; [assumption|]. lia.
  - destruct (set_repr now k v ttl c refs Hrepr) as (Hok & Hcap & Hent).
    split; [assumption|]. split; [assumption|].
    destruct Hok as (refs' & Hrepr').
    rewrite (proj2 (repr_size _ _ Hrepr')), Hent, Hsize. cbn [length].
    destruct (find_key k (entries c)) as [e|] eqn:Ef.
    + pose proof (remove_key_shorter k _ e Ef). lia.
    + destruct (Z.leb_spec (LRU.capacity c) (Z.of_nat (length (entries c)))).
      * rewrite removelast_shorter. lia.
      * lia.
  - destruct (delete_repr k c refs Hrepr) as (Hok & Hcap & Hent & _).
    split; [assumption|]. split; [assumption|].
    destruct Hok as (refs' & Hrepr').
    rewrite (proj2 (repr_size _ _ Hrepr')), Hent, Hsize.
    pose proof (remove_key_length k (entries c)). lia.
  - split; [exists []; apply clear_repr|]. split; [reflexivity|].
    cbn. lia.
  - destruct (cleanupExpired_repr now c refs Hrepr)
      as (Hok & Hcap & Hent & _).
    split; [assumption|]. split; [assumption|].
    destruct Hok as (refs' & Hrepr').
    rewrite (proj2 (repr_size _ _ Hrepr')), Hent, Hsize.
    pose proof (filter_shorter (fun e => negb (expired now (snd e)))
                  (entries c)).
    unfold entry in *. lia.
Qed.

Lemma run_calls_ok (ops : list (call V)) : forall c,
  lru_ok c ->
  lru_ok (fold_left run_call ops c) /\
  LRU.capacity (fold_left run_call ops c) = LRU.capacity c /\
  (Z.of_nat (LRU.size (fold_left run_call ops c)) <=
   Z.max (Z.of_nat (LRU.size c)) (Z.max (LRU.capacity c) 1))%Z.
Proof.
  induction ops as [|op ops IH]; intros c Hok; cbn [fold_left].
  - split; [assumption|]. split; [reflexivity|]. lia.
  - destruct (run_call_ok c op Hok) as (Hok' & Hcap & Hle).
    destruct (IH _ Hok') as (Hok'' & Hcap' & Hle').
    split; [assumption|]. split; [congruence|].
    rewrite Hcap in Hle'. lia.
Qed.

End Cache.

End CacheFacts.

Import MetricFacts TokenFacts TokenOrderFacts HeapOrderFacts SelectionFacts.
Import BestMatchFacts LinkFacts CacheFacts.

(** * The Cache decorator *)

Module MemoFacts.
Import LRUSpec CacheDecorator.

(** The key tells two strings without NUL apart from any other two. *)
Lemma createCacheKey_inj a1 a2 b1 b2 :
  nul_free b1 -> nul_free b2 ->
  createCacheKey a1 a2 = createCacheKey b1 b2 -> a1 = b1 /\ a2 = b2.
Proof.
  unfold createCacheKey. intros H1 H2 [= E]. revert a1 H1 E.
  induction b1 as [|c b1 IH]; intros a1 H1 E.
  - destruct a1 as [|d a1]; cbn in E.
    + injection E as <-. auto.
    + injection E as -> E. exfalso.
      (* the second string would hold a NUL *)
      clear -H2 E. revert b2 H2 E.
      induction a1 as [|d a1 IH]; intros b2 H2 E; cbn in E; subst b2.
      * now destruct H2.
      * destruct H2 as [_ H2]. now apply (IH _ H2).
  - destruct H1 as [Hc H1]. destruct a1 as [|d a1]; cbn in E.
    + injection E as <- _. contradiction.
    + injection E as -> E. destruct (IH a1 H1 E) as [-> ->]. auto.
Qed.

Section Memo.

Variable V : Type.
Variable options : CacheOptions.
Variable originalMethod : string -> string -> result V.

(** Every entry holds what the method returns for some arguments with
    the key of the entry. *)
Let sound (c : LRU.LRUCache V) : Prop :=
  lru_ok c /\
  forall e, In e (entries c) ->
    exists a1 a2, entry_key e = createCacheKey a1 a2 /\
                  originalMethod a1 a2 = Ok (snd (fst e)).

Lemma In_remove_key k (es : list (entry V)) e :
  In e (remove_key k es) -> In e es.
Proof. unfold remove_key. intros H. now apply filter_In in H. Qed.

Lemma In_removelast {A : Type} (l : list A) x :
  In x (removelast l) -> In x l.
Proof.
  destruct l as [|y l] using rev_ind; [tauto|].
  rewrite removelast_last. intros H. apply in_app_iff. now left.
Qed.

Lemma find_key_In k (es : list (entry V)) e :
  find_key k es = Some e -> In e es /\ entry_key e = k.
Proof.
  unfold find_key. intros H. apply find_some in H as [Hin Hk].
  split; [assumption|]. now apply String.eqb_eq.
Qed.

(** What a call returns, and that it keeps the cache sound. *)
Lemma cached_sound now_get now_set arg1 arg2 c :
  sound c ->
  sound (snd (cached options originalMethod now_get now_set arg1 arg2 c)) /\
  exists a1 a2,
    createCacheKey a1 a2 = createCacheKey arg1 arg2 /\
    fst (cached options originalMethod now_get now_set arg1 arg2 c) =
    originalMethod a1 a2.
Proof.
  intros ((refs & Hrepr) & Hsound). unfold cached. cbv zeta.
  destruct (get_repr V now_get (createCacheKey arg1 arg2) c refs Hrepr)
    as (Hok & _ & _ & Hget).
  destruct (LRU.get now_get (createCacheKey arg1 arg2) c) as [hit c1].
  cbn [fst snd] in *.
  assert (Hsound1 : forall e, In e (entries c1) ->
            exists a1 a2, entry_key e = createCacheKey a1 a2 /\
                          originalMethod a1 a2 = Ok (snd (fst e))).
  { destruct (find_key (createCacheKey arg1 arg2) (entries c)) as [e|] eqn:Ef.
    - destruct (find_key_In _ _ _ Ef) as [Hin _].
      destruct (expired now_get (snd e)); destruct Hget as [_ ->];
        intros e' He'.
      + apply Hsound. now apply In_remove_key in He'.
      + destruct He' as [<-|He']; [now apply Hsound|].
        apply Hsound. now apply In_remove_key in He'.
    - injection Hget as _ <-. exact Hsound. }
  destruct hit as [v|].
  - (* a hit: the value of the entry with this key *)
    split; [split; assumption|].
    destruct (find_key (createCacheKey arg1 arg2) (entries c)) as [e|] eqn:Ef;
      [|discriminate].
    destruct (find_key_In _ _ _ Ef) as [Hin Hk].
    destruct (expired now_get (snd e)); destruct Hget as [Hv _];
      [discriminate|].
    injection Hv as ->.
    destruct (Hsound e Hin) as (a1 & a2 & Hkey & Hval).
    exists a1, a2. split; [congruence|]. now rewrite Hval.
  - destruct (originalMethod arg1 arg2) as [result|err] eqn:Eo; cbn [fst snd].
    + split; [|exists arg1, arg2; auto].
      destruct Hok as (refs1 & Hrepr1).
      destruct (set_repr V now_set (createCacheKey arg1 arg2) result
                  (ttl options) c1 refs1 Hrepr1) as (Hok2 & _ & Hent).
      split; [assumption|]. intros e He. rewrite Hent in He.
      destruct He as [<-|He].
      * exists arg1, arg2. auto.
      * apply Hsound1.
        destruct (find_key _ (entries c1)); [now apply In_remove_key in He|].
        destruct (_ <=? _)%Z; [now apply In_removelast|assumption].
    + split; [split; assumption|]. exists arg1, arg2. auto.
Qed.

Lemma cleanup_sound now c :
  sound c -> sound (snd (LRU.cleanupExpired now c)).
Proof.
  intros ((refs & Hrepr) & Hsound).
  destruct (cleanupExpired_repr V now c refs Hrepr) as (Hok & _ & Hent & _).
  split; [assumption|]. intros e He. rewrite Hent in He.
  apply filter_In in He as [He _]. now apply Hsound.
Qed.

Lemma run_cached_sound events :
  sound (run_cached options originalMethod events).
Proof.
  unfold run_cached.
  assert (G : forall c, sound c ->
    sound (fold_left (run_event options originalMethod) events c)).
  { induction events as [|ev events IH]; intros c Hc; [assumption|].
    cbn [fold_left]. apply IH. destruct ev as [ng ns a1 a2|now].
    - now apply cached_sound.
    - now apply cleanup_sound. }
  apply G. split.
  - exists []. apply new_repr.
  - intros e. unfold new_cache. rewrite (entries_nil V _ (new_repr V _)).
    intros [].
Qed.

End Memo.

(** The condition on the arguments is needed: with a NUL in them two
    pairs of arguments can have one key, and the second call then
    returns what the method returned for the first. *)
Example createCacheKey_collision :
  createCacheKey "a" (String Ascii.zero "b") =
  createCacheKey (String "a" (String Ascii.zero "")) "b" /\
  fst (cached default_options first_argument 1 1
         "a" (String Ascii.zero "b")
         (run_cached default_options first_argument
            [Call 0 0 (String "a" (String Ascii.zero "")) "b"])) =
  Ok (String "a" (String Ascii.zero "")).
Proof. split; reflexivity. Qed.

End MemoFacts.

Import MetricFacts TokenFacts TokenOrderFacts HeapOrderFacts SelectionFacts.
Import BestMatchFacts ProcessorFacts ScorerLayerFacts Processor.

(** * Further properties of the code *)

(** ** src/core/levenshtein.ts *)

(** X1: [levenshteinDistance] is a metric on strings: it is symmetric, it
    is 0 exactly between equal strings, and the distance from [a] to [c]
    is at most the distance from [a] to [b] plus that from [b] to [c]. *)
Theorem levenshteinDistance_is_metric (a b c : string) :
  exists dab dba dbc dac,
    levenshteinDistance a b = Ok dab /\ levenshteinDistance b a = Ok dba /\
    levenshteinDistance b c = Ok dbc /\ levenshteinDistance a c = Ok dac /\
    dab = dba /\ (dab = 0 <-> a = b) /\ dac <= dab + dbc.
Proof.
  rewrite !levenshteinDistance_lev.
  exists (lev (chars a) (chars b)), (lev (chars b) (chars a)),
         (lev (chars b) (chars c)), (lev (chars a) (chars c)).
  repeat (split; [reflexivity|]). split; [apply lev_sym|]. split; [split|].
  - intros H. now apply chars_inj, lev_eq_0.
  - intros ->. apply lev_refl.
  - apply lev_minimal, (edits_app _ _ (chars b)); apply lev_edits.
Qed.

(** X2: the distance is at least the difference of the two lengths and at
    most the greater length. *)
Theorem levenshteinDistance_length_bounds (a b : string) :
  exists d,
    levenshteinDistance a b = Ok d /\
    String.length a <= String.length b + d /\
    String.length b <= String.length a + d /\
    d <= Nat.max (String.length a) (String.length b).
Proof.
  rewrite levenshteinDistance_lev. eexists. split; [reflexivity|].
  rewrite <- !length_chars.
  pose proof (align_lengths _ _ _ (align_lev (chars a) (chars b))) as [H1 H2].
  split; [exact H1|]. split; [exact H2|]. apply lev_le_max.
Qed.

(** X3: [levenshteinRatio] returns a number between 0 and 100, and 100
    exactly for equal strings. *)
Theorem levenshteinRatio_range (a b : string) :
  exists r,
    levenshteinRatio a b = Ok r /\ (0 <= r <= 100)%Q /\
    ((r == 100)%Q <-> a = b).
Proof.
  destruct (levenshteinRatio_total a b) as (r & Hr & Hb).
  exists r. split; [assumption|]. split; [assumption|]. split.
  - now apply (levenshteinRatio_100 a b r).
  - intros ->. rewrite levenshteinRatio_refl in Hr. injection Hr as <-.
    reflexivity.
Qed.

(** ** src/core/partialRatio.ts *)

(** X4: [partialRatio] returns a number between 0 and 100, and 100 exactly
    when both strings are non-empty and the longer contains the shorter:
    no window that differs from the shorter string reaches 100. *)
Theorem partialRatio_100_iff_contains (s1 s2 : string) :
  let shorter :=
    if (String.length s1 <=? String.length s2)%nat then s1 else s2 in
  let longer :=
    if (String.length s2 <? String.length s1)%nat then s1 else s2 in
  exists r,
    partialRatio s1 s2 = Ok r /\ (0 <= r <= 100)%Q /\
    ((r == 100)%Q <->
     String.length s1 <> 0 /\ String.length s2 <> 0 /\
     is_substring shorter longer).
Proof.
  intros shorter longer.
  destruct (partialRatio_total s1 s2) as (r & Hr & Hb).
  exists r. split; [assumption|]. split; [assumption|]. split.
  - intros H100.
    destruct (Nat.eq_dec (String.length s1) 0) as [E1|N1].
    { rewrite partialRatio_empty in Hr by now left.
      injection Hr as <-. lra. }
    destruct (Nat.eq_dec (String.length s2) 0) as [E2|N2].
    { rewrite partialRatio_empty in Hr by now right.
      injection Hr as <-. lra. }
    split; [assumption|]. split; [assumption|].
    destruct (includes longer shorter) eqn:Ei;
      [now apply includes_is_substring|].
    assert (Hno : ~ is_substring shorter longer).
    { intros Hs. apply is_substring_includes in Hs. congruence. }
    destruct (partialRatio_windows s1 s2 N1 N2 Hno)
      as (rs & v & Hrs & Hv & (w & Hw & Evw) & _).
    fold shorter longer in Hrs.
    assert (v = r) by congruence. subst v.
    apply list_elem_of_In, list_elem_of_lookup_1 in Hw as (k & Hk).
    destruct (Forall2_lookup_r _ _ _ _ _ Hrs Hk) as (i & _ & Hi).
    apply (ratio_100_window shorter longer i (String.length shorter) w Hi).
    lra.
  - intros (N1 & N2 & Hsub).
    rewrite (partialRatio_contains s1 s2 N1 N2 Hsub) in Hr.
    injection Hr as <-. reflexivity.
Qed.

(** ** src/core/tokenizer.ts *)

Lemma tokenize_join_witness :
  Forall is_token ["john"%string; ecole] /\
  tokenize (join ["john"%string; ecole]) = Ok ["john"%string; ecole].
Proof.
  assert (H : Forall is_token ["john"%string; ecole])
    by (repeat constructor; discriminate).
  split; [exact H|]. exact (tokenize_join ["john"%string; ecole] H).
Defined.

(** X8: [tokenSet] keeps each token once: the set has no duplicates and
    the same members as the token list. *)
Theorem tokenSet_is_set (tokens : list string) :
  List.NoDup (tokenSet tokens) /\
  forall t, In t (tokenSet tokens) <-> In t tokens.
Proof.
  split; [apply tokenSet_NoDup|]. intros t. unfold tokenSet.
  assert (G : forall acc, In t (fold_left Set_add tokens acc) <->
                          In t acc \/ In t tokens).
  { induction tokens as [|x ts IH]; intros acc; simpl; [tauto|].
    rewrite IH, Set_add_In. intuition. }
  rewrite G. simpl. tauto.
Qed.

(** ** src/core/tokenSortRatio.ts and src/core/tokenSetRatio.ts *)

(** X9: [tokenSortRatio] ignores the order of the words: two strings
    whose token lists are permutations of each other score 100. *)
Theorem tokenSortRatio_ignores_word_order
    (s1 s2 : string) (tokens1 tokens2 : list string) :
  tokenize s1 = Ok tokens1 -> tokenize s2 = Ok tokens2 ->
  Permutation tokens1 tokens2 -> tokenSortRatio s1 s2 = Ok 100%Q.
Proof.
  intros E1 E2 HP. unfold tokenSortRatio. rewrite E1, E2, !bind_Ok.
  rewrite <- (Permutation_length HP).
  destruct (length tokens1 =? 0)%nat; [reflexivity|]. cbn [andb orb].
  cbv zeta. rewrite (sortTokens_perm _ _ HP). now rewrite String.eqb_refl.
Qed.

Lemma tokenSortRatio_ignores_word_order_witness :
  tokenSortRatio "John Smith" "smith john" = Ok 100%Q.
Proof.
  apply (tokenSortRatio_ignores_word_order "John Smith" "smith john"
           ["john"; "smith"]%string ["smith"; "john"]%string).
  - reflexivity.
  - reflexivity.
  - apply perm_swap.
Defined.

Lemma tokenSetRatio_disjoint_witness :
  tokenSetRatio "apple pie" "Banana-split" = Ok 0%Q.
Proof.
  apply (tokenSetRatio_disjoint "apple pie" "Banana-split"
           ["apple"; "pie"]%string ["banana"; "split"]%string).
  - reflexivity.
  - reflexivity.
  - discriminate.
  - discriminate.
  - intros t [<-|[<-|[]]] [H|[H|[]]]; discriminate.
Defined.

(** X11: [tokenSetRatio] ignores order and repetition: two strings with
    the same set of tokens, at least one, score 100. *)
Theorem tokenSetRatio_same_tokens
    (s1 s2 : string) (tokens1 tokens2 : list string) :
  tokenize s1 = Ok tokens1 -> tokenize s2 = Ok tokens2 ->
  tokens1 <> [] -> (forall t, In t tokens1 <-> In t tokens2) ->
  exists r, tokenSetRatio s1 s2 = Ok r /\ (r == 100)%Q.
Proof.
  intros E1 E2 N1 Hsame.
  destruct (tokenSetRatio_total s1 s2) as (r & Hr & _).
  exists r. split; [assumption|].
  destruct (tokenSetRatio_same_set s1 s2 tokens1 tokens2 E1 E2 N1 Hsame)
    as (r' & Hr' & H100).
  assert (r = r') by congruence. now subst.
Qed.

Lemma tokenSetRatio_same_tokens_witness :
  exists r, tokenSetRatio "new york new" "York new" = Ok r /\ (r == 100)%Q.
Proof.
  apply (tokenSetRatio_same_tokens "new york new" "York new"
           ["new"; "york"; "new"]%string ["york"; "new"]%string).
  - reflexivity.
  - reflexivity.
  - discriminate.
  - intros t. simpl. tauto.
Defined.

(** ** The five scorers of src/core *)

(** X12: every scorer of the core returns, without raising, a number
    between 0 and 100. *)
Theorem scorers_stay_in_range (s1 s2 : string) :
  (exists r, levenshteinRatio s1 s2 = Ok r /\ (0 <= r <= 100)%Q) /\
  (exists r, partialRatio s1 s2 = Ok r /\ (0 <= r <= 100)%Q) /\
  (exists r, tokenSortRatio s1 s2 = Ok r /\ (0 <= r <= 100)%Q) /\
  (exists r, tokenSetRatio s1 s2 = Ok r /\ (0 <= r <= 100)%Q) /\
  (exists r, weightedRatio s1 s2 = Ok r /\ (0 <= r <= 100)%Q).
Proof.
  split; [apply levenshteinRatio_total|].
  split; [apply partialRatio_total|].
  split; [apply tokenSortRatio_total|].
  split; [apply tokenSetRatio_total|].
  apply weightedRatio_bounds.
Qed.

(** ** class MinHeap of src/types.ts *)

(** X13: [push] keeps the heap a min-heap within its capacity: afterwards
    no element scores below its parent, there are at most [size]
    elements, and the root scores least. *)
Theorem push_keeps_heap (h : MinHeap) (r : ExtractResult) :
  (0 < size h)%Z -> is_heap (heap h) ->
  (Z.of_nat (length (heap h)) <= size h)%Z ->
  is_heap (heap (push h r)) /\
  (Z.of_nat (length (heap (push h r))) <= size (push h r))%Z /\
  forall root x, heap (push h r) !! 0%nat = Some root ->
    In x (heap (push h r)) -> (score root <= score x)%Q.
Proof.
  intros Hsize Hh Hlen.
  pose proof (push_heap h r Hh) as Hh'.
  split; [assumption|]. split.
  - rewrite push_size, push_length by assumption.
    destruct (Z.ltb_spec (Z.of_nat (length (heap h))) (size h)); lia.
  - intros root x Hroot Hx.
    apply list_elem_of_In, list_elem_of_lookup_1 in Hx as (i & Hi).
    now apply (heap_root_min _ root Hh' Hroot i x).
Qed.

Lemma push_keeps_heap_witness :
  is_heap (heap (push (mkHeap [mkResult "a" 50] 1) (mkResult "b" 70))) /\
  (Z.of_nat (length (heap (push (mkHeap [mkResult "a" 50] 1)
                                (mkResult "b" 70))))
   <= size (push (mkHeap [mkResult "a" 50] 1) (mkResult "b" 70)))%Z /\
  forall root x,
    heap (push (mkHeap [mkResult "a" 50] 1) (mkResult "b" 70)) !! 0%nat
      = Some root ->
    In x (heap (push (mkHeap [mkResult "a" 50] 1) (mkResult "b" 70))) ->
    (score root <= score x)%Q.
Proof.
  apply (push_keeps_heap (mkHeap [mkResult "a" 50] 1) (mkResult "b" 70)).
  - reflexivity.
  - intros [|i] x p Hi Hx Hp; [lia|discriminate].
  - simpl. lia.
Defined.

(** X14: a heap of capacity [limit] that was pushed [items] holds the
    [limit] best of them: it has [min(|items|, limit)] elements, and
    every item it let go of scores no higher than any it holds. *)
Theorem heap_keeps_best (limit : Z) (items : list ExtractResult) :
  (0 < limit)%Z ->
  exists dropped,
    is_heap (heap (fold_left push items (mkHeap [] limit))) /\
    Z.of_nat (length (heap (fold_left push items (mkHeap [] limit)))) =
      Z.min (Z.of_nat (length items)) limit /\
    Permutation (heap (fold_left push items (mkHeap [] limit)) ++ dropped)
                items /\
    keeps_best (heap (fold_left push items (mkHeap [] limit))) dropped.
Proof.
  intros Hlimit.
  assert (G : let h := fold_left push items (mkHeap [] limit) in
    size h = limit /\ is_heap (heap h) /\
    Z.of_nat (length (heap h)) = Z.min (Z.of_nat (length items)) limit /\
    exists dropped, Permutation (heap h ++ dropped) items /\
      keeps_best (heap h) dropped /\
      ((Z.of_nat (length (heap h)) < limit)%Z -> dropped = [])).
  { induction items as [|r items IH] using rev_ind.
    - cbn. split; [reflexivity|]. split; [apply is_heap_nil|].
      split; [lia|]. exists []. split; [reflexivity|].
      split; [intros d x []|reflexivity].
    - rewrite fold_left_app. cbn [fold_left].
      set (h := fold_left push items (mkHeap [] limit)) in *.
      destruct IH as (Hs & Hh & Hl & Hbest). cbv zeta.
      split; [now rewrite push_size|]. split; [now apply push_heap|]. split.
      + rewrite push_length, Hs, length_app by lia. cbn [length].
        destruct (Z.ltb_spec (Z.of_nat (length (heap h))) limit); lia.
      + now apply push_best. }
  destruct G as (_ & Hh & Hl & dropped & Hperm & Hbest & _).
  exists dropped. auto.
Qed.

Lemma heap_keeps_best_witness :
  exists dropped,
    is_heap (heap (fold_left push
      [mkResult "a" 50; mkResult "b" 70; mkResult "c" 60]
      (mkHeap [] 2))) /\
    Z.of_nat (length (heap (fold_left push
      [mkResult "a" 50; mkResult "b" 70; mkResult "c" 60]
      (mkHeap [] 2)))) =
      Z.min (Z.of_nat (length
        [mkResult "a" 50; mkResult "b" 70; mkResult "c" 60])) 2 /\
    Permutation (heap (fold_left push
      [mkResult "a" 50; mkResult "b" 70; mkResult "c" 60]
      (mkHeap [] 2)) ++ dropped)
      [mkResult "a" 50; mkResult "b" 70; mkResult "c" 60] /\
    keeps_best (heap (fold_left push
      [mkResult "a" 50; mkResult "b" 70; mkResult "c" 60]
      (mkHeap [] 2))) dropped.
Proof.
  apply (heap_keeps_best 2
           [mkResult "a" 50; mkResult "b" 70; mkResult "c" 60]).
  reflexivity.
Defined.

(** ** extract of src/types.ts *)

Lemma extract_members_witness :
  Forall (is_scored "apple" ["banana"; "apple"; "grape"]%string (exact_or 40))
         [mkResult "apple" 100; mkResult "banana" 40].
Proof.
  apply (extract_members insertion_sort ascii_localeCompare "apple"
           ["banana"; "apple"; "grape"]%string (exact_or 40) 2).
  vm_compute. reflexivity.
Defined.

Lemma extract_heap_tier_witness :
  exists results rest,
    extract insertion_sort ascii_localeCompare "apple"
      ["banana"; "apple"; "grape"]%string (exact_or 40) 1 = Ok results /\
    length results = Z.to_nat 1 /\
    Permutation (results ++ rest)
      (scored (fun c => if String.eqb "apple" c then 100%Q else 40%Q)
              ["banana"; "apple"; "grape"]%string) /\
    keeps_best results rest.
Proof.
  apply (extract_heap_tier insertion_sort ascii_localeCompare "apple"
           ["banana"; "apple"; "grape"]%string (exact_or 40)
           (fun c => if String.eqb "apple" c then 100%Q else 40%Q) 1).
  - intros c _. reflexivity.
  - intros c _. destruct (String.eqb "apple" c); unfold Qle; simpl; lia.
  - reflexivity.
  - reflexivity.
  - discriminate.
Defined.

Lemma extract_all_witness :
  exists results,
    extract insertion_sort ascii_localeCompare "apple"
      ["banana"; "apple"; "grape"]%string (exact_or 40) 5 = Ok results /\
    Permutation results
      (scored (fun c => if String.eqb "apple" c then 100%Q else 40%Q)
              ["banana"; "apple"; "grape"]%string).
Proof.
  apply (extract_all insertion_sort ascii_localeCompare "apple"
           ["banana"; "apple"; "grape"]%string (exact_or 40)
           (fun c => if String.eqb "apple" c then 100%Q else 40%Q) 5).
  - intros c _. reflexivity.
  - discriminate.
Defined.

(** ** extractOne of src/unnamed/part_003 *)

Lemma extractOne_members_witness :
  is_scored "apple" ["banana"; "apple"; "grape"]%string (exact_or 40)
            (mkResult "apple" 100) /\ True.
Proof.
  split; [|exact I].
  apply (extractOne_members "apple" ["banana"; "apple"; "grape"]%string
           (exact_or 40) (fun _ => 0%Q) (mkResult "apple" 100)).
  reflexivity.
Defined.

Lemma extractOne_exhaustive_witness :
  exists r i,
    extractOne (fun _ => 0%Q) "pear" ["banana"; "apple"; "grape"]%string
      (pure_scorer (fun _ c => Qnat (String.length c))) = Ok (Some r) /\
    first_best (fun c => Qnat (String.length c))
               ["banana"; "apple"; "grape"]%string i r.
Proof.
  apply (extractOne_exhaustive "pear" ["banana"; "apple"; "grape"]%string
           (pure_scorer (fun _ c => Qnat (String.length c)))
           (fun c => Qnat (String.length c))).
  - intros c _. reflexivity.
  - intros c [<-|[<-|[<-|[]]]]; unfold Qle; simpl; lia.
  - discriminate.
  - simpl. lia.
Defined.

(** ** src/utils/processor.ts *)

(** X21: [defaultProcessor] puts a string in a normal form: the result is
    the lower-cased input less a prefix and a suffix of white space; it
    neither starts nor ends with white space, has no upper-case letter,
    and processing it again changes nothing. *)
Theorem defaultProcessor_normal_form (str : string) :
  (exists pre post,
     toLowerCase str =
       String.append pre (String.append (defaultProcessor str) post) /\
     all_whitespace pre /\ all_whitespace post) /\
  no_outer_whitespace (defaultProcessor str) /\
  toLowerCase (defaultProcessor str) = defaultProcessor str /\
  defaultProcessor (defaultProcessor str) = defaultProcessor str.
Proof.
  split; [apply trim_spec|]. split; [apply trim_no_outer_whitespace|].
  assert (Hlower : toLowerCase (defaultProcessor str) = defaultProcessor str).
  { unfold defaultProcessor. now rewrite toLowerCase_trim, toLowerCase_idem. }
  split; [assumption|].
  unfold defaultProcessor at 1. rewrite Hlower.
  apply trim_fixed, trim_no_outer_whitespace.
Qed.

(** ** src/scorers *)

Lemma layer_equal_processed_witness :
  defaultProcessor (String.append "  " Ecole) = defaultProcessor ecole /\
  Scorers.ratio (String.append "  " Ecole) ecole None = Ok 100%Q /\
  Scorers.tokenSortRatio (String.append "  " Ecole) ecole None = Ok 100%Q /\
  (exists r, Scorers.tokenSetRatio (String.append "  " Ecole) ecole None =
               Ok r /\ (r == 100)%Q) /\
  Scorers.WRatio (String.append "  " Ecole) ecole None = Ok 100%Q /\
  Scorers.partialRatio (String.append "  " Ecole) ecole None =
    Ok (if (String.length (defaultProcessor (String.append "  " Ecole))
            =? 0)%nat
        then 0%Q else 100%Q).
Proof.
  split; [reflexivity|].
  apply (layer_equal_processed (String.append "  " Ecole) ecole).
  reflexivity.
Defined.

(** X23: with the default processor, [ratio] of the scorers layer returns
    a number between 0 and 100, and 100 exactly for two strings that are
    equal once lower-cased and trimmed. *)
Theorem ratio_100_iff_equal_processed (s1 s2 : string) :
  exists r,
    Scorers.ratio s1 s2 None = Ok r /\ (0 <= r <= 100)%Q /\
    ((r == 100)%Q <-> defaultProcessor s1 = defaultProcessor s2).
Proof.
  unfold Scorers.ratio, Scorers.or_default. cbv zeta. rewrite !bind_Ok.
  destruct (levenshteinRatio_total (defaultProcessor s1)
              (defaultProcessor s2)) as (r & Hr & Hb).
  exists r. split; [assumption|]. split; [assumption|]. split.
  - now apply (levenshteinRatio_100 _ _ r).
  - intros E. rewrite E, levenshteinRatio_refl in Hr. injection Hr as <-.
    reflexivity.
Qed.

(** ** src/builders/scorerBuilder.ts *)

Lemma createScorer_clamps_witness :
  exists v,
    ScorerBuilder.createScorer
      (ScorerBuilder.mkConfig (Some ScorerBuilder.simple) None
                              (Some 20%Q) (Some 80%Q))
      "kitten"%string "Kitten "%string = Ok v /\
    ((default 0 (Some 20%Q) <= default 100 (Some 80%Q))%Q ->
     (default 0 (Some 20%Q) <= v <= default 100 (Some 80%Q))%Q) /\
    ((default 100 (Some 80%Q) < default 0 (Some 20%Q))%Q ->
     (v == default 0 (Some 20%Q))%Q).
Proof.
  apply (createScorer_clamps
           (ScorerBuilder.mkConfig (Some ScorerBuilder.simple) None
                                   (Some 20%Q) (Some 80%Q))
           "kitten"%string "Kitten "%string).
  intros s. eexists. reflexivity.
Defined.

(** X25: a scorer built without bounds of its own is the function of the
    scorers layer for the chosen algorithm ([WRatio] when none is
    chosen), with the same processor; this holds for [createScorer] and
    for the builder, whose [build] passes its fields on. *)
Theorem builder_builds_layer_scorer
    (a : option ScorerBuilder.Algorithm) (p : ProcessorFunction)
    (s1 s2 : string) :
  same_result
    (ScorerBuilder.createScorer (ScorerBuilder.mkConfig a None None None)
       s1 s2)
    (scorer_of (default ScorerBuilder.weighted a) s1 s2 None) /\
  same_result
    (ScorerBuilder.build
       (ScorerBuilder.withAlgorithm a ScorerBuilder.scorerBuilder) s1 s2)
    (scorer_of (default ScorerBuilder.weighted a) s1 s2 None) /\
  same_result
    (ScorerBuilder.build
       (ScorerBuilder.withProcessor p
          (ScorerBuilder.withAlgorithm a ScorerBuilder.scorerBuilder))
       s1 s2)
    (scorer_of (default ScorerBuilder.weighted a) s1 s2 (Some p)).
Proof.
  split; [apply createScorer_layer|]. split.
  - exact (createScorer_layer a None s1 s2).
  - exact (createScorer_layer a (Some p) s1 s2).
Qed.

(** ** src/utils/lruCache.ts *)

Import LinkFacts CacheFacts MemoFacts LRUSpec.

(** The links of [cache_a_b] run through its two nodes. *)
Lemma cache_a_b_ok : lru_ok cache_a_b.
Proof.
  exists [1; 0]%nat. split; [|split; [|split]].
  - eapply seg_cons; [reflexivity|reflexivity|].
    eapply seg_cons; [reflexivity|reflexivity|]. apply seg_nil.
  - repeat constructor; cbn; intuition discriminate.
  - repeat constructor; cbn; intuition discriminate.
  - intros k r. cbn. split.
    + intros [[= <- <-]|[[= <- <-]|[]]]; cbn; auto.
    + intros [[<-|[<-|[]]] [= <-]]; [right; left|left]; reflexivity.
Qed.

(** X26: [get] on a cache whose links are in order.  A key that is not in
    the cache gives [undefined] and leaves the cache as it is; an entry
    that expired before [now] gives [undefined] and is removed; any other
    entry gives its value and becomes the most recently used, the order
    of the others unchanged.  The links are in order afterwards. *)
Theorem LRUCache_get_spec (V : Type) (now : Z) (key : string)
    (c : LRU.LRUCache V) :
  lru_ok c ->
  lru_ok (snd (LRU.get now key c)) /\
  match find_key key (entries c) with
  | None => LRU.get now key c = (None, c)
  | Some e =>
      if expired now (snd e)
      then fst (LRU.get now key c) = None /\
           entries (snd (LRU.get now key c)) = remove_key key (entries c)
      else fst (LRU.get now key c) = Some (snd (fst e)) /\
           entries (snd (LRU.get now key c)) =
           e :: remove_key key (entries c)
  end.
Proof.
  intros (refs & Hrepr).
  destruct (get_repr V now key c refs Hrepr) as (Hok & _ & _ & Hget).
  split; assumption.
Qed.

Lemma LRUCache_get_spec_witness :
  lru_ok cache_a_b /\
  lru_ok (snd (LRU.get 5 "a" cache_a_b)) /\
  fst (LRU.get 5 "a" cache_a_b) = Some 1%nat /\
  entries (snd (LRU.get 5 "a" cache_a_b)) =
  [("a"%string, 1%nat, None); ("b"%string, 2%nat, Some 10%Z)].
Proof.
  split; [exact cache_a_b_ok|].
  exact (LRUCache_get_spec nat 5 "a" cache_a_b cache_a_b_ok).
Defined.

(** X27: [set] on a cache whose links are in order puts the key with the
    value, expiring [ttl] after [now] if a [ttl] is given, in front as the
    most recently used entry.  An entry with the same key is replaced;
    for a new key the least recently used entry is dropped when the cache
    already holds [capacity] entries or more; the other entries keep
    their order.  The links are in order afterwards. *)
Theorem LRUCache_set_spec (V : Type) (now : Z) (key : string) (value : V)
    (ttl : option Z) (c : LRU.LRUCache V) :
  lru_ok c ->
  lru_ok (LRU.set now key value ttl c) /\
  entries (LRU.set now key value ttl c) =
  (key, value, (fun ttl => (now + ttl)%Z) <$> ttl) ::
  match find_key key (entries c) with
  | Some _ => remove_key key (entries c)
  | None =>
      if (LRU.capacity c <=? Z.of_nat (length (entries c)))%Z
      then removelast (entries c)
      else entries c
  end.
Proof.
  intros (refs & Hrepr).
  destruct (set_repr V now key value ttl c refs Hrepr) as (Hok & _ & Hent).
  split; [assumption|]. rewrite Hent. now destruct ttl.
Qed.

Lemma LRUCache_set_spec_witness :
  lru_ok cache_a_b /\
  lru_ok (LRU.set 5 "c" 3%nat (Some 7%Z) cache_a_b) /\
  entries (LRU.set 5 "c" 3%nat (Some 7%Z) cache_a_b) =
  [("c"%string, 3%nat, Some 12%Z); ("b"%string, 2%nat, Some 10%Z)].
Proof.
  split; [exact cache_a_b_ok|].
  exact (LRUCache_set_spec nat 5 "c" 3%nat (Some 7%Z) cache_a_b
           cache_a_b_ok).
Defined.

(** X28: the removals, on a cache whose links are in order.  [delete]
    removes the entry of the key and returns whether there was one;
    [cleanupExpired] removes exactly the entries that expired before
    [now] and returns their number; [clear] removes every entry.  The
    entries that stay keep their order, and the links are in order
    afterwards. *)
Theorem LRUCache_removals (V : Type) (now : Z) (key : string)
    (c : LRU.LRUCache V) :
  lru_ok c ->
  (lru_ok (snd (LRU.delete key c)) /\
   entries (snd (LRU.delete key c)) = remove_key key (entries c) /\
   fst (LRU.delete key c) = bool_decide (is_Some (find_key key (entries c)))) /\
  (lru_ok (snd (LRU.cleanupExpired now c)) /\
   entries (snd (LRU.cleanupExpired now c)) =
   List.filter (fun e => negb (expired now (snd e))) (entries c) /\
   fst (LRU.cleanupExpired now c) =
   length (List.filter (fun e => expired now (snd e)) (entries c))) /\
  (lru_ok (LRU.clear c) /\ entries (LRU.clear c) = []).
Proof.
  intros (refs & Hrepr). split; [|split].
  - destruct (delete_repr V key c refs Hrepr) as (Hok & _ & Hent & Hres).
    split; [assumption|]. split; [assumption|]. rewrite Hres.
    destruct (find_key key (entries c)); reflexivity.
  - destruct (cleanupExpired_repr V now c refs Hrepr)
      as (Hok & _ & Hent & Hres).
    split; [assumption|]. split; assumption.
  - split; [exists []; apply clear_repr|].
    exact (entries_nil V _ (clear_repr V c)).
Qed.

Lemma LRUCache_removals_witness :
  lru_ok cache_a_b /\
  (lru_ok (snd (LRU.delete "a" cache_a_b)) /\
   entries (snd (LRU.delete "a" cache_a_b)) =
   [("b"%string, 2%nat, Some 10%Z)] /\
   fst (LRU.delete "a" cache_a_b) = true) /\
  (lru_ok (snd (LRU.cleanupExpired 11 cache_a_b)) /\
   entries (snd (LRU.cleanupExpired 11 cache_a_b)) =
   [("a"%string, 1%nat, None)] /\
   fst (LRU.cleanupExpired 11 cache_a_b) = 1%nat) /\
  (lru_ok (LRU.clear cache_a_b) /\ entries (LRU.clear cache_a_b) = []).
Proof.
  split; [exact cache_a_b_ok|].
  exact (LRUCache_removals nat 11 "a" cache_a_b cache_a_b_ok).
Defined.


(** ** src/unnamed/part_005 *)

(** X30: a method of two strings under the [Cache] decorator, whose
    result depends on the two strings only, returns for arguments
    without a NUL character what the method itself returns for them,
    whatever calls and timed cleanups came before and whenever they
    came. *)
Theorem Cache_returns_method_result (V : Type)
    (options : CacheDecorator.CacheOptions)
    (originalMethod : string -> string -> result V)
    (events : list cache_event) (now_get now_set : Z)
    (arg1 arg2 : string) :
  nul_free arg1 -> nul_free arg2 ->
  fst (CacheDecorator.cached options originalMethod now_get now_set
         arg1 arg2 (run_cached options originalMethod events)) =
  originalMethod arg1 arg2.
Proof.
  intros H1 H2.
  destruct (cached_sound V options originalMethod now_get now_set arg1 arg2
              _ (run_cached_sound V options originalMethod events))
    as (_ & a1 & a2 & Hkey & ->).
  now destruct (createCacheKey_inj a1 a2 arg1 arg2 H1 H2 Hkey) as [-> ->].
Qed.

Lemma Cache_returns_method_result_witness :
  nul_free "kitten" /\ nul_free "sitting" /\
  fst (CacheDecorator.cached default_options first_argument 3 4
         "kitten" "sitting"
         (run_cached default_options first_argument earlier_events)) =
  first_argument "kitten" "sitting".
Proof.
  assert (H1 : nul_free "kitten") by (cbn; repeat split; discriminate).
  assert (H2 : nul_free "sitting") by (cbn; repeat split; discriminate).
  split; [exact H1|]. split; [exact H2|].
  exact (Cache_returns_method_result string default_options first_argument
           earlier_events 3 4 "kitten" "sitting" H1 H2).
Defined.
